(** * Rewrite-rule based simplification (src/arith/rewrite_simplify.cc)

    A shallow embedding of TVM's [RewriteSimplifier]: the expression IR it
    walks, the pattern language its rules are written in, the per-opcode
    visitors with their rule tables in source order, the comparison engine,
    the boolean normaliser, the constraint stack and the public driver.

    State is threaded explicitly (the literal-constraint stack, the variable
    map, the recursion depth and the borrowed analyzer).  A failed [ICHECK],
    [LOG(FATAL)] or C++ undefined behaviour (integer division by zero) is the
    result [Trap]; the recursion of the mutator is bounded by a fuel argument
    and running out of it is the result [OutOfFuel].

    The statistics counters ([stats_], [RecordAttemptedRewrite],
    [RecordRewrite]) are write-only bookkeeping with the default unlimited
    rewrite budget; they are left out.

    The module [ReductionDecomposition] at the end of the definitions embeds
    [handle_reduction_decomposition] of src/test_fix_logic.cpp. *)

From Stdlib Require Import ZArith List String Bool Lia.
From Stdlib Require Import Floats Uint63.
Import ListNotations.
Local Open Scope Z_scope.

Set Implicit Arguments.

(** ** Data types (runtime/data_type.h is outside the sources; only the
    queries the simplifier uses are modelled) *)

Inductive TypeCode :=
| kInt | kUInt | kFloat | kHandle | kBFloat | kCustom (c : Z).

Record DataType := mkDataType { code : TypeCode; bits : Z; lanes : Z }.

Definition TypeCode_eqb (a b : TypeCode) : bool :=
  match a, b with
  | kInt, kInt | kUInt, kUInt | kFloat, kFloat
  | kHandle, kHandle | kBFloat, kBFloat => true
  | kCustom x, kCustom y => x =? y
  | _, _ => false
  end.

Definition DataType_eqb (a b : DataType) : bool :=
  TypeCode_eqb (code a) (code b) && (bits a =? bits b) && (lanes a =? lanes b).

Definition Int (b : Z) : DataType := mkDataType kInt b 1.
Definition UInt (b : Z) : DataType := mkDataType kUInt b 1.
Definition Float (b : Z) : DataType := mkDataType kFloat b 1.
Definition Bool : DataType := mkDataType kUInt 1 1.
Definition int32 := Int 32.
Definition int64 := Int 64.

Definition is_int (t : DataType) : bool :=
  match code t with kInt => true | _ => false end.
Definition is_uint (t : DataType) : bool :=
  match code t with kUInt => true | _ => false end.
Definition is_float (t : DataType) : bool :=
  match code t with kFloat => true | _ => false end.
Definition is_bfloat16 (t : DataType) : bool :=
  match code t with kBFloat => bits t =? 16 | _ => false end.
Definition is_bool (t : DataType) : bool := is_uint t && (bits t =? 1).

(** A fixed-length vector has more than one lane; a scalable one stores the
    negated vscale factor. *)
Definition is_scalable_or_fixed_length_vector (t : DataType) : bool :=
  (1 <? lanes t) || (lanes t <? -1).

Definition with_lanes (t : DataType) (l : Z) : DataType :=
  mkDataType (code t) (bits t) l.

(** Modelled from the spec: [IsIndexType] is declared in rewrite_simplify.h,
    which is outside the sources: "integer, non-vector, width <= the platform
    index width" (64 bits). *)
Definition IsIndexType (t : DataType) : bool :=
  is_int t && negb (is_scalable_or_fixed_length_vector t) && (bits t <=? 64).

(** ** Expressions *)

Inductive BinOp :=
| OAdd | OSub | OMul | ODiv | OMod | OFloorDiv | OFloorMod | OMin | OMax
| OEQ | ONE | OLT | OLE | OGT | OGE | OAnd | OOr.

Definition BinOp_eqb (a b : BinOp) : bool :=
  match a, b with
  | OAdd, OAdd | OSub, OSub | OMul, OMul | ODiv, ODiv | OMod, OMod
  | OFloorDiv, OFloorDiv | OFloorMod, OFloorMod | OMin, OMin | OMax, OMax
  | OEQ, OEQ | ONE, ONE | OLT, OLT | OLE, OLE | OGT, OGT | OGE, OGE
  | OAnd, OAnd | OOr, OOr => true
  | _, _ => false
  end.

(** A variable is identified by its object in the source; here by its name
    and type, distinct variables carrying distinct names. *)
Record Var_ := mkVar { name_hint : string; var_dtype : DataType }.

Definition Var_eqb (a b : Var_) : bool :=
  String.eqb (name_hint a) (name_hint b) && DataType_eqb (var_dtype a) (var_dtype b).

#[warnings="-register-all"] Inductive PrimExpr :=
| IntImm (t : DataType) (value : Z)
| FloatImm (t : DataType) (value : float)
| Var (v : Var_)
| Bin (op : BinOp) (a b : PrimExpr)
| Not (a : PrimExpr)
| Select (condition true_value false_value : PrimExpr)
| Ramp (base stride lanes : PrimExpr)
| Broadcast (value lanes : PrimExpr)
| Cast (t : DataType) (value : PrimExpr)
| Let_ (var : Var_) (value body : PrimExpr)
| Call (t : DataType) (op : string) (args : list PrimExpr).

Abbreviation Add := (Bin OAdd).
Abbreviation Sub := (Bin OSub).
Abbreviation Mul := (Bin OMul).
Abbreviation Div := (Bin ODiv).
Abbreviation Mod := (Bin OMod).
Abbreviation FloorDiv := (Bin OFloorDiv).
Abbreviation FloorMod := (Bin OFloorMod).
Abbreviation Min := (Bin OMin).
Abbreviation Max := (Bin OMax).
Abbreviation EQ := (Bin OEQ).
Abbreviation NE := (Bin ONE).
Abbreviation LT := (Bin OLT).
Abbreviation LE := (Bin OLE).
Abbreviation GT := (Bin OGT).
Abbreviation GE := (Bin OGE).
Abbreviation And := (Bin OAnd).
Abbreviation Or := (Bin OOr).

Definition is_compare (op : BinOp) : bool :=
  match op with
  | OEQ | ONE | OLT | OLE | OGT | OGE => true
  | _ => false
  end.

Definition is_logical (op : BinOp) : bool :=
  match op with OAnd | OOr => true | _ => false end.

(** ** Structural recursion helpers and deep equality ([ExprDeepEqual]) *)

Section PrimExpr_ind.
Variable P : PrimExpr -> Prop.
Hypothesis HInt : forall t v, P (IntImm t v).
Hypothesis HFloat : forall t v, P (FloatImm t v).
Hypothesis HVar : forall v, P (Var v).
Hypothesis HBin : forall op a b, P a -> P b -> P (Bin op a b).
Hypothesis HNot : forall a, P a -> P (Not a).
Hypothesis HSelect : forall c t f, P c -> P t -> P f -> P (Select c t f).
Hypothesis HRamp : forall b s l, P b -> P s -> P l -> P (Ramp b s l).
Hypothesis HBroadcast : forall v l, P v -> P l -> P (Broadcast v l).
Hypothesis HCast : forall t v, P v -> P (Cast t v).
Hypothesis HLet : forall x v b, P v -> P b -> P (Let_ x v b).
Hypothesis HCall : forall t op args, Forall P args -> P (Call t op args).

Fixpoint PrimExpr_ind' (e : PrimExpr) : P e :=
  match e with
  | IntImm t v => HInt t v
  | FloatImm t v => HFloat t v
  | Var v => HVar v
  | Bin op a b => HBin op (PrimExpr_ind' a) (PrimExpr_ind' b)
  | Not a => HNot (PrimExpr_ind' a)
  | Select c t f => HSelect (PrimExpr_ind' c) (PrimExpr_ind' t) (PrimExpr_ind' f)
  | Ramp b s l => HRamp (PrimExpr_ind' b) (PrimExpr_ind' s) (PrimExpr_ind' l)
  | Broadcast v l => HBroadcast (PrimExpr_ind' v) (PrimExpr_ind' l)
  | Cast t v => HCast t (PrimExpr_ind' v)
  | Let_ x v b => HLet x (PrimExpr_ind' v) (PrimExpr_ind' b)
  | Call t op args =>
      HCall t op
        ((fix go (l : list PrimExpr) : Forall P l :=
            match l with
            | [] => Forall_nil P
            | x :: r => Forall_cons x (PrimExpr_ind' x) (go r)
            end) args)
  end.
End PrimExpr_ind.

Fixpoint ExprDeepEqual (x y : PrimExpr) {struct x} : bool :=
  match x, y with
  | IntImm t v, IntImm t' v' => DataType_eqb t t' && (v =? v')
  | FloatImm t v, FloatImm t' v' => DataType_eqb t t' && PrimFloat.Leibniz.eqb v v'
  | Var v, Var v' => Var_eqb v v'
  | Bin op a b, Bin op' a' b' =>
      BinOp_eqb op op' && ExprDeepEqual a a' && ExprDeepEqual b b'
  | Not a, Not a' => ExprDeepEqual a a'
  | Select c t f, Select c' t' f' =>
      ExprDeepEqual c c' && ExprDeepEqual t t' && ExprDeepEqual f f'
  | Ramp b s l, Ramp b' s' l' =>
      ExprDeepEqual b b' && ExprDeepEqual s s' && ExprDeepEqual l l'
  | Broadcast v l, Broadcast v' l' => ExprDeepEqual v v' && ExprDeepEqual l l'
  | Cast t v, Cast t' v' => DataType_eqb t t' && ExprDeepEqual v v'
  | Let_ x v b, Let_ x' v' b' =>
      Var_eqb x x' && ExprDeepEqual v v' && ExprDeepEqual b b'
  | Call t op args, Call t' op' args' =>
      DataType_eqb t t' && String.eqb op op' &&
      (fix go (l l' : list PrimExpr) {struct l} : bool :=
         match l, l' with
         | [], [] => true
         | a :: r, a' :: r' => ExprDeepEqual a a' && go r r'
         | _, _ => false
         end) args args'
  | _, _ => false
  end.

(** ** Results of partial computations *)

Inductive Res (A : Type) : Type :=
| Ok (a : A)
| Trap        (* failed ICHECK / LOG(FATAL) / undefined behaviour *)
| OutOfFuel.  (* the recursion bound of the model was reached *)
Arguments Ok {A} a.
Arguments Trap {A}.
Arguments OutOfFuel {A}.

Definition res_bind {A B} (r : Res A) (k : A -> Res B) : Res B :=
  match r with
  | Ok a => k a
  | Trap => Trap
  | OutOfFuel => OutOfFuel
  end.

(** ** Machine integers: [int64_t] arithmetic of the C++ code, with its
    wrap-around written out; division by zero is undefined behaviour. *)

Definition wrap_signed (w : Z) (v : Z) : Z :=
  (v + 2 ^ (w - 1)) mod 2 ^ w - 2 ^ (w - 1).
Definition wrap64 (v : Z) : Z := wrap_signed 64 v.
Definition add64 (a b : Z) : Z := wrap64 (a + b).
Definition sub64 (a b : Z) : Z := wrap64 (a - b).
Definition mul64 (a b : Z) : Z := wrap64 (a * b).
Definition neg64 (a : Z) : Z := wrap64 (- a).
Definition div64 (a b : Z) : Res Z :=
  if b =? 0 then Trap else Ok (wrap64 (Z.quot a b)).
Definition rem64 (a b : Z) : Res Z :=
  if b =? 0 then Trap else Ok (Z.rem a b).

(** [floordiv]/[floormod]/[truncdiv] on [int64_t] (arith/int_operator.h);
    they divide with the C++ operators, so a zero divisor is undefined. *)
Definition truncdiv64 (a b : Z) : Res Z := div64 a b.
Definition truncmod64 (a b : Z) : Res Z := rem64 a b.
Definition floordiv64 (a b : Z) : Res Z :=
  if b =? 0 then Trap else Ok (wrap64 (a / b)).
Definition floormod64 (a b : Z) : Res Z :=
  if b =? 0 then Trap else Ok (a mod b).

(** [ZeroAwareGCD]: gcd(|a|,|b|) with gcd(0,x) = |x| and gcd(0,0) = 0. *)
Definition ZeroAwareGCD (a b : Z) : Z := Z.gcd a b.

(** ** Types of expressions and literal constructors *)

Definition is_vscale (e : PrimExpr) : bool :=
  match e with
  | Call _ op [] => String.eqb op "tir.vscale"
  | _ => false
  end.

(** Modelled from the spec: scalable_expression.h is outside the sources; a
    scalable lane count is a vscale call times an integer literal. *)
Definition ExtractVscaleFactor (lanes : PrimExpr) : option Z :=
  match lanes with
  | Mul (IntImm _ m) v => if is_vscale v then Some m else None
  | Mul v (IntImm _ m) => if is_vscale v then Some m else None
  | _ => None
  end.

Fixpoint ContainsVscaleCall (e : PrimExpr) : bool :=
  match e with
  | IntImm _ _ | FloatImm _ _ | Var _ => false
  | Bin _ a b => ContainsVscaleCall a || ContainsVscaleCall b
  | Not a => ContainsVscaleCall a
  | Select c t f => ContainsVscaleCall c || ContainsVscaleCall t || ContainsVscaleCall f
  | Ramp b s l => ContainsVscaleCall b || ContainsVscaleCall s || ContainsVscaleCall l
  | Broadcast v l => ContainsVscaleCall v || ContainsVscaleCall l
  | Cast _ v => ContainsVscaleCall v
  | Let_ _ v b => ContainsVscaleCall v || ContainsVscaleCall b
  | Call _ op args =>
      String.eqb op "tir.vscale" ||
      (fix go (l : list PrimExpr) : bool :=
         match l with
         | [] => false
         | a :: r => ContainsVscaleCall a || go r
         end) args
  end.

Definition vector_lanes (l : PrimExpr) : Z :=
  match l with
  | IntImm _ v => v
  | _ => match ExtractVscaleFactor l with Some f => - f | None => 0 end
  end.

Fixpoint dtype (e : PrimExpr) : DataType :=
  match e with
  | IntImm t _ => t
  | FloatImm t _ => t
  | Var v => var_dtype v
  | Bin op a _ =>
      if is_compare op || is_logical op
      then with_lanes Bool (lanes (dtype a))
      else dtype a
  | Not a => with_lanes Bool (lanes (dtype a))
  | Select _ t _ => dtype t
  | Ramp b _ l => with_lanes (dtype b) (vector_lanes l)
  | Broadcast v l => with_lanes (dtype v) (vector_lanes l)
  | Cast t _ => t
  | Let_ _ _ b => dtype b
  | Call t _ _ => t
  end.

Definition Z_to_float (v : Z) : float :=
  if v <? 0 then PrimFloat.opp (PrimFloat.of_uint63 (Uint63.of_Z (- v)))
  else PrimFloat.of_uint63 (Uint63.of_Z v).

(** [make_const] (tir/op.h, outside the sources): a literal of the given
    type, broadcast when the type is a vector. *)
Definition MakeConstScalar (t : DataType) (v : Z) : PrimExpr :=
  match code t with
  | kInt | kUInt | kHandle => IntImm t v
  | kFloat | kBFloat | kCustom _ => FloatImm t (Z_to_float v)
  end.

Definition make_const (t : DataType) (v : Z) : PrimExpr :=
  if lanes t =? 1 then MakeConstScalar t v
  else Broadcast (MakeConstScalar (with_lanes t 1) v) (IntImm int32 (lanes t)).

Definition make_zero (t : DataType) : PrimExpr := make_const t 0.
Definition const_true (t : DataType) : PrimExpr := make_const t 1.
Definition const_false (t : DataType) : PrimExpr := make_const t 0.
Definition Integer (v : Z) : PrimExpr := IntImm int32 v.

Definition is_const_int (e : PrimExpr) : bool :=
  match e with
  | IntImm _ _ => true
  | Broadcast (IntImm _ _) _ => true
  | _ => false
  end.

Definition is_const_number (e : PrimExpr) : bool :=
  match e with
  | IntImm _ _ | FloatImm _ _ => true
  | Broadcast (IntImm _ _) _ | Broadcast (FloatImm _ _) _ => true
  | _ => false
  end.

(** ** Constant folding *)

(** Wrap an integer result on the declared width of its type. *)
Definition wrap_dtype (t : DataType) (v : Z) : Z :=
  match code t with
  | kInt => if (0 <? bits t) then wrap_signed (Z.min (bits t) 64) v else v
  | kUInt => if (0 <? bits t) then v mod 2 ^ (Z.min (bits t) 64) else v
  | _ => v
  end.

Definition bool_lit (b : bool) : PrimExpr := IntImm Bool (if b then 1 else 0).

Definition float_min (a b : float) : float := if PrimFloat.ltb b a then b else a.
Definition float_max (a b : float) : float := if PrimFloat.ltb a b then b else a.

(** Modelled from the spec: const_fold.h is outside the sources.
    "[TryConstFold<Op>(a, b)] returns a literal when both operands are
    literals of the same type; honors the op's exact semantics (truncated vs.
    floored division/modulus; integer overflow wraps on the declared width;
    division/mod by zero returns none rather than folding).  Boolean constant
    folds for And/Or/Not/EQ/NE/LT/LE/GT/GE." *)
Definition TryConstFold (op : BinOp) (a b : PrimExpr) : option PrimExpr :=
  match a, b with
  | IntImm ta va, IntImm tb vb =>
      if negb (DataType_eqb ta tb) then None else
      match op with
      | OAdd => Some (IntImm ta (wrap_dtype ta (va + vb)))
      | OSub => Some (IntImm ta (wrap_dtype ta (va - vb)))
      | OMul => Some (IntImm ta (wrap_dtype ta (va * vb)))
      | ODiv => if vb =? 0 then None else Some (IntImm ta (wrap_dtype ta (Z.quot va vb)))
      | OMod => if vb =? 0 then None else Some (IntImm ta (wrap_dtype ta (Z.rem va vb)))
      | OFloorDiv => if vb =? 0 then None else Some (IntImm ta (wrap_dtype ta (va / vb)))
      | OFloorMod => if vb =? 0 then None else Some (IntImm ta (wrap_dtype ta (va mod vb)))
      | OMin => Some (IntImm ta (Z.min va vb))
      | OMax => Some (IntImm ta (Z.max va vb))
      | OEQ => Some (bool_lit (va =? vb))
      | ONE => Some (bool_lit (negb (va =? vb)))
      | OLT => Some (bool_lit (va <? vb))
      | OLE => Some (bool_lit (va <=? vb))
      | OGT => Some (bool_lit (vb <? va))
      | OGE => Some (bool_lit (vb <=? va))
      | OAnd => if is_bool ta then Some (bool_lit (negb (va =? 0) && negb (vb =? 0))) else None
      | OOr => if is_bool ta then Some (bool_lit (negb (va =? 0) || negb (vb =? 0))) else None
      end
  | FloatImm ta va, FloatImm tb vb =>
      if negb (DataType_eqb ta tb) then None else
      match op with
      | OAdd => Some (FloatImm ta (PrimFloat.add va vb))
      | OSub => Some (FloatImm ta (PrimFloat.sub va vb))
      | OMul => Some (FloatImm ta (PrimFloat.mul va vb))
      | ODiv => if PrimFloat.eqb vb PrimFloat.zero then None
                else Some (FloatImm ta (PrimFloat.div va vb))
      | OMin => Some (FloatImm ta (float_min va vb))
      | OMax => Some (FloatImm ta (float_max va vb))
      | OEQ => Some (bool_lit (PrimFloat.eqb va vb))
      | ONE => Some (bool_lit (negb (PrimFloat.eqb va vb)))
      | OLT => Some (bool_lit (PrimFloat.ltb va vb))
      | OLE => Some (bool_lit (PrimFloat.leb va vb))
      | OGT => Some (bool_lit (PrimFloat.ltb vb va))
      | OGE => Some (bool_lit (PrimFloat.leb vb va))
      | _ => None
      end
  | _, _ => None
  end.

Definition TryConstFoldNot (a : PrimExpr) : option PrimExpr :=
  match a with
  | IntImm _ v => Some (bool_lit (v =? 0))
  | _ => None
  end.

(** The operator overloads of tir/op.h and [PBinaryExpr::Eval]: fold when
    possible, otherwise build the node. *)
Definition mk (op : BinOp) (a b : PrimExpr) : PrimExpr :=
  match TryConstFold op a b with
  | Some r => r
  | None => Bin op a b
  end.

Definition mk_not (a : PrimExpr) : PrimExpr :=
  match TryConstFoldNot a with
  | Some r => r
  | None => Not a
  end.

(** Unary minus ([operator-(PrimExpr)]): negate a literal, otherwise
    subtract from zero. *)
Definition mk_neg (a : PrimExpr) : PrimExpr :=
  match a with
  | IntImm t v => IntImm t (wrap_dtype t (- v))
  | FloatImm t v => FloatImm t (PrimFloat.opp v)
  | _ => mk OSub (make_zero (dtype a)) a
  end.

(** The arithmetic operators of tir/op.h on expressions: [BinaryOpMatchTypes]
    brings two integer operands to the wider type (a literal is converted in
    place, any other operand is cast), then the operator folds or builds. *)
Definition cast_int (t : DataType) (e : PrimExpr) : PrimExpr :=
  if DataType_eqb (dtype e) t then e
  else match e with
       | IntImm _ v => IntImm t v
       | _ => Cast t e
       end.

Definition BinaryOpMatchTypes (a b : PrimExpr) : PrimExpr * PrimExpr :=
  let ta := dtype a in
  let tb := dtype b in
  if DataType_eqb ta tb then (a, b)
  else if is_int ta && is_int tb && (lanes ta =? lanes tb) then
    let t := if bits ta <? bits tb then tb else ta in
    (cast_int t a, cast_int t b)
  else (a, b).

Definition op_mk (op : BinOp) (a b : PrimExpr) : PrimExpr :=
  let (a', b') := BinaryOpMatchTypes a b in mk op a' b'.

(** An operator applied to an expression and a C++ integer. *)
Definition op_c (op : BinOp) (a : PrimExpr) (v : Z) : PrimExpr :=
  op_mk op a (make_const (dtype a) v).
Definition c_op (op : BinOp) (v : Z) (b : PrimExpr) : PrimExpr :=
  op_mk op (make_const (dtype b) v) b.

Definition make_const_float (t : DataType) (v : float) : PrimExpr :=
  if lanes t =? 1 then FloatImm t v
  else Broadcast (FloatImm (with_lanes t 1) v) (IntImm int32 (lanes t)).

(** ** The pattern language (arith/pattern_match.h, outside the sources)

    Modelled from the spec: patterns form a tree isomorphic to expression
    nodes plus pattern variables; a variable seen twice must unify with the
    structurally equal value; typed-literal variables refuse to bind to
    non-literals; [Eval] substitutes the bound variables and performs the
    corresponding constructor with eager constant folding. *)

Inductive PVarKind := AnyExpr | IntLit | FloatLit.

Inductive Pattern :=
| PVar (k : PVarKind) (i : nat)
| PConst (e : PrimExpr)                        (* PConst<PrimExpr> *)
| PConstWithTypeLike (ref : Pattern) (v : Z)   (* an integer written in a pattern *)
| PBin (op : BinOp) (a b : Pattern)
| PNot (a : Pattern)
| PSelect (c t f : Pattern)
| PRamp (b s l : Pattern)
| PBroadcast (v l : Pattern).

Definition Env := list (nat * PrimExpr).

Fixpoint env_get (env : Env) (i : nat) : option PrimExpr :=
  match env with
  | [] => None
  | (j, e) :: r => if Nat.eqb i j then Some e else env_get r i
  end.

Definition float_close (a b : float) : bool :=
  PrimFloat.ltb (PrimFloat.abs (PrimFloat.sub b a)) 0x1.79ca10c924223p-67%float.

(** [PVar<T>::Match_]: bind on first sight, compare on the next ones
    ([PEqualChecker]: deep equality for expressions, the value for integer
    literals, closeness for float literals). *)
Definition match_var (k : PVarKind) (i : nat) (e : PrimExpr) (env : Env) : option Env :=
  match k, e with
  | AnyExpr, _ =>
      match env_get env i with
      | None => Some ((i, e) :: env)
      | Some v => if ExprDeepEqual v e then Some env else None
      end
  | IntLit, IntImm _ n =>
      match env_get env i with
      | None => Some ((i, e) :: env)
      | Some (IntImm _ m) => if m =? n then Some env else None
      | Some _ => None
      end
  | FloatLit, FloatImm _ n =>
      match env_get env i with
      | None => Some ((i, e) :: env)
      | Some (FloatImm _ m) => if float_close m n then Some env else None
      | Some _ => None
      end
  | _, _ => None
  end.

Fixpoint Match_ (p : Pattern) (e : PrimExpr) (env : Env) : option Env :=
  match p with
  | PVar k i => match_var k i e env
  | PConst c => if ExprDeepEqual c e then Some env else None
  | PConstWithTypeLike _ v =>
      match e with
      | IntImm _ n => if n =? v then Some env else None
      | _ => None
      end
  | PBin op pa pb =>
      match e with
      | Bin op' a b =>
          if BinOp_eqb op op' then
            match Match_ pa a env with
            | Some env' => Match_ pb b env'
            | None => None
            end
          else None
      | _ => None
      end
  | PNot pa => match e with Not a => Match_ pa a env | _ => None end
  | PSelect pc pt pf =>
      match e with
      | Select c t f =>
          match Match_ pc c env with
          | Some env1 =>
              match Match_ pt t env1 with
              | Some env2 => Match_ pf f env2
              | None => None
              end
          | None => None
          end
      | _ => None
      end
  | PRamp pb ps pl =>
      match e with
      | Ramp b s l =>
          match Match_ pb b env with
          | Some env1 =>
              match Match_ ps s env1 with
              | Some env2 => Match_ pl l env2
              | None => None
              end
          | None => None
          end
      | _ => None
      end
  | PBroadcast pv pl =>
      match e with
      | Broadcast v l =>
          match Match_ pv v env with
          | Some env1 => Match_ pl l env1
          | None => None
          end
      | _ => None
      end
  end.

(** [Pattern::Match]: a fresh attempt starts with every variable unbound. *)
Definition Match (p : Pattern) (e : PrimExpr) : option Env := Match_ p e [].

(** [Eval]: an unbound variable fails its [ICHECK(filled_)]. *)
Fixpoint Eval (env : Env) (p : Pattern) : Res PrimExpr :=
  match p with
  | PVar _ i => match env_get env i with Some e => Ok e | None => Trap end
  | PConst c => Ok c
  | PConstWithTypeLike ref v =>
      res_bind (Eval env ref) (fun r => Ok (make_const (dtype r) v))
  | PBin op pa pb =>
      res_bind (Eval env pa) (fun a =>
      res_bind (Eval env pb) (fun b => Ok (mk op a b)))
  | PNot pa => res_bind (Eval env pa) (fun a => Ok (Not a))
  | PSelect pc pt pf =>
      res_bind (Eval env pc) (fun c =>
      res_bind (Eval env pt) (fun t =>
      res_bind (Eval env pf) (fun f => Ok (Select c t f))))
  | PRamp pb ps pl =>
      res_bind (Eval env pb) (fun b =>
      res_bind (Eval env ps) (fun s =>
      res_bind (Eval env pl) (fun l => Ok (Ramp b s l))))
  | PBroadcast pv pl =>
      res_bind (Eval env pv) (fun v =>
      res_bind (Eval env pl) (fun l => Ok (Broadcast v l)))
  end.

(** The value of a bound integer-literal variable ([c1.Eval()->value]). *)
Definition ival (env : Env) (i : nat) : Z :=
  match env_get env i with
  | Some (IntImm _ v) => v
  | _ => 0
  end.

Definition fval (env : Env) (i : nat) : float :=
  match env_get env i with
  | Some (FloatImm _ v) => v
  | _ => PrimFloat.zero
  end.

(** The expression bound to a variable ([x.Eval()]); the variables read by a
    rule's guard are those of its matched pattern. *)
Definition eval_var (env : Env) (i : nat) : PrimExpr :=
  match env_get env i with
  | Some e => e
  | None => IntImm int32 0
  end.

(** Pattern variables by the names the source declares them with, and the
    surface syntax of patterns. *)
Module PatternNotations.
Declare Scope pat_scope.
Delimit Scope pat_scope with pat.
Bind Scope pat_scope with Pattern.

Definition ix := 0%nat.
Definition iy := 1%nat.
Definition iz := 2%nat.
Definition ib1 := 3%nat.
Definition ib2 := 4%nat.
Definition is1 := 5%nat.
Definition is2 := 6%nat.
Definition ic1 := 7%nat.
Definition ic2 := 8%nat.
Definition ic3 := 9%nat.
Definition ic4 := 10%nat.
Definition ilanes := 11%nat.
Definition iA := 12%nat.
Definition iB := 13%nat.
Definition iC := 14%nat.
Definition iD := 15%nat.

Definition x := PVar AnyExpr ix.
Definition y := PVar AnyExpr iy.
Definition z := PVar AnyExpr iz.
Definition b1 := PVar AnyExpr ib1.
Definition b2 := PVar AnyExpr ib2.
Definition s1 := PVar AnyExpr is1.
Definition s2 := PVar AnyExpr is2.
Definition c1 := PVar IntLit ic1.
Definition c2 := PVar IntLit ic2.
Definition c3 := PVar IntLit ic3.
Definition c4f := PVar FloatLit ic4.
Definition lanes_ := PVar AnyExpr ilanes.
Definition pA := PVar AnyExpr iA.
Definition pB := PVar AnyExpr iB.
Definition pC := PVar AnyExpr iC.
Definition pD := PVar AnyExpr iD.

Definition truncdiv := PBin ODiv.
Definition div := PBin ODiv.
Definition truncmod := PBin OMod.
Definition floordiv := PBin OFloorDiv.
Definition floormod := PBin OFloorMod.
Definition min := PBin OMin.
Definition max := PBin OMax.
Definition select := PSelect.
Definition ramp := PRamp.
Definition broadcast := PBroadcast.
(** an integer [v] next to the operand [ref] it takes its type from *)
Definition lit (v : Z) (ref : Pattern) := PConstWithTypeLike ref v.
Definition OneWithTypeLike (p : Pattern) := PConstWithTypeLike p 1.
Definition ZeroWithTypeLike (p : Pattern) := PConstWithTypeLike p 0.

(** the values of the literal variables, as guards read them *)
Definition c1v (env : Env) : Z := ival env ic1.
Definition c2v (env : Env) : Z := ival env ic2.
Definition c3v (env : Env) : Z := ival env ic3.
Definition c4v (env : Env) : float := fval env ic4.
Definition xe (env : Env) : PrimExpr := eval_var env ix.
Definition ye (env : Env) : PrimExpr := eval_var env iy.
Definition ze (env : Env) : PrimExpr := eval_var env iz.
Definition c1e (env : Env) : PrimExpr := eval_var env ic1.
Definition c2e (env : Env) : PrimExpr := eval_var env ic2.
Definition b1e (env : Env) : PrimExpr := eval_var env ib1.
Definition b2e (env : Env) : PrimExpr := eval_var env ib2.
Definition s1e (env : Env) : PrimExpr := eval_var env is1.
Definition s2e (env : Env) : PrimExpr := eval_var env is2.
Definition lanes_e (env : Env) : PrimExpr := eval_var env ilanes.

Notation "a + b" := (PBin OAdd a b) : pat_scope.
Notation "a - b" := (PBin OSub a b) : pat_scope.
Notation "a * b" := (PBin OMul a b) : pat_scope.
Notation "a < b" := (PBin OLT a b) : pat_scope.
Notation "a <= b" := (PBin OLE a b) : pat_scope.
Notation "a > b" := (PBin OGT a b) : pat_scope.
Notation "a >= b" := (PBin OGE a b) : pat_scope.
Notation "a == b" := (PBin OEQ a b) (at level 70, no associativity) : pat_scope.
Notation "a != b" := (PBin ONE a b) (at level 70, no associativity) : pat_scope.
Notation "a /\ b" := (PBin OAnd a b) : pat_scope.
Notation "a \/ b" := (PBin OOr a b) : pat_scope.
Notation "! a" := (PNot a) (at level 35, right associativity) : pat_scope.
End PatternNotations.

(** ** The boolean normaliser *)

Fixpoint size (e : PrimExpr) : nat :=
  match e with
  | IntImm _ _ | FloatImm _ _ | Var _ => 1
  | Bin _ a b => S (size a + size b)
  | Not a => S (size a)
  | Select c t f => S (size c + size t + size f)
  | Ramp b s l => S (size b + size s + size l)
  | Broadcast v l => S (size v + size l)
  | Cast _ v => S (size v)
  | Let_ _ v b => S (size v + size b)
  | Call _ _ args => S (fold_right (fun a n => (size a + n)%nat) 0%nat args)
  end.

(** [NormalizeBooleanOperators]: the [while (true)] loop and the two
    recursive calls, bounded by a fuel that the size of the expression
    always covers. *)
Fixpoint NormalizeBooleanOperators_fuel (fuel : nat) (expr : PrimExpr) : option PrimExpr :=
  match fuel with
  | O => None
  | S n =>
      match expr with
      | Not (Not x) => NormalizeBooleanOperators_fuel n x
      | Not (Or x y) =>
          match NormalizeBooleanOperators_fuel n (mk_not x),
                NormalizeBooleanOperators_fuel n (mk_not y) with
          | Some nx, Some ny => Some (mk OAnd nx ny)
          | _, _ => None
          end
      | Not (And x y) =>
          match NormalizeBooleanOperators_fuel n (mk_not x),
                NormalizeBooleanOperators_fuel n (mk_not y) with
          | Some nx, Some ny => Some (mk OOr nx ny)
          | _, _ => None
          end
      | GE x y => Some (mk OLE y x)
      | Not (LT x y) => Some (mk OLE y x)
      | Not (GT y x) => Some (mk OLE y x)
      | GT x y => Some (mk OLT y x)
      | Not (LE x y) => Some (mk OLT y x)
      | Not (GE y x) => Some (mk OLT y x)
      | Not (EQ x y) => Some (mk ONE x y)
      | Not (NE x y) => Some (mk OEQ x y)
      | _ => Some expr
      end
  end.

Definition NormalizeBooleanOperators (expr : PrimExpr) : PrimExpr :=
  match NormalizeBooleanOperators_fuel (S (size expr)) expr with
  | Some r => r
  | None => expr
  end.

(** [ExtractConstantOffset]: decompose x+c, x-c, c-x into a base and a
    constant. *)
Definition ExtractConstantOffset (expr : PrimExpr) : PrimExpr * Z :=
  match expr with
  | Add x (IntImm _ c1) => (x, c1)
  | Sub x (IntImm _ c1) => (x, neg64 c1)
  | Sub (IntImm _ c1) x => (x, c1)
  | _ => (expr, 0)
  end.

(** ** Results of the analyses (arith/analyzer.h, outside the sources) *)

(** Modelled from the spec: a bitset over the relations between two
    integers, intersected with bitwise AND. *)
Inductive CompareResult :=
| kInconsistent | kEQ | kLT | kLE | kGT | kGE | kNE | kUnknown.

Definition CompareResult_bits (r : CompareResult) : Z :=
  match r with
  | kInconsistent => 0 | kEQ => 1 | kLT => 2 | kLE => 3
  | kGT => 4 | kGE => 5 | kNE => 6 | kUnknown => 7
  end.

Definition CompareResult_of_bits (b : Z) : CompareResult :=
  match b with
  | 1 => kEQ | 2 => kLT | 3 => kLE | 4 => kGT | 5 => kGE | 6 => kNE | 7 => kUnknown
  | _ => kInconsistent
  end.

Definition CompareResult_and (a b : CompareResult) : CompareResult :=
  CompareResult_of_bits (Z.land (CompareResult_bits a) (CompareResult_bits b)).

Definition CompareResult_eqb (a b : CompareResult) : bool :=
  CompareResult_bits a =? CompareResult_bits b.

Record ConstIntBound := mkConstIntBound { min_value : Z; max_value : Z }.
Definition kPosInf : Z := 2 ^ 63 - 1.
Definition kNegInf : Z := - kPosInf.

Record ModularSet := mkModularSet { coeff : Z; base : Z }.

Inductive CallEffectKind := kExprAnnotation | kPure | kReadState | kUpdateState | kOpaque.
Definition CallEffectKind_rank (k : CallEffectKind) : Z :=
  match k with
  | kExprAnnotation => 0 | kPure => 1 | kReadState => 2
  | kUpdateState => 3 | kOpaque => 4
  end.
Definition effect_le (a b : CallEffectKind) : bool :=
  CallEffectKind_rank a <=? CallEffectKind_rank b.

(** Extension flags (a bitset), numbered as in the spec's table. *)
Definition kNone : Z := 0.
Definition kTransitivelyProveInequalities : Z := 1.
Definition kComparisonOfProductAndSum : Z := 2.
Definition kApplyConstraintsToBooleanBranches : Z := 4.
Definition kConvertBooleanToAndOfOrs : Z := 8.
Definition has_flag (flags bit : Z) : bool := negb (Z.land flags bit =? 0).

(** The collaborators the simplifier borrows and whose code is outside the
    sources, taken as parameters: the analyzer with its sub-analyses over
    an abstract analyzer state [A], and the helpers of tir/op.h and
    tir/analysis.h that the rules call. *)
Record Analyzer (A : Type) := mkAnalyzer {
  const_int_bound : A -> PrimExpr -> ConstIntBound;
  modular_set : A -> PrimExpr -> ModularSet;
  transitive_comparisons_TryCompare : A -> PrimExpr -> PrimExpr -> bool -> CompareResult;
  analyzer_CanProve : A -> PrimExpr -> bool;
  analyzer_CanProveGreaterEqual : A -> PrimExpr -> Z -> bool;
  analyzer_CanProveLess : A -> PrimExpr -> Z -> bool;
  (* Analyzer::Bind and the sub-analyzers' side of With<ConstraintContext> *)
  analyzer_Bind : A -> Var_ -> PrimExpr -> A;
  analyzer_EnterConstraint : A -> PrimExpr -> A;
  analyzer_ExitConstraint : A -> A;
  SideEffect : PrimExpr -> CallEffectKind;
  SimplifyAsAndOfOrs : PrimExpr -> A -> PrimExpr;
  GetTypeRegistered : TypeCode -> bool;
  (* builders of tir/op.h used on calls and casts *)
  cast : DataType -> PrimExpr -> PrimExpr;
  shift_right : PrimExpr -> PrimExpr -> PrimExpr;
  shift_left : PrimExpr -> PrimExpr -> PrimExpr;
  if_then_else : PrimExpr -> PrimExpr -> PrimExpr -> PrimExpr;
  float_ceil : float -> float;
  float_log2 : float -> float;
  (* the bound on nested recursive rewrites *)
  kMaxRecurDepth : nat
}.

(** ** The simplifier's own state *)

Record State (A : Type) := mkState {
  literal_constraints_ : list PrimExpr;
  var_map_ : list (Var_ * PrimExpr);
  enabled_extensions_ : Z;
  recur_depth_ : nat;
  recursively_visiting_boolean_ : bool;
  analyzer_ : A
}.

Definition M (A T : Type) : Type := State A -> Res (T * State A).

Definition ret {A T} (x : T) : M A T := fun s => Ok (x, s).
Definition bind {A T U} (m : M A T) (k : T -> M A U) : M A U :=
  fun s => match m s with
           | Ok (x, s') => k x s'
           | Trap => Trap
           | OutOfFuel => OutOfFuel
           end.
Definition trap {A T} : M A T := fun _ => Trap.
Definition out_of_fuel {A T} : M A T := fun _ => OutOfFuel.
Definition get {A} : M A (State A) := fun s => Ok (s, s).
Definition put {A} (s : State A) : M A unit := fun _ => Ok (tt, s).
Definition lift {A T} (r : Res T) : M A T :=
  fun s => match r with
           | Ok x => Ok (x, s)
           | Trap => Trap
           | OutOfFuel => OutOfFuel
           end.

Declare Scope monad_scope.
Delimit Scope monad_scope with monad.
Notation "x <- m ;; k" := (bind m (fun x => k))
  (at level 61, m at next level, right associativity) : monad_scope.
Notation "' pat <- m ;; k" := (bind m (fun v => match v with pat => k end))
  (at level 61, pat pattern, m at next level, right associativity) : monad_scope.
Notation "m ;;; k" := (bind m (fun _ => k))
  (at level 61, right associativity) : monad_scope.
Local Open Scope monad_scope.

Definition set_literal_constraints {A} (l : list PrimExpr) : M A unit :=
  fun s => Ok (tt, mkState l (var_map_ s) (enabled_extensions_ s) (recur_depth_ s)
                     (recursively_visiting_boolean_ s) (analyzer_ s)).
Definition set_var_map {A} (m : list (Var_ * PrimExpr)) : M A unit :=
  fun s => Ok (tt, mkState (literal_constraints_ s) m (enabled_extensions_ s)
                     (recur_depth_ s) (recursively_visiting_boolean_ s) (analyzer_ s)).
Definition set_recur_depth {A} (d : nat) : M A unit :=
  fun s => Ok (tt, mkState (literal_constraints_ s) (var_map_ s) (enabled_extensions_ s)
                     d (recursively_visiting_boolean_ s) (analyzer_ s)).
Definition set_analyzer {A} (a : A) : M A unit :=
  fun s => Ok (tt, mkState (literal_constraints_ s) (var_map_ s) (enabled_extensions_ s)
                     (recur_depth_ s) (recursively_visiting_boolean_ s) a).
Definition set_enabled_extensions {A} (f : Z) : M A unit :=
  fun s => Ok (tt, mkState (literal_constraints_ s) (var_map_ s) f
                     (recur_depth_ s) (recursively_visiting_boolean_ s) (analyzer_ s)).

Fixpoint var_map_find (m : list (Var_ * PrimExpr)) (v : Var_) : option PrimExpr :=
  match m with
  | [] => None
  | (w, e) :: r => if Var_eqb v w then Some e else var_map_find r v
  end.

Fixpoint var_map_set (m : list (Var_ * PrimExpr)) (v : Var_) (e : PrimExpr)
  : list (Var_ * PrimExpr) :=
  match m with
  | [] => [(v, e)]
  | (w, e') :: r => if Var_eqb v w then (w, e) :: r else (w, e') :: var_map_set r v e
  end.

(** [RewriteSimplifier::Impl::Update] *)
Definition Update {A} (var : Var_) (info : PrimExpr) (can_override : bool) : M A unit :=
  s <- get ;;
  let check :=
    if can_override then true
    else match var_map_find (var_map_ s) var with
         | Some old => ExprDeepEqual old info
         | None => true
         end in
  if check then set_var_map (var_map_set (var_map_ s) var info) else trap.

(** [TryMatchLiteralConstraint] *)
Fixpoint match_literal (constraints : list PrimExpr) (expr negation : PrimExpr)
  : option PrimExpr :=
  match constraints with
  | [] => None
  | constraint :: rest =>
      if ExprDeepEqual constraint expr then Some (const_true (dtype expr))
      else if ExprDeepEqual constraint negation then Some (const_false (dtype expr))
      else match_literal rest expr negation
  end.

Definition TryMatchLiteralConstraint {A} (expr : PrimExpr) : M A (option PrimExpr) :=
  s <- get ;;
  ret (match_literal (literal_constraints_ s) expr (Not expr)).

(** Modelled from the spec: constraint_extract.h is outside the sources;
    "split it into sub-constraints via top-level conjunction". *)
Fixpoint ExtractConstraints (expr : PrimExpr) : list PrimExpr :=
  match expr with
  | And x y => ExtractConstraints x ++ ExtractConstraints y
  | _ => [expr]
  end.

(** ** The rewrite engine *)

(** One entry of a visitor's rule table: the four macros of the source, and
    the hand-written [if (pattern.Match(ret)) { ... }] blocks, whose body may
    decline (fall through to the next rule).  A list of source patterns is a
    [matches_one_of]. *)
Inductive Rule (A : Type) :=
| TVM_TRY_REWRITE (src : list Pattern) (res : Pattern)
| TVM_TRY_RECURSIVE_REWRITE (src : list Pattern) (res : Pattern)
| TVM_TRY_REWRITE_IF (src : list Pattern) (res : Pattern) (cond : Env -> M A bool)
| TVM_TRY_RECURSIVE_REWRITE_IF (src : list Pattern) (res : Pattern) (cond : Env -> M A bool)
| TRY_MATCH (src : list Pattern) (body : Env -> M A (option PrimExpr))
| STEP (body : M A (option PrimExpr)).

Arguments TVM_TRY_REWRITE {A} src res.
Arguments TVM_TRY_RECURSIVE_REWRITE {A} src res.
Arguments TVM_TRY_REWRITE_IF {A} src res cond.
Arguments TVM_TRY_RECURSIVE_REWRITE_IF {A} src res cond.
Arguments TRY_MATCH {A} src body.
Arguments STEP {A} body.

(** [PMatchesOneOf::Match(value, cond)]: the first alternative that matches
    and whose guard holds. *)
Fixpoint match_one_of {A} (alts : list Pattern) (e : PrimExpr) (cond : Env -> M A bool)
  : M A (option Env) :=
  match alts with
  | [] => ret None
  | p :: rest =>
      match Match p e with
      | Some env =>
          ok <- cond env ;;
          if ok then ret (Some env) else match_one_of rest e cond
      | None => match_one_of rest e cond
      end
  end.

(** [a.Match(ret) || b.Match(ret) || ...] *)
Fixpoint match_first (alts : list Pattern) (e : PrimExpr) : option Env :=
  match alts with
  | [] => None
  | p :: rest =>
      match Match p e with
      | Some env => Some env
      | None => match_first rest e
      end
  end.

Definition pure_cond {A} (f : Env -> bool) : Env -> M A bool := fun env => ret (f env).

Section Engine.
Context {A : Type}.
Variable an : Analyzer A.
(** [this->VisitExpr], the recursive call of the mutator *)
Variable visit : PrimExpr -> M A PrimExpr.

(** Modelled from the spec: [RecursiveRewrite] is declared in
    rewrite_simplify.h, outside the sources: "re-enter the simplifier on
    the result (bounded by a global recursion budget)"; the driver
    "maintains a depth counter". *)
Definition RecursiveRewrite (x : PrimExpr) : M A PrimExpr :=
  s <- get ;;
  if (kMaxRecurDepth an <=? recur_depth_ s)%nat then ret x
  else
    set_recur_depth (S (recur_depth_ s)) ;;;
    res <- visit x ;;
    s' <- get ;;
    set_recur_depth (Nat.pred (recur_depth_ s')) ;;;
    ret res.

Definition apply_rule (r : Rule A) (e : PrimExpr) : M A (option PrimExpr) :=
  match r with
  | TVM_TRY_REWRITE src res =>
      m <- match_one_of src e (fun _ => ret true) ;;
      match m with
      | Some env => v <- lift (Eval env res) ;; ret (Some v)
      | None => ret None
      end
  | TVM_TRY_RECURSIVE_REWRITE src res =>
      m <- match_one_of src e (fun _ => ret true) ;;
      match m with
      | Some env => v <- lift (Eval env res) ;; w <- RecursiveRewrite v ;; ret (Some w)
      | None => ret None
      end
  | TVM_TRY_REWRITE_IF src res cond =>
      m <- match_one_of src e cond ;;
      match m with
      | Some env => v <- lift (Eval env res) ;; ret (Some v)
      | None => ret None
      end
  | TVM_TRY_RECURSIVE_REWRITE_IF src res cond =>
      m <- match_one_of src e cond ;;
      match m with
      | Some env => v <- lift (Eval env res) ;; w <- RecursiveRewrite v ;; ret (Some w)
      | None => ret None
      end
  | TRY_MATCH src body =>
      match match_first src e with
      | Some env => body env
      | None => ret None
      end
  | STEP body => body
  end.

(** Rules are tried in source order; the first that returns wins and an
    expression no rule rewrites is returned as it is. *)
Fixpoint apply_rules (rules : list (Rule A)) (e : PrimExpr) : M A PrimExpr :=
  match rules with
  | [] => ret e
  | r :: rest =>
      o <- apply_rule r e ;;
      match o with
      | Some v => ret v
      | None => apply_rules rest e
      end
  end.

Definition when {T} (b : bool) (l : list T) : list T := if b then l else [].

(** [ExprMutator::VisitExpr_] on a binary node: visit both operands, left
    to right, and rebuild. *)
Definition Mutate_Binary (op : BinOp) (a b : PrimExpr) : M A PrimExpr :=
  a' <- visit a ;;
  b' <- visit b ;;
  ret (Bin op a' b').

(** *** The comparison engine *)

(** [TryCompare(const PrimExpr& x, int64_t val)] *)
Definition TryCompare_val (x : PrimExpr) (val : Z) : M A CompareResult :=
  diff <- visit x ;;
  let literal :=
    match diff with
    | IntImm _ v =>
        if v =? val then Some kEQ
        else if val <? v then Some kGT
        else if v <? val then Some kLT
        else None
    | _ => None
    end in
  match literal with
  | Some r => ret r
  | None =>
      s <- get ;;
      let dbound := const_int_bound an (analyzer_ s) diff in
      if (min_value dbound =? val) && (max_value dbound =? val) then ret kEQ
      else if val <? min_value dbound then ret kGT
      else if max_value dbound <? val then ret kLT
      else if val <=? min_value dbound then ret kGE
      else if max_value dbound <=? val then ret kLE
      else if val =? 0 then
        let dmod := modular_set an (analyzer_ s) diff in
        if negb (base dmod =? 0) then ret kNE else ret kUnknown
      else ret kUnknown
  end.

Definition TryCompareUsingConstIntBounds (x y : PrimExpr) : M A CompareResult :=
  TryCompare_val (mk OSub x y) 0.

Definition TryCompareUsingKnownInequalities (x y : PrimExpr) : M A CompareResult :=
  s <- get ;;
  let propagate_inequalities :=
    has_flag (enabled_extensions_ s) kTransitivelyProveInequalities in
  ret (transitive_comparisons_TryCompare an (analyzer_ s) x y propagate_inequalities).

Definition negate (bound : ConstIntBound) : ConstIntBound :=
  mkConstIntBound (neg64 (max_value bound)) (neg64 (min_value bound)).
Definition is_negative (bound : ConstIntBound) : bool := max_value bound <? 0.
Definition is_positive (bound : ConstIntBound) : bool := 0 <? min_value bound.

(** The part of [TryComparisonOfProductAndSum] after the four bounds are
    read: the sign flips, the positivity test and the reciprocal term. *)
Definition CompareProductAndSumBounds (A_bound B_bound C_bound D_bound : ConstIntBound)
  : CompareResult :=
  let is_upper_bound := is_negative D_bound in
  let C_bound := if is_upper_bound then negate C_bound else C_bound in
  let D_bound := if is_upper_bound then negate D_bound else D_bound in
  let flip := is_negative C_bound in
  let A_bound := if flip then negate A_bound else A_bound in
  let B_bound := if flip then negate B_bound else B_bound in
  let C_bound := if flip then negate C_bound else C_bound in
  let all_terms_positive :=
    is_positive A_bound && is_positive B_bound &&
    is_positive C_bound && is_positive D_bound in
  if negb all_terms_positive then kUnknown
  else
    let reciprocal_term_is_positive :=
      if max_value D_bound =? kPosInf then false
      else if mul64 (Z.min (max_value A_bound) (max_value B_bound)) (max_value D_bound)
                <=? min_value C_bound then true
      else if negb (max_value A_bound =? kPosInf) && negb (max_value B_bound =? kPosInf)
      then
        if mul64 (mul64 (max_value A_bound) (max_value B_bound)) (max_value D_bound)
             <? mul64 (min_value C_bound) (add64 (max_value A_bound) (max_value B_bound))
        then true else false
      else false in
    if negb reciprocal_term_is_positive then kUnknown
    else if is_upper_bound then kLT else kGT.

Import PatternNotations.

(** The shapes of [(A+B)*C - (A*B)*D] after simplification. *)
Definition opt_special_case (diff : PrimExpr)
  : option (PrimExpr * PrimExpr * PrimExpr * PrimExpr) :=
  match match_first [ ((pA + pB) * pC + (pA * pB) * pD)%pat;
                      ((pA + pB) * pC + (pB * pA) * pD)%pat;
                      ((pA * pB) * pD + (pA + pB) * pC)%pat;
                      ((pB * pA) * pD + (pA + pB) * pC)%pat ] diff with
  | Some env =>
      Some (eval_var env iA, eval_var env iB, eval_var env iC, mk_neg (eval_var env iD))
  | None =>
      match match_first [ ((pA + pB) * pC + (pA * pB))%pat;
                          ((pA + pB) * pC + (pB * pA))%pat;
                          ((pA * pB) + (pA + pB) * pC)%pat;
                          ((pB * pA) + (pA + pB) * pC)%pat ] diff with
      | Some env =>
          Some (eval_var env iA, eval_var env iB, eval_var env iC, Integer (-1))
      | None => None
      end
  end.

Definition TryComparisonOfProductAndSum (x y : PrimExpr) : M A CompareResult :=
  s <- get ;;
  let check_comparison_of_product_and_sum :=
    has_flag (enabled_extensions_ s) kComparisonOfProductAndSum in
  if negb check_comparison_of_product_and_sum then ret kUnknown
  else
    diff <- visit (mk OSub x y) ;;
    match opt_special_case diff with
    | None => ret kUnknown
    | Some (eA, eB, eC, eD) =>
        s <- get ;;
        let A_bound := const_int_bound an (analyzer_ s) eA in
        let B_bound := const_int_bound an (analyzer_ s) eB in
        let C_bound := const_int_bound an (analyzer_ s) eC in
        let D_bound := const_int_bound an (analyzer_ s) eD in
        ret (CompareProductAndSumBounds A_bound B_bound C_bound D_bound)
    end.

Definition is_finished (output : CompareResult) : bool :=
  match output with kEQ | kLT | kGT => true | _ => false end.

(** [TryCompare(const PrimExpr& x, const PrimExpr& y)] *)
Definition TryCompare (x y : PrimExpr) : M A CompareResult :=
  let output := kUnknown in
  r1 <- TryCompareUsingConstIntBounds x y ;;
  let output := CompareResult_and output r1 in
  if is_finished output then ret output
  else
    r2 <- TryCompareUsingKnownInequalities x y ;;
    let output := CompareResult_and output r2 in
    if is_finished output then ret output
    else
      r3 <- TryComparisonOfProductAndSum x y ;;
      ret (CompareResult_and output r3).

(** Modelled from the spec: the proof shortcuts are declared in
    rewrite_simplify.h, outside the sources; they "internally simplify and
    then consult bounds".  [CanProveEqual] goes through [TryCompare]; the
    others are the analyzer's. *)
Definition CanProveEqual (x : PrimExpr) (val : Z) : M A bool :=
  r <- TryCompare_val x val ;;
  ret (CompareResult_eqb r kEQ).
Definition CanProveGreaterEqual (x : PrimExpr) (val : Z) : M A bool :=
  s <- get ;; ret (analyzer_CanProveGreaterEqual an (analyzer_ s) x val).
Definition CanProveLess (x : PrimExpr) (val : Z) : M A bool :=
  s <- get ;; ret (analyzer_CanProveLess an (analyzer_ s) x val).
Definition CanProve (x : PrimExpr) : M A bool :=
  s <- get ;; ret (analyzer_CanProve an (analyzer_ s) x).

(** Short-circuit conjunction of guards. *)
Definition andM (a b : M A bool) : M A bool :=
  x <- a ;; if x then b else ret false.
Definition orM (a b : M A bool) : M A bool :=
  x <- a ;; if x then ret true else b.

End Engine.

(** ** The visitors, one per opcode, with their rules in source order *)

Section Visitors.
Context {A : Type}.
Variable an : Analyzer A.
Variable visit : PrimExpr -> M A PrimExpr.

Import PatternNotations.
Local Open Scope pat_scope.

Local Abbreviation RW := (@TVM_TRY_REWRITE A).
Local Abbreviation RW_REC := (@TVM_TRY_RECURSIVE_REWRITE A).
Local Abbreviation RW_IF := (@TVM_TRY_REWRITE_IF A).
Local Abbreviation RW_REC_IF := (@TVM_TRY_RECURSIVE_REWRITE_IF A).
Local Abbreviation P := (@pure_cond A).

(** Guards: pure tests on the bound literals, the proof shortcuts on
    evaluated patterns, and their short-circuit conjunction. *)
Definition c_and (f g : Env -> M A bool) : Env -> M A bool :=
  fun env => andM (f env) (g env).
Definition c_or (f g : Env -> M A bool) : Env -> M A bool :=
  fun env => orM (f env) (g env).
Definition CPGE (p : Pattern) (k : Env -> Z) : Env -> M A bool :=
  fun env => v <- lift (Eval env p) ;; CanProveGreaterEqual an v (k env).
Definition CPEQ (p : Pattern) (k : Env -> Z) : Env -> M A bool :=
  fun env => v <- lift (Eval env p) ;; CanProveEqual an visit v (k env).
Definition CPLT (p : Pattern) (k : Env -> Z) : Env -> M A bool :=
  fun env => v <- lift (Eval env p) ;; CanProveLess an v (k env).
Definition CP (p : Pattern) : Env -> M A bool :=
  fun env => v <- lift (Eval env p) ;; CanProve an v.
Definition SideEffectLE (p : Pattern) (k : CallEffectKind) : Env -> M A bool :=
  fun env => v <- lift (Eval env p) ;; ret (effect_le (SideEffect an v) k).
Definition K (v : Z) : Env -> Z := fun _ => v.
Local Notation "f &&& g" := (c_and f g).

(** *** Add *)

Definition Add_vector_rules : list (Rule A) := [
  RW [ramp b1 s1 lanes_ + ramp b2 s2 lanes_] (ramp (b1 + b2) (s1 + s2) lanes_);
  RW [ramp b1 s1 lanes_ + broadcast x lanes_] (ramp (b1 + x) s1 lanes_);
  RW [broadcast x lanes_ + ramp b1 s1 lanes_] (ramp (x + b1) s1 lanes_);
  RW [broadcast x lanes_ + broadcast y lanes_] (broadcast (x + y) lanes_);
  RW_IF [x + broadcast c4f lanes_] x
     (pure_cond (fun env => PrimFloat.eqb (c4v env) PrimFloat.zero))
].

Definition Add_index_rules : list (Rule A) := [
  (* cancelation rules *)
  RW [(x - y) + y] x;
  RW [x + (y - x)] y;

  RW [(x - y) + (y - z)] (x - z);
  RW [(x - y) + (z - x)] (z - y);

  RW [min x (y - z) + z] (min (x + z) y);
  RW [min (x - z) y + z] (min x (y + z));
  RW [max x (y - z) + z] (max (x + z) y);
  RW [max (x - z) y + z] (max x (y + z));

  RW_IF [min x (y + z * c1) + z * c2] (min (x + z * c2) y)
     (P (fun e => (c1v e =? neg64 (c2v e))%Z));
  RW_IF [max x (y + z * c1) + z * c2] (max (x + z * c2) y)
     (P (fun e => (c1v e =? neg64 (c2v e))%Z));
  RW_IF [min (y + z * c1) x + z * c2] (min (x + z * c2) y)
     (P (fun e => (c1v e =? neg64 (c2v e))%Z));
  RW_IF [max (y + z * c1) x + z * c2] (max (x + z * c2) y)
     (P (fun e => (c1v e =? neg64 (c2v e))%Z));

  RW [max x y + min x y;
      min x y + max x y;
      max x y + min y x;
      min x y + max y x] (x + y);

  RW_IF [min x (y + c1) + c2] (min (x + c2) y) (P (fun e => (c1v e =? neg64 (c2v e))%Z));
  RW_IF [min (x + c1) y + c2] (min x (y + c2)) (P (fun e => (c1v e =? neg64 (c2v e))%Z));
  RW_IF [max x (y + c1) + c2] (max (x + c2) y) (P (fun e => (c1v e =? neg64 (c2v e))%Z));
  RW_IF [max (x + c1) y + c2] (max x (y + c2)) (P (fun e => (c1v e =? neg64 (c2v e))%Z));

  (* constant folding *)
  RW [(x + c1) + c2] (x + (c1 + c2));

  (* mul co-efficient folding *)
  RW [x + x] (x * lit 2 x);

  RW [x * y + x; y * x + x; x + y * x; x + x * y] ((y + lit 1 y) * x);

  RW [x * y + x * z; y * x + x * z; x * y + z * x; y * x + z * x] ((y + z) * x);

  (* DivMod rules *)
  (* truc div *)
  RW [truncdiv x c1 * c1 + truncmod x c1] x;
  (* floor div *)
  RW [floordiv x y * y + floormod x y; y * floordiv x y + floormod x y;
      floormod x y + floordiv x y * y; floormod x y + y * floordiv x y] x;

  RW_IF [floordiv (floormod x c2 + c1) c2 + floordiv x c2] (floordiv (x + c1) c2)
     (P (fun e => (0 <? c2v e)%Z));

  RW_REC [floordiv x (lit 2 x) + floormod x (lit 2 x)] (floordiv (x + lit 1 x) (lit 2 (x + lit 1 x)));

  (* Simplify (x + 1) % 2 + x % 2 => 1 *)
  RW_IF [floormod (x + c1) (lit 2 (x + c1)) + floormod x (lit 2 x)] (OneWithTypeLike x)
     (P (fun e => ((c1v e) mod 2 =? 1)%Z));
  RW_IF [floormod x (lit 2 x) + floormod (x + c1) (lit 2 (x + c1))] (OneWithTypeLike x)
     (P (fun e => ((c1v e) mod 2 =? 1)%Z));

  (* canonicalization rule *)
  RW_REC [x + (c1 - y); (c1 - y) + x] ((x - y) + c1);
  RW_REC [(x + c1) + y; x + (c1 + y); x + (y + c1)] ((x + y) + c1);
  RW_REC [x + max y z] (max y z + x);
  RW_REC [x + min y z] (min y z + x);

  (* DivMod rules *)
  (* truc div *)
  RW_REC [truncmod y c1 + x * c1] (x * c1 + truncmod y c1);
  (* floor div *)
  RW_REC [floormod y c1 + x * c1] (x * c1 + floormod y c1)
].

Definition VisitExpr_Add (a b : PrimExpr) : M A PrimExpr :=
  ret_ <- Mutate_Binary visit OAdd a b ;;
  match ret_ with
  | Bin _ a b =>
      match TryConstFold OAdd a b with
      | Some const_res => ret const_res
      | None =>
          apply_rules an visit
            (when (is_scalable_or_fixed_length_vector (dtype ret_)) Add_vector_rules ++
             when (IsIndexType (dtype ret_)) Add_index_rules ++
             (* condition rules *)
             [RW [select x b1 b2 + select x s1 s2] (select x (b1 + s1) (b2 + s2))])
            ret_
      end
  | _ => ret ret_
  end.

(** *** Sub *)

Definition Sub_vector_rules : list (Rule A) := [
  RW [ramp b1 s1 lanes_ - ramp b2 s2 lanes_] (ramp (b1 - b2) (s1 - s2) lanes_);
  RW [ramp b1 s1 lanes_ - broadcast x lanes_] (ramp (b1 - x) s1 lanes_);
  RW [broadcast x lanes_ - ramp b1 s1 lanes_] (ramp (x - b1) (lit 0 s1 - s1) lanes_);
  RW [broadcast x lanes_ - broadcast y lanes_] (broadcast (x - y) lanes_)
].

Definition Sub_index_rules : list (Rule A) := [
  (* cancelation rules *)
  RW [(x + y) - y; (y + x) - y] x;
  RW [x - (y + x); x - (x + y)] (lit 0 y - y);

  RW [min x y - y; x - max y x] (min (x - y) (lit 0 (x - y)));
  RW [x - max x y; min y x - y] (min (lit 0 (x - y)) (x - y));
  RW [max x y - y; x - min y x] (max (x - y) (lit 0 (x - y)));
  RW [x - min x y; max y x - y] (max (lit 0 (x - y)) (x - y));

  (* mul co-efficient folding: pefer co-effiicent to stay at rhs *)
  RW [x - x] (ZeroWithTypeLike x);
  RW [x * y - x; y * x - x] ((y - lit 1 y) * x);
  RW [x - y * x; x - x * y] ((lit 1 y - y) * x);
  RW [x * y - x * z; y * x - x * z; x * y - z * x; y * x - z * x] ((y - z) * x);

  (* constant cancelation *)
  RW [(x + c1) - c2] (x + (c1 - c2));
  RW [(c1 - x) - (c2 - y)] ((y - x) + (c1 - c2));

  (* cancelization rule involving 4 operands *)
  RW [(x + y) - (x + z); (x + y) - (z + x); (y + x) - (z + x); (y + x) - (x + z)] (y - z);

  RW [min (x + y) z - x; min (y + x) z - x] (min y (z - x));
  RW [min z (x + y) - x; min z (y + x) - x] (min (z - x) y);

  RW [max (x + y) z - x; max (y + x) z - x] (max y (z - x));
  RW [max z (x + y) - x; max z (y + x) - x] (max (z - x) y);

  RW [x - min (x + y) z; x - min (y + x) z] (max (lit 0 y - y) (x - z));
  RW [x - min z (x + y); x - min z (y + x)] (max (x - z) (lit 0 y - y));
  RW [x - max (x + y) z; x - max (y + x) z] (min (lit 0 y - y) (x - z));
  RW [x - max z (x + y); x - max z (y + x)] (min (x - z) (lit 0 y - y));

  RW [min x y - min y x] (ZeroWithTypeLike x);
  RW [max x y - max y x] (ZeroWithTypeLike x);

  RW_IF [min b1 b2 - min s1 s2; min b1 b2 - min s2 s1] (b1 - s1)
     (CPEQ ((b1 - s1) - (b2 - s2)) (K 0));

  RW_IF [max b1 b2 - max s1 s2; max b1 b2 - max s2 s1] (b1 - s1)
     (CPEQ ((b1 - s1) - (b2 - s2)) (K 0));

  (* DivMod rules *)
  (* trucdiv *)
  RW_IF [x - truncdiv x c1 * c1] (truncmod x c1) (P (fun e => negb (c1v e =? 0)%Z));
  RW_IF [truncdiv x c1 * c1 - x] (lit 0 (truncmod x c1) - truncmod x c1)
     (P (fun e => negb (c1v e =? 0)%Z));
  RW_IF [x - (truncdiv (x + y) c1) * c1] (truncmod (x + y) c1 - y)
     (P (fun e => negb (c1v e =? 0)%Z));
  RW_IF [(truncdiv (x + y) c1) * c1 - x] (y - truncmod (x + y) c1)
     (P (fun e => negb (c1v e =? 0)%Z));
  RW_IF [x - truncdiv (x - y) c1 * c1] (truncmod (x - y) c1 + y)
     (P (fun e => negb (c1v e =? 0)%Z));
  RW_IF [truncdiv (x - y) c1 * c1 - x]
     (lit 0 (truncmod (x - y) c1) - truncmod (x - y) c1 - y)
     (P (fun e => negb (c1v e =? 0)%Z));

  RW_IF [x * c2 - truncdiv x c1 * c3] (truncmod x c1 * c2)
     (P (fun e => negb (c1v e =? 0)%Z && (c3v e =? mul64 (c1v e) (c2v e))%Z));
  RW_IF [truncdiv x c1 * c3 - x * c2]
     (lit 0 (truncmod x c1 * c2) - truncmod x c1 * c2)
     (P (fun e => negb (c1v e =? 0)%Z && (c3v e =? mul64 (c1v e) (c2v e))%Z));
  RW_IF [x * c2 - truncdiv (x + y) c1 * c3] ((truncmod (x + y) c1 - y) * c2)
     (P (fun e => negb (c1v e =? 0)%Z && (c3v e =? mul64 (c1v e) (c2v e))%Z));
  RW_IF [truncdiv (x + y) c1 * c3 - x * c2] ((y - truncmod (x + y) c1) * c2)
     (P (fun e => negb (c1v e =? 0)%Z && (c3v e =? mul64 (c1v e) (c2v e))%Z));
  RW_IF [x * c2 - truncdiv (x - y) c1 * c3] ((truncmod (x - y) c1 + y) * c2)
     (P (fun e => negb (c1v e =? 0)%Z && (c3v e =? mul64 (c1v e) (c2v e))%Z));
  RW_IF [truncdiv (x - y) c1 * c3 - x * c2]
     ((lit 0 (truncmod (x - y) c1) - truncmod (x - y) c1 - y) * c2)
     (P (fun e => negb (c1v e =? 0)%Z && (c3v e =? mul64 (c1v e) (c2v e))%Z));

  (* Proof in the case of floordiv, need positive condition. *)
  RW_IF [truncdiv (x + c1) c3 - truncdiv (x + c2) c3]
     (truncdiv (truncmod (x + floormod c2 c3) c3 + (c1 - c2)) c3)
     (CPGE x (fun e => neg64 (c2v e)) &&&
      P (fun e => (c2v e <=? c1v e)%Z && (0 <? c3v e)%Z));
  RW_IF [truncdiv (x + c1) c3 - truncdiv x c3] (truncdiv (truncmod x c3 + c1) c3)
     (CPGE x (K 0) &&& P (fun e => (0 <=? c1v e)%Z && (0 <? c3v e)%Z));

  (* floordiv *)
  RW_IF [x - floordiv x c1 * c1] (floormod x c1) (P (fun e => negb (c1v e =? 0)%Z));
  RW_IF [floordiv x c1 * c1 - x] (lit 0 (floormod x c1) - floormod x c1)
     (P (fun e => negb (c1v e =? 0)%Z));
  RW_IF [x - floordiv (x + y) c1 * c1] (floormod (x + y) c1 - y)
     (P (fun e => negb (c1v e =? 0)%Z));
  RW_IF [floordiv (x + y) c1 * c1 - x] (y - floormod (x + y) c1)
     (P (fun e => negb (c1v e =? 0)%Z));
  RW_IF [x - floordiv (x - y) c1 * c1] (floormod (x - y) c1 + y)
     (P (fun e => negb (c1v e =? 0)%Z));
  RW_IF [floordiv (x - y) c1 * c1 - x]
     (lit 0 (floormod (x - y) c1) - floormod (x - y) c1 - y)
     (P (fun e => negb (c1v e =? 0)%Z));

  RW_REC [floordiv (x + c1) (lit 2 (x + c1)) - floordiv (x + c2) (lit 2 (x + c2))]
     (floormod x (lit 2 x) * (floormod c1 (lit 2 c1) - floormod c2 (lit 2 c2))
      + (floordiv c1 (lit 2 c1) - floordiv c2 (lit 2 c2)));
  RW_REC [floordiv x (lit 2 x) - floordiv (x + c2) (lit 2 (x + c2))]
     (floormod x (lit 2 x) * (lit 0 (floormod c2 (lit 2 c2)) - floormod c2 (lit 2 c2))
      - floordiv c2 (lit 2 c2));
  RW_REC [floordiv (x + c1) (lit 2 (x + c1)) - floordiv x (lit 2 x)]
     (floormod x (lit 2 x) * floormod c1 (lit 2 c1) + floordiv c1 (lit 2 c1));

  RW_IF [x * c2 - floordiv x c1 * c3] (floormod x c1 * c2)
     (P (fun e => negb (c1v e =? 0)%Z && (c3v e =? mul64 (c1v e) (c2v e))%Z));
  RW_IF [floordiv x c1 * c3 - x * c2]
     (lit 0 (floormod x c1 * c2) - floormod x c1 * c2)
     (P (fun e => negb (c1v e =? 0)%Z && (c3v e =? mul64 (c1v e) (c2v e))%Z));
  RW_IF [x * c2 - floordiv (x + y) c1 * c3] ((floormod (x + y) c1 - y) * c2)
     (P (fun e => negb (c1v e =? 0)%Z && (c3v e =? mul64 (c1v e) (c2v e))%Z));
  RW_IF [floordiv (x + y) c1 * c3 - x * c2] ((y - floormod (x + y) c1) * c2)
     (P (fun e => negb (c1v e =? 0)%Z && (c3v e =? mul64 (c1v e) (c2v e))%Z));
  RW_IF [x * c2 - floordiv (x - y) c1 * c3] ((floormod (x - y) c1 + y) * c2)
     (P (fun e => negb (c1v e =? 0)%Z && (c3v e =? mul64 (c1v e) (c2v e))%Z));
  RW_IF [floordiv (x - y) c1 * c3 - x * c2]
     ((lit 0 (floormod (x - y) c1) - floormod (x - y) c1 - y) * c2)
     (P (fun e => negb (c1v e =? 0)%Z && (c3v e =? mul64 (c1v e) (c2v e))%Z));

  RW_REC [floordiv (x + lit 1 x) (lit 2 (x + lit 1 x)) - floormod x (lit 2 x)]
     (floordiv x (lit 2 x));

  RW_IF [floordiv (x + c1) c3 - floordiv (x + c2) c3]
     (floordiv (floormod (x + floormod c2 c3) c3 + (c1 - c2)) c3)
     (P (fun e => (0 <? c3v e)%Z));
  RW_IF [floordiv (x + c1) c3 - floordiv x c3] (floordiv (floormod x c3 + c1) c3)
     (P (fun e => (0 <? c3v e)%Z));

  (* canonicalization rule *)
  RW [x - c1] (x + (lit 0 c1 - c1));
  RW_REC [(x + c1) - y] ((x - y) + c1);
  RW_REC [x - (y + c1)] ((x - y) + (lit 0 c1 - c1));
  RW_REC [x - (y - z)] ((x + z) - y);
  RW_REC [x - y * c1] (x + y * (lit 0 c1 - c1))
].

(** Cancellation rules off the integer path, guarded by side effects. *)
Definition Sub_nonindex_rules : list (Rule A) := [
  RW_IF [x - x] (ZeroWithTypeLike x) (SideEffectLE x kReadState);
  RW_IF [(x + y) - y] x (SideEffectLE y kReadState);
  RW_IF [(x + y) - x] y (SideEffectLE x kReadState);
  RW_IF [x - (y + x)] (lit 0 y - y) (SideEffectLE x kReadState);
  RW_IF [x - (x + y)] (lit 0 y - y) (SideEffectLE x kReadState)
].

Definition VisitExpr_Sub (a b : PrimExpr) : M A PrimExpr :=
  ret_ <- Mutate_Binary visit OSub a b ;;
  match ret_ with
  | Bin _ a b =>
      match TryConstFold OSub a b with
      | Some const_res => ret const_res
      | None =>
          apply_rules an visit
            (when (is_scalable_or_fixed_length_vector (dtype ret_)) Sub_vector_rules ++
             (if IsIndexType (dtype ret_) then Sub_index_rules else Sub_nonindex_rules) ++
             (* condition rules *)
             [RW [select x b1 b2 - select x s1 s2] (select x (b1 - s1) (b2 - s2));
              RW [select x y z - z] (select x (y - z) (ZeroWithTypeLike z));
              RW [select x y z - y] (select x (ZeroWithTypeLike y) (z - y))])
            ret_
      end
  | _ => ret ret_
  end.

(** *** Mul *)

Definition Mul_vector_rules : list (Rule A) := [
  RW [broadcast x lanes_ * broadcast y lanes_] (broadcast (x * y) lanes_);
  RW [ramp b1 s1 lanes_ * broadcast x lanes_; broadcast x lanes_ * ramp b1 s1 lanes_]
     (ramp (b1 * x) (s1 * x) lanes_);
  RW_IF [broadcast c4f lanes_ * x] (broadcast c4f lanes_)
     (pure_cond (fun env => PrimFloat.eqb (c4v env) PrimFloat.zero))
].

Definition Mul_index_rules : list (Rule A) := [
  (* constant simplification rule *)
  RW [(x + c1) * c2] (x * c2 + c1 * c2);
  RW [(x * c1) * c2] (x * (c1 * c2));
  RW [min x y * max x y; max x y * min x y] (x * y);

  (* Two representations of const*ceildiv(x, c1) *)
  RW_IF [floordiv (x - floormod x c2) c1 * c1] (x - floormod x c2)
     (P (fun e => (c1v e =? neg64 (c2v e))%Z));

  (* canonicalization *)
  RW_REC [x * (c1 * y)] ((x * y) * c1);
  RW_REC [c1 * x] (x * c1);
  RW_REC_IF [(x - y) * c1] ((y - x) * (lit 0 c1 - c1)) (P (fun e => (c1v e <? 0)%Z))
].

Definition VisitExpr_Mul (a b : PrimExpr) : M A PrimExpr :=
  ret_ <- Mutate_Binary visit OMul a b ;;
  match ret_ with
  | Bin _ a b =>
      match TryConstFold OMul a b with
      | Some const_res => ret const_res
      | None =>
          apply_rules an visit
            (when (is_scalable_or_fixed_length_vector (dtype ret_)) Mul_vector_rules ++
             when (IsIndexType (dtype ret_)) Mul_index_rules)
            ret_
      end
  | _ => ret ret_
  end.

(** *** Div (truncated) *)

Definition lanes_int (env : Env) : Res Z :=
  match lanes_e env with
  | IntImm _ v => Ok v
  | _ => Trap
  end.

Definition Div_vector_rules : list (Rule A) := [
  (* NOTE: use div as the pattern also works for float. *)
  RW [div (broadcast x lanes_) (broadcast y lanes_)] (broadcast (div x y) lanes_);
  (* ramp / bcast *)
  TRY_MATCH [div (ramp b1 c1 lanes_) (broadcast c2 lanes_)] (fun env =>
    let c1val := c1v env in
    let c2val := c2v env in
    if (c2val =? 0)%Z then trap
    else if (Z.rem c1val c2val =? 0)%Z then
      v <- lift (Eval env (ramp (div b1 c2) (div c1 c2) lanes_)) ;; ret (Some v)
    else
      ge <- CanProveGreaterEqual an (b1e env) 0 ;;
      if ge && negb (match ExtractVscaleFactor (lanes_e env) with
                     | Some _ => true | None => false end)
      then
        s <- get ;;
        let bmod := modular_set an (analyzer_ s) (b1e env) in
        let ramp_min := wrap64 (Z.quot (base bmod) c2val) in
        lanes_int <- lift (lanes_int env) ;;
        let ramp_max :=
          wrap64 (Z.quot (add64 (base bmod) (mul64 (sub64 lanes_int 1) c1val)) c2val) in
        if (Z.rem (coeff bmod) c2val =? 0)%Z && (ramp_min =? ramp_max)%Z then
          v <- lift (Eval env (broadcast (div b1 c2) lanes_)) ;; ret (Some v)
        else ret None
      else ret None)
].

Definition Div_index_rules (op_dtype : DataType) : list (Rule A) := [
  (* TryConstFold doesn't work for negative cases because it is also used
     by legacy parts of tvm which still assume euclidean div.  In this
     simplifier we assume that the division is truncated, so perform const
     folding again.  NOTE: trunc div required *)
  TRY_MATCH [truncdiv c1 c2] (fun env =>
    let c1val := c1v env in
    let c2val := c2v env in
    q <- lift (truncdiv64 c1val c2val) ;;
    ret (Some (make_const op_dtype q)));

  (* while it is always true for trunc div, restrict to common case(positive div) *)
  RW_IF [truncdiv (truncdiv x c1) c2] (truncdiv x (c1 * c2))
     (P (fun e => (0 <? c1v e)%Z && (0 <? c2v e)%Z));

  RW_IF [truncdiv (truncdiv x c1 + c2) c3] (truncdiv (x + c1 * c2) (c1 * c3))
     (P (fun e => (0 <? c1v e)%Z && (0 <=? c2v e)%Z && (0 <? c3v e)%Z) &&& CPGE x (K 0));

  TRY_MATCH [truncdiv (x * c1) c2] (fun env =>
    let c1val := c1v env in
    let c2val := c2v env in
    if (0 <? c1val)%Z && (0 <? c2val)%Z then
      if (Z.rem c1val c2val =? 0)%Z then
        v <- lift (Eval env (x * truncdiv c1 c2)) ;; ret (Some v)
      else if (Z.rem c2val c1val =? 0)%Z then
        v <- lift (Eval env (truncdiv x (truncdiv c2 c1))) ;; ret (Some v)
      else ret None
    else ret None);

  RW [truncdiv x x] (OneWithTypeLike x);
  RW [truncdiv (x * c1) x; truncdiv (c1 * x) x] c1;

  (* Rules involving 2-operands. *)
  RW_IF [truncdiv (x * c1 + y) c2] (x * truncdiv c1 c2 + truncdiv y c2)
     (P (fun e => (0 <=? c1v e)%Z && (0 <? c2v e)%Z && (Z.rem (c1v e) (c2v e) =? 0)%Z)
      &&& CPGE x (K 0) &&& CPGE y (K 0));

  RW_IF [truncdiv (min (x * c1) y) c2] (min (x * truncdiv c1 c2) (truncdiv y c2))
     (P (fun e => (0 <=? c1v e)%Z && (0 <? c2v e)%Z && (Z.rem (c1v e) (c2v e) =? 0)%Z)
      &&& CPGE x (K 0) &&& CPGE y (K 0));

  RW_IF [truncdiv (max (x * c1) y) c2] (max (x * truncdiv c1 c2) (truncdiv y c2))
     (P (fun e => (0 <=? c1v e)%Z && (0 <? c2v e)%Z && (Z.rem (c1v e) (c2v e) =? 0)%Z)
      &&& CPGE x (K 0) &&& CPGE y (K 0));

  RW_IF [truncdiv (y + x * c1) c2] (truncdiv y c2 + x * truncdiv c1 c2)
     (P (fun e => (0 <=? c1v e)%Z && (0 <? c2v e)%Z && (Z.rem (c1v e) (c2v e) =? 0)%Z)
      &&& CPGE x (K 0) &&& CPGE y (K 0));

  RW_IF [truncdiv (min y (x * c1)) c2] (min (truncdiv y c2) (x * truncdiv c1 c2))
     (P (fun e => (0 <=? c1v e)%Z && (0 <? c2v e)%Z && (Z.rem (c1v e) (c2v e) =? 0)%Z)
      &&& CPGE x (K 0) &&& CPGE y (K 0));

  RW_IF [truncdiv (max y (x * c1)) c2] (max (truncdiv y c2) (x * truncdiv c1 c2))
     (P (fun e => (0 <=? c1v e)%Z && (0 <? c2v e)%Z && (Z.rem (c1v e) (c2v e) =? 0)%Z)
      &&& CPGE x (K 0) &&& CPGE y (K 0));

  (* Rules involving 3-operands. *)
  RW_IF [truncdiv (x * c1 + y + z) c2] (x * truncdiv c1 c2 + truncdiv (y + z) c2)
     (P (fun e => (0 <=? c1v e)%Z && (0 <? c2v e)%Z && (Z.rem (c1v e) (c2v e) =? 0)%Z)
      &&& CPGE x (K 0) &&& CPGE (y + z) (K 0));

  RW_IF [truncdiv (x * c1 - y + z) c2] (x * truncdiv c1 c2 + truncdiv (z - y) c2)
     (P (fun e => (0 <=? c1v e)%Z && (0 <? c2v e)%Z && (Z.rem (c1v e) (c2v e) =? 0)%Z)
      &&& CPGE x (K 0) &&& CPGE (z - y) (K 0));

  RW_IF [truncdiv (x * c1 + y - z) c2] (x * truncdiv c1 c2 + truncdiv (y - z) c2)
     (P (fun e => (0 <=? c1v e)%Z && (0 <? c2v e)%Z && (Z.rem (c1v e) (c2v e) =? 0)%Z)
      &&& CPGE x (K 0) &&& CPGE (y - z) (K 0));

  RW_IF [truncdiv (y + x * c1 + z) c2] (x * truncdiv c1 c2 + truncdiv (y + z) c2)
     (P (fun e => (0 <? c1v e)%Z && (0 <? c2v e)%Z && (Z.rem (c1v e) (c2v e) =? 0)%Z)
      &&& CPGE x (K 0) &&& CPGE (y + z) (K 0));

  RW_IF [truncdiv (x + c1) c2] (truncdiv x c2 + truncdiv c1 c2)
     (P (fun e => (0 <? c1v e)%Z && (0 <? c2v e)%Z && (Z.rem (c1v e) (c2v e) =? 0)%Z)
      &&& CPGE x (K 0));

  RW_IF [truncdiv (x + y) x; truncdiv (y + x) x] (truncdiv y x + lit 1 (truncdiv y x))
     (CPGE x (K 0) &&& CPGE y (K 0));

  RW_IF [truncdiv ((x + y) + z) x; truncdiv ((y + x) + z) x;
         truncdiv (y + (z + x)) x; truncdiv (y + (x + z)) x]
     (truncdiv (y + z) x + lit 1 (truncdiv (y + z) x))
     (CPGE x (K 0) &&& CPGE (y + z) (K 0));

  RW_IF [truncdiv (x * y) y; truncdiv (y * x) y] x
     (CPGE x (K 0) &&& CPGE y (K 0));

  RW_IF [truncdiv (x * z + y) z; truncdiv (z * x + y) z] (x + truncdiv y z)
     (CPGE x (K 0) &&& CPGE y (K 0) &&& CPGE z (K 0));
  RW_IF [truncdiv (y + x * z) z; truncdiv (y + z * x) z] (truncdiv y z + x)
     (CPGE x (K 0) &&& CPGE y (K 0) &&& CPGE z (K 0))
].

Definition VisitExpr_Div (a b : PrimExpr) : M A PrimExpr :=
  ret_ <- Mutate_Binary visit ODiv a b ;;
  match ret_ with
  | Bin _ a b =>
      match TryConstFold ODiv a b with
      | Some const_res => ret const_res
      | None =>
          match b with
          | FloatImm _ value =>
              (* x / 2.0 = x * 0.5 *)
              let t := dtype ret_ in
              if is_float t || is_bfloat16 t || GetTypeRegistered an (code t) then
                ret (op_mk OMul a (make_const_float (dtype b) (PrimFloat.div PrimFloat.one value)))
              else trap
          | _ =>
              apply_rules an visit
                (when (is_scalable_or_fixed_length_vector (dtype ret_)) Div_vector_rules ++
                 when (IsIndexType (dtype ret_)) (Div_index_rules (dtype ret_)))
                ret_
          end
      end
  | _ => ret ret_
  end.

(** *** Mod (truncated) *)

Definition Mod_vector_rules : list (Rule A) := [
  RW [truncmod (broadcast x lanes_) (broadcast y lanes_)]
     (broadcast (truncmod x y) lanes_);
  (* ramp % bcast *)
  TRY_MATCH [truncmod (ramp b1 c1 lanes_) (broadcast c2 lanes_)] (fun env =>
    let c1val := c1v env in
    let c2val := c2v env in
    if (c2val =? 0)%Z then trap
    else if (Z.rem c1val c2val =? 0)%Z then
      v <- lift (Eval env (broadcast (truncmod b1 c2) lanes_)) ;; ret (Some v)
    else
      (* If all possible indices in ramp are the same. *)
      ge <- CanProveGreaterEqual an (b1e env) 0 ;;
      if ge then
        s <- get ;;
        let bmod := modular_set an (analyzer_ s) (b1e env) in
        match ExtractVscaleFactor (lanes_e env) with
        | None =>
            lanes_int <- lift (lanes_int env) ;;
            let ramp_min := wrap64 (Z.quot (base bmod) c2val) in
            let ramp_max :=
              wrap64 (Z.quot (add64 (base bmod) (mul64 (sub64 lanes_int 1) c1val)) c2val) in
            if (Z.rem (coeff bmod) c2val =? 0)%Z then
              if (ramp_min =? ramp_max)%Z then
                v <- lift (Eval env (ramp (truncmod (lit (base bmod) c2) c2) c1 lanes_)) ;;
                ret (Some v)
              else
                v <- lift (Eval env (truncmod (ramp (truncmod (lit (base bmod) c2) c2) c1 lanes_)
                                              (broadcast c2 lanes_))) ;;
                ret (Some v)
            else ret None
        | Some _ =>
            (* Special case for scalable vectors *)
            if (Z.rem (coeff bmod) c2val =? 0)%Z then
              v <- lift (Eval env (truncmod (ramp (truncmod (lit (base bmod) c2) c2) c1 lanes_)
                                            (broadcast c2 lanes_))) ;;
              ret (Some v)
            else ret None
        end
      else ret None)
].

Definition Mod_index_rules (op_dtype : DataType) : list (Rule A) := [
  RW_IF [truncmod (x * c1) c2] (ZeroWithTypeLike x)
     (P (fun e => negb (c2v e =? 0)%Z && (Z.rem (c1v e) (c2v e) =? 0)%Z));

  RW_IF [truncmod (x * c1 + y) c2] (truncmod y c2)
     (P (fun e => (0 <? c2v e)%Z && (Z.rem (c1v e) (c2v e) =? 0)%Z)
      &&& CPGE (x * c1) (K 0) &&& CPGE y (K 0));

  RW_IF [truncmod (x + c1) c2] (truncmod x c2)
     (P (fun e => (0 <? c2v e)%Z && (0 <=? c1v e)%Z && (Z.rem (c1v e) (c2v e) =? 0)%Z)
      &&& CPGE x (K 0));

  RW_IF [truncmod (x + y * c1) c2] (truncmod x c2)
     (P (fun e => (0 <? c2v e)%Z && (Z.rem (c1v e) (c2v e) =? 0)%Z)
      &&& CPGE x (K 0) &&& CPGE (y * c1) (K 0));

  (* canonicalization: x % c == x % (-c) for truncated division *)
  (* NOTE: trunc div required *)
  TRY_MATCH [truncmod x c1] (fun env =>
    if (c1v env <? 0)%Z then
      v <- lift (Eval env (truncmod x (PConst (make_const op_dtype (neg64 (c1v env)))))) ;;
      w <- RecursiveRewrite an visit v ;;
      ret (Some w)
    else ret None);

  (* try modular analysis *)
  TRY_MATCH [truncmod x c1] (fun env =>
    s <- get ;;
    let mod_ := modular_set an (analyzer_ s) (xe env) in
    let c1val := c1v env in
    r <- lift (rem64 (coeff mod_) c1val) ;;
    ok <- andM (ret ((r =? 0)%Z && (0 <? c1val)%Z)) (CanProveGreaterEqual an (xe env) 0) ;;
    if ok then
      v <- lift (Eval env (truncmod (lit (base mod_) c1) c1)) ;; ret (Some v)
    else ret None)
].

Definition VisitExpr_Mod (a b : PrimExpr) : M A PrimExpr :=
  ret_ <- Mutate_Binary visit OMod a b ;;
  match ret_ with
  | Bin _ a b =>
      match TryConstFold OMod a b with
      | Some const_res => ret const_res
      | None =>
          apply_rules an visit
            (when (is_scalable_or_fixed_length_vector (dtype ret_)) Mod_vector_rules ++
             when (IsIndexType (dtype ret_)) (Mod_index_rules (dtype ret_)))
            ret_
      end
  | _ => ret ret_
  end.

(** *** FloorDiv *)

Definition FloorDiv_vector_rules : list (Rule A) := [
  RW [floordiv (broadcast x lanes_) (broadcast y lanes_)]
     (broadcast (floordiv x y) lanes_);
  (* ramp // bcast *)
  TRY_MATCH [floordiv (ramp b1 c1 lanes_) (broadcast c2 lanes_)] (fun env =>
    let c1val := c1v env in
    let c2val := c2v env in
    if (c2val =? 0)%Z then trap
    else if (Z.rem c1val c2val =? 0)%Z then
      v <- lift (Eval env (ramp (floordiv b1 c2) (floordiv c1 c2) lanes_)) ;; ret (Some v)
    else
      (* If all possible indices in ramp are the same. *)
      match ExtractVscaleFactor (lanes_e env) with
      | Some _ => ret None
      | None =>
          s <- get ;;
          let bmod := modular_set an (analyzer_ s) (b1e env) in
          let ramp_min := wrap64 (base bmod / c2val) in
          lanes_int <- lift (lanes_int env) ;;
          let top := add64 (base bmod) (mul64 (sub64 lanes_int 1) c1val) in
          let ramp_max := wrap64 (top / c2val) in
          if (ramp_min =? ramp_max)%Z then
            (* If b1 can divide c2 *)
            r <- lift (rem64 (coeff bmod) c2val) ;;
            if (r =? 0)%Z then
              v <- lift (Eval env (broadcast (floordiv b1 c2) lanes_)) ;; ret (Some v)
            else
              (* If all indices can be guaranteed to settle inside a coeff range *)
              r' <- lift (rem64 c2val (coeff bmod)) ;;
              if (r' =? 0)%Z && (top <? coeff bmod)%Z then
                v <- lift (Eval env (broadcast (floordiv b1 c2) lanes_)) ;; ret (Some v)
              else ret None
          else ret None
      end)
].

Definition FloorDiv_index_rules (ret_ : PrimExpr) : list (Rule A) := [
  (* Be-aware of the division rules: this is floor division. *)
  RW_IF [floordiv (floordiv x c1) c2] (floordiv x (c1 * c2))
     (P (fun e => (0 <? c1v e)%Z && (0 <? c2v e)%Z));

  RW_IF [floordiv (floordiv x c1 + c2) c3] (floordiv (x + c1 * c2) (c1 * c3))
     (P (fun e => (0 <? c1v e)%Z && (0 <? c3v e)%Z));

  TRY_MATCH [floordiv (x * c1 + y) c2; floordiv (x * c1) c2; floordiv (y + x * c1) c2]
    (fun env =>
    let c1val := c1v env in
    let c2val := c2v env in
    let yval := match env_get env iy with Some v => v | None => Integer 0 end in
    if (c2val =? 0)%Z then ret (Some ret_)
    else
      (* try eliminate residue part *)
      let residue :=
        op_c OFloorDiv
          (op_mk OAdd (op_mk OMul (xe env) (op_c OFloorMod (c1e env) c2val))
                      (op_c OFloorMod yval c2val))
          c2val in
      eq0 <- CanProveEqual an visit (op_c OFloorDiv yval c2val) 0 ;;
      let y_div := if eq0 then Integer 0 else op_c OFloorDiv yval c2val in
      s <- get ;;
      let bound := const_int_bound an (analyzer_ s) residue in
      if (max_value bound =? min_value bound)%Z then
        ret (Some (op_mk OAdd (op_mk OMul (xe env) (c_op OFloorDiv c1val (c2e env)))
                              (op_mk OAdd y_div (Integer (max_value bound)))))
      else
        (* try simplify divisor *)
        ok <- andM (ret ((0 <? c1val)%Z && (0 <? c2val)%Z && (Z.rem c2val c1val =? 0)%Z))
                   (CanProveLess an (op_c OFloorMod yval c2val) c1val) ;;
        if ok then
          ret (Some (op_mk OAdd (op_c OFloorDiv (xe env) (wrap64 (c2val / c1val))) y_div))
        else ret None);

  RW [floordiv x x] (OneWithTypeLike x);
  RW [floordiv (x * c1) x; floordiv (c1 * x) x] c1;

  RW [floordiv (floormod x (lit 2 x) + lit 1 (floormod x (lit 2 x)))
               (lit 2 (floormod x (lit 2 x) + lit 1 (floormod x (lit 2 x))))]
     (floormod x (lit 2 x));

  (* Rules involving 2-operands. *)
  RW_IF [floordiv (min (x * c1) y) c2] (min (x * floordiv c1 c2) (floordiv y c2))
     (P (fun e => (0 <? c2v e)%Z && (Z.rem (c1v e) (c2v e) =? 0)%Z));

  RW_IF [floordiv (max (x * c1) y) c2] (max (x * floordiv c1 c2) (floordiv y c2))
     (P (fun e => (0 <? c2v e)%Z && (Z.rem (c1v e) (c2v e) =? 0)%Z));

  RW_IF [floordiv (min y (x * c1)) c2] (min (floordiv y c2) (x * floordiv c1 c2))
     (P (fun e => (0 <? c2v e)%Z && (Z.rem (c1v e) (c2v e) =? 0)%Z));

  RW_IF [floordiv (max y (x * c1)) c2] (max (floordiv y c2) (x * floordiv c1 c2))
     (P (fun e => (0 <? c2v e)%Z && (Z.rem (c1v e) (c2v e) =? 0)%Z));

  (* Rules involving 3-operands. *)
  RW_IF [floordiv (x * c1 + y + z) c2] (x * floordiv c1 c2 + floordiv (y + z) c2)
     (P (fun e => (0 <? c2v e)%Z && (Z.rem (c1v e) (c2v e) =? 0)%Z));
  RW_IF [floordiv (x * c1 + y + z) c2] (floordiv x (floordiv c2 c1))
     (P (fun e => (0 <? c1v e)%Z && (0 <? c2v e)%Z && (Z.rem (c2v e) (c1v e) =? 0)%Z)
      &&& (fun env => CanProveEqual an visit
             (op_mk OFloorDiv (op_mk OAdd (ye env) (ze env)) (c1e env)) 0));

  RW_IF [floordiv (x * c1 - y + z) c2; floordiv (x * c1 + z - y) c2]
     (x * floordiv c1 c2 + floordiv (z - y) c2)
     (P (fun e => (0 <? c2v e)%Z && (Z.rem (c1v e) (c2v e) =? 0)%Z));

  RW_IF [floordiv (y + x * c1 + z) c2] (x * floordiv c1 c2 + floordiv (y + z) c2)
     (P (fun e => (0 <? c2v e)%Z && (Z.rem (c1v e) (c2v e) =? 0)%Z));

  RW_IF [floordiv (x + c1) c2] (floordiv x c2 + floordiv c1 c2)
     (P (fun e => (0 <? c2v e)%Z && (Z.rem (c1v e) (c2v e) =? 0)%Z));

  RW_IF [floordiv (x * c1) (x * c2)] (floordiv c1 c2) (P (fun e => (0 <? c2v e)%Z));

  RW_IF [floordiv (x + y) x; floordiv (y + x) x] (floordiv y x + lit 1 (floordiv y x))
     (CPGE x (K 0));

  RW_IF [floordiv ((x + y) + z) x; floordiv ((y + x) + z) x;
         floordiv (y + (z + x)) x; floordiv (y + (x + z)) x]
     (floordiv (y + z) x + lit 1 (floordiv (y + z) x))
     (CPGE x (K 0));

  RW_IF [floordiv (x * y) y; floordiv (y * x) y] x (CPGE y (K 0));

  RW_IF [floordiv (x * z + y) z; floordiv (z * x + y) z] (x + floordiv y z) (CPGE z (K 0));
  RW_IF [floordiv (y + x * z) z; floordiv (y + z * x) z] (floordiv y z + x) (CPGE z (K 0));
  RW_IF [floordiv (x * z * c1 + y) (z * c1)] (x + floordiv y (z * c1))
     (fun env => CanProveGreaterEqual an (op_mk OMul (ze env) (c1e env)) 0);

  RW_IF [floordiv (x - floormod x c1) c1] (floordiv x c1) (P (fun e => negb (c1v e =? 0)%Z));

  (* Scalable divisor *)
  RW_IF [floordiv x y] (ZeroWithTypeLike x)
     (P (fun e => ContainsVscaleCall (ye e)) &&& CPGE x (K 0) &&& CPGE y (K 0)
      &&& (fun env => CanProve an (op_mk OLT (xe env) (ye env))))
].

Definition VisitExpr_FloorDiv (a b : PrimExpr) : M A PrimExpr :=
  ret_ <- Mutate_Binary visit OFloorDiv a b ;;
  match ret_ with
  | Bin _ a b =>
      match TryConstFold OFloorDiv a b with
      | Some const_res => ret const_res
      | None =>
          apply_rules an visit
            (when (is_scalable_or_fixed_length_vector (dtype ret_)) FloorDiv_vector_rules ++
             when (IsIndexType (dtype ret_)) (FloorDiv_index_rules ret_))
            ret_
      end
  | _ => ret ret_
  end.

(** *** FloorMod *)

Definition FloorMod_vector_rules : list (Rule A) := [
  RW [floormod (broadcast x lanes_) (broadcast y lanes_)]
     (broadcast (floormod x y) lanes_);
  (* floormod(ramp, bcast) *)
  TRY_MATCH [floormod (ramp b1 c1 lanes_) (broadcast c2 lanes_)] (fun env =>
    let c1val := c1v env in
    let c2val := c2v env in
    if (c2val =? 0)%Z then trap
    else if (Z.rem c1val c2val =? 0)%Z then
      v <- lift (Eval env (broadcast (floormod b1 c2) lanes_)) ;; ret (Some v)
    else
      (* If all possible indices in ramp are the same. *)
      s <- get ;;
      let bmod := modular_set an (analyzer_ s) (b1e env) in
      let reduced := (floormod (ramp (floormod (lit (base bmod) c2) c2) c1 lanes_)
                               (broadcast c2 lanes_))%pat in
      match ExtractVscaleFactor (lanes_e env) with
      | None =>
          let ramp_min := wrap64 (base bmod / c2val) in
          lanes_int <- lift (lanes_int env) ;;
          let top := add64 (base bmod) (mul64 (sub64 lanes_int 1) c1val) in
          let ramp_max := wrap64 (top / c2val) in
          r <- lift (rem64 (coeff bmod) c2val) ;;
          if (ramp_min =? ramp_max)%Z then
            (* If b1 can divide c2 *)
            if (r =? 0)%Z then
              v <- lift (Eval env (ramp (floormod (lit (base bmod) c2) c2) c1 lanes_)) ;;
              ret (Some v)
            else
              (* If all indices can be guaranteed to settle inside a coeff range *)
              r' <- lift (rem64 c2val (coeff bmod)) ;;
              if (r' =? 0)%Z && (top <? coeff bmod)%Z then
                v <- lift (Eval env (ramp (floormod b1 c2) c1 lanes_)) ;; ret (Some v)
              else ret None
          else
            (* If b1 can divide c2 *)
            if (r =? 0)%Z then v <- lift (Eval env reduced) ;; ret (Some v)
            else ret None
      | Some _ =>
          (* scalable vectors *)
          r <- lift (rem64 (coeff bmod) c2val) ;;
          if (r =? 0)%Z then v <- lift (Eval env reduced) ;; ret (Some v)
          else ret None
      end)
].

Definition FloorMod_index_rules : list (Rule A) := [
  (* Be-aware of the division rules: we use floordiv/floormod here *)
  RW_IF [floormod (x * c1) c2] (floormod (x * floormod c1 c2) c2)
     (P (fun e => negb (c2v e =? 0)%Z));

  RW_IF [floormod (x * c1 + y) c2] (floormod x (floordiv c2 c1) * c1 + y)
     (P (fun e => (0 <? c1v e)%Z && (0 <? c2v e)%Z && (Z.rem (c2v e) (c1v e) =? 0)%Z)
      &&& (fun env => CanProveEqual an visit (op_mk OFloorDiv (ye env) (c1e env)) 0));

  RW_IF [floormod (x * c1 + y) c2] (floormod (x * floormod c1 c2 + y) c2)
     (P (fun e => (0 <? c2v e)%Z));

  (* (x + 5) % 2 -> (x + 1) %2,  (x + 3) % 3 => x *)
  RW_IF [floormod (x + c1) c2] (floormod (x + floormod c1 c2) c2)
     (P (fun e => (0 <? c2v e)%Z && ((c2v e <=? c1v e)%Z || (c1v e <? 0)%Z)));

  RW_IF [floormod (x + y * c1) c2] (floormod (x + y * floormod c1 c2) c2)
     (P (fun e => (0 <? c2v e)%Z));

  RW_IF [floormod (x * c1) (x * c2)] (x * floormod c1 c2) (P (fun e => negb (c2v e =? 0)%Z));

  RW [floormod (x * y) y; floormod (y * x) y] (ZeroWithTypeLike y);

  (* x = ay + b, then (ay + b + (ny - ay - b) % y) % y -> (b + (-b) % y) % y -> 0 *)
  RW_IF [floormod (x + floormod z y) y; floormod (floormod z y + x) y] (ZeroWithTypeLike x)
     (fun env => CanProveEqual an visit
        (op_mk OFloorMod (op_mk OAdd (xe env) (ze env)) (ye env)) 0);
  (* x = ay + b, then (ay + b - (ay + b) % +-y) % y -> (b - b % +-y) % y -> 0 *)
  RW_IF [floormod (x - floormod x z) y; floormod (floormod x z - x) y] (ZeroWithTypeLike x)
     (c_or (fun env => CanProveEqual an visit (op_mk OSub (ye env) (ze env)) 0)
           (fun env => CanProveEqual an visit (op_mk OAdd (ye env) (ze env)) 0));

  RW_IF [floormod (x * z * c1 + y) (z * c1)] (floormod y (z * c1))
     (fun env => CanProveGreaterEqual an (op_mk OMul (ze env) (c1e env)) 0);

  (* Scalable divisor *)
  RW_IF [floormod x y] x
     (P (fun e => ContainsVscaleCall (ye e)) &&& CPGE x (K 0) &&& CPGE y (K 0)
      &&& (fun env => CanProve an (op_mk OLT (xe env) (ye env))));

  TRY_MATCH [floormod x c1] (fun env =>
    let c1val := c1v env in
    if (0 <? c1val)%Z then
      (* try modular analysis *)
      s <- get ;;
      let mod_ := modular_set an (analyzer_ s) (xe env) in
      if (Z.rem (coeff mod_) c1val =? 0)%Z then
        v <- lift (Eval env (floormod (lit (base mod_) c1) c1)) ;; ret (Some v)
      else
        (* floormod(x,c1) is a no-op when x is already in the appropriate range. *)
        let bound := const_int_bound an (analyzer_ s) (xe env) in
        if (0 <=? min_value bound)%Z && (max_value bound <? c1val)%Z then
          ret (Some (xe env))
        else ret None
    else ret None)
].

Definition VisitExpr_FloorMod (a b : PrimExpr) : M A PrimExpr :=
  ret_ <- Mutate_Binary visit OFloorMod a b ;;
  match ret_ with
  | Bin _ a b =>
      match TryConstFold OFloorMod a b with
      | Some const_res => ret const_res
      | None =>
          apply_rules an visit
            (when (is_scalable_or_fixed_length_vector (dtype ret_)) FloorMod_vector_rules ++
             when (IsIndexType (dtype ret_)) FloorMod_index_rules)
            ret_
      end
  | _ => ret ret_
  end.

(** *** Min *)

Definition Min_vector_rules : list (Rule A) := [
  RW [min (broadcast x lanes_) (broadcast y lanes_)] (broadcast (min x y) lanes_);
  RW [min (min x (broadcast y lanes_)) (broadcast z lanes_)]
     (min x (broadcast (min y z) lanes_))
].

Definition Min_index_rules (op_a op_b : PrimExpr) : list (Rule A) := [
  RW [min x x] x;

  (* constant int bound *)
  STEP (s <- get ;;
        let a_bound := const_int_bound an (analyzer_ s) op_a in
        let b_bound := const_int_bound an (analyzer_ s) op_b in
        if (max_value a_bound <=? min_value b_bound)%Z then ret (Some op_a)
        else if (max_value b_bound <=? min_value a_bound)%Z then ret (Some op_b)
        else ret None);

  (* constant comparison *)
  TRY_MATCH [min (x + c1) (x + c2)] (fun env =>
    if (c1v env <? c2v env)%Z
    then v <- lift (Eval env (x + c1)) ;; ret (Some v)
    else v <- lift (Eval env (x + c2)) ;; ret (Some v));
  TRY_MATCH [min (x + c1) x; min x (x + c1)] (fun env =>
    if (c1v env <? 0)%Z
    then v <- lift (Eval env (x + c1)) ;; ret (Some v)
    else ret (Some (xe env)));
  TRY_MATCH [min (c1 - x) (c2 - x)] (fun env =>
    if (c1v env <? c2v env)%Z
    then v <- lift (Eval env (c1 - x)) ;; ret (Some v)
    else v <- lift (Eval env (c2 - x)) ;; ret (Some v));

  (* DivMod rules *)
  (* NOTE: trucdiv(x, y) >= floordiv(x, y) *)
  RW_IF [min (truncdiv (x + c1) c2 * c2) x; min x (truncdiv (x + c1) c2 * c2);
         min (floordiv (x + c1) c2 * c2) x; min x (floordiv (x + c1) c2 * c2)] x
     (P (fun e => (0 <? c2v e)%Z && (add64 (c1v e) 1 =? c2v e)%Z));

  RW_IF [min (truncdiv (x + c1) c2 * c2) (max x c2);
         min (max x c2) (truncdiv (x + c1) c2 * c2);
         min (floordiv (x + c1) c2 * c2) (max x c2);
         min (max x c2) (floordiv (x + c1) c2 * c2)] (max x c2)
     (P (fun e => (0 <? c2v e)%Z && (add64 (c1v e) 1 =? c2v e)%Z) &&& CPGE x (K 1));

  RW_IF [min x (floordiv x c2 * c2); min (floordiv x c2 * c2) x] (floordiv x c2 * c2)
     (P (fun e => (0 <? c2v e)%Z));

  RW [min (max x y) (min x y);
      min (max x y) (min y x);
      min (min x y) (max x y);
      min (min x y) (max y x);
      min (min x y) x;
      min (min x y) y;
      min x (min x y);
      min y (min x y)] (min x y);

  RW [min (max x y) x;
      min (max y x) x;
      min x (max x y);
      min x (max y x)] x;

  RW [min (min (min x y) z) y] (min (min x y) z);
  RW [min (min (min (min x y) z) s1) y] (min (min (min x y) z) s1);
  RW [min (min (min (min (min x y) z) s1) s2) y] (min (min (min (min x y) z) s1) s2);

  RW [min (max x y) (max x z);
      min (max x y) (max z x);
      min (max y x) (max x z);
      min (max y x) (max z x)] (max (min y z) x);

  RW [min (min x y) (min x z);
      min (min x y) (min z x);
      min (min y x) (min x z);
      min (min y x) (min z x)] (min (min y z) x);

  RW [min (y + x) (z + x);
      min (y + x) (x + z);
      min (x + y) (x + z);
      min (x + y) (z + x)] (min y z + x);

  (* sub distribution *)
  RW [min (y - x) (z - x)] (min y z - x);
  RW [min (x - y) (x - z)] (x - max y z);

  (* constant folding rule. *)
  RW [min (min x c1) c2] (min x (min c1 c2));

  (* scaling rule *)
  TRY_MATCH [min (truncdiv x c1) (truncdiv y c1)] (fun env =>
    if (0 <? c1v env)%Z
    then v <- lift (Eval env (truncdiv (min x y) c1)) ;; ret (Some v)
    else v <- lift (Eval env (truncdiv (max x y) c1)) ;; ret (Some v));
  TRY_MATCH [min (floordiv x c1) (floordiv y c1)] (fun env =>
    if (0 <? c1v env)%Z
    then v <- lift (Eval env (floordiv (min x y) c1)) ;; ret (Some v)
    else v <- lift (Eval env (floordiv (max x y) c1)) ;; ret (Some v));
  TRY_MATCH [min (x * c1) (y * c1)] (fun env =>
    if (0 <? c1v env)%Z
    then v <- lift (Eval env (min x y * c1)) ;; ret (Some v)
    else v <- lift (Eval env (max x y * c1)) ;; ret (Some v));
  TRY_MATCH [min (x * c1) c2] (fun env =>
    let c1val := c1v env in
    let c2val := c2v env in
    if (c1val =? 0)%Z then
      ret (Some (if (c2val <? 0)%Z then c2e env else c1e env))
    else if (Z.rem c2val c1val =? 0)%Z then
      let q := wrap64 (Z.quot c2val c1val) in
      if (0 <? c1val)%Z
      then v <- lift (Eval env (min x (lit q x) * lit c1val (min x (lit q x)))) ;;
           ret (Some v)
      else v <- lift (Eval env (max x (lit q x) * lit c1val (max x (lit q x)))) ;;
           ret (Some v)
    else ret None);

  (* vscale expression comparison *)
  STEP (if ContainsVscaleCall op_a || ContainsVscaleCall op_b then
          le1 <- CanProve an (op_mk OLE op_a op_b) ;;
          if le1 then ret (Some op_a)
          else
            le2 <- CanProve an (op_mk OLE op_b op_a) ;;
            if le2 then ret (Some op_b) else ret None
        else ret None);

  (* canonicalization *)
  RW_REC [min (min x c1) y] (min (min x y) c1);
  RW_REC_IF [min (c1 - x) c2] (c1 - max x (c1 - c2)) (P (fun e => negb (c2v e =? 0)%Z))
].

Definition VisitExpr_Min (a b : PrimExpr) : M A PrimExpr :=
  ret_ <- Mutate_Binary visit OMin a b ;;
  match ret_ with
  | Bin _ a b =>
      match TryConstFold OMin a b with
      | Some const_res => ret const_res
      | None =>
          apply_rules an visit
            (when (is_scalable_or_fixed_length_vector (dtype ret_)) Min_vector_rules ++
             when (IsIndexType (dtype ret_)) (Min_index_rules a b) ++
             (* condition rules *)
             [RW [min (select x y z) (select x s1 s2)] (select x (min y s1) (min z s2))])
            ret_
      end
  | _ => ret ret_
  end.

(** *** Max *)

Definition Max_vector_rules : list (Rule A) := [
  RW [max (broadcast x lanes_) (broadcast y lanes_)] (broadcast (max x y) lanes_);
  RW [max (max x (broadcast y lanes_)) (broadcast z lanes_)]
     (max x (broadcast (max y z) lanes_))
].

Definition Max_index_rules (op_a op_b : PrimExpr) : list (Rule A) := [
  RW [max x x] x;

  (* constant int bound *)
  STEP (s <- get ;;
        let a_bound := const_int_bound an (analyzer_ s) op_a in
        let b_bound := const_int_bound an (analyzer_ s) op_b in
        if (max_value b_bound <=? min_value a_bound)%Z then ret (Some op_a)
        else if (max_value a_bound <=? min_value b_bound)%Z then ret (Some op_b)
        else ret None);

  (* constant comparison *)
  TRY_MATCH [max (x + c1) (x + c2)] (fun env =>
    if (c2v env <? c1v env)%Z
    then v <- lift (Eval env (x + c1)) ;; ret (Some v)
    else v <- lift (Eval env (x + c2)) ;; ret (Some v));
  TRY_MATCH [max (x + c1) x; max x (x + c1)] (fun env =>
    if (0 <? c1v env)%Z
    then v <- lift (Eval env (x + c1)) ;; ret (Some v)
    else ret (Some (xe env)));
  TRY_MATCH [max (c1 - x) (c2 - x)] (fun env =>
    if (c2v env <? c1v env)%Z
    then v <- lift (Eval env (c1 - x)) ;; ret (Some v)
    else v <- lift (Eval env (c2 - x)) ;; ret (Some v));

  (* DivMod rules *)
  (* Divide up rounding: truc div *)
  (* NOTE: trucdiv(x, y) >= floordiv(x, y) *)
  RW_IF [max (truncdiv (x + c1) c2 * c2) x; max x (truncdiv (x + c1) c2 * c2)]
     (truncdiv (x + c1) c2 * c2)
     (P (fun e => (0 <? c2v e)%Z && (add64 (c1v e) 1 =? c2v e)%Z));

  (* Divide up rounding: floor div *)
  RW_IF [max (floordiv (x + c1) c2 * c2) x; max x (floordiv (x + c1) c2 * c2)]
     (floordiv (x + c1) c2 * c2)
     (P (fun e => (0 <? c2v e)%Z && (add64 (c1v e) 1 =? c2v e)%Z));

  RW_IF [max (floordiv x c2 * c2) x; max x (floordiv x c2 * c2)] x
     (P (fun e => (0 <? c2v e)%Z));

  RW [max (min x y) x;
      max (min y x) x;
      max x (min x y);
      max x (min y x)] x;

  RW [max (min x y) (max x y);
      max (min x y) (max y x);
      max (max x y) (min x y);
      max (max x y) (min y x);
      max (max x y) x;
      max (max x y) y;
      max x (max x y);
      max y (max x y)] (max x y);

  RW [max (max (max x y) z) y] (max (max x y) z);
  RW [max (max (max (max x y) z) s1) y] (max (max (max x y) z) s1);
  RW [max (max (max (max (max x y) z) s1) s2) y] (max (max (max (max x y) z) s1) s2);

  (* max/max cancelation *)
  RW [max (max x y) (max x z);
      max (max x y) (max z x);
      max (max y x) (max x z);
      max (max y x) (max z x)] (max (max y z) x);

  (* max/min distribution *)
  RW [max (min x y) (min x z);
      max (min x y) (min z x);
      max (min y x) (min x z);
      max (min y x) (min z x)] (min (max y z) x);

  (* add distribution *)
  RW [max (y + x) (z + x);
      max (y + x) (x + z);
      max (x + y) (x + z);
      max (x + y) (z + x)] (max y z + x);

  (* sub distribution *)
  RW [max (y - x) (z - x)] (max y z - x);
  RW [max (x - y) (x - z)] (x - min y z);

  (* constant folding rule. *)
  RW [max (max x c1) c2] (max x (max c1 c2));

  (* scaling rule *)
  TRY_MATCH [max (truncdiv x c1) (truncdiv y c1)] (fun env =>
    if (0 <? c1v env)%Z
    then v <- lift (Eval env (truncdiv (max x y) c1)) ;; ret (Some v)
    else v <- lift (Eval env (truncdiv (min x y) c1)) ;; ret (Some v));
  TRY_MATCH [max (floordiv x c1) (floordiv y c1)] (fun env =>
    if (0 <? c1v env)%Z
    then v <- lift (Eval env (floordiv (max x y) c1)) ;; ret (Some v)
    else v <- lift (Eval env (floordiv (min x y) c1)) ;; ret (Some v));
  TRY_MATCH [max (x * c1) (y * c1)] (fun env =>
    if (0 <? c1v env)%Z
    then v <- lift (Eval env (max x y * c1)) ;; ret (Some v)
    else v <- lift (Eval env (min x y * c1)) ;; ret (Some v));
  TRY_MATCH [max (x * c1) c2] (fun env =>
    let c1val := c1v env in
    let c2val := c2v env in
    if (c1val =? 0)%Z then
      ret (Some (if (0 <? c2val)%Z then c2e env else c1e env))
    else if (Z.rem c2val c1val =? 0)%Z then
      let q := wrap64 (Z.quot c2val c1val) in
      if (0 <? c1val)%Z
      then v <- lift (Eval env (max x (lit q x) * lit c1val (max x (lit q x)))) ;;
           ret (Some v)
      else v <- lift (Eval env (min x (lit q x) * lit c1val (min x (lit q x)))) ;;
           ret (Some v)
    else ret None);

  (* vscale expression comparison *)
  STEP (if ContainsVscaleCall op_a || ContainsVscaleCall op_b then
          ge1 <- CanProve an (op_mk OGE op_a op_b) ;;
          if ge1 then ret (Some op_a)
          else
            ge2 <- CanProve an (op_mk OGE op_b op_a) ;;
            if ge2 then ret (Some op_b) else ret None
        else ret None);

  (* canonicalization *)
  RW_REC [max (max x c1) y] (max (max x y) c1);
  RW_REC_IF [max (c1 - x) c2] (c1 - min x (c1 - c2)) (P (fun e => negb (c2v e =? 0)%Z))
].

Definition VisitExpr_Max (a b : PrimExpr) : M A PrimExpr :=
  ret_ <- Mutate_Binary visit OMax a b ;;
  match ret_ with
  | Bin _ a b =>
      match TryConstFold OMax a b with
      | Some const_res => ret const_res
      | None =>
          apply_rules an visit
            (when (is_scalable_or_fixed_length_vector (dtype ret_)) Max_vector_rules ++
             when (IsIndexType (dtype ret_)) (Max_index_rules a b) ++
             (* condition rules *)
             [RW [max (select x y z) (select x s1 s2)] (select x (max y s1) (max z s2))])
            ret_
      end
  | _ => ret ret_
  end.

(** *** The constraint stack *)

(** The restore function returned by [EnterConstraint]. *)
Definition frecover (old_literal_size new_literal_size : nat) : M A unit :=
  s <- get ;;
  if Nat.eqb (List.length (literal_constraints_ s)) new_literal_size
  then set_literal_constraints (firstn old_literal_size (literal_constraints_ s))
  else trap.

Definition push_constraint (subconstraint : PrimExpr) : M A unit :=
  if effect_le (SideEffect an subconstraint) kPure then
    s <- get ;;
    let negation :=
      if is_bool (dtype subconstraint)
      then NormalizeBooleanOperators (Not subconstraint)
      else op_mk OEQ subconstraint (make_zero (dtype subconstraint)) in
    set_literal_constraints (literal_constraints_ s ++ [subconstraint; Not negation])
  else ret tt.

Fixpoint push_constraints (l : list PrimExpr) : M A unit :=
  match l with
  | [] => ret tt
  | c :: r => push_constraint c ;;; push_constraints r
  end.

(** [RewriteSimplifier::Impl::EnterConstraint]; [operator()] of the
    implementation is one run of the mutator. *)
Definition EnterConstraint (constraint : PrimExpr) : M A (M A unit) :=
  s <- get ;;
  let old_literal_size := List.length (literal_constraints_ s) in
  new_constraint <- visit constraint ;;
  push_constraints (ExtractConstraints new_constraint) ;;;
  s' <- get ;;
  let new_literal_size := List.length (literal_constraints_ s') in
  ret (frecover old_literal_size new_literal_size).

(** Modelled from the spec: [With<ConstraintContext>] belongs to the
    analyzer, outside the sources: "a scoped helper; enters constraint into
    oracles for the body and removes it on exit"; the simplifier takes its
    share through [EnterConstraint] and its restore function. *)
Definition WithConstraintContext {T} (constraint : PrimExpr) (body : M A T) : M A T :=
  s <- get ;;
  set_analyzer (analyzer_EnterConstraint an (analyzer_ s) constraint) ;;;
  recover <- EnterConstraint constraint ;;
  r <- body ;;
  recover ;;;
  s' <- get ;;
  set_analyzer (analyzer_ExitConstraint an (analyzer_ s')) ;;;
  ret r.

(** *** EQ *)

Definition ApplyRewriteRules_EQ (ret_ : PrimExpr) : M A PrimExpr :=
  match ret_ with
  | Bin _ a b =>
      let ctrue := PConst (const_true (dtype ret_)) in
      apply_rules an visit
        (when (is_scalable_or_fixed_length_vector (dtype ret_))
           [RW [broadcast x lanes_ == broadcast y lanes_] (broadcast (x == y) lanes_)] ++
         (if IsIndexType (dtype a) then
            [STEP (result <- TryCompare an visit a b ;;
                   match result with
                   | kEQ => ret (Some (const_true (dtype ret_)))
                   | kNE | kGT | kLT => ret (Some (const_false (dtype ret_)))
                   | _ => ret None
                   end);
             RW [c1 == x] (x == c1);

             RW [x - c1 == c2] (x == c2 + c1);
             RW [c1 - x == c2] (x == c1 - c2);
             RW [x + c1 == c2] (x == c2 - c1);
             RW_REC [x * y == lit 0 (x * y)] (x == lit 0 x \/ y == lit 0 y);
             RW [x == x] ctrue]
          else
            (* Mimic the cancellation rules for SubNode. *)
            [RW_IF [x == x] ctrue (SideEffectLE x kReadState)]))
        ret_
  | _ => ret ret_
  end.

Definition VisitExpr_EQ (a b : PrimExpr) : M A PrimExpr :=
  ret_ <- Mutate_Binary visit OEQ a b ;;
  match ret_ with
  | Bin _ a b =>
      match TryConstFold OEQ a b with
      | Some const_res => ret const_res
      | None =>
          m <- TryMatchLiteralConstraint ret_ ;;
          match m with
          | Some v => ret v
          | None => ApplyRewriteRules_EQ ret_
          end
      end
  | _ => ret ret_
  end.

(** *** LT *)

Definition merge_constants (a b : PrimExpr) : option PrimExpr :=
  let (lhs, lhs_offset) := ExtractConstantOffset a in
  let (rhs, rhs_offset) := ExtractConstantOffset b in
  if ((lhs_offset =? 0) && (rhs_offset =? 0))%Z then None
  else
    let diff := sub64 rhs_offset lhs_offset in
    if (diff =? 0)%Z then Some (op_mk OLT lhs rhs)
    else if (diff =? 1)%Z then Some (op_mk OLE lhs rhs)
    else if ((diff <? 0) && negb (rhs_offset =? 0))%Z then
      Some (op_mk OLT (op_mk OAdd lhs (make_const (dtype lhs) (neg64 diff))) rhs)
    else if ((0 <? diff) && negb (lhs_offset =? 0))%Z then
      Some (op_mk OLT lhs (op_mk OAdd rhs (make_const (dtype rhs) diff)))
    else None.

Definition LT_index_rules (a b : PrimExpr) (ret_dtype : DataType) : list (Rule A) := [
  STEP (result <- TryCompare an visit a b ;;
        match result with
        | kLT => ret (Some (const_true ret_dtype))
        | kEQ | kGT | kGE => ret (Some (const_false ret_dtype))
        | _ => ret None
        end);

  RW [x + y < x + z] (y < z);
  RW [x + y < z + x] (y < z);
  RW [y + x < x + z] (y < z);
  RW [y + x < z + x] (y < z);
  RW [y - x < z - x] (y < z);
  RW [x - y < x - z] (z < y);

  RW [x < x + z] (lit 0 z < z);
  RW [x < z + x] (lit 0 z < z);
  RW [x < x - z] (z < lit 0 z);

  RW_IF [x * c1 < y * c1] (x < y) (P (fun e => (0 <? c1v e)%Z));
  RW_IF [x * c1 < y * c1] (y < x) (P (fun e => (c1v e <? 0)%Z));

  (* constant cancelation: only need to make use of one mod *)
  (* truc div *)
  RW_IF [x * c2 < c1] (x < truncdiv (c1 - lit 1 c1) c2 + lit 1 (truncdiv (c1 - lit 1 c1) c2))
     (P (fun e => (0 <? c1v e)%Z && (0 <? c2v e)%Z));
  (* NOTE: trunc div required *)
  RW_IF [x * c2 < c1] (x < truncdiv c1 c2)
     (P (fun e => (c1v e <=? 0)%Z && (0 <? c2v e)%Z));
  (* NOTE: trunc div required (euclidean is ok too, floored is not) *)
  RW_IF [x * c2 < c1] (truncdiv (c1 - lit 1 c1) c2 - lit 1 (truncdiv (c1 - lit 1 c1) c2) < x)
     (P (fun e => (0 <? c1v e)%Z && (c2v e <? 0)%Z));
  (* NOTE: trunc div required (floored is ok too, euclidean is not) *)
  RW_IF [x * c2 < c1] (truncdiv c1 c2 < x)
     (P (fun e => (c1v e <=? 0)%Z && (c2v e <? 0)%Z));
  (* NOTE: trunc div required *)
  RW_IF [c1 < x * c2] (truncdiv (c1 + lit 1 c1) c2 - lit 1 (truncdiv (c1 + lit 1 c1) c2) < x)
     (P (fun e => (c1v e <? 0)%Z && (0 <? c2v e)%Z));
  RW_IF [c1 < x * c2] (truncdiv c1 c2 < x)
     (P (fun e => (0 <=? c1v e)%Z && (0 <? c2v e)%Z));
  (* NOTE: trunc div required (floored is ok too, euclidean is not) *)
  RW_IF [c1 < x * c2] (x < truncdiv (c1 + lit 1 c1) c2 + lit 1 (truncdiv (c1 + lit 1 c1) c2))
     (P (fun e => (c1v e <? 0)%Z && (c2v e <? 0)%Z));
  (* NOTE: trunc div required (euclidean is ok too, floored is not) *)
  RW_IF [c1 < x * c2] (x < truncdiv c1 c2)
     (P (fun e => (0 <=? c1v e)%Z && (c2v e <? 0)%Z));
  (* DivMod rules *)
  (* trucdiv *)
  RW_IF [truncdiv x c1 < c2] (x < c1 * c2)
     (P (fun e => (0 <? c1v e)%Z && (0 <? c2v e)%Z));
  (* NOTE: trunc div required *)
  RW_IF [truncdiv x c1 < c2] (x < c1 * (c2 - lit 1 c2) + lit 1 (c1 * (c2 - lit 1 c2)))
     (P (fun e => (0 <? c1v e)%Z && (c2v e <=? 0)%Z));

  RW_IF [c1 < truncdiv x c2] ((c1 + lit 1 c1) * c2 - lit 1 ((c1 + lit 1 c1) * c2) < x)
     (P (fun e => (0 <=? c1v e)%Z && (0 <? c2v e)%Z));
  (* NOTE: trunc div required *)
  RW_IF [c1 < truncdiv x c2] (c1 * c2 < x)
     (P (fun e => (c1v e <? 0)%Z && (0 <? c2v e)%Z));

  (* invariance for any div mod: x - (x / c1) * c1 == x % c1 *)
  RW_IF [truncdiv x c1 * c1 < x] (lit 0 (truncmod x c1) < truncmod x c1)
     (P (fun e => (0 <? c1v e)%Z));
  RW_IF [truncdiv x c1 * c1 < x + y] (lit 0 (truncmod x c1 + y) < truncmod x c1 + y)
     (P (fun e => (0 <? c1v e)%Z));
  RW_IF [truncdiv x c1 * c1 < x - y] (y < truncmod x c1)
     (P (fun e => (0 <? c1v e)%Z));

  RW_IF [truncdiv (x + c2) c1 * c1 < x] (c2 < truncmod (x + c2) c1)
     (P (fun e => (0 <? c1v e)%Z));
  RW_IF [truncdiv (x + c2) c1 * c1 < x + y] (c2 < truncmod (x + c2) c1 + y)
     (P (fun e => (0 <? c1v e)%Z));
  RW_IF [truncdiv (x + c2) c1 * c1 < x - y] (y < truncmod (x + c2) c1 + (lit 0 c2 - c2))
     (P (fun e => (0 <? c1v e)%Z));

  (* floordiv *)
  RW_IF [floordiv x c1 < c2] (x < c1 * c2) (P (fun e => (0 <? c1v e)%Z));
  RW_IF [c1 < floordiv x c2] ((c1 + lit 1 c1) * c2 - lit 1 ((c1 + lit 1 c1) * c2) < x)
     (P (fun e => (0 <? c2v e)%Z));

  RW_IF [floordiv x c1 * c1 < x] (lit 0 (floormod x c1) < floormod x c1)
     (P (fun e => (0 <? c1v e)%Z));
  RW_IF [floordiv x c1 * c1 < x + y] (lit 0 (floormod x c1 + y) < floormod x c1 + y)
     (P (fun e => (0 <? c1v e)%Z));
  RW_IF [floordiv x c1 * c1 < x - y] (y < floormod x c1)
     (P (fun e => (0 <? c1v e)%Z));
  RW_IF [floordiv (x + c2) c1 * c1 < x] (c2 < floormod (x + c2) c1)
     (P (fun e => (0 <? c1v e)%Z));
  RW_IF [floordiv (x + c2) c1 * c1 < x + y] (c2 < floormod (x + c2) c1 + y)
     (P (fun e => (0 <? c1v e)%Z));
  RW_IF [floordiv (x + c2) c1 * c1 < x - y] (y < floormod (x + c2) c1 + (lit 0 c2 - c2))
     (P (fun e => (0 <? c1v e)%Z));

  (* canonicalization rule *)
  RW_REC [min x y < z] (x < z \/ y < z);
  RW_REC [max x y < z] (x < z /\ y < z);
  RW_REC [z < min x y] (z < x /\ z < y);
  RW_REC [z < max x y] (z < x \/ z < y);

  RW_REC [c1 < x + c2; c1 - x < c2] (c1 - c2 < x);
  RW_REC [c1 < c2 - x; x + c1 < c2] (x < c2 - c1);
  RW_REC [c1 < x - c2] (c1 + c2 < x);
  RW_REC [x - c2 < c1] (x < c1 + c2);

  RW_REC [x < c1 - y] (x + y < c1);
  RW_REC [c1 - y < x] (c1 < x + y);

  RW_REC [x < c1 + y] (x - y < c1);
  RW_REC [c1 + y < x] (c1 < x - y);

  STEP (match merge_constants a b with
        | Some v => w <- RecursiveRewrite an visit v ;; ret (Some w)
        | None => ret None
        end);

  STEP (s <- get ;;
        let modular_a := modular_set an (analyzer_ s) a in
        let modular_b := modular_set an (analyzer_ s) b in
        let gcd_lhs := ZeroAwareGCD (base modular_a) (coeff modular_a) in
        let gcd_rhs := ZeroAwareGCD (base modular_b) (coeff modular_b) in
        let common_factor := ZeroAwareGCD gcd_lhs gcd_rhs in
        if (1 <? common_factor)%Z then
          w <- RecursiveRewrite an visit
                 (op_mk OLT (op_c OFloorDiv a common_factor) (op_c OFloorDiv b common_factor)) ;;
          ret (Some w)
        else ret None)
].

Definition ApplyRewriteRules_LT (ret_ : PrimExpr) : M A PrimExpr :=
  match ret_ with
  | Bin _ a b =>
      apply_rules an visit
        (when (is_scalable_or_fixed_length_vector (dtype ret_))
           [RW [broadcast x lanes_ < broadcast y lanes_] (broadcast (x < y) lanes_);
            RW [ramp x s1 lanes_ < ramp y s1 lanes_] (broadcast (x < y) lanes_)] ++
         when (IsIndexType (dtype a)) (LT_index_rules a b (dtype ret_)))
        ret_
  | _ => ret ret_
  end.

Definition VisitExpr_LT (a b : PrimExpr) : M A PrimExpr :=
  node <- Mutate_Binary visit OLT a b ;;
  match node with
  | Bin _ a b =>
      match TryConstFold OLT a b with
      | Some const_res => ret const_res
      | None =>
          m <- TryMatchLiteralConstraint node ;;
          match m with
          | Some v => ret v
          | None => ApplyRewriteRules_LT node
          end
      end
  | _ => ret node
  end.

(** *** Not *)

Definition ApplyRewriteRules_Not (ret_ : PrimExpr) : M A PrimExpr :=
  apply_rules an visit
    (when (is_scalable_or_fixed_length_vector (dtype ret_))
       [RW [! (broadcast x lanes_)] (broadcast (! x) lanes_)] ++
     [RW [! (! x)] x;
      RW [! (x <= y)] (y < x);
      RW [! (x >= y)] (x < y);
      RW [! (x < y)] (y <= x);
      RW [! (x > y)] (x <= y);
      RW [! (x == y)] (x != y);
      RW [! (x != y)] (x == y);
      RW_REC [! (x \/ y)] ((! x) /\ (! y));
      RW_REC [! (x /\ y)] ((! x) \/ (! y))])
    ret_.

Definition VisitExpr_Not (a : PrimExpr) : M A PrimExpr :=
  a' <- visit a ;;
  let ret_ := Not a' in
  match TryConstFoldNot a' with
  | Some const_res => ret const_res
  | None =>
      m <- TryMatchLiteralConstraint ret_ ;;
      match m with
      | Some v => ret v
      | None => ApplyRewriteRules_Not ret_
      end
  end.

(** *** NE, LE, GT, GE *)

Definition VisitExpr_NE (a b : PrimExpr) : M A PrimExpr :=
  ret_ <- Mutate_Binary visit ONE a b ;;
  match ret_ with
  | Bin _ a b =>
      match TryConstFold ONE a b with
      | Some const_res => ret const_res
      | None =>
          m <- TryMatchLiteralConstraint ret_ ;;
          match m with
          | Some v => ret v
          | None =>
              let fallback :=
                e <- ApplyRewriteRules_EQ (EQ a b) ;;
                ApplyRewriteRules_Not (Not e) in
              if IsIndexType (dtype a) then
                result <- TryCompare an visit a b ;;
                match result with
                | kNE | kGT | kLT => ret (const_true (dtype ret_))
                | kEQ => ret (const_false (dtype ret_))
                | kGE => ApplyRewriteRules_LT (LT b a)
                | kLE => ApplyRewriteRules_LT (LT a b)
                | _ => fallback
                end
              else fallback
          end
      end
  | _ => ret ret_
  end.

Definition VisitExpr_LE (a b : PrimExpr) : M A PrimExpr :=
  ret_ <- Mutate_Binary visit OLE a b ;;
  match ret_ with
  | Bin _ a b =>
      match TryConstFold OLE a b with
      | Some const_res => ret const_res
      | None =>
          m <- TryMatchLiteralConstraint ret_ ;;
          match m with
          | Some v => ret v
          | None =>
              (* Check for applicable rewrites before attempting to
                 prove/disprove the inequality. *)
              lt <- ApplyRewriteRules_LT (LT b a) ;;
              ret_ <- ApplyRewriteRules_Not (Not lt) ;;
              match ret_ with
              | LE a b =>
                  if IsIndexType (dtype a) then
                    result <- TryCompare an visit a b ;;
                    match result with
                    | kLE | kLT | kEQ => ret (const_true (dtype ret_))
                    | kGT => ret (const_false (dtype ret_))
                    | kNE => ApplyRewriteRules_LT (LT a b)
                    | kGE => ApplyRewriteRules_EQ (EQ a b)
                    | _ => ret ret_
                    end
                  else ret ret_
              | _ => ret ret_
              end
          end
      end
  | _ => ret ret_
  end.

Definition VisitExpr_GT (a b : PrimExpr) : M A PrimExpr := visit (op_mk OLT b a).
Definition VisitExpr_GE (a b : PrimExpr) : M A PrimExpr := visit (op_mk OLE b a).

(** *** And, Or *)

(** The branch-wise walk of the [kApplyConstraintsToBooleanBranches]
    extension: each side is visited under the other side (for [Or], its
    normalised negation) as a constraint, up to twice, stopping when
    neither side changed twice in a row.  Object identity ([same_as]) of
    an operand and its visit is read as deep equality: the mutator is a
    function of the expression and the state, so the values agree. *)
Fixpoint branch_walk (assume : PrimExpr -> PrimExpr) (n : nat) (i : nat)
           (iterations_since_update : nat) (a b : PrimExpr) : M A (PrimExpr * PrimExpr) :=
  match n with
  | O => ret (a, b)
  | S n' =>
      let to_update := if Nat.even i then a else b in
      let constraint := if Nat.even i then b else a in
      updated <- WithConstraintContext (assume constraint) (visit to_update) ;;
      if negb (ExprDeepEqual to_update updated) then
        if Nat.even i
        then branch_walk assume n' (S i) 0 updated b
        else branch_walk assume n' (S i) 0 a updated
      else
        if (2 <=? S iterations_since_update)%nat then ret (a, b)
        else branch_walk assume n' (S i) (S iterations_since_update) a b
  end.

Definition And_rules (ret_dtype : DataType) : list (Rule A) :=
  let cfalse := PConst (const_false ret_dtype) in [
  RW [x == y /\ x != y] cfalse;
  RW [x != y /\ x == y] cfalse;
  RW [x /\ ! x] cfalse;
  RW [x <= y /\ y < x] cfalse;
  RW [y < x /\ x <= y] cfalse;

  RW_IF [x < c1 /\ c2 < x] cfalse (P (fun e => (c1v e <=? add64 (c2v e) 1)%Z));
  RW_IF [c2 < x /\ x < c1] cfalse (P (fun e => (c1v e <=? add64 (c2v e) 1)%Z));

  RW_IF [x < c1 /\ c2 <= x;
         c2 <= x /\ x < c1;
         x <= c1 /\ c2 < x;
         c2 < x /\ x <= c1] cfalse (P (fun e => (c1v e <=? c2v e)%Z));

  RW_IF [x <= c1 /\ c2 <= x;
         c2 <= x /\ x <= c1] cfalse (P (fun e => (c1v e <? c2v e)%Z));

  RW [(x == c1) /\ (x == c2)] ((x == c1) /\ (c1 == c2));
  RW [x == c1 /\ x != c2; x != c2 /\ x == c1] (x == c1 /\ c1 != c2);

  RW_REC [floordiv x c2 == c1 /\ floormod x c2 == c3;
          floormod x c2 == c3 /\ floordiv x c2 == c1] (x == c1 * c2 + c3);

  RW_REC_IF [lit 0 (x - y * c1) <= x - y * c1 /\ x - y * c1 < c1;
             x - y * c1 < c1 /\ lit 0 (x - y * c1) <= x - y * c1]
     (y == floordiv x c1) (P (fun e => (0 <? c1v e)%Z));

  RW_REC [c1 < x - y * c1 /\ x - y * c1 <= lit 0 (x - y * c1);
          x - y * c1 < c1 /\ lit 0 (x - y * c1) <= x - y * c1]
     (y == floordiv x c1);
  RW_REC_IF [lit 0 (x + y * c2) <= x + y * c2 /\ x + y * c2 < c1;
             x + y * c2 < c1 /\ lit 0 (x + y * c2) <= x + y * c2]
     (y == floordiv x c1) (P (fun e => (c2v e =? neg64 (c1v e))%Z));

  RW_REC_IF [x < c1 /\ floormod x c2 < c3]
     (x < c1 - c2 + c3 /\ floormod x c2 < c3)
     (fun e => r <- lift (rem64 (c1v e) (c2v e)) ;; ret (r =? 0)%Z);
  RW_REC_IF [x < c1 /\ floormod x c2 < c3]
     (x < c1 - floormod c1 c2 + c3 /\ floormod x c2 < c3)
     (fun e => r <- lift (rem64 (c1v e) (c2v e)) ;;
               r' <- lift (rem64 (add64 r (c2v e)) (c2v e)) ;;
               ret (c3v e <? r')%Z);

  RW_REC_IF [x <= c1 /\ floormod x c2 < c3]
     (x < c1 + lit 1 c1 - c2 + c3 /\ floormod x c2 < c3)
     (fun e => r <- lift (rem64 (add64 (c1v e) 1) (c2v e)) ;; ret (r =? 0)%Z);
  RW_REC_IF [x <= c1 /\ floormod x c2 < c3]
     (x < c1 + lit 1 c1 - floormod c1 c2 + c3 /\ floormod x c2 < c3)
     (fun e => r <- lift (rem64 (add64 (c1v e) 1) (c2v e)) ;;
               r' <- lift (rem64 (add64 r (c2v e)) (c2v e)) ;;
               ret (c3v e <? r')%Z);

  RW_REC [floordiv x c2 == c1 /\ floormod x c2 < c3;
          floormod x c2 < c3 /\ floordiv x c2 == c1]
     (c1 * c2 <= x /\ x < c1 * c2 + c3);
  RW_REC [floordiv x c2 == c1 /\ floormod x c2 <= c3;
          floormod x c2 <= c3 /\ floordiv x c2 == c1]
     (c1 * c2 <= x /\ x <= c1 * c2 + c3);

  RW_REC [floordiv x c2 == c1 /\ c3 <= floormod x c2;
          c3 <= floormod x c2 /\ floordiv x c2 == c1]
     (c1 * c2 + c3 <= x /\ x < (c1 + lit 1 c1) * c2);
  RW_REC [floordiv x c2 == c1 /\ c3 < floormod x c2;
          c3 < floormod x c2 /\ floordiv x c2 == c1]
     (c1 * c2 + c3 < x /\ x < (c1 + lit 1 c1) * c2);

  RW_REC [x /\ (y /\ z)] ((x /\ y) /\ z)
].

Definition VisitExpr_And (a b : PrimExpr) : M A PrimExpr :=
  s <- get ;;
  ret_ <- (if negb (has_flag (enabled_extensions_ s) kApplyConstraintsToBooleanBranches)
           then Mutate_Binary visit OAnd a b
           else
             ab <- branch_walk (fun c => c) 4 0 0 a b ;;
             ret (And (fst ab) (snd ab))) ;;
  match ret_ with
  | Bin _ a b =>
      match TryConstFold OAnd a b with
      | Some const_res => ret const_res
      | None =>
          m <- TryMatchLiteralConstraint ret_ ;;
          match m with
          | Some v => ret v
          | None =>
              s <- get ;;
              if has_flag (enabled_extensions_ s) kConvertBooleanToAndOfOrs &&
                 negb (recursively_visiting_boolean_ s)
              then ret (SimplifyAsAndOfOrs an ret_ (analyzer_ s))
              else
                apply_rules an visit
                  (when (is_scalable_or_fixed_length_vector (dtype ret_))
                     [RW [broadcast x lanes_ /\ broadcast y lanes_]
                         (broadcast (x /\ y) lanes_)] ++
                   And_rules (dtype ret_))
                  ret_
          end
      end
  | _ => ret ret_
  end.

Definition Or_rules (ret_dtype : DataType) : list (Rule A) :=
  let ctrue := PConst (const_true ret_dtype) in [
  RW [x == y \/ x != y] ctrue;
  RW [x != y \/ x == y] ctrue;
  RW [x \/ ! x] ctrue;
  RW [x <= y \/ y < x] ctrue;
  RW [y < x \/ x <= y] ctrue;

  RW [x < y \/ y < x] (x != y);

  RW_IF [x < c1 \/ c2 < x] ctrue (P (fun e => (c2v e <? c1v e)%Z));
  RW_IF [c2 < x \/ x < c1] ctrue (P (fun e => (c2v e <? c1v e)%Z));

  RW_IF [x <= c1 \/ c2 < x] ctrue (P (fun e => (c2v e <=? c1v e)%Z));
  RW_IF [c2 < x \/ x <= c1] ctrue (P (fun e => (c2v e <=? c1v e)%Z));
  RW_IF [x < c1 \/ c2 <= x] ctrue (P (fun e => (c2v e <=? c1v e)%Z));
  RW_IF [c2 <= x \/ x < c1] ctrue (P (fun e => (c2v e <=? c1v e)%Z));

  RW_IF [x <= c1 \/ c2 <= x] ctrue (P (fun e => (c2v e <=? add64 (c1v e) 1)%Z));
  RW_IF [c2 <= x \/ x <= c1] ctrue (P (fun e => (c2v e <=? add64 (c1v e) 1)%Z));

  RW [x != c1 \/ x != c2] (x != c1 \/ c1 != c2);
  RW [x != c1 \/ x == c2] (x != c1 \/ c1 == c2);
  RW [x == c2 \/ x != c1] (x != c1 \/ c1 == c2);

  RW_REC [x < y \/ x == y] (x <= y);
  RW_REC [x < y \/ y == x] (x <= y);
  RW_REC [x == y \/ x < y] (x <= y);
  RW_REC [y == x \/ x < y] (x <= y);

  RW_REC [x \/ (y \/ z)] ((x \/ y) \/ z)
].

Definition VisitExpr_Or (a b : PrimExpr) : M A PrimExpr :=
  s <- get ;;
  ret_ <- (if negb (has_flag (enabled_extensions_ s) kApplyConstraintsToBooleanBranches)
           then Mutate_Binary visit OOr a b
           else
             ab <- branch_walk (fun c => NormalizeBooleanOperators (Not c)) 4 0 0 a b ;;
             ret (Or (fst ab) (snd ab))) ;;
  match ret_ with
  | Bin _ a b =>
      match TryConstFold OOr a b with
      | Some const_res => ret const_res
      | None =>
          m <- TryMatchLiteralConstraint ret_ ;;
          match m with
          | Some v => ret v
          | None =>
              s <- get ;;
              if has_flag (enabled_extensions_ s) kConvertBooleanToAndOfOrs &&
                 negb (recursively_visiting_boolean_ s)
              then ret (SimplifyAsAndOfOrs an ret_ (analyzer_ s))
              else
                apply_rules an visit
                  (when (is_scalable_or_fixed_length_vector (dtype ret_))
                     [RW [broadcast x lanes_ \/ broadcast y lanes_]
                         (broadcast (x \/ y) lanes_)] ++
                   Or_rules (dtype ret_))
                  ret_
          end
      end
  | _ => ret ret_
  end.

(** *** Select *)

Definition is_zero (e : PrimExpr) : bool :=
  match e with
  | IntImm _ v => (v =? 0)%Z
  | Broadcast (IntImm _ v) _ => (v =? 0)%Z
  | _ => false
  end.
Definition is_one (e : PrimExpr) : bool :=
  match e with
  | IntImm _ v => (v =? 1)%Z
  | Broadcast (IntImm _ v) _ => (v =? 1)%Z
  | _ => false
  end.

(** Modelled from the spec: the base mutator (ir_mutator_with_analyzer) is
    outside the sources; it rebuilds the node from simplified children, the
    branches visited inside the scope of the condition (resp. its
    negation), and hands back the chosen branch when the condition is a
    constant, which is why the visitor below checks the node kind again. *)
Definition Mutate_Select (condition true_value false_value : PrimExpr) : M A PrimExpr :=
  cond <- visit condition ;;
  t <- WithConstraintContext cond (visit true_value) ;;
  f <- WithConstraintContext (Not cond) (visit false_value) ;;
  if is_zero cond then ret f
  else if is_one cond then ret t
  else ret (Select cond t f).

Definition VisitExpr_Select (condition true_value false_value : PrimExpr) : M A PrimExpr :=
  ret_ <- Mutate_Select condition true_value false_value ;;
  match ret_ with
  | Select _ _ _ => apply_rules an visit [RW [select x y y] y] ret_
  | _ => ret ret_
  end.

(** *** Call *)

Fixpoint visit_list (l : list PrimExpr) : M A (list PrimExpr) :=
  match l with
  | [] => ret []
  | a :: r => a' <- visit a ;; r' <- visit_list r ;; ret (a' :: r')
  end.

Definition op_likely := "tir.likely"%string.
Definition op_shift_right := "tir.shift_right"%string.
Definition op_shift_left := "tir.shift_left"%string.
Definition op_ceil := "tir.ceil"%string.
Definition op_log2 := "tir.log2"%string.
Definition op_clz := "tir.clz"%string.
Definition op_if_then_else := "tir.if_then_else"%string.

(** Modelled from the spec: the base mutator on a call visits the
    arguments; on [if_then_else] it visits the branches inside the scope
    of the condition and returns the chosen branch for a constant one. *)
Definition Mutate_Call (t : DataType) (op : string) (args : list PrimExpr) : M A PrimExpr :=
  if String.eqb op op_if_then_else then
    match args with
    | [c; a; b] =>
        cond <- visit c ;;
        tv <- WithConstraintContext cond (visit a) ;;
        fv <- WithConstraintContext (Not cond) (visit b) ;;
        if is_zero cond then ret fv
        else if is_one cond then ret tv
        else ret (Call t op [cond; tv; fv])
    | _ => args' <- visit_list args ;; ret (Call t op args')
    end
  else args' <- visit_list args ;; ret (Call t op args').

(** the leading-zero count of a literal: the highest set bit among the
    [bits] low ones *)
Fixpoint clz_scan (bits : Z) (n : nat) (value : Z) : option Z :=
  match n with
  | O => None
  | S i => if Z.testbit value (Z.of_nat i) then Some (bits - Z.of_nat i - 1)%Z
           else clz_scan bits i value
  end.

Definition nth_arg (args : list PrimExpr) (i : nat) : M A PrimExpr :=
  match nth_error args i with
  | Some a => ret a
  | None => trap
  end.

Definition Call_nested_if_then_else (ret_ : PrimExpr) (args : list PrimExpr) : M A PrimExpr :=
  cond <- nth_arg args 0 ;;
  then_expr <- nth_arg args 1 ;;
  else_expr <- nth_arg args 2 ;;
  match then_expr with
  | Call _ inner_op inner_args =>
      if String.eqb inner_op op_if_then_else then
        inner_cond <- nth_arg inner_args 0 ;;
        inner_then_expr <- nth_arg inner_args 1 ;;
        inner_else_expr <- nth_arg inner_args 2 ;;
        (* Only check constant cases to avoid recursion *)
        ok <- andM (ret (is_const_number inner_else_expr && is_const_number else_expr))
                   (CanProve an (op_mk OEQ inner_else_expr else_expr)) ;;
        if ok then
          ret (if_then_else an (op_mk OAnd cond inner_cond) inner_then_expr else_expr)
        else ret ret_
      else ret ret_
  | _ => ret ret_
  end.

Definition Call_likely_and_if_then_else (ret_ : PrimExpr) (op : string)
           (args : list PrimExpr) : M A PrimExpr :=
  m <- (if String.eqb op op_likely then
          (* Cases such as for (i, 0, bound) {if (likely(iter_var < bound)) { .. } } *)
          arg0 <- nth_arg args 0 ;; TryMatchLiteralConstraint arg0
        else ret None) ;;
  match m with
  | Some v => ret v
  | None =>
      if String.eqb op op_if_then_else then Call_nested_if_then_else ret_ args
      else ret ret_
  end.

Definition VisitExpr_Call (t : DataType) (op : string) (args : list PrimExpr) : M A PrimExpr :=
  ret_ <- Mutate_Call t op args ;;
  match ret_ with
  | Call t op args =>
      let continue := Call_likely_and_if_then_else ret_ op args in
      if String.eqb op op_likely then
        arg0 <- nth_arg args 0 ;;
        if is_const_int arg0 then ret arg0 else continue
      else if String.eqb op op_shift_right then
        arg0 <- nth_arg args 0 ;;
        arg1 <- nth_arg args 1 ;;
        match arg0, arg1 with
        | IntImm _ _, IntImm _ _ =>
            (* the operator overload will eagerly constant fold. *)
            ret (shift_right an arg0 arg1)
        | _, _ => continue
        end
      else if String.eqb op op_shift_left then
        arg0 <- nth_arg args 0 ;;
        arg1 <- nth_arg args 1 ;;
        match arg0, arg1 with
        | IntImm _ _, IntImm _ _ =>
            (* the operator overload will eagerly constant fold. *)
            ret (shift_left an arg0 arg1)
        | _, _ => continue
        end
      else if String.eqb op op_ceil then
        ceil_arg <- nth_arg args 0 ;;
        match ceil_arg with
        | IntImm arg_t v => ret (cast an t (IntImm arg_t v))
        | FloatImm arg_t v => ret (cast an t (FloatImm arg_t (float_ceil an v)))
        | Call _ arg_op arg_args =>
            (* ceil(log2(cast(n,"float64"))) is used as the implementation
               of topi.math.ceil_log2, and appears in iteration bounds. *)
            if String.eqb arg_op op_log2 then
              log_arg <- nth_arg arg_args 0 ;;
              match log_arg with
              | FloatImm _ v => ret (FloatImm t (float_ceil an (float_log2 an v)))
              | _ => continue
              end
            else continue
        | _ => continue
        end
      else if String.eqb op op_clz then
        arg0 <- nth_arg args 0 ;;
        match arg0 with
        | IntImm arg_t v =>
            let bits_ := bits arg_t in
            if (v =? 0)%Z then ret (make_const t bits_)
            else match clz_scan bits_ (Z.to_nat bits_) v with
                 | Some r => ret (IntImm t r)
                 | None => trap
                 end
        | _ => continue
        end
      else continue
  | _ => ret ret_
  end.

(** *** Var, Cast, Let *)

Definition VisitExpr_Var (var : Var_) : M A PrimExpr :=
  m <- (if DataType_eqb (var_dtype var) Bool
        then TryMatchLiteralConstraint (Var var)
        else ret None) ;;
  match m with
  | Some v => ret v
  | None =>
      s <- get ;;
      match var_map_find (var_map_ s) var with
      | Some v => ret v
      | None => ret (Var var)
      end
  end.

Definition VisitExpr_Cast (t : DataType) (value : PrimExpr) : M A PrimExpr :=
  value' <- visit value ;;
  ret (cast an t value').

Definition CanInlineLet (value : PrimExpr) : bool :=
  (* Only inline trivial bindings to avoid deep expression explosion
     when we need let to construct complicated expressions. *)
  if is_const_number value then true
  else match value with Var _ => true | _ => false end.

(** Modelled from the spec: [Analyzer::Bind] is outside the sources;
    "registers a trivial let inlining": the sub-analyses learn the binding
    and the simplifier's variable map receives it through [Update]. *)
Definition Bind (var : Var_) (value : PrimExpr) : M A unit :=
  s <- get ;;
  set_analyzer (analyzer_Bind an (analyzer_ s) var value) ;;;
  Update var value false.

Definition VisitExpr_Let (var : Var_) (op_value op_body : PrimExpr) : M A PrimExpr :=
  value <- visit op_value ;;
  if CanInlineLet op_value then
    (* it is fine to discard the let binding because the value will
       always be inlined in the simplifier. *)
    Bind var value ;;;
    visit op_body
  else
    body <- visit op_body ;;
    ret (Let_ var value body).

(** Nodes without a visitor of their own are rebuilt from their visited
    children. *)
Definition VisitExpr_Ramp (b s l : PrimExpr) : M A PrimExpr :=
  b' <- visit b ;; s' <- visit s ;; l' <- visit l ;; ret (Ramp b' s' l').
Definition VisitExpr_Broadcast (v l : PrimExpr) : M A PrimExpr :=
  v' <- visit v ;; l' <- visit l ;; ret (Broadcast v' l').

End Visitors.

(** ** The node a visitor looks up

    The visitors of EQ, NE, LT, LE, And, Or and Not rebuild their node from
    the visited operands, try to fold it and, when it does not fold, pass it
    to [TryMatchLiteralConstraint] before any rewrite rule; the visitor of a
    boolean variable looks the variable up first of all.  [looked_up_node]
    runs these first steps of the visitor of [e] and hands back the node
    that is looked up.  There is none when the rebuilt node folds, and none
    for the other node kinds: the visitors of the arithmetic operators, of
    Select, Let, Cast and Call do not look their node up, and those of GT
    and GE hand over to the visitors of LT and LE. *)
Definition looked_up_node {A : Type} (an : Analyzer A) (visit : PrimExpr -> M A PrimExpr)
           (e : PrimExpr) : M A (option PrimExpr) :=
  match e with
  | Var v => ret (if DataType_eqb (var_dtype v) Bool then Some e else None)
  | Not a =>
      a' <- visit a ;;
      ret (match TryConstFoldNot a' with
           | Some _ => None
           | None => Some (Not a')
           end)
  | Bin op a b =>
      match op with
      | OEQ | ONE | OLT | OLE | OAnd | OOr =>
          ret_ <- match op with
                  | OAnd =>
                      s <- get ;;
                      if negb (has_flag (enabled_extensions_ s)
                                 kApplyConstraintsToBooleanBranches)
                      then Mutate_Binary visit OAnd a b
                      else
                        ab <- branch_walk an visit (fun c => c) 4 0 0 a b ;;
                        ret (And (fst ab) (snd ab))
                  | OOr =>
                      s <- get ;;
                      if negb (has_flag (enabled_extensions_ s)
                                 kApplyConstraintsToBooleanBranches)
                      then Mutate_Binary visit OOr a b
                      else
                        ab <- branch_walk an visit
                                (fun c => NormalizeBooleanOperators (Not c)) 4 0 0 a b ;;
                        ret (Or (fst ab) (snd ab))
                  | _ => Mutate_Binary visit op a b
                  end ;;
          ret (match ret_ with
               | Bin _ a' b' =>
                   match TryConstFold op a' b' with
                   | Some _ => None
                   | None => Some ret_
                   end
               | _ => None
               end)
      | _ => ret None
      end
  | _ => ret None
  end.

(** ** The mutator and the public entry points *)

(** [RewriteSimplifier::Impl::VisitExpr]: dispatch on the node kind.  Every
    nested call of the source (children, recursive rewrites, the comparison
    engine's simplification of a difference) takes one unit of fuel. *)
Fixpoint VisitExpr {A : Type} (an : Analyzer A) (fuel : nat) (e : PrimExpr)
  : M A PrimExpr :=
  match fuel with
  | O => out_of_fuel
  | S n =>
      let visit := VisitExpr an n in
      match e with
      | IntImm _ _ => ret e
      | FloatImm _ _ => ret e
      | Var v => VisitExpr_Var v
      | Bin OAdd a b => VisitExpr_Add an visit a b
      | Bin OSub a b => VisitExpr_Sub an visit a b
      | Bin OMul a b => VisitExpr_Mul an visit a b
      | Bin ODiv a b => VisitExpr_Div an visit a b
      | Bin OMod a b => VisitExpr_Mod an visit a b
      | Bin OFloorDiv a b => VisitExpr_FloorDiv an visit a b
      | Bin OFloorMod a b => VisitExpr_FloorMod an visit a b
      | Bin OMin a b => VisitExpr_Min an visit a b
      | Bin OMax a b => VisitExpr_Max an visit a b
      | Bin OEQ a b => VisitExpr_EQ an visit a b
      | Bin ONE a b => VisitExpr_NE an visit a b
      | Bin OLT a b => VisitExpr_LT an visit a b
      | Bin OLE a b => VisitExpr_LE an visit a b
      | Bin OGT a b => VisitExpr_GT visit a b
      | Bin OGE a b => VisitExpr_GE visit a b
      | Bin OAnd a b => VisitExpr_And an visit a b
      | Bin OOr a b => VisitExpr_Or an visit a b
      | Not a => VisitExpr_Not an visit a
      | Select c t f => VisitExpr_Select an visit c t f
      | Ramp b s l => VisitExpr_Ramp visit b s l
      | Broadcast v l => VisitExpr_Broadcast visit v l
      | Cast t v => VisitExpr_Cast an visit t v
      | Let_ x v b => VisitExpr_Let an visit x v b
      | Call t op args => VisitExpr_Call an visit t op args
      end
  end.

(** [RewriteSimplifier::operator()]: run simplification in post order, at
    most [max_iter = 2] times, stopping when a pass hands back the very
    object it was given.  [same_as] is the identity of objects, which a
    value cannot show; it is a parameter here, any relation that holds only
    between deep-equal expressions. *)
Fixpoint simplify_loop {A : Type} (an : Analyzer A) (same_as : PrimExpr -> PrimExpr -> bool)
         (fuel : nat) (i : nat) (res : PrimExpr) : M A PrimExpr :=
  match i with
  | O => ret res
  | S i' =>
      new_expr <- VisitExpr an fuel res ;;
      if same_as new_expr res then ret res
      else simplify_loop an same_as fuel i' new_expr
  end.

Definition max_iter : nat := 2.

Definition simplify {A : Type} (an : Analyzer A) (same_as : PrimExpr -> PrimExpr -> bool)
           (fuel : nat) (expr : PrimExpr) : M A PrimExpr :=
  simplify_loop an same_as fuel max_iter expr.

(** [RewriteSimplifier::EnterConstraint] *)
Definition RewriteSimplifier_EnterConstraint {A : Type} (an : Analyzer A) (fuel : nat)
           (constraint : PrimExpr) : M A (M A unit) :=
  EnterConstraint an (VisitExpr an fuel) constraint.

(** ** A concrete analyzer for closed examples

    The least informed collaborators the interface admits: bounds and
    modular sets are exact on integer literals, read from a table for the
    listed expressions and unknown elsewhere; the transitive prover knows
    nothing; the proof shortcuts answer from those bounds alone.  Its state
    is the table. *)

Definition everything : ConstIntBound := mkConstIntBound kNegInf kPosInf.

Fixpoint lookup_bound (tbl : list (PrimExpr * ConstIntBound)) (e : PrimExpr)
  : option ConstIntBound :=
  match tbl with
  | [] => None
  | (k, b) :: r => if ExprDeepEqual k e then Some b else lookup_bound r e
  end.

Definition table_bound (tbl : list (PrimExpr * ConstIntBound)) (e : PrimExpr)
  : ConstIntBound :=
  match e with
  | IntImm _ v => mkConstIntBound v v
  | _ => match lookup_bound tbl e with
         | Some b => b
         | None => everything
         end
  end.

Definition literal_modular_set (e : PrimExpr) : ModularSet :=
  match e with
  | IntImm _ v => mkModularSet 0 v
  | _ => mkModularSet 1 0
  end.

Fixpoint contains_call (e : PrimExpr) : bool :=
  match e with
  | IntImm _ _ | FloatImm _ _ | Var _ => false
  | Bin _ a b => contains_call a || contains_call b
  | Not a => contains_call a
  | Select c t f => contains_call c || contains_call t || contains_call f
  | Ramp b s l => contains_call b || contains_call s || contains_call l
  | Broadcast v l => contains_call v || contains_call l
  | Cast _ v => contains_call v
  | Let_ _ v b => contains_call v || contains_call b
  | Call _ _ _ => true
  end.

Definition table_analyzer : Analyzer (list (PrimExpr * ConstIntBound)) := {|
  const_int_bound := table_bound;
  modular_set := fun _ e => literal_modular_set e;
  transitive_comparisons_TryCompare := fun _ _ _ _ => kUnknown;
  analyzer_CanProve := fun _ e => is_one e;
  analyzer_CanProveGreaterEqual := fun tbl e k => k <=? min_value (table_bound tbl e);
  analyzer_CanProveLess := fun tbl e k => max_value (table_bound tbl e) <? k;
  analyzer_Bind := fun tbl _ _ => tbl;
  analyzer_EnterConstraint := fun tbl _ => tbl;
  analyzer_ExitConstraint := fun tbl => tbl;
  SideEffect := fun e => if contains_call e then kOpaque else kPure;
  SimplifyAsAndOfOrs := fun e _ => e;
  GetTypeRegistered := fun _ => false;
  cast := cast_int;
  shift_right := fun a b =>
    match a, b with
    | IntImm t x, IntImm _ y => IntImm t (Z.shiftr x y)
    | _, _ => Call (dtype a) "tir.shift_right" [a; b]
    end;
  shift_left := fun a b =>
    match a, b with
    | IntImm t x, IntImm _ y => IntImm t (wrap_dtype t (Z.shiftl x y))
    | _, _ => Call (dtype a) "tir.shift_left" [a; b]
    end;
  if_then_else := fun c t f => Call (dtype t) "tir.if_then_else" [c; t; f];
  float_ceil := fun v => v;
  float_log2 := fun v => v;
  kMaxRecurDepth := 5
|}.

(** The state of a freshly constructed simplifier. *)
Definition initial_state {A} (a : A) : State A :=
  mkState [] [] kNone 0 false a.

Definition result_of {A T} (r : Res (T * State A)) : Res T :=
  match r with
  | Ok (x, _) => Ok x
  | Trap => Trap
  | OutOfFuel => OutOfFuel
  end.

Definition ivar (n : string) : PrimExpr := Var (mkVar n int32).
Definition bvar (n : string) : PrimExpr := Var (mkVar n Bool).
Definition i32 (v : Z) : PrimExpr := IntImm int32 v.

(** The shapes [NormalizeBooleanOperators] rewrites. *)
Definition normalizer_rule_applies (e : PrimExpr) : bool :=
  match e with
  | Not (Not _) | Not (Or _ _) | Not (And _ _)
  | GE _ _ | Not (LT _ _) | Not (GT _ _)
  | GT _ _ | Not (LE _ _) | Not (GE _ _)
  | Not (EQ _ _) | Not (NE _ _) => true
  | _ => false
  end.

(** ** Predicates of the statements *)

(** The types a division by a float literal is asserted to have. *)
Definition is_float_like {A} (an : Analyzer A) (t : DataType) : bool :=
  is_float t || is_bfloat16 t || GetTypeRegistered an (code t).

(** A bound of strictly positive values, [max_value] at most the
    representation of +inf. *)
Definition positive_bound (b : ConstIntBound) : Prop :=
  0 < min_value b /\ min_value b <= max_value b /\ max_value b <= kPosInf.

(** ** The frame of a visit *)

(** What a run of the mutator leaves as it found it: the stack of literal
    constraints, the extension flags, the recursion depth and the boolean
    flag.  The variable map and the analyzer may change ([Let] binds). *)
Definition frame_eq {A} (s s' : State A) : Prop :=
  literal_constraints_ s' = literal_constraints_ s /\
  enabled_extensions_ s' = enabled_extensions_ s /\
  recur_depth_ s' = recur_depth_ s /\
  recursively_visiting_boolean_ s' = recursively_visiting_boolean_ s.

Definition keeps {A T} (m : M A T) : Prop :=
  forall s x s', m s = Ok (x, s') -> frame_eq s s'.

Definition rule_keeps {A} (r : Rule A) : Prop :=
  match r with
  | TVM_TRY_REWRITE _ _ => True
  | TVM_TRY_RECURSIVE_REWRITE _ _ => True
  | TVM_TRY_REWRITE_IF _ _ cond => forall env, keeps (cond env)
  | TVM_TRY_RECURSIVE_REWRITE_IF _ _ cond => forall env, keeps (cond env)
  | TRY_MATCH _ body => forall env, keeps (body env)
  | STEP body => keeps body
  end.

(** ** The value of integer and boolean expressions *)

Definition Valuation := Var_ -> Z.

(** Modelled from the spec: the evaluation the testable properties speak of
    ("eval(e, rho)", rho "binding free variables to integers/booleans
    in-range") is no function of the sources; it is read off the constant
    folder the spec describes: "honors the op's exact semantics (truncated
    vs. floored division/modulus; integer overflow wraps on the declared
    width; division/mod by zero returns none)".  Booleans are 0 and 1; an
    expression outside scalar integers and booleans has no value. *)
Definition eval_op (op : BinOp) (t : DataType) (a b : Z) : option Z :=
  match op with
  | OAdd => Some (wrap_dtype t (a + b))
  | OSub => Some (wrap_dtype t (a - b))
  | OMul => Some (wrap_dtype t (a * b))
  | ODiv => if b =? 0 then None else Some (wrap_dtype t (Z.quot a b))
  | OMod => if b =? 0 then None else Some (wrap_dtype t (Z.rem a b))
  | OFloorDiv => if b =? 0 then None else Some (wrap_dtype t (a / b))
  | OFloorMod => if b =? 0 then None else Some (wrap_dtype t (a mod b))
  | OMin => Some (Z.min a b)
  | OMax => Some (Z.max a b)
  | OEQ => Some (Z.b2z (a =? b))
  | ONE => Some (Z.b2z (negb (a =? b)))
  | OLT => Some (Z.b2z (a <? b))
  | OLE => Some (Z.b2z (a <=? b))
  | OGT => Some (Z.b2z (b <? a))
  | OGE => Some (Z.b2z (b <=? a))
  | OAnd => Some (Z.b2z (negb (a =? 0) && negb (b =? 0)))
  | OOr => Some (Z.b2z (negb (a =? 0) || negb (b =? 0)))
  end.

Fixpoint eval (rho : Valuation) (e : PrimExpr) : option Z :=
  match e with
  | IntImm t v => Some (wrap_dtype t v)
  | Var v => Some (wrap_dtype (var_dtype v) (rho v))
  | Bin op a b =>
      match eval rho a, eval rho b with
      | Some x, Some y => eval_op op (dtype a) x y
      | _, _ => None
      end
  | Not a =>
      match eval rho a with
      | Some x => Some (Z.b2z (x =? 0))
      | None => None
      end
  | Select c t f =>
      match eval rho c with
      | Some x => if x =? 0 then eval rho f else eval rho t
      | None => None
      end
  | _ => None
  end.

(** *** The ring fragment: int32 variables and literals under +, -, * *)

Definition ring_op (op : BinOp) : bool :=
  match op with OAdd | OSub | OMul => true | _ => false end.

Fixpoint ring_expr (e : PrimExpr) : bool :=
  match e with
  | IntImm t _ => DataType_eqb t int32
  | Var v => DataType_eqb (var_dtype v) int32
  | Bin op a b => ring_op op && ring_expr a && ring_expr b
  | _ => false
  end.

Definition ring_val (op : BinOp) (a b : Z) : Z :=
  match op with
  | OAdd => a + b
  | OSub => a - b
  | OMul => a * b
  | _ => 0
  end.

(** The value in the integers, before any wrapping. *)
Fixpoint den (rho : Valuation) (e : PrimExpr) : Z :=
  match e with
  | IntImm _ v => v
  | Var v => rho v
  | Bin op a b => ring_val op (den rho a) (den rho b)
  | _ => 0
  end.

(** Equal as 32-bit values. *)
Definition cong32 (a b : Z) : Prop := wrap_signed 32 a = wrap_signed 32 b.

(** Patterns of the ring fragment, patterns that match no expression of
    it, the variables a match binds and those an evaluation reads. *)
Fixpoint ring_pat (p : Pattern) : bool :=
  match p with
  | PVar AnyExpr _ | PVar IntLit _ => true
  | PConstWithTypeLike ref _ => ring_pat ref
  | PBin op a b => ring_op op && ring_pat a && ring_pat b
  | _ => false
  end.

Fixpoint never_ring (p : Pattern) : bool :=
  match p with
  | PVar FloatLit _ => true
  | PVar _ _ => false
  | PConst c => negb (ring_expr c)
  | PConstWithTypeLike _ _ => false
  | PBin op a b => negb (ring_op op) || never_ring a || never_ring b
  | _ => true
  end.

Fixpoint pat_binds (p : Pattern) : list nat :=
  match p with
  | PVar _ i => [i]
  | PConst _ | PConstWithTypeLike _ _ => []
  | PBin _ a b => pat_binds a ++ pat_binds b
  | PNot a => pat_binds a
  | PSelect c t f => pat_binds c ++ pat_binds t ++ pat_binds f
  | PRamp b s l => pat_binds b ++ pat_binds s ++ pat_binds l
  | PBroadcast v l => pat_binds v ++ pat_binds l
  end.

Fixpoint pat_reads (p : Pattern) : list nat :=
  match p with
  | PVar _ i => [i]
  | PConst _ => []
  | PConstWithTypeLike ref _ => pat_reads ref
  | PBin _ a b => pat_reads a ++ pat_reads b
  | PNot a => pat_reads a
  | PSelect c t f => pat_reads c ++ pat_reads t ++ pat_reads f
  | PRamp b s l => pat_reads b ++ pat_reads s ++ pat_reads l
  | PBroadcast v l => pat_reads v ++ pat_reads l
  end.

Definition subset (l1 l2 : list nat) : bool :=
  forallb (fun i => existsb (Nat.eqb i) l2) l1.

(** The value of a pattern under a valuation of its variables. *)
Fixpoint pval (r : nat -> Z) (p : Pattern) : Z :=
  match p with
  | PVar _ i => r i
  | PConstWithTypeLike _ v => v
  | PBin op a b => ring_val op (pval r a) (pval r b)
  | _ => 0
  end.

Definition env_val (rho : Valuation) (env : Env) (i : nat) : Z :=
  match env_get env i with
  | Some v => den rho v
  | None => 0
  end.

Definition env_ring (env : Env) : Prop :=
  forall i v, env_get env i = Some v -> ring_expr v = true.

(** A source pattern with its result: either the source matches nothing of
    the fragment, or both stay inside it, the result reads only what the
    source binds, and the two are equal as polynomials. *)
Definition pat_ok (res p : Pattern) : Prop :=
  never_ring p = true \/
  (ring_pat p = true /\ ring_pat res = true /\
   subset (pat_reads res) (pat_binds p) = true /\
   forall r, pval r p = pval r res).

(** What a rule table does to an expression: nothing, a rewrite, or a
    rewrite whose result is simplified again. *)
Inductive Outcome := NoFire | Fire (v : PrimExpr) | Rec (v : PrimExpr).

Definition run_outcome {A} (an : Analyzer A) (visit : PrimExpr -> M A PrimExpr)
           (e : PrimExpr) (o : Outcome) : M A PrimExpr :=
  match o with
  | NoFire => ret e
  | Fire v => ret v
  | Rec v => RecursiveRewrite an visit v
  end.

Definition outcome_ok (e : PrimExpr) (o : Outcome) : Prop :=
  match o with
  | NoFire => True
  | Fire v | Rec v =>
      ring_expr v = true /\ forall rho, cong32 (den rho v) (den rho e)
  end.

(** Rules and tables, as families over the recursive call of the mutator,
    that act on the ring fragment by unguarded (or purely guarded)
    polynomial identities. *)
Inductive ring_rule {A} : ((PrimExpr -> M A PrimExpr) -> Rule A) -> Prop :=
| rr_rewrite src res :
    Forall (pat_ok res) src -> ring_rule (fun _ => TVM_TRY_REWRITE src res)
| rr_recursive src res :
    Forall (pat_ok res) src -> ring_rule (fun _ => TVM_TRY_RECURSIVE_REWRITE src res)
| rr_rewrite_if_never src res cond :
    Forall (fun p => never_ring p = true) src ->
    ring_rule (fun visit => TVM_TRY_REWRITE_IF src res (cond visit))
| rr_recursive_if_never src res cond :
    Forall (fun p => never_ring p = true) src ->
    ring_rule (fun visit => TVM_TRY_RECURSIVE_REWRITE_IF src res (cond visit))
| rr_rewrite_if_pure src res g :
    Forall (pat_ok res) src ->
    ring_rule (fun _ => TVM_TRY_REWRITE_IF src res (pure_cond g))
| rr_recursive_if_pure src res g :
    Forall (pat_ok res) src ->
    ring_rule (fun _ => TVM_TRY_RECURSIVE_REWRITE_IF src res (pure_cond g))
| rr_try_match_never src body :
    Forall (fun p => never_ring p = true) src ->
    ring_rule (fun visit => TRY_MATCH src (body visit)).

Inductive ring_table {A} : ((PrimExpr -> M A PrimExpr) -> list (Rule A)) -> Prop :=
| rt_nil : ring_table (fun _ => [])
| rt_cons R T :
    ring_rule R -> ring_table T -> ring_table (fun visit => R visit :: T visit).

(** [env] keeps every binding of [env0]. *)
Definition env_extends (env0 env : Env) : Prop :=
  forall i v, env_get env0 i = Some v -> env_get env i = Some v.

(** What one rule does: it declines, rewrites, or rewrites and re-enters;
    which of these, and the rewritten expression, does not depend on the
    recursive call. *)
Definition rule_outcome {A} (an : Analyzer A) (R : (PrimExpr -> M A PrimExpr) -> Rule A)
           (e : PrimExpr) (s : State A) : Prop :=
  (forall visit, apply_rule an visit (R visit) e s = Ok (None, s)) \/
  exists v, ring_expr v = true /\ (forall rho, cong32 (den rho v) (den rho e)) /\
    ((forall visit, apply_rule an visit (R visit) e s = Ok (Some v, s)) \/
     (forall visit, apply_rule an visit (R visit) e s
                    = bind (RecursiveRewrite an visit v) (fun w => ret (Some w)) s)).

(** ** Concrete inputs of the examples *)

Definition float64 : DataType := Float 64.
Definition f64 (v : float) : PrimExpr := FloatImm float64 v.

(** a + b, a * b ... of the product-and-sum comparison, with bounds
    A, B in [1, 4], C in [8, +inf) and the literal D = 2 *)
Definition eA := ivar "A".
Definition eB := ivar "B".
Definition eC := ivar "C".
Definition product_sum_x : PrimExpr := Mul (Add eA eB) eC.
Definition product_sum_y : PrimExpr := Mul (Mul eA eB) (i32 2).
Definition product_sum_bounds : list (PrimExpr * ConstIntBound) :=
  [ (eA, mkConstIntBound 1 4); (eB, mkConstIntBound 1 4);
    (eC, mkConstIntBound 8 kPosInf) ].
Definition product_sum_state : State (list (PrimExpr * ConstIntBound)) :=
  mkState [] [] kComparisonOfProductAndSum 0 false product_sum_bounds.

(** The product-and-sum example with one more entry in the table: the
    bounds of the simplified difference, which alone prove no more than
    x >= y. *)
Definition compare_layers_state : State (list (PrimExpr * ConstIntBound)) :=
  mkState [] [] kComparisonOfProductAndSum 0 false
    (product_sum_bounds ++
     [ (Add (Mul (Add eA eB) eC) (Mul (Mul eA eB) (i32 (-2))),
        mkConstIntBound 0 kPosInf) ]).

(** A boolean select over boolean variables, entered as a constraint. *)
Definition select_constraint : PrimExpr := Select (bvar "c") (bvar "p") (bvar "q").

(** floormod(x*4 + 2, 4) and the constraint x >= 0 *)
Definition floormod_example : PrimExpr :=
  FloorMod (Add (Mul (ivar "x") (i32 4)) (i32 2)) (i32 4).
Definition x_nonneg : PrimExpr := GE (ivar "x") (i32 0).

(** floordiv(floordiv(x, 65537), 65537): two positive divisors whose
    product, 2^32 + 131073, does not fit 32 bits *)
Definition nested_floordiv : PrimExpr :=
  FloorDiv (FloorDiv (ivar "x") (i32 65537)) (i32 65537).

(** a + (b + (c + p)) < a + (b + (c + q)) *)
Definition nested_sums_lt : PrimExpr :=
  LT (Add (ivar "a") (Add (ivar "b") (Add (ivar "c") (ivar "p"))))
     (Add (ivar "a") (Add (ivar "b") (Add (ivar "c") (ivar "q")))).

(** x < x + 1, and the largest int32 for x *)
Definition lt_successor : PrimExpr := LT (ivar "x") (Add (ivar "x") (i32 1)).
Definition rho_max : Valuation := fun _ => 2147483647.

(** (x + 5) - 5 *)
Definition plus_minus_5 : PrimExpr := Sub (Add (ivar "x") (i32 5)) (i32 5).

(** Further expressions the scenarios use. *)
Definition and_disjoint : PrimExpr :=
  And (LT (ivar "x") (i32 10)) (LT (i32 20) (ivar "x")).
Definition and_overlapping : PrimExpr :=
  And (LT (ivar "x") (i32 10)) (LT (i32 5) (ivar "x")).
Definition parity_sum : PrimExpr :=
  Add (FloorMod (Add (ivar "x") (i32 1)) (i32 2)) (FloorMod (ivar "x") (i32 2)).
Definition nested_if_then_else : PrimExpr :=
  Call int32 "tir.if_then_else"
    [bvar "c1"; Call int32 "tir.if_then_else" [bvar "c2"; ivar "t"; i32 0]; i32 0].

(** ** Predicates of the further properties *)

(** Integer literals whose value fits the declared type, as well-formed
    expressions have them. *)
Fixpoint literals_in_range (e : PrimExpr) : bool :=
  match e with
  | IntImm t v => wrap_dtype t v =? v
  | Bin _ a b => literals_in_range a && literals_in_range b
  | Not a => literals_in_range a
  | Select c t f => literals_in_range c && literals_in_range t && literals_in_range f
  | _ => true
  end.

(** What a [CompareResult] says of two integers. *)
Definition CompareResult_holds (r : CompareResult) (a b : Z) : Prop :=
  match r with
  | kInconsistent => False
  | kEQ => a = b
  | kLT => a < b
  | kLE => a <= b
  | kGT => a > b
  | kGE => a >= b
  | kNE => a <> b
  | kUnknown => True
  end.

(** A value inside a bound, and inside a modular set [coeff * k + base]
    (the single value [base] when [coeff] is zero, [base] reduced modulo
    [coeff] otherwise). *)
Definition in_bound (v : Z) (b : ConstIntBound) : Prop :=
  min_value b <= v <= max_value b.

Definition in_modular_set (v : Z) (m : ModularSet) : Prop :=
  (coeff m = 0 /\ v = base m) \/ (0 < coeff m /\ v mod coeff m = base m).

(** Bounds whose ends are small enough for the products of
    [TryComparisonOfProductAndSum] to stay inside 64 bits; the bound of C
    may be open at either end. *)
Definition small_bound (b : ConstIntBound) : Prop :=
  - 2 ^ 20 <= min_value b /\ max_value b <= 2 ^ 20.

Definition small_or_open_bound (b : ConstIntBound) : Prop :=
  (min_value b = kNegInf \/ - 2 ^ 40 <= min_value b <= 2 ^ 40) /\
  (max_value b = kPosInf \/ - 2 ^ 40 <= max_value b <= 2 ^ 40).

(** * The reduction-decomposition fix (src/test_fix_logic.cpp)

    [handle_reduction_decomposition] pairs the blocks of a software
    pipeline with their stage annotations when their numbers differ.  The
    call [pipeline_stages.back()] on an empty vector is undefined behaviour;
    the result is [None] there.  Sizes and the counter [init_block_count]
    are natural numbers; the annotations, C++ [int]s that are only copied,
    are integers. *)

Module ReductionDecomposition.

Record Block := mkBlock { name_hint : string }.

(** [block_name.length() > 5 &&
     block_name.substr(block_name.length() - 5) == "_init"] *)
Definition is_init (block_name : string) : bool :=
  (5 <? String.length block_name)%nat &&
  String.eqb (String.substring (String.length block_name - 5) 5 block_name) "_init".

(** The first loop: the flags [is_init_block] and their count. *)
Definition is_init_block (original_blocks : list Block) : list bool :=
  map (fun b => is_init (name_hint b)) original_blocks.

Definition init_block_count (original_blocks : list Block) : nat :=
  List.length (filter (fun f : bool => f) (is_init_block original_blocks)).

(** The second loop: the blocks whose flag is not set, in order. *)
Fixpoint filtered_blocks (original_blocks : list Block) (flags : list bool) : list Block :=
  match original_blocks, flags with
  | b :: bs, f :: fs =>
      if negb f then b :: filtered_blocks bs fs else filtered_blocks bs fs
  | _, _ => []
  end.

Definition back (v : list Z) : option Z :=
  match v with
  | [] => None
  | _ => Some (List.last v 0)
  end.

(** The third loop, from index [i] for [k] more rounds: the annotation at
    the index while there is one, the last annotation after that. *)
Fixpoint extended_stages (pipeline_stages : list Z) (i k : nat) : option (list Z) :=
  match k with
  | O => Some []
  | S k' =>
      match (if (i <? List.length pipeline_stages)%nat
             then nth_error pipeline_stages i
             else back pipeline_stages),
            extended_stages pipeline_stages (S i) k' with
      | Some x, Some r => Some (x :: r)
      | _, _ => None
      end
  end.

Definition handle_reduction_decomposition
           (original_blocks : list Block) (pipeline_stages : list Z)
  : option (list Block * list Z) :=
  if negb (Nat.eqb (List.length pipeline_stages) (List.length original_blocks)) then
    (* Detect if this mismatch is due to reduction decomposition *)
    if Nat.eqb (List.length original_blocks - init_block_count original_blocks)
               (List.length pipeline_stages)
    then
      (* filter out init blocks and use original annotations *)
      Some (filtered_blocks original_blocks (is_init_block original_blocks),
            pipeline_stages)
    else
      (* If filtering doesn't solve the mismatch, extend annotations *)
      match extended_stages pipeline_stages 0 (List.length original_blocks) with
      | Some e => Some (original_blocks, e)
      | None => None
      end
  else Some (original_blocks, pipeline_stages).

End ReductionDecomposition.

(** * Theorems *)

Lemma TypeCode_eqb_eq a b : TypeCode_eqb a b = true <-> a = b.
Proof.
  destruct a, b; simpl; split; intro H; try congruence; try discriminate.
  - apply Z.eqb_eq in H. congruence.
  - inversion H. apply Z.eqb_refl.
Qed.

Lemma DataType_eqb_eq a b : DataType_eqb a b = true <-> a = b.
Proof.
  destruct a as [c1 b1 l1], b as [c2 b2 l2]; unfold DataType_eqb; simpl.
  rewrite !andb_true_iff, TypeCode_eqb_eq, !Z.eqb_eq.
  split; [intros [[-> ->] ->]; reflexivity | intros H; inversion H; auto].
Qed.

Lemma BinOp_eqb_eq a b : BinOp_eqb a b = true <-> a = b.
Proof. destruct a, b; simpl; split; intro H; congruence. Qed.

Lemma Var_eqb_eq a b : Var_eqb a b = true <-> a = b.
Proof.
  destruct a as [n1 t1], b as [n2 t2]; unfold Var_eqb; simpl.
  rewrite andb_true_iff, String.eqb_eq, DataType_eqb_eq.
  split; [intros [-> ->]; reflexivity | intros H; inversion H; auto].
Qed.

Lemma ExprDeepEqual_eq : forall x y, ExprDeepEqual x y = true <-> x = y.
Proof.
  induction x using PrimExpr_ind'; destruct y; simpl;
    try (split; intro HH; [discriminate | congruence]).
  - rewrite andb_true_iff, DataType_eqb_eq, Z.eqb_eq.
    split; [intros [-> ->]; reflexivity | intros HH; inversion HH; auto].
  - rewrite andb_true_iff, DataType_eqb_eq, FloatAxioms.Leibniz.eqb_spec.
    split; [intros [-> ->]; reflexivity | intros HH; inversion HH; auto].
  - rewrite Var_eqb_eq. split; congruence.
  - rewrite !andb_true_iff, BinOp_eqb_eq, IHx1, IHx2.
    split; [intros [[-> ->] ->]; reflexivity | intros HH; inversion HH; auto].
  - rewrite IHx. split; congruence.
  - rewrite !andb_true_iff, IHx1, IHx2, IHx3.
    split; [intros [[-> ->] ->]; reflexivity | intros HH; inversion HH; auto].
  - rewrite !andb_true_iff, IHx1, IHx2, IHx3.
    split; [intros [[-> ->] ->]; reflexivity | intros HH; inversion HH; auto].
  - rewrite !andb_true_iff, IHx1, IHx2.
    split; [intros [-> ->]; reflexivity | intros HH; inversion HH; auto].
  - rewrite !andb_true_iff, DataType_eqb_eq, IHx.
    split; [intros [-> ->]; reflexivity | intros HH; inversion HH; auto].
  - rewrite !andb_true_iff, Var_eqb_eq, IHx1, IHx2.
    split; [intros [[-> ->] ->]; reflexivity | intros HH; inversion HH; auto].
  - rewrite !andb_true_iff, DataType_eqb_eq, String.eqb_eq.
    assert (Hl : forall l',
      (fix go (l l' : list PrimExpr) {struct l} : bool :=
         match l, l' with
         | [], [] => true
         | a :: r, a' :: r' => ExprDeepEqual a a' && go r r'
         | _, _ => false
         end) args l' = true <-> args = l').
    { induction H as [|a r Ha Hr IH]; intros [|a' r']; simpl;
        try (split; intro HH; [discriminate | congruence]).
      - split; auto.
      - rewrite andb_true_iff, Ha, IH.
        split; [intros [-> ->]; reflexivity | intros HH; inversion HH; auto]. }
    rewrite Hl.
    split; [intros [[-> ->] ->]; reflexivity | intros HH; inversion HH; auto].
Qed.

Lemma ExprDeepEqual_refl x : ExprDeepEqual x x = true.
Proof. apply ExprDeepEqual_eq. reflexivity. Qed.

(** ** The boolean normaliser always returns *)

Lemma size_pos e : (0 < size e)%nat.
Proof. destruct e; simpl; lia. Qed.

Lemma size_mk_not x : (size (mk_not x) <= S (size x))%nat.
Proof.
  unfold mk_not. destruct x; simpl; lia.
Qed.

Lemma NormalizeBooleanOperators_fuel_enough :
  forall n e, (size e < n)%nat -> exists r, NormalizeBooleanOperators_fuel n e = Some r.
Proof.
  induction n as [|n IH]; intros e Hn; [lia|].
  destruct e; simpl; try (eexists; reflexivity).
  - (* Bin *) destruct op; eexists; reflexivity.
  - (* Not *)
    destruct e; simpl in *; try (eexists; reflexivity).
    + (* Not (Bin ..) *)
      destruct op; try (eexists; reflexivity).
      * (* And *)
        destruct (IH (mk_not e1)) as [r1 H1];
          [pose proof (size_mk_not e1); lia|].
        destruct (IH (mk_not e2)) as [r2 H2];
          [pose proof (size_mk_not e2); lia|].
        rewrite H1, H2. eexists; reflexivity.
      * (* Or *)
        destruct (IH (mk_not e1)) as [r1 H1];
          [pose proof (size_mk_not e1); lia|].
        destruct (IH (mk_not e2)) as [r2 H2];
          [pose proof (size_mk_not e2); lia|].
        rewrite H1, H2. eexists; reflexivity.
    + (* Not (Not x) *) apply IH. lia.
Qed.

Lemma NormalizeBooleanOperators_fuel_stable :
  forall n e r, NormalizeBooleanOperators_fuel n e = Some r ->
  forall m, (n <= m)%nat -> NormalizeBooleanOperators_fuel m e = Some r.
Proof.
  induction n as [|n IH]; intros e r H m Hm; [discriminate|].
  destruct m as [|m]; [lia|].
  assert (Hle : (n <= m)%nat) by lia.
  destruct e; simpl in *; try exact H.
  destruct e; simpl in *; try exact H.
  - destruct op; try exact H.
    + destruct (NormalizeBooleanOperators_fuel n (mk_not e1)) as [r1|] eqn:H1; [|discriminate].
      destruct (NormalizeBooleanOperators_fuel n (mk_not e2)) as [r2|] eqn:H2; [|discriminate].
      rewrite (IH _ _ H1 m Hle), (IH _ _ H2 m Hle). exact H.
    + destruct (NormalizeBooleanOperators_fuel n (mk_not e1)) as [r1|] eqn:H1; [|discriminate].
      destruct (NormalizeBooleanOperators_fuel n (mk_not e2)) as [r2|] eqn:H2; [|discriminate].
      rewrite (IH _ _ H1 m Hle), (IH _ _ H2 m Hle). exact H.
  - apply IH with (m := m) in H; auto.
Qed.

Lemma NormalizeBooleanOperators_fuel_eq n e :
  (size e < n)%nat ->
  NormalizeBooleanOperators_fuel n e = Some (NormalizeBooleanOperators e).
Proof.
  intro Hn. unfold NormalizeBooleanOperators.
  destruct (NormalizeBooleanOperators_fuel_enough (n := S (size e)) e) as [r Hr]; [lia|].
  rewrite Hr. apply NormalizeBooleanOperators_fuel_stable with (n := S (size e)); auto; lia.
Qed.

Ltac normalizer_unfold e x y :=
  let n := fresh "n" in
  let Hn := fresh "Hn" in
  let H := fresh "Hfuel" in
  let Hx := fresh "Hx" in
  let Hy := fresh "Hy" in
  pose proof (size_mk_not x) as Hx; pose proof (size_mk_not y) as Hy;
  remember (S (size x + size y + 2)) as n eqn:Hn;
  assert (H : NormalizeBooleanOperators_fuel (S n) e = Some (NormalizeBooleanOperators e))
    by (apply NormalizeBooleanOperators_fuel_eq; simpl; lia);
  simpl in H;
  rewrite ?NormalizeBooleanOperators_fuel_eq in H by lia;
  injection H as H; symmetry; exact H.

(** C8: [NormalizeBooleanOperators] applies, along the spine of boolean
    operators and until none applies, exactly the rules
    !!x -> x, !(x or y) -> (!x) and (!y), !(x and y) -> (!x) or (!y),
    {x >= y, !(x < y), !(y > x)} -> y <= x, {x > y, !(x <= y), !(y >= x)} -> y < x,
    !(x == y) -> x != y, !(x != y) -> x == y
    (the results built with the source's operators [!], [&&], [||], [<=],
    [<], [!=], [==], here [mk_not] and [mk]), recursing into the negated
    operands of a negated or/and and continuing the loop after a double
    negation; every expression of another shape is returned unchanged. *)
Theorem NormalizeBooleanOperators_rules :
  forall x y : PrimExpr,
    NormalizeBooleanOperators (Not (Not x)) = NormalizeBooleanOperators x /\
    NormalizeBooleanOperators (Not (Or x y)) =
      mk OAnd (NormalizeBooleanOperators (mk_not x)) (NormalizeBooleanOperators (mk_not y)) /\
    NormalizeBooleanOperators (Not (And x y)) =
      mk OOr (NormalizeBooleanOperators (mk_not x)) (NormalizeBooleanOperators (mk_not y)) /\
    NormalizeBooleanOperators (GE x y) = mk OLE y x /\
    NormalizeBooleanOperators (Not (LT x y)) = mk OLE y x /\
    NormalizeBooleanOperators (Not (GT y x)) = mk OLE y x /\
    NormalizeBooleanOperators (GT x y) = mk OLT y x /\
    NormalizeBooleanOperators (Not (LE x y)) = mk OLT y x /\
    NormalizeBooleanOperators (Not (GE y x)) = mk OLT y x /\
    NormalizeBooleanOperators (Not (EQ x y)) = mk ONE x y /\
    NormalizeBooleanOperators (Not (NE x y)) = mk OEQ x y /\
    (forall e, normalizer_rule_applies e = false -> NormalizeBooleanOperators e = e).
Proof.
  intros x y.
  split; [normalizer_unfold (Not (Not x)) x y|].
  split; [normalizer_unfold (Not (Or x y)) x y|].
  split; [normalizer_unfold (Not (And x y)) x y|].
  do 8 (split; [reflexivity|]).
  intros e He. unfold NormalizeBooleanOperators.
  destruct e; simpl in *; try reflexivity.
  - destruct op; simpl in *; try reflexivity; discriminate.
  - destruct e; simpl in *; try reflexivity; try discriminate.
    destruct op; simpl in *; try reflexivity; discriminate.
Qed.

(** ** Division by a zero literal *)

(** C6 (the claim fails on the code): an index-typed truncated division of
    two integer literals with a zero divisor is not folded by
    [TryConstFold], reaches the visitor's own re-folding
    [truncdiv(c1val, c2val)] and divides by zero there. *)
Theorem VisitExpr_Div_by_zero_literal_traps :
  forall (A : Type) (an : Analyzer A) (fuel : nat) (c1 : Z) (s : State A),
    VisitExpr an (S (S fuel)) (Div (IntImm int32 c1) (IntImm int32 0)) s = Trap /\
    VisitExpr an (S (S fuel)) (Div (IntImm int64 c1) (IntImm int64 0)) s = Trap.
Proof. intros. split; reflexivity. Qed.

(** The modulus by a zero literal ends the same way, in the modular
    analysis [mod->coeff % c1val]. *)
Lemma VisitExpr_Mod_by_zero_literal_traps :
  forall (A : Type) (an : Analyzer A) (fuel : nat) (c1 : Z) (s : State A),
    VisitExpr an (S (S fuel)) (Mod (IntImm int32 c1) (IntImm int32 0)) s = Trap.
Proof. intros. reflexivity. Qed.

(** The floored siblings leave a literal division by the literal zero in
    place, the documented outcome. *)
Lemma VisitExpr_FloorDiv_by_zero_literal_stays :
  result_of (VisitExpr table_analyzer 5 (FloorDiv (i32 1) (i32 0)) (initial_state []))
  = Ok (FloorDiv (i32 1) (i32 0)) /\
  result_of (VisitExpr table_analyzer 5 (FloorMod (i32 1) (i32 0)) (initial_state []))
  = Ok (FloorMod (i32 1) (i32 0)).
Proof. split; vm_compute; reflexivity. Qed.

(** Off the index types no rule looks at the literals and the node stays. *)
Lemma VisitExpr_Div_by_zero_literal_uint :
  forall (A : Type) (an : Analyzer A) (fuel : nat) (c1 : Z) (s : State A),
    VisitExpr an (S (S fuel)) (Div (IntImm (UInt 32) c1) (IntImm (UInt 32) 0)) s
    = Ok (Div (IntImm (UInt 32) c1) (IntImm (UInt 32) 0), s).
Proof. intros. reflexivity. Qed.

(** ** Select *)

(** C9: a [Select] whose two branches are deeply equal once the children are
    simplified is replaced by the branch; the condition is dropped without a
    look at its side effects. *)
Theorem VisitExpr_Select_equal_branches :
  forall (A : Type) (an : Analyzer A) (fuel : nat)
         (condition true_value false_value cond t f : PrimExpr) (s s' : State A),
    Mutate_Select an (VisitExpr an fuel) condition true_value false_value s
    = Ok (Select cond t f, s') ->
    ExprDeepEqual t f = true ->
    VisitExpr an (S fuel) (Select condition true_value false_value) s = Ok (t, s').
Proof.
  intros A an fuel condition true_value false_value cond t f s s' Hm Heq.
  cbn [VisitExpr]. unfold VisitExpr_Select, bind. rewrite Hm.
  cbn. unfold Match. cbn. rewrite Heq. reflexivity.
Qed.

Lemma VisitExpr_Select_equal_branches_witness :
  VisitExpr table_analyzer 21
    (Select (LT (ivar "x") (ivar "y")) (Sub (Add (ivar "z") (ivar "y")) (ivar "y"))
            (ivar "z"))
    (initial_state [])
  = Ok (ivar "z", initial_state []).
Proof.
  apply (@VisitExpr_Select_equal_branches _ table_analyzer 20
           (LT (ivar "x") (ivar "y")) (Sub (Add (ivar "z") (ivar "y")) (ivar "y")) (ivar "z")
           (LT (ivar "x") (ivar "y")) (ivar "z") (ivar "z")).
  - vm_compute. reflexivity.
  - vm_compute. reflexivity.
Defined.

(** A result of the base mutator that is no [Select] any more (a constant
    condition) is handed back as it is. *)
Lemma VisitExpr_Select_not_select :
  forall (A : Type) (an : Analyzer A) (visit : PrimExpr -> M A PrimExpr)
         (condition true_value false_value r : PrimExpr) (s s' : State A),
    Mutate_Select an visit condition true_value false_value s = Ok (r, s') ->
    (forall c t f, r <> Select c t f) ->
    VisitExpr_Select an visit condition true_value false_value s = Ok (r, s').
Proof.
  intros A an visit condition true_value false_value r s s' Hm Hr.
  unfold VisitExpr_Select, bind. rewrite Hm.
  destruct r; try reflexivity. exfalso. eapply Hr. reflexivity.
Qed.

(** ** Division by a float literal *)

(** C10 (amended): when the simplified divisor is a float literal and
    [TryConstFold] did not fold the division, the result is the product of
    the dividend with the reciprocal [1.0 / c], whatever the rounding of
    the reciprocal. *)
Theorem VisitExpr_Div_float_literal :
  forall (A : Type) (an : Analyzer A) (fuel : nat)
         (a b a' : PrimExpr) (tc : DataType) (c : float) (s s' : State A),
    Mutate_Binary (VisitExpr an fuel) ODiv a b s = Ok (Div a' (FloatImm tc c), s') ->
    TryConstFold ODiv a' (FloatImm tc c) = None ->
    is_float_like an (dtype (Div a' (FloatImm tc c))) = true ->
    VisitExpr an (S fuel) (Div a b) s
    = Ok (op_mk OMul a' (make_const_float tc (PrimFloat.div PrimFloat.one c)), s').
Proof.
  intros A an fuel a b a' tc c s s' Hm Hfold Hty.
  cbn [VisitExpr]. unfold VisitExpr_Div, bind. rewrite Hm. rewrite Hfold.
  unfold is_float_like in Hty. rewrite Hty. reflexivity.
Qed.

Lemma VisitExpr_Div_float_literal_witness :
  VisitExpr table_analyzer 21 (Div (Var (mkVar "f" float64)) (f64 3)) (initial_state [])
  = Ok (Mul (Var (mkVar "f" float64)) (f64 (PrimFloat.div PrimFloat.one 3)),
        initial_state []).
Proof.
  apply (@VisitExpr_Div_float_literal _ table_analyzer 20
           (Var (mkVar "f" float64)) (f64 3) (Var (mkVar "f" float64)) float64 3%float).
  - vm_compute. reflexivity.
  - vm_compute. reflexivity.
  - vm_compute. reflexivity.
Defined.

(** C10 (the claim as stated fails): a float literal divided by a float
    literal is folded to the quotient before the reciprocal rewrite is
    reached, and the quotient differs from dividend * (1.0 / c) in the last
    place: 5.0 / 3.0 against 5.0 * (1.0 / 3.0). *)
Lemma VisitExpr_Div_float_literal_folds_first :
  result_of (VisitExpr table_analyzer 20 (Div (f64 5) (f64 3)) (initial_state []))
  = Ok (f64 (PrimFloat.div 5 3)) /\
  PrimFloat.Leibniz.eqb (PrimFloat.div 5 3)
                (PrimFloat.mul 5 (PrimFloat.div PrimFloat.one 3)) = false.
Proof. split; vm_compute; reflexivity. Qed.

(** ** Comparison of a product and a sum *)

Lemma wrap64_small : forall v, - 2 ^ 63 <= v < 2 ^ 63 -> wrap64 v = v.
Proof.
  intros v Hv. unfold wrap64, wrap_signed.
  replace (64 - 1) with 63 by reflexivity.
  rewrite Z.mod_small; [lia|].
  change (2 ^ 64) with (2 * 2 ^ 63). lia.
Qed.

Lemma kPosInf_eq : kPosInf = 2 ^ 63 - 1.
Proof. reflexivity. Qed.

Lemma CompareProductAndSumBounds_positive :
  forall A_bound B_bound C_bound D_bound,
    positive_bound A_bound -> positive_bound B_bound ->
    positive_bound C_bound -> positive_bound D_bound ->
    (max_value D_bound = kPosInf ->
     CompareProductAndSumBounds A_bound B_bound C_bound D_bound = kUnknown) /\
    (max_value D_bound <> kPosInf ->
     Z.min (max_value A_bound) (max_value B_bound) * max_value D_bound
       <= min_value C_bound ->
     CompareProductAndSumBounds A_bound B_bound C_bound D_bound = kGT).
Proof.
  intros [a0 a1] [b0 b1] [c0 c1] [d0 d1] (Ha & Ha' & Ha'') (Hb & Hb' & Hb'')
         (Hc & Hc' & Hc'') (Hd & Hd' & Hd''); simpl in *.
  unfold CompareProductAndSumBounds, is_negative, is_positive; simpl.
  assert (Hnd : (d1 <? 0) = false) by (apply Z.ltb_ge; lia).
  assert (Hnc : (c1 <? 0) = false) by (apply Z.ltb_ge; lia).
  rewrite Hnd; simpl. rewrite Hnc; simpl.
  assert (Hpa : (0 <? a0) = true) by (apply Z.ltb_lt; lia).
  assert (Hpb : (0 <? b0) = true) by (apply Z.ltb_lt; lia).
  assert (Hpc : (0 <? c0) = true) by (apply Z.ltb_lt; lia).
  assert (Hpd : (0 <? d0) = true) by (apply Z.ltb_lt; lia).
  rewrite Hpa, Hpb, Hpc, Hpd; simpl.
  split.
  - intros Hinf. rewrite Hinf, Z.eqb_refl. reflexivity.
  - intros Hfin Hle.
    apply Z.eqb_neq in Hfin. rewrite Hfin.
    assert (Hpos : 0 < Z.min a1 b1 * d1) by (apply Z.mul_pos_pos; lia).
    unfold mul64 at 1. rewrite wrap64_small by (rewrite kPosInf_eq in *; lia).
    apply Z.leb_le in Hle. rewrite Hle. reflexivity.
Qed.

(** C4 (amended): with the product-and-sum extension on, when the simplified
    difference has the shape (A+B)*C - (A*B)*D and the bounds of A, B, C, D
    are strictly positive, [TryComparisonOfProductAndSum] answers Unknown
    when D has no upper bound, and GT -- (A+B)*C is the greater side -- when
    D is bounded and min(A_max, B_max) * D_max <= C_min. *)
Theorem TryComparisonOfProductAndSum_positive :
  forall (A : Type) (an : Analyzer A) (visit : PrimExpr -> M A PrimExpr)
         (x y diff a b c d : PrimExpr) (s s' : State A),
    has_flag (enabled_extensions_ s) kComparisonOfProductAndSum = true ->
    visit (mk OSub x y) s = Ok (diff, s') ->
    opt_special_case diff = Some (a, b, c, d) ->
    positive_bound (const_int_bound an (analyzer_ s') a) ->
    positive_bound (const_int_bound an (analyzer_ s') b) ->
    positive_bound (const_int_bound an (analyzer_ s') c) ->
    positive_bound (const_int_bound an (analyzer_ s') d) ->
    (max_value (const_int_bound an (analyzer_ s') d) = kPosInf ->
     TryComparisonOfProductAndSum an visit x y s = Ok (kUnknown, s')) /\
    (max_value (const_int_bound an (analyzer_ s') d) <> kPosInf ->
     Z.min (max_value (const_int_bound an (analyzer_ s') a))
           (max_value (const_int_bound an (analyzer_ s') b))
       * max_value (const_int_bound an (analyzer_ s') d)
       <= min_value (const_int_bound an (analyzer_ s') c) ->
     TryComparisonOfProductAndSum an visit x y s = Ok (kGT, s')).
Proof.
  intros A an visit x y diff a b c d s s' Hflag Hvisit Hcase Ha Hb Hc Hd.
  destruct (CompareProductAndSumBounds_positive Ha Hb Hc Hd) as [Hunk Hgt].
  assert (Hrun : TryComparisonOfProductAndSum an visit x y s
                 = Ok (CompareProductAndSumBounds
                         (const_int_bound an (analyzer_ s') a)
                         (const_int_bound an (analyzer_ s') b)
                         (const_int_bound an (analyzer_ s') c)
                         (const_int_bound an (analyzer_ s') d), s')).
  { unfold TryComparisonOfProductAndSum, bind, get. rewrite Hflag. simpl.
    rewrite Hvisit. rewrite Hcase. reflexivity. }
  split.
  - intros Hinf. rewrite Hrun, (Hunk Hinf). reflexivity.
  - intros Hfin Hle. rewrite Hrun, (Hgt Hfin Hle). reflexivity.
Qed.

Lemma TryComparisonOfProductAndSum_positive_witness :
  TryComparisonOfProductAndSum table_analyzer (VisitExpr table_analyzer 50)
    product_sum_x product_sum_y product_sum_state
  = Ok (kGT, product_sum_state).
Proof.
  refine (proj2 (@TryComparisonOfProductAndSum_positive _ table_analyzer
                   (VisitExpr table_analyzer 50) product_sum_x product_sum_y
                   (Add (Mul (Add eA eB) eC) (Mul (Mul eA eB) (i32 (-2))))
                   eA eB eC (i32 2) product_sum_state product_sum_state
                   _ _ _ _ _ _ _) _ _).
  - vm_compute. reflexivity.
  - vm_compute. reflexivity.
  - vm_compute. reflexivity.
  - unfold positive_bound. vm_compute. repeat split; discriminate.
  - unfold positive_bound. vm_compute. repeat split; discriminate.
  - unfold positive_bound. vm_compute. repeat split; discriminate.
  - unfold positive_bound. vm_compute. repeat split; discriminate.
  - vm_compute. discriminate.
  - vm_compute. discriminate.
Defined.

(** C4 (the claim as stated fails): A, B in [1, 4], C >= 8 and D = 2 satisfy
    min(A, B) * D <= C, and [TryCompare] of (A+B)*C with (A*B)*D answers
    GT, not LT. *)
Lemma TryCompare_product_and_sum_GT :
  positive_bound (table_bound product_sum_bounds eA) /\
  positive_bound (table_bound product_sum_bounds eB) /\
  positive_bound (table_bound product_sum_bounds eC) /\
  Z.min (max_value (table_bound product_sum_bounds eA))
        (max_value (table_bound product_sum_bounds eB)) * 2
    <= min_value (table_bound product_sum_bounds eC) /\
  result_of (TryCompare table_analyzer (VisitExpr table_analyzer 50)
               product_sum_x product_sum_y product_sum_state) = Ok kGT /\
  kGT <> kLT.
Proof.
  unfold positive_bound.
  repeat split; try (vm_compute; discriminate); vm_compute; reflexivity.
Qed.

(** With a divisor that is no literal the difference keeps its [Sub] node,
    no shape matches, and the answer is Unknown whatever the bounds. *)
Lemma TryCompare_product_and_sum_symbolic_D :
  result_of (TryCompare table_analyzer (VisitExpr table_analyzer 50)
               product_sum_x (Mul (Mul eA eB) (ivar "D"))
               (mkState [] [] kComparisonOfProductAndSum 0 false
                  ((ivar "D", mkConstIntBound 1 2) :: product_sum_bounds)))
  = Ok kUnknown.
Proof. vm_compute. reflexivity. Qed.

(** ** The frame of a visit *)

Lemma frame_eq_refl : forall A (s : State A), frame_eq s s.
Proof. intros; repeat split. Qed.

Lemma frame_eq_trans : forall A (s1 s2 s3 : State A),
  frame_eq s1 s2 -> frame_eq s2 s3 -> frame_eq s1 s3.
Proof.
  unfold frame_eq. intros A s1 s2 s3 (H1 & H2 & H3 & H4) (K1 & K2 & K3 & K4).
  repeat split; congruence.
Qed.

Lemma keeps_ret : forall A T (x : T), keeps (@ret A T x).
Proof. intros A T x s y s' H. inversion H; subst. apply frame_eq_refl. Qed.

Lemma keeps_trap : forall A T, keeps (@trap A T).
Proof. intros A T s y s' H. discriminate. Qed.

Lemma keeps_out_of_fuel : forall A T, keeps (@out_of_fuel A T).
Proof. intros A T s y s' H. discriminate. Qed.

Lemma keeps_get : forall A, keeps (@get A).
Proof. intros A s y s' H. inversion H; subst. apply frame_eq_refl. Qed.

Lemma keeps_lift : forall A T (r : Res T), keeps (@lift A T r).
Proof.
  intros A T r s y s' H. unfold lift in H.
  destruct r; inversion H; subst. apply frame_eq_refl.
Qed.

Lemma keeps_bind : forall A T U (m : M A T) (k : T -> M A U),
  keeps m -> (forall x, keeps (k x)) -> keeps (bind m k).
Proof.
  intros A T U m k Hm Hk s y s' H. unfold bind in H.
  destruct (m s) as [[x s1]| |] eqn:E; try discriminate.
  eapply frame_eq_trans; [eapply Hm; eassumption | eapply Hk; eassumption].
Qed.

Lemma keeps_set_var_map : forall A m, keeps (@set_var_map A m).
Proof. intros A m s y s' H. inversion H; subst. repeat split. Qed.

Lemma keeps_set_analyzer : forall A a, keeps (@set_analyzer A a).
Proof. intros A a s y s' H. inversion H; subst. repeat split. Qed.

Lemma keeps_Update : forall A v info o, keeps (@Update A v info o).
Proof.
  intros A v info o. unfold Update.
  apply keeps_bind; [apply keeps_get|]. intros s.
  match goal with |- keeps (if ?c then _ else _) => destruct c end;
    [apply keeps_set_var_map | apply keeps_trap].
Qed.

Lemma keeps_TryMatchLiteralConstraint : forall A e,
  keeps (@TryMatchLiteralConstraint A e).
Proof.
  intros A e. unfold TryMatchLiteralConstraint.
  apply keeps_bind; [apply keeps_get|]. intros s. apply keeps_ret.
Qed.

Create HintDb keeps discriminated.

#[export] Hint Resolve keeps_ret keeps_trap keeps_out_of_fuel keeps_get keeps_lift
  keeps_set_var_map keeps_set_analyzer keeps_Update keeps_TryMatchLiteralConstraint
  : keeps.

(** One step through a monadic term: binds, branches and the leaves. *)
Ltac keeps_step :=
  match goal with
  | |- keeps (bind _ _) => apply keeps_bind; [|intro]
  | |- keeps (if ?c then _ else _) => destruct c
  | |- keeps (match ?c with _ => _ end) => destruct c
  | |- keeps _ => solve [eauto 3 with keeps]
  end.

Ltac keeps_tac := repeat (cbv zeta; keeps_step).

Section EngineFrame.
Context {A : Type}.
Variable an : Analyzer A.
Variable visit : PrimExpr -> M A PrimExpr.
Hypothesis Hvisit : forall e, keeps (visit e).

Lemma keeps_RecursiveRewrite : forall x, keeps (RecursiveRewrite an visit x).
Proof.
  intros x s y s' H. unfold RecursiveRewrite, bind, get in H.
  destruct (kMaxRecurDepth an <=? recur_depth_ s)%nat.
  - inversion H; subst. apply frame_eq_refl.
  - unfold set_recur_depth at 1 in H.
    match type of H with
    | match visit x ?s0 with _ => _ end = _ =>
        destruct (visit x s0) as [[r s1]| |] eqn:E; try discriminate;
        apply Hvisit in E
    end.
    unfold set_recur_depth, ret in H. inversion H; subst; clear H.
    destruct E as (E1 & E2 & E3 & E4); simpl in *.
    unfold frame_eq; simpl. rewrite E3. repeat split; assumption.
Qed.

Lemma keeps_match_one_of : forall alts e cond,
  (forall env, keeps (cond env)) -> keeps (@match_one_of A alts e cond).
Proof.
  intros alts e cond Hc. induction alts as [|p rest IH]; simpl.
  - apply keeps_ret.
  - destruct (Match p e); [|exact IH].
    apply keeps_bind; [apply Hc|]. intros [|]; [apply keeps_ret | exact IH].
Qed.

Lemma keeps_apply_rule : forall r e, rule_keeps r -> keeps (apply_rule an visit r e).
Proof.
  intros r e Hr. destruct r; simpl in *.
  - apply keeps_bind; [apply keeps_match_one_of; intros; apply keeps_ret|].
    intros [env|]; keeps_tac.
  - apply keeps_bind; [apply keeps_match_one_of; intros; apply keeps_ret|].
    intros [env|]; [|apply keeps_ret].
    apply keeps_bind; [apply keeps_lift|]. intro.
    apply keeps_bind; [apply keeps_RecursiveRewrite|]. intro. apply keeps_ret.
  - apply keeps_bind; [apply keeps_match_one_of; assumption|].
    intros [env|]; keeps_tac.
  - apply keeps_bind; [apply keeps_match_one_of; assumption|].
    intros [env|]; [|apply keeps_ret].
    apply keeps_bind; [apply keeps_lift|]. intro.
    apply keeps_bind; [apply keeps_RecursiveRewrite|]. intro. apply keeps_ret.
  - destruct (match_first src e); [apply Hr | apply keeps_ret].
  - exact Hr.
Qed.

Lemma keeps_apply_rules : forall rules e,
  Forall rule_keeps rules -> keeps (apply_rules an visit rules e).
Proof.
  intros rules e H. induction H as [|r rest Hr _ IH]; simpl.
  - apply keeps_ret.
  - apply keeps_bind; [apply keeps_apply_rule; exact Hr|].
    intros [v|]; [apply keeps_ret | exact IH].
Qed.

Lemma keeps_Mutate_Binary : forall op a b, keeps (Mutate_Binary visit op a b).
Proof. intros. unfold Mutate_Binary. keeps_tac. Qed.

Lemma keeps_TryCompare_val : forall x val, keeps (TryCompare_val an visit x val).
Proof. intros. unfold TryCompare_val. keeps_tac. Qed.

Lemma keeps_TryCompare : forall x y, keeps (TryCompare an visit x y).
Proof.
  intros. unfold TryCompare, TryCompareUsingConstIntBounds,
    TryCompareUsingKnownInequalities, TryComparisonOfProductAndSum.
  pose proof keeps_TryCompare_val. keeps_tac.
Qed.

Lemma keeps_CanProveEqual : forall x val, keeps (CanProveEqual an visit x val).
Proof. intros. unfold CanProveEqual. pose proof keeps_TryCompare_val. keeps_tac. Qed.

Lemma keeps_CanProveGreaterEqual : forall x val,
  keeps (@CanProveGreaterEqual A an x val).
Proof. intros. unfold CanProveGreaterEqual. keeps_tac. Qed.

Lemma keeps_CanProveLess : forall x val, keeps (@CanProveLess A an x val).
Proof. intros. unfold CanProveLess. keeps_tac. Qed.

Lemma keeps_CanProve : forall x, keeps (@CanProve A an x).
Proof. intros. unfold CanProve. keeps_tac. Qed.

Lemma keeps_andM : forall a b : M A bool, keeps a -> keeps b -> keeps (andM a b).
Proof. intros. unfold andM. keeps_tac. Qed.

Lemma keeps_orM : forall a b : M A bool, keeps a -> keeps b -> keeps (orM a b).
Proof. intros. unfold orM. keeps_tac. Qed.

End EngineFrame.

#[export] Hint Resolve keeps_RecursiveRewrite keeps_Mutate_Binary keeps_TryCompare_val
  keeps_TryCompare keeps_CanProveEqual keeps_CanProveGreaterEqual keeps_CanProveLess
  keeps_CanProve keeps_andM keeps_orM : keeps.

Section GuardFrame.
Context {A : Type}.
Variable an : Analyzer A.
Variable visit : PrimExpr -> M A PrimExpr.
Hypothesis Hvisit : forall e, keeps (visit e).

Lemma keeps_pure_cond : forall f env, keeps (@pure_cond A f env).
Proof. intros. unfold pure_cond. apply keeps_ret. Qed.

Lemma keeps_CPGE : forall p k env, keeps (CPGE an p k env).
Proof. intros. unfold CPGE. keeps_tac. Qed.

Lemma keeps_CPEQ : forall p k env, keeps (CPEQ an visit p k env).
Proof. intros. unfold CPEQ. keeps_tac. Qed.

Lemma keeps_CPLT : forall p k env, keeps (CPLT an p k env).
Proof. intros. unfold CPLT. keeps_tac. Qed.

Lemma keeps_CP : forall p env, keeps (CP an p env).
Proof. intros. unfold CP. keeps_tac. Qed.

Lemma keeps_SideEffectLE : forall p k env, keeps (SideEffectLE an p k env).
Proof. intros. unfold SideEffectLE. keeps_tac. Qed.

Lemma keeps_c_and : forall (f g : Env -> M A bool) env,
  keeps (f env) -> keeps (g env) -> keeps (c_and f g env).
Proof. intros. unfold c_and. keeps_tac. Qed.

Lemma keeps_c_or : forall (f g : Env -> M A bool) env,
  keeps (f env) -> keeps (g env) -> keeps (c_or f g env).
Proof. intros. unfold c_or. keeps_tac. Qed.

End GuardFrame.

#[export] Hint Resolve keeps_pure_cond keeps_CPGE keeps_CPEQ keeps_CPLT keeps_CP
  keeps_SideEffectLE keeps_c_and keeps_c_or : keeps.

(** *** The constraint stack *)

(** [s] with [ext] pushed on its stack of literal constraints. *)
Lemma push_constraints_spec :
  forall A (an : Analyzer A) l (s : State A) x s',
    push_constraints an l s = Ok (x, s') ->
    exists ext,
      s' = mkState (literal_constraints_ s ++ ext) (var_map_ s) (enabled_extensions_ s)
             (recur_depth_ s) (recursively_visiting_boolean_ s) (analyzer_ s).
Proof.
  intros A an l. induction l as [|c r IH]; intros s x s' H; simpl in H.
  - inversion H; subst. exists []. rewrite app_nil_r. destruct s'; reflexivity.
  - unfold bind in H. unfold push_constraint at 1 in H.
    destruct (effect_le (SideEffect an c) kPure).
    + unfold bind, get, set_literal_constraints in H.
      apply IH in H. destruct H as [ext ->]. simpl.
      eexists. rewrite <- app_assoc. reflexivity.
    + unfold ret in H. apply IH in H. exact H.
Qed.

Section ConstraintFrame.
Context {A : Type}.
Variable an : Analyzer A.
Variable visit : PrimExpr -> M A PrimExpr.
Hypothesis Hvisit : forall e, keeps (visit e).

Lemma EnterConstraint_spec :
  forall c (s : State A) recover s',
    EnterConstraint an visit c s = Ok (recover, s') ->
    exists ext,
      literal_constraints_ s' = literal_constraints_ s ++ ext /\
      enabled_extensions_ s' = enabled_extensions_ s /\
      recur_depth_ s' = recur_depth_ s /\
      recursively_visiting_boolean_ s' = recursively_visiting_boolean_ s /\
      recover = frecover (List.length (literal_constraints_ s))
                         (List.length (literal_constraints_ s')).
Proof.
  intros c s recover s' H. unfold EnterConstraint, bind, get in H.
  destruct (visit c s) as [[c' s1]| |] eqn:E; try discriminate.
  destruct (push_constraints an (ExtractConstraints c') s1) as [[u s2]| |] eqn:E2;
    try discriminate.
  unfold ret in H. inversion H; subst; clear H.
  apply Hvisit in E. destruct E as (E1 & E2' & E3 & E4).
  apply push_constraints_spec in E2. destruct E2 as [ext ->]. simpl.
  exists ext. rewrite E1. repeat split; assumption.
Qed.

Lemma frecover_spec :
  forall old new (s : State A),
    frecover old new s =
    if Nat.eqb (List.length (literal_constraints_ s)) new
    then Ok (tt, mkState (firstn old (literal_constraints_ s)) (var_map_ s)
                   (enabled_extensions_ s) (recur_depth_ s)
                   (recursively_visiting_boolean_ s) (analyzer_ s))
    else Trap.
Proof.
  intros. unfold frecover, bind, get.
  destruct (Nat.eqb _ _); reflexivity.
Qed.

Lemma keeps_WithConstraintContext :
  forall T c (body : M A T), keeps body -> keeps (WithConstraintContext an visit c body).
Proof.
  intros T c body Hbody s x s' H.
  unfold WithConstraintContext in H. unfold bind at 1 2, get at 1 in H.
  unfold set_analyzer at 1 in H. unfold bind at 1 in H.
  match type of H with
  | match EnterConstraint an visit c ?s0 with _ => _ end = _ =>
      destruct (EnterConstraint an visit c s0) as [[recover s1]| |] eqn:E;
      try discriminate
  end.
  apply EnterConstraint_spec in E. simpl in E.
  destruct E as (ext & E1 & E2 & E3 & E4 & ->).
  unfold bind at 1 in H.
  destruct (body s1) as [[r s2]| |] eqn:Eb; try discriminate.
  apply Hbody in Eb. destruct Eb as (B1 & B2 & B3 & B4).
  unfold bind at 1 in H. rewrite frecover_spec in H.
  rewrite B1, Nat.eqb_refl in H.
  unfold bind, get, set_analyzer, ret in H. simpl in H.
  inversion H; subst; clear H.
  unfold frame_eq; simpl.
  rewrite E1, firstn_app, Nat.sub_diag, firstn_all. simpl. rewrite app_nil_r.
  repeat split; congruence.
Qed.

End ConstraintFrame.

#[export] Hint Resolve keeps_WithConstraintContext : keeps.

(** *** The visitors *)

Create HintDb rules discriminated.

#[export] Hint Unfold Add_vector_rules Add_index_rules
  Sub_vector_rules Sub_index_rules Sub_nonindex_rules
  Mul_vector_rules Mul_index_rules Div_vector_rules Div_index_rules
  Mod_vector_rules Mod_index_rules FloorDiv_vector_rules FloorDiv_index_rules
  FloorMod_vector_rules FloorMod_index_rules Min_vector_rules Min_index_rules
  Max_vector_rules Max_index_rules LT_index_rules And_rules Or_rules : rules.

(** One step through a visitor: its rule tables (a table keeps the frame
    when each of its rules does), guards, binds and branches. *)
Ltac visitor_step :=
  match goal with
  | |- keeps (apply_rules _ _ _ _) =>
      apply keeps_apply_rules; [assumption | autounfold with rules; rules_tac]
  | |- keeps (c_and _ _ _) => apply keeps_c_and
  | |- keeps (c_or _ _ _) => apply keeps_c_or
  | |- keeps (bind _ _) => apply keeps_bind; [|intro]
  | |- keeps (if ?c then _ else _) => destruct c
  | |- keeps (match ?c with _ => _ end) => destruct c
  | |- keeps _ => solve [eauto 3 with keeps]
  end
with visitor_tac := repeat (cbv beta zeta; visitor_step)
with rules_tac :=
  repeat first
    [ apply Forall_nil
    | apply Forall_cons; [simpl; try exact I; intros; visitor_tac|]
    | apply Forall_app; split
    | match goal with
      | |- Forall _ (when ?b _) => destruct b; simpl
      | |- Forall _ (if ?b then _ else _) => destruct b
      end ].

Section VisitorsFrame.
Context {A : Type}.
Variable an : Analyzer A.
Variable visit : PrimExpr -> M A PrimExpr.
Hypothesis Hvisit : forall e, keeps (visit e).

Lemma keeps_VisitExpr_Add : forall a b, keeps (VisitExpr_Add an visit a b).
Proof. intros. unfold VisitExpr_Add. visitor_tac. Qed.

Lemma keeps_VisitExpr_Sub : forall a b, keeps (VisitExpr_Sub an visit a b).
Proof. intros. unfold VisitExpr_Sub. visitor_tac. Qed.

Lemma keeps_VisitExpr_Mul : forall a b, keeps (VisitExpr_Mul an visit a b).
Proof. intros. unfold VisitExpr_Mul. visitor_tac. Qed.

Lemma keeps_VisitExpr_Div : forall a b, keeps (VisitExpr_Div an visit a b).
Proof. intros. unfold VisitExpr_Div. visitor_tac. Qed.

Lemma keeps_VisitExpr_Mod : forall a b, keeps (VisitExpr_Mod an visit a b).
Proof. intros. unfold VisitExpr_Mod. visitor_tac. Qed.

Lemma keeps_VisitExpr_FloorDiv : forall a b, keeps (VisitExpr_FloorDiv an visit a b).
Proof. intros. unfold VisitExpr_FloorDiv. visitor_tac. Qed.

Lemma keeps_VisitExpr_FloorMod : forall a b, keeps (VisitExpr_FloorMod an visit a b).
Proof. intros. unfold VisitExpr_FloorMod. visitor_tac. Qed.

Lemma keeps_VisitExpr_Min : forall a b, keeps (VisitExpr_Min an visit a b).
Proof. intros. unfold VisitExpr_Min. visitor_tac. Qed.

Lemma keeps_VisitExpr_Max : forall a b, keeps (VisitExpr_Max an visit a b).
Proof. intros. unfold VisitExpr_Max. visitor_tac. Qed.

Lemma keeps_ApplyRewriteRules_EQ : forall e, keeps (ApplyRewriteRules_EQ an visit e).
Proof. intros. unfold ApplyRewriteRules_EQ. visitor_tac. Qed.

Lemma keeps_ApplyRewriteRules_LT : forall e, keeps (ApplyRewriteRules_LT an visit e).
Proof. intros. unfold ApplyRewriteRules_LT. visitor_tac. Qed.

Lemma keeps_ApplyRewriteRules_Not : forall e, keeps (ApplyRewriteRules_Not an visit e).
Proof. intros. unfold ApplyRewriteRules_Not. visitor_tac. Qed.

#[local] Hint Resolve keeps_ApplyRewriteRules_EQ keeps_ApplyRewriteRules_LT
  keeps_ApplyRewriteRules_Not : keeps.

Lemma keeps_VisitExpr_EQ : forall a b, keeps (VisitExpr_EQ an visit a b).
Proof. intros. unfold VisitExpr_EQ. visitor_tac. Qed.

Lemma keeps_VisitExpr_LT : forall a b, keeps (VisitExpr_LT an visit a b).
Proof. intros. unfold VisitExpr_LT. visitor_tac. Qed.

Lemma keeps_VisitExpr_Not : forall a, keeps (VisitExpr_Not an visit a).
Proof. intros. unfold VisitExpr_Not. visitor_tac. Qed.

Lemma keeps_VisitExpr_NE : forall a b, keeps (VisitExpr_NE an visit a b).
Proof. intros. unfold VisitExpr_NE. visitor_tac. Qed.

Lemma keeps_VisitExpr_LE : forall a b, keeps (VisitExpr_LE an visit a b).
Proof. intros. unfold VisitExpr_LE. visitor_tac. Qed.

Lemma keeps_VisitExpr_GT : forall a b, keeps (VisitExpr_GT visit a b).
Proof. intros. unfold VisitExpr_GT. apply Hvisit. Qed.

Lemma keeps_VisitExpr_GE : forall a b, keeps (VisitExpr_GE visit a b).
Proof. intros. unfold VisitExpr_GE. apply Hvisit. Qed.

Lemma keeps_branch_walk : forall assume n i k a b,
  keeps (branch_walk an visit assume n i k a b).
Proof.
  intros assume n. induction n as [|n IH]; intros i k a b; simpl.
  - apply keeps_ret.
  - apply keeps_bind; [apply keeps_WithConstraintContext; auto|].
    intro updated. visitor_tac; apply IH.
Qed.

#[local] Hint Resolve keeps_branch_walk : keeps.

Lemma keeps_VisitExpr_And : forall a b, keeps (VisitExpr_And an visit a b).
Proof. intros. unfold VisitExpr_And. visitor_tac. Qed.

Lemma keeps_VisitExpr_Or : forall a b, keeps (VisitExpr_Or an visit a b).
Proof. intros. unfold VisitExpr_Or. visitor_tac. Qed.

Lemma keeps_Mutate_Select : forall c t f, keeps (Mutate_Select an visit c t f).
Proof. intros. unfold Mutate_Select. visitor_tac. Qed.

Lemma keeps_VisitExpr_Select : forall c t f, keeps (VisitExpr_Select an visit c t f).
Proof. intros. unfold VisitExpr_Select. pose proof keeps_Mutate_Select. visitor_tac. Qed.

Lemma keeps_visit_list : forall l, keeps (visit_list visit l).
Proof. induction l; simpl; visitor_tac. Qed.

#[local] Hint Resolve keeps_visit_list : keeps.

Lemma keeps_Mutate_Call : forall t op args, keeps (Mutate_Call an visit t op args).
Proof. intros. unfold Mutate_Call. visitor_tac. Qed.

#[local] Hint Resolve keeps_Mutate_Call : keeps.

Lemma keeps_nth_arg : forall args i, keeps (@nth_arg A args i).
Proof. intros. unfold nth_arg. visitor_tac. Qed.

#[local] Hint Resolve keeps_nth_arg : keeps.

Lemma keeps_Call_nested_if_then_else : forall e args,
  keeps (Call_nested_if_then_else an e args).
Proof. intros. unfold Call_nested_if_then_else. visitor_tac. Qed.

#[local] Hint Resolve keeps_Call_nested_if_then_else : keeps.

Lemma keeps_Call_likely_and_if_then_else : forall e op args,
  keeps (Call_likely_and_if_then_else an e op args).
Proof. intros. unfold Call_likely_and_if_then_else. visitor_tac. Qed.

#[local] Hint Resolve keeps_Call_likely_and_if_then_else : keeps.

Lemma keeps_VisitExpr_Call : forall t op args, keeps (VisitExpr_Call an visit t op args).
Proof. intros. unfold VisitExpr_Call. visitor_tac. Qed.

Lemma keeps_VisitExpr_Var : forall v, keeps (@VisitExpr_Var A v).
Proof. intros. unfold VisitExpr_Var. visitor_tac. Qed.

Lemma keeps_VisitExpr_Cast : forall t v, keeps (VisitExpr_Cast an visit t v).
Proof. intros. unfold VisitExpr_Cast. visitor_tac. Qed.

Lemma keeps_Bind : forall v e, keeps (Bind an v e).
Proof. intros. unfold Bind. visitor_tac. Qed.

#[local] Hint Resolve keeps_Bind : keeps.

Lemma keeps_VisitExpr_Let : forall v a b, keeps (VisitExpr_Let an visit v a b).
Proof. intros. unfold VisitExpr_Let. visitor_tac. Qed.

Lemma keeps_VisitExpr_Ramp : forall b s l, keeps (VisitExpr_Ramp visit b s l).
Proof. intros. unfold VisitExpr_Ramp. visitor_tac. Qed.

Lemma keeps_VisitExpr_Broadcast : forall v l, keeps (VisitExpr_Broadcast visit v l).
Proof. intros. unfold VisitExpr_Broadcast. visitor_tac. Qed.

End VisitorsFrame.

(** A run of the mutator keeps the frame. *)
Lemma keeps_VisitExpr : forall A (an : Analyzer A) fuel e, keeps (VisitExpr an fuel e).
Proof.
  intros A an fuel. induction fuel as [|n IH]; intros e.
  - apply keeps_out_of_fuel.
  - simpl. destruct e as [| | |op a b| | | | | | |]; try apply keeps_ret.
    + apply keeps_VisitExpr_Var.
    + destruct op;
        auto using keeps_VisitExpr_Add, keeps_VisitExpr_Sub, keeps_VisitExpr_Mul,
          keeps_VisitExpr_Div, keeps_VisitExpr_Mod, keeps_VisitExpr_FloorDiv,
          keeps_VisitExpr_FloorMod, keeps_VisitExpr_Min, keeps_VisitExpr_Max,
          keeps_VisitExpr_EQ, keeps_VisitExpr_NE, keeps_VisitExpr_LT, keeps_VisitExpr_LE,
          keeps_VisitExpr_GT, keeps_VisitExpr_GE, keeps_VisitExpr_And, keeps_VisitExpr_Or.
    + apply keeps_VisitExpr_Not; assumption.
    + apply keeps_VisitExpr_Select; assumption.
    + apply keeps_VisitExpr_Ramp; assumption.
    + apply keeps_VisitExpr_Broadcast; assumption.
    + apply keeps_VisitExpr_Cast; assumption.
    + apply keeps_VisitExpr_Let; assumption.
    + apply keeps_VisitExpr_Call; assumption.
Qed.

(** ** The restore handle of a constraint scope *)

(** C7: the handle returned by [EnterConstraint] succeeds on every state
    whose stack has the size recorded when the handle was made -- the state
    right after the call among them -- and leaves the stack of that state
    cut back to the size from before the call (after the call itself: the
    very stack from before); on a state whose stack has any other size it
    fails its assertion, as a second call does once something was pushed. *)
Theorem EnterConstraint_restore_handle :
  forall (A : Type) (an : Analyzer A) (fuel : nat) (constraint : PrimExpr)
         (s s1 : State A) (recover : M A unit),
    RewriteSimplifier_EnterConstraint an fuel constraint s = Ok (recover, s1) ->
    (exists s2, recover s1 = Ok (tt, s2) /\
                literal_constraints_ s2 = literal_constraints_ s) /\
    (forall s', List.length (literal_constraints_ s')
                = List.length (literal_constraints_ s1) ->
                exists s2, recover s' = Ok (tt, s2) /\
                           List.length (literal_constraints_ s2)
                           = List.length (literal_constraints_ s)) /\
    (forall s', List.length (literal_constraints_ s')
                <> List.length (literal_constraints_ s1) ->
                recover s' = Trap) /\
    (forall s2, List.length (literal_constraints_ s1)
                <> List.length (literal_constraints_ s) ->
                recover s1 = Ok (tt, s2) -> recover s2 = Trap).
Proof.
  intros A an fuel constraint s s1 recover H.
  unfold RewriteSimplifier_EnterConstraint in H.
  apply EnterConstraint_spec in H; [|intro; apply keeps_VisitExpr].
  destruct H as (ext & E1 & _ & _ & _ & ->).
  assert (Hcut : forall s' : State A, List.length (literal_constraints_ s')
                            = List.length (literal_constraints_ s1) ->
                 List.length (firstn (List.length (literal_constraints_ s))
                                (literal_constraints_ s'))
                 = List.length (literal_constraints_ s)).
  { intros s' Hlen. rewrite length_firstn, Hlen, E1, length_app. lia. }
  split; [|split; [|split]].
  - eexists. rewrite frecover_spec, Nat.eqb_refl. split; [reflexivity|]. simpl.
    rewrite E1, firstn_app, Nat.sub_diag, firstn_all. simpl. apply app_nil_r.
  - intros s' Hlen. eexists. rewrite frecover_spec.
    rewrite (proj2 (Nat.eqb_eq _ _) Hlen). split; [reflexivity|]. simpl.
    apply Hcut. exact Hlen.
  - intros s' Hlen. rewrite frecover_spec.
    rewrite (proj2 (Nat.eqb_neq _ _) Hlen). reflexivity.
  - intros s2 Hgrew H1. rewrite frecover_spec, Nat.eqb_refl in H1.
    inversion H1; subst; clear H1. rewrite frecover_spec. simpl.
    rewrite (Hcut s1 eq_refl).
    rewrite (proj2 (Nat.eqb_neq _ _)); [reflexivity|]. congruence.
Qed.

Lemma EnterConstraint_restore_handle_witness :
  exists s2,
    frecover 0 2
      (mkState [LT (ivar "x") (ivar "y"); Not (LE (ivar "y") (ivar "x"))]
               [] kNone 0 false ([] : list (PrimExpr * ConstIntBound)))
    = Ok (tt, s2) /\
    literal_constraints_ s2 = [].
Proof.
  refine (proj1 (@EnterConstraint_restore_handle _ table_analyzer 20
                   (LT (ivar "x") (ivar "y")) (initial_state []) _ _ _)).
  vm_compute. reflexivity.
Defined.

(** ** Literal constraints *)

Lemma ExprDeepEqual_false : forall x y, x <> y -> ExprDeepEqual x y = false.
Proof.
  intros x y H. destruct (ExprDeepEqual x y) eqn:E; [|reflexivity].
  apply ExprDeepEqual_eq in E. contradiction.
Qed.

Lemma Not_neq_self : forall a, Not a <> a.
Proof.
  intros a H. apply (f_equal size) in H. simpl in H. lia.
Qed.

(** The lookup finds a constraint it holds, unless an older entry is the
    negation of the expression. *)
Lemma match_literal_found :
  forall l k rest,
    (forall q, In q l -> ExprDeepEqual q (Not k) = false) ->
    match_literal (l ++ k :: rest) k (Not k) = Some (const_true (dtype k)).
Proof.
  induction l as [|q l IH]; intros k rest Hl; cbn [match_literal app].
  - rewrite ExprDeepEqual_refl. reflexivity.
  - destruct (ExprDeepEqual q k); [reflexivity|].
    rewrite (Hl q (or_introl eq_refl)).
    apply IH. intros q' Hq'. apply Hl. right. exact Hq'.
Qed.

Lemma match_literal_negated :
  forall l k n rest,
    (forall q, In q l -> ExprDeepEqual q n = false) ->
    ExprDeepEqual k n = false ->
    match_literal (l ++ k :: Not n :: rest) n (Not n) = Some (const_false (dtype n)).
Proof.
  induction l as [|q l IH]; intros k n rest Hl Hk; cbn [match_literal app].
  - rewrite Hk.
    destruct (ExprDeepEqual k (Not n)); [reflexivity|].
    rewrite (ExprDeepEqual_false (@Not_neq_self n)), ExprDeepEqual_refl. reflexivity.
  - rewrite (Hl q (or_introl eq_refl)).
    destruct (ExprDeepEqual q (Not n)); [reflexivity|].
    apply IH; [|exact Hk]. intros q' Hq'. apply Hl. right. exact Hq'.
Qed.

(** Entering a constraint whose simplified form [k] is a pure boolean
    expression and no conjunction stacks [k] and the [Not] of its
    normalised negation; from then on the literal lookup answers true on
    [k] (unless an older entry is [Not k]) and false on the normalised
    negation of [k] (unless an older entry is that negation). *)
Lemma EnterConstraint_literal_lookup :
  forall (A : Type) (an : Analyzer A) (fuel : nat) (constraint k : PrimExpr)
         (s s0 : State A),
    VisitExpr an fuel constraint s = Ok (k, s0) ->
    ExtractConstraints k = [k] ->
    effect_le (SideEffect an k) kPure = true ->
    is_bool (dtype k) = true ->
    exists recover s1,
      RewriteSimplifier_EnterConstraint an fuel constraint s = Ok (recover, s1) /\
      literal_constraints_ s1
      = literal_constraints_ s ++ [k; Not (NormalizeBooleanOperators (Not k))] /\
      ((forall q, In q (literal_constraints_ s) -> ExprDeepEqual q (Not k) = false) ->
       TryMatchLiteralConstraint k s1 = Ok (Some (const_true (dtype k)), s1)) /\
      ((forall q, In q (literal_constraints_ s) ->
                  ExprDeepEqual q (NormalizeBooleanOperators (Not k)) = false) ->
       ExprDeepEqual k (NormalizeBooleanOperators (Not k)) = false ->
       TryMatchLiteralConstraint (NormalizeBooleanOperators (Not k)) s1
       = Ok (Some (const_false (dtype (NormalizeBooleanOperators (Not k)))), s1)).
Proof.
  intros A an fuel constraint k s s0 Hvisit Hone Hpure Hbool.
  pose proof (@keeps_VisitExpr A an fuel constraint s k s0 Hvisit) as (F1 & _).
  unfold RewriteSimplifier_EnterConstraint, EnterConstraint, bind, get.
  rewrite Hvisit, Hone. simpl. unfold bind, push_constraint.
  rewrite Hpure. unfold bind, get, set_literal_constraints, ret. rewrite Hbool.
  do 2 eexists. split; [reflexivity|]. simpl. rewrite F1.
  split; [reflexivity|]. split.
  - intros Hold. unfold TryMatchLiteralConstraint, bind, get, ret. simpl.
    rewrite match_literal_found by exact Hold. reflexivity.
  - intros Hold Hk. unfold TryMatchLiteralConstraint, bind, get, ret. simpl.
    rewrite match_literal_negated by assumption. reflexivity.
Qed.


Lemma EnterConstraint_false_literal :
  exists recover s1,
    RewriteSimplifier_EnterConstraint table_analyzer 20 (const_false Bool)
      (initial_state []) = Ok (recover, s1) /\
    result_of (simplify table_analyzer ExprDeepEqual 20 (const_false Bool) s1)
    = Ok (const_false Bool) /\
    result_of (simplify table_analyzer ExprDeepEqual 20 (Not (const_false Bool)) s1)
    = Ok (const_true Bool).
Proof.
  do 2 eexists. split; [vm_compute; reflexivity|].
  split; vm_compute; reflexivity.
Qed.

(** For a boolean variable the whole claim holds: once entered on an empty
    stack, the variable simplifies to true and its negation to false. *)
Lemma simplify_entered_bool_var :
  forall (A : Type) (an : Analyzer A) (same_as : PrimExpr -> PrimExpr -> bool)
         (fuel : nat) (n : string) (s : State A),
    (forall a b, same_as a b = true -> a = b) ->
    effect_le (SideEffect an (bvar n)) kPure = true ->
    literal_constraints_ s = [] ->
    var_map_find (var_map_ s) (mkVar n Bool) = None ->
    exists recover s1,
      RewriteSimplifier_EnterConstraint an (S fuel) (bvar n) s = Ok (recover, s1) /\
      simplify an same_as (S (S fuel)) (bvar n) s1 = Ok (const_true Bool, s1) /\
      simplify an same_as (S (S fuel)) (Not (bvar n)) s1 = Ok (const_false Bool, s1).
Proof.
  intros A an same_as fuel n s Hsame Hpure Hstack Hmap.
  assert (Hvar : forall f (s' : State A),
            In (bvar n) (firstn 1 (literal_constraints_ s')) ->
            VisitExpr an (S f) (bvar n) s' = Ok (const_true Bool, s')).
  { intros f s' Hin. cbn [VisitExpr bvar]. unfold VisitExpr_Var, bind, get.
    cbn [var_dtype]. change (DataType_eqb Bool Bool) with true. cbv iota.
    unfold TryMatchLiteralConstraint, bind, get, ret.
    destruct (literal_constraints_ s') as [|q l]; [destruct Hin|].
    destruct Hin as [->|[]]. cbn [match_literal].
    rewrite ExprDeepEqual_refl. reflexivity. }
  assert (Hneq : forall e, same_as (const_true Bool) (bvar n) = false /\
                           same_as (const_false Bool) (Not e) = false).
  { intros e. split.
    - destruct (same_as (const_true Bool) (bvar n)) eqn:E; [|reflexivity].
      apply Hsame in E. discriminate.
    - destruct (same_as (const_false Bool) (Not e)) eqn:E; [|reflexivity].
      apply Hsame in E. discriminate. }
  unfold RewriteSimplifier_EnterConstraint, EnterConstraint, bind, get.
  assert (Hfirst : VisitExpr an (S fuel) (bvar n) s = Ok (bvar n, s)).
  { cbn [VisitExpr bvar]. unfold VisitExpr_Var, bind, get. cbn [var_dtype].
    change (DataType_eqb Bool Bool) with true. cbv iota.
    unfold TryMatchLiteralConstraint, bind, get, ret. rewrite Hstack. cbn [match_literal].
    rewrite Hmap. reflexivity. }
  rewrite Hfirst. cbn [ExtractConstraints bvar push_constraints]. unfold bind, push_constraint.
  fold (bvar n). rewrite Hpure. unfold bind, get, set_literal_constraints, ret.
  do 2 eexists. split; [reflexivity|].
  rewrite Hstack. cbn [app].
  match goal with |- simplify _ _ _ _ ?s1 = _ /\ _ => set (s1' := s1) end.
  assert (Hin : In (bvar n) (firstn 1 (literal_constraints_ s1')))
    by (left; reflexivity).
  split.
  - unfold simplify, max_iter. cbn [simplify_loop]. unfold bind.
    rewrite (Hvar (S fuel) s1' Hin). rewrite (proj1 (Hneq (bvar n))).
    cbn [VisitExpr const_true make_const MakeConstScalar]. simpl.
    match goal with |- (if ?c then _ else _) _ = _ => destruct c end; reflexivity.
  - unfold simplify, max_iter. cbn [simplify_loop]. unfold bind.
    assert (Hnot : VisitExpr an (S (S fuel)) (Not (bvar n)) s1'
                   = Ok (const_false Bool, s1')).
    { change (VisitExpr an (S (S fuel)) (Not (bvar n)))
        with (VisitExpr_Not an (VisitExpr an (S fuel)) (bvar n)).
      unfold VisitExpr_Not, bind. rewrite (Hvar fuel s1' Hin). reflexivity. }
    rewrite Hnot. rewrite (proj2 (Hneq (bvar n))).
    cbn [VisitExpr const_false make_const MakeConstScalar]. simpl.
    match goal with |- (if ?c then _ else _) _ = _ => destruct c end; reflexivity.
Qed.

(** ** floormod(x*4 + 2, 4) *)

Lemma Mutate_Binary_unchanged :
  forall A (visit : PrimExpr -> M A PrimExpr) op a b a' b' (s : State A),
    visit a s = Ok (a', s) -> visit b s = Ok (b', s) ->
    Mutate_Binary visit op a b s = Ok (Bin op a' b', s).
Proof.
  intros A visit op a b a' b' s Ha Hb. unfold Mutate_Binary, bind.
  rewrite Ha, Hb. reflexivity.
Qed.

Section FloorModExample.
Context {A : Type}.
Variable an : Analyzer A.

Lemma VisitExpr_free_var :
  forall f n t (s : State A),
    DataType_eqb t Bool = false ->
    var_map_find (var_map_ s) (mkVar n t) = None ->
    VisitExpr an (S f) (Var (mkVar n t)) s = Ok (Var (mkVar n t), s).
Proof.
  intros f n t s Ht Hmap. cbn [VisitExpr]. unfold VisitExpr_Var, bind, get, ret.
  cbn [var_dtype]. rewrite Ht, Hmap. reflexivity.
Qed.

Lemma apply_rules_skip :
  forall (visit : PrimExpr -> M A PrimExpr) r rest e (s : State A),
    apply_rule an visit r e s = Ok (None, s) ->
    apply_rules an visit (r :: rest) e s = apply_rules an visit rest e s.
Proof.
  intros visit r rest e s H. cbn [apply_rules]. unfold bind. rewrite H. reflexivity.
Qed.

Lemma Eval_floormod_lit_one :
  forall (b : Z) (env : Env),
    env_get env PatternNotations.ic1 = Some (i32 1) ->
    Eval env (PatternNotations.floormod
                (PatternNotations.lit b PatternNotations.c1) PatternNotations.c1)
    = Ok (i32 0).
Proof.
  intros b env H.
  unfold PatternNotations.floormod, PatternNotations.lit, PatternNotations.c1.
  cbn [Eval]. rewrite H. cbn [res_bind].
  change (make_const (dtype (i32 1)) b) with (IntImm int32 b).
  unfold mk, TryConstFold, i32.
  change (DataType_eqb int32 int32) with true. cbv iota. cbn [negb].
  change (1 =? 0) with false. cbv iota.
  rewrite Z.mod_1_r. reflexivity.
Qed.

Variable s : State A.
Hypothesis Hmap : var_map_find (var_map_ s) (mkVar "x" int32) = None.

Lemma VisitExpr_x_times_4 : forall f,
  VisitExpr an (S (S f)) (Mul (ivar "x") (i32 4)) s = Ok (Mul (ivar "x") (i32 4), s).
Proof.
  intros f.
  change (VisitExpr an (S (S f)) (Mul (ivar "x") (i32 4)))
    with (VisitExpr_Mul an (VisitExpr an (S f)) (ivar "x") (i32 4)).
  unfold VisitExpr_Mul, bind.
  rewrite (@Mutate_Binary_unchanged _ _ OMul _ _ (ivar "x") (i32 4));
    [| apply VisitExpr_free_var; [reflexivity | exact Hmap] | reflexivity].
  vm_compute. reflexivity.
Qed.

Lemma VisitExpr_x_times_4_plus_2 : forall f,
  VisitExpr an (S (S (S f))) (Add (Mul (ivar "x") (i32 4)) (i32 2)) s
  = Ok (Add (Mul (ivar "x") (i32 4)) (i32 2), s).
Proof.
  intros f.
  change (VisitExpr an (S (S (S f))) (Add (Mul (ivar "x") (i32 4)) (i32 2)))
    with (VisitExpr_Add an (VisitExpr an (S (S f))) (Mul (ivar "x") (i32 4)) (i32 2)).
  unfold VisitExpr_Add, bind.
  rewrite (@Mutate_Binary_unchanged _ _ OAdd _ _ (Mul (ivar "x") (i32 4)) (i32 2));
    [| apply VisitExpr_x_times_4 | reflexivity].
  vm_compute. reflexivity.
Qed.

(** The first pass: the second index rule fires, its guard a comparison of
    literals; no constraint and no oracle is consulted. *)
Lemma VisitExpr_floormod_example : forall f,
  VisitExpr an (S (S (S (S f)))) floormod_example s
  = Ok (Add (Mul (FloorMod (ivar "x") (i32 1)) (i32 4)) (i32 2), s).
Proof.
  intros f. unfold floormod_example.
  change (VisitExpr an (S (S (S (S f))))
            (FloorMod (Add (Mul (ivar "x") (i32 4)) (i32 2)) (i32 4)))
    with (VisitExpr_FloorMod an (VisitExpr an (S (S (S f))))
            (Add (Mul (ivar "x") (i32 4)) (i32 2)) (i32 4)).
  unfold VisitExpr_FloorMod, bind.
  rewrite (@Mutate_Binary_unchanged _ _ OFloorMod _ _
             (Add (Mul (ivar "x") (i32 4)) (i32 2)) (i32 4));
    [| apply VisitExpr_x_times_4_plus_2 | reflexivity].
  vm_compute. reflexivity.
Qed.

(** x mod 1: the modular set of x has a coefficient divisible by 1. *)
Lemma VisitExpr_x_mod_1 : forall f,
  VisitExpr an (S (S f)) (FloorMod (ivar "x") (i32 1)) s = Ok (i32 0, s).
Proof.
  intros f.
  change (VisitExpr an (S (S f)) (FloorMod (ivar "x") (i32 1)))
    with (VisitExpr_FloorMod an (VisitExpr an (S f)) (ivar "x") (i32 1)).
  unfold VisitExpr_FloorMod, bind.
  rewrite (@Mutate_Binary_unchanged _ _ OFloorMod _ _ (ivar "x") (i32 1));
    [| apply VisitExpr_free_var; [reflexivity | exact Hmap] | reflexivity].
  change (TryConstFold OFloorMod (ivar "x") (i32 1)) with (@None PrimExpr). cbv iota.
  match goal with
  | |- apply_rules _ _ ?l _ _ = _ =>
      change l with (FloorMod_index_rules an (VisitExpr an (S f)))
  end.
  unfold FloorMod_index_rules.
  do 11 (rewrite apply_rules_skip by (vm_compute; reflexivity)).
  cbn [apply_rules apply_rule]. unfold bind at 1.
  match goal with |- context [match_first ?p ?e] => set (m := match_first p e) end.
  vm_compute in m. subst m. cbv beta iota.
  unfold PatternNotations.c1v, PatternNotations.ic1.
  cbn [ival env_get Nat.eqb].
  change (0 <? 1) with true. cbv iota. unfold bind at 1, get at 1.
  rewrite Z.rem_1_r. change (0 =? 0) with true. cbv iota.
  unfold bind at 1. rewrite Eval_floormod_lit_one by reflexivity.
  reflexivity.
Qed.

(** The second pass folds what the first one left. *)
Lemma VisitExpr_floormod_example_second : forall f,
  VisitExpr an (S (S (S (S f)))) (Add (Mul (FloorMod (ivar "x") (i32 1)) (i32 4)) (i32 2)) s
  = Ok (i32 2, s).
Proof.
  intros f.
  change (VisitExpr an (S (S (S (S f))))
            (Add (Mul (FloorMod (ivar "x") (i32 1)) (i32 4)) (i32 2)))
    with (VisitExpr_Add an (VisitExpr an (S (S (S f))))
            (Mul (FloorMod (ivar "x") (i32 1)) (i32 4)) (i32 2)).
  unfold VisitExpr_Add, bind at 1.
  assert (Hmul : VisitExpr an (S (S (S f))) (Mul (FloorMod (ivar "x") (i32 1)) (i32 4)) s
                 = Ok (i32 0, s)).
  { change (VisitExpr an (S (S (S f))) (Mul (FloorMod (ivar "x") (i32 1)) (i32 4)))
      with (VisitExpr_Mul an (VisitExpr an (S (S f))) (FloorMod (ivar "x") (i32 1)) (i32 4)).
    unfold VisitExpr_Mul, bind.
    rewrite (@Mutate_Binary_unchanged _ _ OMul _ _ (i32 0) (i32 4));
      [| apply VisitExpr_x_mod_1 | reflexivity].
    reflexivity. }
  rewrite (@Mutate_Binary_unchanged _ _ OAdd _ _ (i32 0) (i32 2));
    [| exact Hmul | reflexivity].
  reflexivity.
Qed.

End FloorModExample.

(** C3 (amended): whatever the analyzer and whatever constraints are
    stacked -- none, or after x >= 0 was entered --, floormod(x*4 + 2, 4)
    simplifies to the literal 2 for an index variable x that the variable
    map leaves alone: the first pass rewrites it to floormod(x, 1)*4 + 2 by
    a rule whose guard compares literals only, the second folds that. *)
Theorem simplify_floormod_example :
  forall (A : Type) (an : Analyzer A) (same_as : PrimExpr -> PrimExpr -> bool)
         (fuel : nat) (s : State A),
    (forall a b, same_as a b = true -> a = b) ->
    var_map_find (var_map_ s) (mkVar "x" int32) = None ->
    simplify an same_as (4 + fuel) floormod_example s = Ok (i32 2, s) /\
    (forall fuel' recover s1,
        RewriteSimplifier_EnterConstraint an fuel' x_nonneg s = Ok (recover, s1) ->
        var_map_find (var_map_ s1) (mkVar "x" int32) = None ->
        simplify an same_as (4 + fuel) floormod_example s1 = Ok (i32 2, s1)).
Proof.
  intros A an same_as fuel s Hsame Hmap.
  assert (Hneq : forall a b, a <> b -> same_as a b = false).
  { intros a b Hab. destruct (same_as a b) eqn:E; [|reflexivity].
    apply Hsame in E. contradiction. }
  assert (Hrun : forall s' : State A,
            var_map_find (var_map_ s') (mkVar "x" int32) = None ->
            simplify an same_as (4 + fuel) floormod_example s' = Ok (i32 2, s')).
  { intros s' Hmap'. unfold simplify, max_iter. cbn [simplify_loop Nat.add]. unfold bind.
    rewrite (@VisitExpr_floormod_example _ an s' Hmap').
    rewrite Hneq by discriminate.
    rewrite (@VisitExpr_floormod_example_second _ an s' Hmap').
    rewrite Hneq by discriminate. reflexivity. }
  split; [apply Hrun; exact Hmap|].
  intros fuel' recover s1 _ Hmap1. apply Hrun. exact Hmap1.
Qed.

Lemma simplify_floormod_example_witness :
  simplify table_analyzer ExprDeepEqual (4 + 0) floormod_example
    (mkState [LE (i32 0) (ivar "x"); Not (LT (ivar "x") (i32 0))]
             [] kNone 0 false ([] : list (PrimExpr * ConstIntBound)))
  = Ok (i32 2,
        mkState [LE (i32 0) (ivar "x"); Not (LT (ivar "x") (i32 0))]
                [] kNone 0 false ([] : list (PrimExpr * ConstIntBound))).
Proof.
  refine (proj2 (@simplify_floormod_example _ table_analyzer ExprDeepEqual 0
                   (initial_state []) _ _) 20%nat _ _ _ _).
  - intros a b H. apply ExprDeepEqual_eq. exact H.
  - reflexivity.
  - vm_compute. reflexivity.
  - reflexivity.
Defined.

(** C3 (the claim as stated fails): with no constraint entered the result
    is already the literal 2, not the expression unchanged. *)
Lemma simplify_floormod_example_no_constraint :
  literal_constraints_ (initial_state ([] : list (PrimExpr * ConstIntBound))) = [] /\
  result_of (simplify table_analyzer ExprDeepEqual 20 floormod_example (initial_state []))
  = Ok (i32 2) /\
  i32 2 <> floormod_example.
Proof.
  split; [reflexivity|]. split; [vm_compute; reflexivity | discriminate].
Qed.

(** ** The driver *)

(** C2 (amended): the driver runs the mutator at most twice; it stops after
    the first pass only when [same_as] holds of the result and the input
    (identity of objects: a relation no weaker than equality of values
    never stops it on a changed value), and hands back what the second
    pass returns.  An expression that one pass returns as it is, in an
    unchanged state, is returned by the driver: on such results the
    entry point is idempotent. *)
Theorem simplify_two_passes :
  forall (A : Type) (an : Analyzer A) (same_as : PrimExpr -> PrimExpr -> bool)
         (fuel : nat) (e : PrimExpr) (s : State A),
    (forall a b, same_as a b = true -> a = b) ->
    simplify an same_as fuel e s
    = bind (VisitExpr an fuel e)
        (fun r1 => if same_as r1 e then ret e else VisitExpr an fuel r1) s /\
    (VisitExpr an fuel e s = Ok (e, s) -> simplify an same_as fuel e s = Ok (e, s)).
Proof.
  intros A an same_as fuel e s Hsame.
  assert (Hshape : simplify an same_as fuel e s
                   = bind (VisitExpr an fuel e)
                       (fun r1 => if same_as r1 e then ret e else VisitExpr an fuel r1) s).
  { unfold simplify, max_iter. cbn [simplify_loop]. unfold bind.
    destruct (VisitExpr an fuel e s) as [[r1 s1]| |]; try reflexivity.
    destruct (same_as r1 e); [reflexivity|].
    destruct (VisitExpr an fuel r1 s1) as [[r2 s2]| |]; try reflexivity.
    destruct (same_as r2 r1) eqn:E; [|reflexivity].
    apply Hsame in E. subst. reflexivity. }
  split; [exact Hshape|].
  intros Hfix. rewrite Hshape. unfold bind. rewrite Hfix.
  destruct (same_as e e); [reflexivity | exact Hfix].
Qed.

Lemma simplify_two_passes_witness :
  simplify table_analyzer ExprDeepEqual 20 (LT (ivar "p") (ivar "q")) (initial_state [])
  = Ok (LT (ivar "p") (ivar "q"), initial_state []).
Proof.
  refine (proj2 (@simplify_two_passes _ table_analyzer ExprDeepEqual 20
                   (LT (ivar "p") (ivar "q")) (initial_state []) _) _).
  - intros a b H. apply ExprDeepEqual_eq. exact H.
  - vm_compute. reflexivity.
Defined.

(** C2 (the claim as stated fails): each pass of a + (b + (c + p)) <
    a + (b + (c + q)) cancels one summand; after the two passes c + p <
    c + q is returned, and simplifying that gives p < q.  Deep equality of
    a pass's result with its input is not what stops the driver either. *)
Lemma simplify_not_idempotent :
  result_of (simplify table_analyzer ExprDeepEqual 30 nested_sums_lt (initial_state []))
  = Ok (LT (Add (ivar "c") (ivar "p")) (Add (ivar "c") (ivar "q"))) /\
  result_of (simplify table_analyzer ExprDeepEqual 30
               (LT (Add (ivar "c") (ivar "p")) (Add (ivar "c") (ivar "q")))
               (initial_state []))
  = Ok (LT (ivar "p") (ivar "q")) /\
  ExprDeepEqual (LT (ivar "p") (ivar "q"))
                (LT (Add (ivar "c") (ivar "p")) (Add (ivar "c") (ivar "q"))) = false.
Proof. repeat split; vm_compute; reflexivity. Qed.

(** The same with a driver that never sees an identical object. *)
Lemma simplify_not_idempotent_fresh_objects :
  result_of (simplify table_analyzer (fun _ _ => false) 30 nested_sums_lt (initial_state []))
  = Ok (LT (Add (ivar "c") (ivar "p")) (Add (ivar "c") (ivar "q"))) /\
  result_of (simplify table_analyzer (fun _ _ => false) 30
               (LT (Add (ivar "c") (ivar "p")) (Add (ivar "c") (ivar "q")))
               (initial_state []))
  = Ok (LT (ivar "p") (ivar "q")).
Proof. split; vm_compute; reflexivity. Qed.

(** ** Soundness on the ring fragment *)

(** *** 32-bit values *)

Lemma cong32_iff : forall a b, cong32 a b <-> a mod 2 ^ 32 = b mod 2 ^ 32.
Proof.
  intros a b. unfold cong32, wrap_signed. change (32 - 1) with 31. split; intros H.
  - assert (H' : (a + 2 ^ 31) mod 2 ^ 32 = (b + 2 ^ 31) mod 2 ^ 32) by lia.
    rewrite <- (Z.add_simpl_r a (2 ^ 31)), <- (Z.add_simpl_r b (2 ^ 31)).
    rewrite (Zminus_mod (a + 2 ^ 31)), (Zminus_mod (b + 2 ^ 31)), H'. reflexivity.
  - rewrite (Z.add_mod a) by lia. rewrite (Z.add_mod b) by lia. rewrite H. reflexivity.
Qed.

Lemma cong32_refl : forall a, cong32 a a.
Proof. reflexivity. Qed.

Lemma cong32_sym : forall a b, cong32 a b -> cong32 b a.
Proof. unfold cong32. auto. Qed.

Lemma cong32_trans : forall a b c, cong32 a b -> cong32 b c -> cong32 a c.
Proof. unfold cong32. intros. congruence. Qed.

Lemma cong32_wrap : forall a, cong32 (wrap_signed 32 a) a.
Proof.
  intros a. apply cong32_iff. unfold wrap_signed. change (32 - 1) with 31.
  rewrite Zminus_mod, Z.mod_mod by lia. rewrite <- Zminus_mod.
  f_equal. lia.
Qed.

Lemma cong32_ring_val : forall op a a' b b',
  cong32 a a' -> cong32 b b' -> cong32 (ring_val op a b) (ring_val op a' b').
Proof.
  intros op a a' b b' Ha Hb. apply cong32_iff in Ha, Hb. apply cong32_iff.
  destruct op; cbn [ring_val]; try reflexivity.
  - rewrite (Z.add_mod a) by lia. rewrite (Z.add_mod a') by lia. rewrite Ha, Hb. reflexivity.
  - rewrite (Zminus_mod a), (Zminus_mod a'), Ha, Hb. reflexivity.
  - rewrite (Z.mul_mod a) by lia. rewrite (Z.mul_mod a') by lia. rewrite Ha, Hb. reflexivity.
Qed.

(** *** Expressions of the fragment *)

Lemma ring_expr_dtype : forall e, ring_expr e = true -> dtype e = int32.
Proof.
  induction e; simpl; intros Hr; try discriminate.
  - apply DataType_eqb_eq. exact Hr.
  - apply DataType_eqb_eq. exact Hr.
  - apply andb_prop in Hr. destruct Hr as [Hr Hb]. apply andb_prop in Hr.
    destruct Hr as [Hop Ha]. destruct op; try discriminate; simpl; auto.
Qed.

Lemma ring_expr_Bin : forall op a b,
  ring_expr (Bin op a b) = true ->
  ring_op op = true /\ ring_expr a = true /\ ring_expr b = true.
Proof.
  intros op a b H. simpl in H. apply andb_prop in H. destruct H as [H Hb].
  apply andb_prop in H. tauto.
Qed.

(** On the fragment the value is the integer value, wrapped to 32 bits. *)
Lemma eval_ring_expr : forall rho e,
  ring_expr e = true -> eval rho e = Some (wrap_signed 32 (den rho e)).
Proof.
  intros rho. induction e; intros Hr; try discriminate.
  - simpl in Hr. apply DataType_eqb_eq in Hr. subst. reflexivity.
  - simpl in Hr. apply DataType_eqb_eq in Hr. simpl. rewrite Hr. reflexivity.
  - apply ring_expr_Bin in Hr. destruct Hr as (Hop & Ha & Hb). cbn [eval den].
    rewrite (IHe1 Ha), (IHe2 Hb), (ring_expr_dtype _ Ha).
    destruct op; try discriminate; cbn [eval_op ring_val]; apply f_equal.
    + exact (@cong32_ring_val OAdd _ _ _ _ (cong32_wrap _) (cong32_wrap _)).
    + exact (@cong32_ring_val OSub _ _ _ _ (cong32_wrap _) (cong32_wrap _)).
    + exact (@cong32_ring_val OMul _ _ _ _ (cong32_wrap _) (cong32_wrap _)).
Qed.

Lemma eval_cong32 : forall rho e e',
  ring_expr e = true -> ring_expr e' = true ->
  cong32 (den rho e') (den rho e) -> eval rho e' = eval rho e.
Proof.
  intros rho e e' He He' H. rewrite !eval_ring_expr by assumption. f_equal. exact H.
Qed.

(** Eager folding in a constructor stays in the fragment and keeps the
    value. *)
Lemma mk_ring : forall op a b,
  ring_op op = true -> ring_expr a = true -> ring_expr b = true ->
  ring_expr (mk op a b) = true /\
  forall rho, cong32 (den rho (mk op a b)) (ring_val op (den rho a) (den rho b)).
Proof.
  intros op a b Hop Ha Hb. unfold mk.
  destruct (TryConstFold op a b) as [r|] eqn:E.
  - unfold TryConstFold in E.
    destruct a; try discriminate; destruct b; try discriminate.
    simpl in Ha, Hb. apply DataType_eqb_eq in Ha, Hb. subst.
    change (DataType_eqb int32 int32) with true in E. simpl in E.
    destruct op; try discriminate; inversion E; subst; (split; [reflexivity|]);
      intros rho; simpl; apply cong32_wrap.
  - split; [simpl; rewrite Hop, Ha, Hb; reflexivity | intros; apply cong32_refl].
Qed.

(** *** Matching and evaluation of patterns on the fragment *)

Lemma env_extends_refl : forall env, env_extends env env.
Proof. intros env i v H. exact H. Qed.

Lemma env_extends_trans : forall e1 e2 e3,
  env_extends e1 e2 -> env_extends e2 e3 -> env_extends e1 e3.
Proof. intros e1 e2 e3 H12 H23 i v H. auto. Qed.

Lemma env_extends_cons : forall env i e,
  env_get env i = None -> env_extends env ((i, e) :: env).
Proof.
  intros env i e Hi j v Hj. simpl.
  destruct (Nat.eqb j i) eqn:E; [|exact Hj].
  apply Nat.eqb_eq in E. subst. congruence.
Qed.

Lemma env_ring_cons : forall env i e,
  env_ring env -> ring_expr e = true -> env_ring ((i, e) :: env).
Proof.
  intros env i e Henv He j v Hj. simpl in Hj.
  destruct (Nat.eqb j i); [inversion Hj; subst; exact He | eapply Henv; eassumption].
Qed.

Lemma env_get_cons_same : forall env i e, env_get ((i, e) :: env) i = Some e.
Proof. intros. simpl. rewrite Nat.eqb_refl. reflexivity. Qed.

Lemma pval_extends : forall rho p env env',
  env_extends env env' ->
  (forall i, In i (pat_binds p) -> env_get env i <> None) ->
  pval (env_val rho env') p = pval (env_val rho env) p.
Proof.
  intros rho p env env' Hext. induction p as [k i|c|ref IHref cv|op p1 IHp1 p2 IHp2|p1 IHp1|p1 IHp1 p2 IHp2 p3 IHp3|p1 IHp1 p2 IHp2 p3 IHp3|p1 IHp1 p2 IHp2]; intros Hb; simpl; try reflexivity.
  - unfold env_val. specialize (Hb i (or_introl eq_refl)).
    destruct (env_get env i) eqn:E; [|congruence].
    rewrite (Hext _ _ E). reflexivity.
  - simpl in Hb. rewrite IHp1, IHp2; [reflexivity| |];
      intros i Hi; apply Hb; apply in_or_app; auto.
Qed.

Lemma Match_ring : forall rho p e env0 env,
  ring_pat p = true -> ring_expr e = true -> env_ring env0 ->
  Match_ p e env0 = Some env ->
  env_ring env /\ env_extends env0 env /\
  (forall i, In i (pat_binds p) -> env_get env i <> None) /\
  den rho e = pval (env_val rho env) p.
Proof.
  intros rho. induction p as [k i|c|ref IHref cv|op p1 IHp1 p2 IHp2|p1 IHp1|p1 IHp1 p2 IHp2 p3 IHp3|p1 IHp1 p2 IHp2 p3 IHp3|p1 IHp1 p2 IHp2]; intros e env0 env Hp He Henv HM; simpl in Hp; try discriminate.
  - (* PVar *)
    simpl in HM. unfold match_var in HM.
    destruct k; try discriminate.
    + destruct (env_get env0 i) as [v|] eqn:E.
      * destruct (ExprDeepEqual v e) eqn:Eq; [|discriminate].
        inversion HM; subst. apply ExprDeepEqual_eq in Eq. subst.
        repeat split; auto using env_extends_refl.
        -- intros j [<-|[]]. congruence.
        -- simpl. unfold env_val. rewrite E. reflexivity.
      * inversion HM; subst.
        repeat split; auto using env_ring_cons, env_extends_cons.
        -- intros j [<-|[]]. rewrite env_get_cons_same. discriminate.
        -- simpl. unfold env_val. rewrite env_get_cons_same. reflexivity.
    + destruct e as [t0 v0| | | | | | | | | |]; try discriminate.
      destruct (env_get env0 i) as [v|] eqn:E.
      * destruct v as [t' m| | | | | | | | | |]; try discriminate.
        destruct (m =? v0) eqn:Eq; [|discriminate].
        inversion HM; subst. apply Z.eqb_eq in Eq. subst.
        repeat split; auto using env_extends_refl.
        -- intros j [<-|[]]. congruence.
        -- simpl. unfold env_val. rewrite E. reflexivity.
      * inversion HM; subst.
        repeat split; auto using env_ring_cons, env_extends_cons.
        -- intros j [<-|[]]. rewrite env_get_cons_same. discriminate.
        -- simpl. unfold env_val. rewrite env_get_cons_same. reflexivity.
  - (* PConstWithTypeLike *)
    simpl in HM. destruct e as [t0 v0| | | | | | | | | |]; try discriminate.
    destruct (v0 =? cv) eqn:Eq; [|discriminate].
    inversion HM; subst. apply Z.eqb_eq in Eq. subst.
    repeat split; auto using env_extends_refl.
  - (* PBin *)
    simpl in HM. destruct e as [| | |op0 e1 e2| | | | | | |]; try discriminate.
    destruct (BinOp_eqb op op0) eqn:Eop; [|discriminate].
    apply BinOp_eqb_eq in Eop. subst op0.
    apply andb_prop in Hp. destruct Hp as [Hp Hp2]. apply andb_prop in Hp.
    destruct Hp as [Hop Hp1].
    apply ring_expr_Bin in He. destruct He as (_ & He1 & He2).
    destruct (Match_ p1 e1 env0) as [env1|] eqn:E1; [|discriminate].
    destruct (IHp1 _ _ _ Hp1 He1 Henv E1) as (R1 & X1 & B1 & D1).
    destruct (IHp2 _ _ _ Hp2 He2 R1 HM) as (R2 & X2 & B2 & D2).
    repeat split; auto.
    + eapply env_extends_trans; eassumption.
    + intros j Hj. simpl in Hj. apply in_app_or in Hj. destruct Hj as [Hj|Hj]; auto.
      specialize (B1 j Hj). destruct (env_get env1 j) eqn:E; [|congruence].
      rewrite (X2 _ _ E). discriminate.
    + simpl. rewrite D1, D2. f_equal. symmetry. apply pval_extends; assumption.
Qed.

Lemma Match_never_ring : forall p e env,
  never_ring p = true -> ring_expr e = true -> Match_ p e env = None.
Proof.
  induction p as [k i|c|ref IHref cv|op p1 IHp1 p2 IHp2|p1 IHp1|p1 IHp1 p2 IHp2 p3 IHp3|p1 IHp1 p2 IHp2 p3 IHp3|p1 IHp1 p2 IHp2]; intros e env Hp He;
    simpl in Hp; simpl;
    try (destruct e; try reflexivity; simpl in He; discriminate).
  - destruct k; try discriminate. unfold match_var.
    destruct e; try reflexivity; simpl in He; discriminate.
  - destruct (ExprDeepEqual c e) eqn:E; [|reflexivity].
    apply ExprDeepEqual_eq in E. subst. rewrite He in Hp. discriminate.
  - destruct e as [| | |op0 e1 e2| | | | | | |]; try reflexivity.
    destruct (BinOp_eqb op op0) eqn:Eop; [|reflexivity].
    apply BinOp_eqb_eq in Eop. subst op0.
    apply ring_expr_Bin in He. destruct He as (Hop & He1 & He2).
    rewrite Hop in Hp. simpl in Hp. apply orb_prop in Hp.
    destruct Hp as [Hp|Hp].
    + rewrite (IHp1 _ _ Hp He1). reflexivity.
    + destruct (Match_ p1 e1 env); [apply IHp2; assumption | reflexivity].
Qed.

Lemma subset_In : forall l1 l2 i, subset l1 l2 = true -> In i l1 -> In i l2.
Proof.
  intros l1 l2 i H Hi. unfold subset in H. rewrite forallb_forall in H.
  specialize (H i Hi). apply existsb_exists in H. destruct H as (j & Hj & E).
  apply Nat.eqb_eq in E. subst. exact Hj.
Qed.

Lemma Eval_ring : forall p env,
  ring_pat p = true -> env_ring env ->
  (forall i, In i (pat_reads p) -> env_get env i <> None) ->
  exists v, Eval env p = Ok v /\ ring_expr v = true /\
            forall rho, cong32 (den rho v) (pval (env_val rho env) p).
Proof.
  induction p as [k i|c|ref IHref cv|op p1 IHp1 p2 IHp2|p1 IHp1|p1 IHp1 p2 IHp2 p3 IHp3|p1 IHp1 p2 IHp2 p3 IHp3|p1 IHp1 p2 IHp2];
    intros env Hp Henv Hb; simpl in Hp; try discriminate.
  - specialize (Hb i (or_introl eq_refl)). simpl.
    destruct (env_get env i) as [v|] eqn:E; [|congruence].
    exists v. split; [reflexivity|]. split; [eapply Henv; eassumption|].
    intros rho. unfold env_val. rewrite E. apply cong32_refl.
  - destruct (IHref env Hp Henv Hb) as (r & Er & Rr & _). simpl. rewrite Er. simpl.
    rewrite (ring_expr_dtype _ Rr). exists (IntImm int32 cv).
    split; [reflexivity|]. split; [reflexivity|]. intros rho. apply cong32_refl.
  - apply andb_prop in Hp. destruct Hp as [Hp Hp2]. apply andb_prop in Hp.
    destruct Hp as [Hop Hp1]. simpl in Hb.
    destruct (IHp1 env Hp1 Henv) as (a & Ea & Ra & Da);
      [intros i Hi; apply Hb; apply in_or_app; auto|].
    destruct (IHp2 env Hp2 Henv) as (b & Eb & Rb & Db);
      [intros i Hi; apply Hb; apply in_or_app; auto|].
    simpl. rewrite Ea, Eb. simpl.
    destruct (@mk_ring op a b Hop Ra Rb) as (Rm & Dm).
    exists (mk op a b). split; [reflexivity|]. split; [exact Rm|].
    intros rho. eapply cong32_trans; [apply Dm|].
    apply cong32_ring_val; auto.
Qed.

(** *** Rules and rule tables on the fragment *)

Lemma env_ring_nil : env_ring [].
Proof. intros i v H. discriminate. Qed.

Lemma pat_ok_fires : forall res p e env,
  pat_ok res p -> ring_expr e = true -> Match p e = Some env ->
  exists v, Eval env res = Ok v /\ ring_expr v = true /\
            forall rho, cong32 (den rho v) (den rho e).
Proof.
  intros res p e env [Hn|(Hp & Hr & Hs & Hv)] He HM.
  - unfold Match in HM. rewrite (@Match_never_ring p e [] Hn He) in HM. discriminate.
  - unfold Match in HM.
    destruct (@Match_ring (fun _ => 0) p e [] env Hp He env_ring_nil HM) as (Renv & _ & Hb & _).
    destruct (@Eval_ring res env Hr Renv) as (v & Ev & Rv & Dv).
    { intros i Hi. apply Hb. eapply subset_In; eassumption. }
    exists v. split; [exact Ev|]. split; [exact Rv|].
    intros rho. eapply cong32_trans; [apply Dv|].
    destruct (@Match_ring rho p e [] env Hp He env_ring_nil HM) as (_ & _ & _ & D).
    rewrite D, Hv. apply cong32_refl.
Qed.

Section RingRules.
Context {A : Type}.
Variable an : Analyzer A.

Lemma match_one_of_never : forall src e (cond : Env -> M A bool) s,
  Forall (fun p => never_ring p = true) src -> ring_expr e = true ->
  match_one_of src e cond s = Ok (None, s).
Proof.
  intros src e cond s H He. induction H as [|p rest Hp _ IH]; simpl.
  - reflexivity.
  - unfold Match. rewrite (@Match_never_ring p e [] Hp He). exact IH.
Qed.

Lemma match_one_of_pure : forall src e (g : Env -> bool) (s : State A),
  match_one_of src e (pure_cond g) s = Ok (None, s) \/
  exists p env, In p src /\ Match p e = Some env /\
                match_one_of src e (pure_cond g) s = Ok (Some env, s).
Proof.
  intros src e g s. induction src as [|p rest IH]; simpl.
  - left. reflexivity.
  - destruct (Match p e) as [env|] eqn:E.
    + unfold bind, pure_cond, ret. destruct (g env).
      * right. exists p, env. auto.
      * destruct IH as [IH|(q & env' & Hq & Hm & IH)]; [left; exact IH|].
        right. exists q, env'. auto.
    + destruct IH as [IH|(q & env' & Hq & Hm & IH)]; [left; exact IH|].
      right. exists q, env'. auto.
Qed.

Lemma guarded_rewrite_outcome : forall src res g e s,
  Forall (pat_ok res) src -> ring_expr e = true ->
  rule_outcome an (fun _ => TVM_TRY_REWRITE_IF src res (pure_cond g)) e s /\
  rule_outcome an (fun _ => TVM_TRY_RECURSIVE_REWRITE_IF src res (pure_cond g)) e s.
Proof.
  intros src res g e s Hsrc He. unfold rule_outcome. cbn [apply_rule].
  destruct (match_one_of_pure src e g s) as [Hn|(p & env & Hin & Hm & Hf)].
  - split; left; intros visit; unfold bind; rewrite Hn; reflexivity.
  - rewrite Forall_forall in Hsrc.
    destruct (@pat_ok_fires res p e env (Hsrc p Hin) He Hm) as (v & Ev & Rv & Dv).
    split; right; exists v; (split; [exact Rv|]); (split; [exact Dv|]).
    + left. intros visit. unfold bind at 1. rewrite Hf. unfold bind, lift. rewrite Ev.
      reflexivity.
    + right. intros visit. unfold bind at 1. rewrite Hf. unfold bind at 1, lift.
      rewrite Ev. reflexivity.
Qed.

Lemma ring_rule_outcome : forall R e s,
  ring_rule R -> ring_expr e = true -> rule_outcome an R e s.
Proof.
  intros R e s HR He. destruct HR as [src res H|src res H|src res cond H|src res cond H
                                      |src res g H|src res g H|src body H].
  - exact (proj1 (@guarded_rewrite_outcome src res (fun _ => true) e s H He)).
  - exact (proj2 (@guarded_rewrite_outcome src res (fun _ => true) e s H He)).
  - left. intros visit. cbn [apply_rule]. unfold bind.
    rewrite match_one_of_never by assumption. reflexivity.
  - left. intros visit. cbn [apply_rule]. unfold bind.
    rewrite match_one_of_never by assumption. reflexivity.
  - exact (proj1 (@guarded_rewrite_outcome src res g e s H He)).
  - exact (proj2 (@guarded_rewrite_outcome src res g e s H He)).
  - left. intros visit. cbn [apply_rule].
    assert (Hn : match_first src e = None).
    { induction H as [|p rest Hp _ IH]; simpl; [reflexivity|].
      unfold Match. rewrite (@Match_never_ring p e [] Hp He). exact IH. }
    rewrite Hn. reflexivity.
Qed.

Lemma ring_table_outcome : forall T e s,
  ring_table T -> ring_expr e = true ->
  exists o, outcome_ok e o /\
            forall visit, apply_rules an visit (T visit) e s = run_outcome an visit e o s.
Proof.
  intros T e s HT He. induction HT as [|R T HR HT IH].
  - exists NoFire. split; [exact I|]. reflexivity.
  - destruct (@ring_rule_outcome R e s HR He) as [Hn|(v & Rv & Dv & [Hf|Hf])].
    + destruct IH as (o & Ho & IH). exists o. split; [exact Ho|].
      intros visit. cbn [apply_rules]. unfold bind at 1. rewrite Hn. apply IH.
    + exists (Fire v). split; [split; assumption|].
      intros visit. cbn [apply_rules]. unfold bind at 1. rewrite Hf. reflexivity.
    + exists (Rec v). split; [split; assumption|].
      intros visit. cbn [apply_rules run_outcome]. unfold bind at 1. rewrite Hf.
      unfold bind. destruct (RecursiveRewrite an visit v s) as [[w s']| |]; reflexivity.
Qed.

End RingRules.

(** *** The tables of Add, Sub and Mul *)

Ltac pat_ok_tac :=
  first
    [ left; reflexivity
    | right; split; [reflexivity|]; split; [reflexivity|]; split; [reflexivity|];
      intros r; cbn -[Z.add Z.sub Z.mul Z.opp]; ring ].

Ltac pats_ok_tac := repeat (apply Forall_cons; [pat_ok_tac|]); apply Forall_nil.

Ltac never_tac := repeat (apply Forall_cons; [reflexivity|]); apply Forall_nil.

Ltac ring_rule_tac :=
  first
    [ apply rr_rewrite; pats_ok_tac
    | apply rr_recursive; pats_ok_tac
    | apply rr_rewrite_if_never; never_tac
    | apply rr_recursive_if_never; never_tac
    | apply rr_rewrite_if_pure; pats_ok_tac
    | apply rr_recursive_if_pure; pats_ok_tac
    | apply rr_try_match_never; never_tac ].

Ltac ring_table_tac := repeat (apply rt_cons; [ring_rule_tac|]); apply rt_nil.

Import PatternNotations.

Lemma Add_ring_table : forall A,
  @ring_table A (fun _ =>
    Add_index_rules ++
    [TVM_TRY_REWRITE [select x b1 b2 + select x s1 s2]%pat
                     (select x (b1 + s1) (b2 + s2))%pat]).
Proof.
  intros A. unfold Add_index_rules. cbn [app].
  ring_table_tac.
Qed.

Lemma Sub_ring_table : forall A (an : Analyzer A),
  ring_table (fun visit =>
    Sub_index_rules an visit ++
    [TVM_TRY_REWRITE [select x b1 b2 - select x s1 s2]%pat
                     (select x (b1 - s1) (b2 - s2))%pat;
     TVM_TRY_REWRITE [select x y z - z]%pat (select x (y - z) (ZeroWithTypeLike z))%pat;
     TVM_TRY_REWRITE [select x y z - y]%pat (select x (ZeroWithTypeLike y) (z - y))%pat]).
Proof.
  intros A an. unfold Sub_index_rules. cbn [app].
  ring_table_tac.
Qed.

Lemma Mul_ring_table : forall A, @ring_table A (fun _ => Mul_index_rules).
Proof.
  intros A. unfold Mul_index_rules.
  ring_table_tac.
Qed.

(** *** The visitors on the fragment *)

(** A node of the fragment over simplified operands: the visitor folds two
    literals or runs its table, and what it does is fixed by the operands. *)
Lemma visitor_ring_outcome :
  forall A (an : Analyzer A) op a' b' (s : State A),
    ring_op op = true -> ring_expr a' = true -> ring_expr b' = true ->
    exists o, outcome_ok (Bin op a' b') o /\
      forall n a b,
        VisitExpr an n a s = Ok (a', s) -> VisitExpr an n b s = Ok (b', s) ->
        VisitExpr an (S n) (Bin op a b) s
        = run_outcome an (VisitExpr an n) (Bin op a' b') o s.
Proof.
  intros A an op a' b' s Hop Ha Hb.
  assert (He : ring_expr (Bin op a' b') = true) by (simpl; rewrite Hop, Ha, Hb; reflexivity).
  destruct (TryConstFold op a' b') as [c|] eqn:Efold.
  - destruct (@mk_ring op a' b' Hop Ha Hb) as (Rc & Dc). unfold mk in Rc, Dc.
    rewrite Efold in Rc, Dc.
    exists (Fire c). split; [split; [exact Rc | exact Dc]|].
    intros n a b Va Vb.
    destruct op; try discriminate; cbn [VisitExpr];
      unfold VisitExpr_Add, VisitExpr_Sub, VisitExpr_Mul, bind;
      rewrite (@Mutate_Binary_unchanged _ _ _ _ _ _ _ _ Va Vb), Efold; reflexivity.
  - pose proof (ring_expr_dtype _ Ha) as Hdt.
    destruct op; try discriminate.
    + destruct (@ring_table_outcome A an _ (Bin OAdd a' b') s (Add_ring_table A) He)
        as (o & Ho & Hrun).
      exists o. split; [exact Ho|]. intros n a b Va Vb.
      cbn [VisitExpr]. unfold VisitExpr_Add, bind.
      rewrite (@Mutate_Binary_unchanged _ _ _ _ _ _ _ _ Va Vb), Efold.
      cbn [dtype is_compare is_logical orb]. rewrite Hdt.
      exact (Hrun (VisitExpr an n)).
    + destruct (@ring_table_outcome A an _ (Bin OSub a' b') s (Sub_ring_table an) He)
        as (o & Ho & Hrun).
      exists o. split; [exact Ho|]. intros n a b Va Vb.
      cbn [VisitExpr]. unfold VisitExpr_Sub, bind.
      rewrite (@Mutate_Binary_unchanged _ _ _ _ _ _ _ _ Va Vb), Efold.
      cbn [dtype is_compare is_logical orb]. rewrite Hdt.
      exact (Hrun (VisitExpr an n)).
    + destruct (@ring_table_outcome A an _ (Bin OMul a' b') s (Mul_ring_table A) He)
        as (o & Ho & Hrun).
      exists o. split; [exact Ho|]. intros n a b Va Vb.
      cbn [VisitExpr]. unfold VisitExpr_Mul, bind.
      rewrite (@Mutate_Binary_unchanged _ _ _ _ _ _ _ _ Va Vb), Efold.
      cbn [dtype is_compare is_logical orb]. rewrite Hdt.
      exact (Hrun (VisitExpr an n)).
Qed.

(** *** A run of the mutator on the fragment *)

Lemma RecursiveRewrite_exhausted :
  forall A (an : Analyzer A) visit v (s : State A),
    (kMaxRecurDepth an <= recur_depth_ s)%nat ->
    RecursiveRewrite an visit v s = Ok (v, s).
Proof.
  intros A an visit v s H. unfold RecursiveRewrite, bind, get.
  rewrite (proj2 (Nat.leb_le _ _) H). reflexivity.
Qed.

Lemma RecursiveRewrite_enters :
  forall A (an : Analyzer A) visit v (s : State A),
    (recur_depth_ s < kMaxRecurDepth an)%nat ->
    RecursiveRewrite an visit v s
    = match visit v (mkState (literal_constraints_ s) (var_map_ s) (enabled_extensions_ s)
                       (S (recur_depth_ s)) (recursively_visiting_boolean_ s)
                       (analyzer_ s)) with
      | Ok (r, s') =>
          Ok (r, mkState (literal_constraints_ s') (var_map_ s') (enabled_extensions_ s')
                   (Nat.pred (recur_depth_ s')) (recursively_visiting_boolean_ s')
                   (analyzer_ s'))
      | Trap => Trap
      | OutOfFuel => OutOfFuel
      end.
Proof.
  intros A an visit v s H. unfold RecursiveRewrite, bind, get.
  rewrite (proj2 (Nat.leb_gt _ _) H). unfold set_recur_depth at 1.
  destruct (visit v _) as [[r s']| |]; reflexivity.
Qed.

Lemma VisitExpr_ring_leaf :
  forall A (an : Analyzer A) e (s : State A) f,
    match e with IntImm _ _ | Var _ => True | _ => False end ->
    ring_expr e = true -> var_map_ s = [] ->
    VisitExpr an (S f) e s = Ok (e, s).
Proof.
  intros A an e s f Hleaf He Hmap. destruct e as [t v|t v|v| | | | | | | |]; try contradiction.
  - reflexivity.
  - simpl in He. apply DataType_eqb_eq in He. destruct v as [n t]. simpl in He. subst t.
    cbn [VisitExpr]. unfold VisitExpr_Var. cbn [var_dtype].
    change (DataType_eqb int32 Bool) with false. cbv iota.
    unfold bind, get, ret. cbv beta iota. rewrite Hmap. reflexivity.
Qed.

(** With enough fuel a visit of an expression of the fragment returns, in
    the state it started from, an expression of the fragment with the same
    32-bit value; the result does not depend on the fuel. *)
Lemma VisitExpr_ring_total :
  forall A (an : Analyzer A) d e (s : State A),
    ring_expr e = true -> var_map_ s = [] ->
    (kMaxRecurDepth an - recur_depth_ s <= d)%nat ->
    exists f0 r,
      ring_expr r = true /\ (forall rho, cong32 (den rho r) (den rho e)) /\
      forall f, (f0 <= f)%nat -> VisitExpr an f e s = Ok (r, s).
Proof.
  intros A an d. induction d as [d IHd] using lt_wf_ind.
  induction e as [t v|t v|v|op a IHa b IHb| | | | | | |]; intros s He Hmap Hd;
    try discriminate.
  - exists 1%nat, (IntImm t v). split; [exact He|]. split; [intros; apply cong32_refl|].
    intros f Hf. destruct f; [lia|]. apply VisitExpr_ring_leaf; auto; exact I.
  - exists 1%nat, (Var v). split; [exact He|]. split; [intros; apply cong32_refl|].
    intros f Hf. destruct f; [lia|]. apply VisitExpr_ring_leaf; auto; exact I.
  - apply ring_expr_Bin in He. destruct He as (Hop & Ha & Hb).
    destruct (IHa s Ha Hmap Hd) as (fa & a' & Ra & Da & Va).
    destruct (IHb s Hb Hmap Hd) as (fb & b' & Rb & Db & Vb).
    destruct (@visitor_ring_outcome A an op a' b' s Hop Ra Rb) as (o & Ho & Hrun).
    assert (Dab : forall rho, cong32 (den rho (Bin op a' b')) (den rho (Bin op a b))).
    { intros rho. cbn [den]. apply cong32_ring_val; auto. }
    destruct o as [|v|v]; cbn [outcome_ok run_outcome] in *.
    + exists (S (Nat.max fa fb)), (Bin op a' b').
      split; [simpl; rewrite Hop, Ra, Rb; reflexivity|]. split; [exact Dab|].
      intros f Hf. destruct f as [|n]; [lia|].
      rewrite (Hrun n a b) by (first [apply Va | apply Vb]; lia). reflexivity.
    + destruct Ho as (Rv & Dv). exists (S (Nat.max fa fb)), v.
      split; [exact Rv|].
      split; [intros rho; eapply cong32_trans; [apply Dv | apply Dab]|].
      intros f Hf. destruct f as [|n]; [lia|].
      rewrite (Hrun n a b) by (first [apply Va | apply Vb]; lia). reflexivity.
    + destruct Ho as (Rv & Dv).
      destruct (Nat.le_gt_cases (kMaxRecurDepth an) (recur_depth_ s)) as [Hex|Hin].
      * exists (S (Nat.max fa fb)), v. split; [exact Rv|].
        split; [intros rho; eapply cong32_trans; [apply Dv | apply Dab]|].
        intros f Hf. destruct f as [|n]; [lia|].
        rewrite (Hrun n a b) by (first [apply Va | apply Vb]; lia).
        apply RecursiveRewrite_exhausted. exact Hex.
      * destruct (IHd (kMaxRecurDepth an - S (recur_depth_ s))%nat ltac:(lia) v
                    (mkState (literal_constraints_ s) (var_map_ s) (enabled_extensions_ s)
                       (S (recur_depth_ s)) (recursively_visiting_boolean_ s)
                       (analyzer_ s)) Rv Hmap ltac:(simpl; lia))
          as (f3 & r3 & R3 & D3 & V3).
        exists (S (Nat.max fa (Nat.max fb f3))), r3. split; [exact R3|].
        split; [intros rho; eapply cong32_trans;
                [apply D3 | eapply cong32_trans; [apply Dv | apply Dab]]|].
        intros f Hf. destruct f as [|n]; [lia|].
        rewrite (Hrun n a b) by (first [apply Va | apply Vb]; lia).
        rewrite RecursiveRewrite_enters by exact Hin.
        rewrite V3 by lia. simpl. destruct s; reflexivity.
Qed.

(** Whatever the fuel, a visit that returns has kept the state, the
    fragment and the 32-bit value. *)
Lemma VisitExpr_ring_partial :
  forall A (an : Analyzer A) f e (s : State A) r s',
    ring_expr e = true -> var_map_ s = [] ->
    VisitExpr an f e s = Ok (r, s') ->
    s' = s /\ ring_expr r = true /\ forall rho, cong32 (den rho r) (den rho e).
Proof.
  intros A an f. induction f as [|n IH]; intros e s r s' He Hmap H; [discriminate|].
  destruct e as [t v|t v|v|op a b| | | | | | |]; try discriminate.
  - rewrite VisitExpr_ring_leaf in H by (auto; exact I). inversion H; subst.
    split; [reflexivity|]. split; [exact He | intros; apply cong32_refl].
  - rewrite VisitExpr_ring_leaf in H by (auto; exact I). inversion H; subst.
    split; [reflexivity|]. split; [exact He | intros; apply cong32_refl].
  - apply ring_expr_Bin in He. destruct He as (Hop & Ha & Hb).
    destruct (VisitExpr an n a s) as [[a' s1]| |] eqn:Ea;
      try (destruct op; try discriminate; cbn [VisitExpr] in H;
           unfold VisitExpr_Add, VisitExpr_Sub, VisitExpr_Mul, bind, Mutate_Binary, bind in H;
           rewrite Ea in H; discriminate).
    destruct (IH _ _ _ _ Ha Hmap Ea) as (-> & Ra & Da).
    destruct (VisitExpr an n b s) as [[b' s2]| |] eqn:Eb;
      try (destruct op; try discriminate; cbn [VisitExpr] in H;
           unfold VisitExpr_Add, VisitExpr_Sub, VisitExpr_Mul, bind, Mutate_Binary, bind in H;
           rewrite Ea, Eb in H; discriminate).
    destruct (IH _ _ _ _ Hb Hmap Eb) as (-> & Rb & Db).
    destruct (@visitor_ring_outcome A an op a' b' s Hop Ra Rb) as (o & Ho & Hrun).
    rewrite (Hrun n a b Ea Eb) in H.
    assert (Dab : forall rho, cong32 (den rho (Bin op a' b')) (den rho (Bin op a b))).
    { intros rho. cbn [den]. apply cong32_ring_val; auto. }
    destruct o as [|v|v]; cbn [outcome_ok run_outcome] in *.
    + inversion H; subst. split; [reflexivity|].
      split; [simpl; rewrite Hop, Ra, Rb; reflexivity | exact Dab].
    + destruct Ho as (Rv & Dv). inversion H; subst. split; [reflexivity|].
      split; [exact Rv | intros rho; eapply cong32_trans; [apply Dv | apply Dab]].
    + destruct Ho as (Rv & Dv).
      destruct (Nat.le_gt_cases (kMaxRecurDepth an) (recur_depth_ s)) as [Hex|Hin].
      * rewrite RecursiveRewrite_exhausted in H by exact Hex. inversion H; subst.
        split; [reflexivity|].
        split; [exact Rv | intros rho; eapply cong32_trans; [apply Dv | apply Dab]].
      * rewrite RecursiveRewrite_enters in H by exact Hin.
        match type of H with
        | match VisitExpr an n v ?s0 with _ => _ end = _ =>
            destruct (VisitExpr an n v s0) as [[r3 s3]| |] eqn:E3; try discriminate;
            destruct (IH v s0 r3 s3 Rv Hmap E3) as (-> & R3 & D3)
        end.
        inversion H; subst. simpl. split; [destruct s; reflexivity|].
        split; [exact R3|].
        intros rho. eapply cong32_trans;
          [apply D3 | eapply cong32_trans; [apply Dv | apply Dab]].
Qed.

(** X23: on the ring fragment -- int32 variables and literals under +, -
    and * -- the entry point returns for every large enough fuel, in an
    unchanged state, and whatever it returns has the value of its input
    under every valuation, overflow wrapping to 32 bits; this for every
    analyzer and every constraint stack, the variable map being empty. *)
Theorem simplify_ring_sound :
  forall (A : Type) (an : Analyzer A) (same_as : PrimExpr -> PrimExpr -> bool)
         (e : PrimExpr) (s : State A),
    ring_expr e = true -> var_map_ s = [] ->
    (exists fuel0 r, forall fuel, (fuel0 <= fuel)%nat ->
                     simplify an same_as fuel e s = Ok (r, s)) /\
    (forall fuel r s' rho,
        simplify an same_as fuel e s = Ok (r, s') ->
        s' = s /\ eval rho r = eval rho e).
Proof.
  intros A an same_as e s He Hmap. split.
  - destruct (@VisitExpr_ring_total A an _ e s He Hmap (Nat.le_refl _))
      as (f1 & r1 & R1 & D1 & V1).
    destruct (@VisitExpr_ring_total A an _ r1 s R1 Hmap (Nat.le_refl _))
      as (f2 & r2 & R2 & D2 & V2).
    exists (Nat.max f1 f2),
      (if same_as r1 e then e else if same_as r2 r1 then r1 else r2).
    intros fuel Hf. unfold simplify, max_iter. cbn [simplify_loop]. unfold bind.
    rewrite V1 by lia. destruct (same_as r1 e); [reflexivity|].
    rewrite V2 by lia. destruct (same_as r2 r1); reflexivity.
  - intros fuel r s' rho H. unfold simplify, max_iter in H. cbn [simplify_loop] in H.
    unfold bind in H.
    destruct (VisitExpr an fuel e s) as [[r1 s1]| |] eqn:E1; try discriminate.
    destruct (@VisitExpr_ring_partial A an fuel e s r1 s1 He Hmap E1) as (-> & R1 & D1).
    destruct (same_as r1 e).
    + inversion H; subst. split; reflexivity.
    + destruct (VisitExpr an fuel r1 s) as [[r2 s2]| |] eqn:E2; try discriminate.
      destruct (@VisitExpr_ring_partial A an fuel r1 s r2 s2 R1 Hmap E2) as (-> & R2 & D2).
      destruct (same_as r2 r1); inversion H; subst; (split; [reflexivity|]).
      * apply eval_cong32; auto.
      * apply eval_cong32; auto. eapply cong32_trans; [apply D2 | apply D1].
Qed.

Lemma simplify_ring_sound_witness :
  (exists fuel0 r, forall fuel, (fuel0 <= fuel)%nat ->
     simplify table_analyzer ExprDeepEqual fuel plus_minus_5 (initial_state [])
     = Ok (r, initial_state [])) /\
  (forall fuel r s' rho,
     simplify table_analyzer ExprDeepEqual fuel plus_minus_5 (initial_state [])
     = Ok (r, s') ->
     s' = initial_state [] /\ eval rho r = eval rho plus_minus_5).
Proof.
  apply (@simplify_ring_sound _ table_analyzer ExprDeepEqual plus_minus_5
           (initial_state [])); reflexivity.
Defined.

(** The comparison rules take index arithmetic not to overflow: x < x + 1
    simplifies to true, and is false at the largest int32 once x + 1 is
    made to wrap around. *)
Lemma simplify_lt_successor_not_equivalent :
  result_of (simplify table_analyzer ExprDeepEqual 20 lt_successor (initial_state []))
  = Ok (const_true Bool) /\
  - 2 ^ 31 <= rho_max (mkVar "x" int32) < 2 ^ 31 /\
  eval rho_max lt_successor = Some 0 /\
  eval rho_max (const_true Bool) = Some 1.
Proof.
  split; [vm_compute; reflexivity|]. split; [unfold rho_max; lia|].
  split; vm_compute; reflexivity.
Qed.

(** On the fragment itself the folding of literals wraps: (x + 2147483647)
    + 1 becomes x + (-2147483648), equal as a 32-bit value only. *)
Lemma simplify_wraps_literals :
  result_of (simplify table_analyzer ExprDeepEqual 20
               (Add (Add (ivar "x") (i32 2147483647)) (i32 1)) (initial_state []))
  = Ok (Add (ivar "x") (i32 (-2147483648))).
Proof. vm_compute. reflexivity. Qed.

(** ** A folded product that wraps *)

Section NestedFloorDiv.
Context {A : Type}.
Variable an : Analyzer A.
Variable s : State A.
Hypothesis Hmap : var_map_find (var_map_ s) (mkVar "x" int32) = None.

(** No rule of the FloorDiv visitor rewrites the quotient of a variable by
    one of these literals, and none consults the analyzer on it. *)
Lemma VisitExpr_floordiv_var_literal :
  forall f c, c = 65537 \/ c = 131073 ->
    VisitExpr an (S (S f)) (FloorDiv (ivar "x") (i32 c)) s
    = Ok (FloorDiv (ivar "x") (i32 c), s).
Proof.
  intros f c Hc.
  change (VisitExpr an (S (S f)) (FloorDiv (ivar "x") (i32 c)))
    with (VisitExpr_FloorDiv an (VisitExpr an (S f)) (ivar "x") (i32 c)).
  unfold VisitExpr_FloorDiv, bind.
  rewrite (@Mutate_Binary_unchanged _ _ OFloorDiv _ _ (ivar "x") (i32 c));
    [| apply VisitExpr_free_var; [reflexivity | exact Hmap] | reflexivity].
  destruct Hc as [-> | ->]; vm_compute; reflexivity.
Qed.

(** The first index rule, floordiv(floordiv(x, c1), c2) -> floordiv(x, c1 * c2)
    for positive c1 and c2, fires; the product of the two literals is
    folded on 32 bits. *)
Lemma VisitExpr_nested_floordiv : forall f,
  VisitExpr an (S (S (S f))) nested_floordiv s
  = Ok (FloorDiv (ivar "x") (i32 131073), s).
Proof.
  intros f. unfold nested_floordiv.
  change (VisitExpr an (S (S (S f)))
            (FloorDiv (FloorDiv (ivar "x") (i32 65537)) (i32 65537)))
    with (VisitExpr_FloorDiv an (VisitExpr an (S (S f)))
            (FloorDiv (ivar "x") (i32 65537)) (i32 65537)).
  unfold VisitExpr_FloorDiv, bind.
  rewrite (@Mutate_Binary_unchanged _ _ OFloorDiv _ _
             (FloorDiv (ivar "x") (i32 65537)) (i32 65537));
    [| apply VisitExpr_floordiv_var_literal; left; reflexivity | reflexivity].
  vm_compute. reflexivity.
Qed.

End NestedFloorDiv.

(** C1 (the claim fails on the code): floordiv(floordiv(x, 65537), 65537)
    is simplified to floordiv(x, 131073), whatever the analyzer and the
    constraints, for an int32 variable x the variable map leaves alone: the
    rule floordiv(floordiv(x, c1), c2) -> floordiv(x, c1 * c2) asks for
    positive c1 and c2 only, and the product 65537 * 65537 = 2^32 + 131073
    is folded on 32 bits.  At x = 1000000 the expression is 0 and its
    simplification is 7; every literal and every intermediate value is
    within int32, so nothing wraps in either evaluation. *)
Theorem simplify_nested_floordiv_not_equivalent :
  forall (A : Type) (an : Analyzer A) (same_as : PrimExpr -> PrimExpr -> bool)
         (fuel : nat) (s : State A),
    (forall a b, same_as a b = true -> a = b) ->
    var_map_find (var_map_ s) (mkVar "x" int32) = None ->
    simplify an same_as (3 + fuel) nested_floordiv s
    = Ok (FloorDiv (ivar "x") (i32 131073), s) /\
    eval (fun _ => 1000000) nested_floordiv = Some 0 /\
    eval (fun _ => 1000000) (FloorDiv (ivar "x") (i32 131073)) = Some 7 /\
    1000000 / 65537 / 65537 = 0 /\
    1000000 / 131073 = 7 /\
    mk OMul (i32 65537) (i32 65537) = i32 131073 /\
    65537 * 65537 = 2 ^ 32 + 131073.
Proof.
  intros A an same_as fuel s Hsame Hmap.
  split; [|repeat split; vm_compute; reflexivity].
  unfold simplify, max_iter. cbn [simplify_loop Nat.add]. unfold bind.
  rewrite (@VisitExpr_nested_floordiv _ an s Hmap).
  assert (E : same_as (FloorDiv (ivar "x") (i32 131073)) nested_floordiv = false).
  { destruct (same_as (FloorDiv (ivar "x") (i32 131073)) nested_floordiv) eqn:E;
      [|reflexivity].
    apply Hsame in E. discriminate. }
  rewrite E.
  rewrite (@VisitExpr_floordiv_var_literal _ an s Hmap (S fuel) 131073)
    by (right; reflexivity).
  match goal with |- (if ?c then _ else _) _ = _ => destruct c end; reflexivity.
Qed.

Lemma simplify_nested_floordiv_not_equivalent_witness :
  simplify table_analyzer ExprDeepEqual (3 + 17) nested_floordiv (initial_state [])
  = Ok (FloorDiv (ivar "x") (i32 131073), initial_state []) /\
  eval (fun _ => 1000000) nested_floordiv = Some 0 /\
  eval (fun _ => 1000000) (FloorDiv (ivar "x") (i32 131073)) = Some 7 /\
  1000000 / 65537 / 65537 = 0 /\
  1000000 / 131073 = 7 /\
  mk OMul (i32 65537) (i32 65537) = i32 131073 /\
  65537 * 65537 = 2 ^ 32 + 131073.
Proof.
  apply (@simplify_nested_floordiv_not_equivalent _ table_analyzer ExprDeepEqual 17
           (initial_state [])).
  - intros a b H. apply ExprDeepEqual_eq. exact H.
  - reflexivity.
Defined.

(** The truncated division has the same rule and ends the same way. *)
Lemma simplify_nested_truncdiv_wraps :
  result_of (simplify table_analyzer ExprDeepEqual 20
               (Div (Div (ivar "x") (i32 65537)) (i32 65537)) (initial_state []))
  = Ok (Div (ivar "x") (i32 131073)) /\
  eval (fun _ => 1000000) (Div (Div (ivar "x") (i32 65537)) (i32 65537)) = Some 0 /\
  eval (fun _ => 1000000) (Div (ivar "x") (i32 131073)) = Some 7.
Proof. repeat split; vm_compute; reflexivity. Qed.

(** ** The frame of a visit, and the scenarios of the specification *)

(** X1: a run of the mutator that returns has left the stack of literal
    constraints, the extension flags and the recursion depth as they were;
    only the variable map and the analyzer can differ. *)
Theorem VisitExpr_keeps_frame :
  forall (A : Type) (an : Analyzer A) (fuel : nat) (e r : PrimExpr) (s s' : State A),
    VisitExpr an fuel e s = Ok (r, s') ->
    literal_constraints_ s' = literal_constraints_ s /\
    enabled_extensions_ s' = enabled_extensions_ s /\
    recur_depth_ s' = recur_depth_ s.
Proof.
  intros A an fuel e r s s' H.
  destruct (@keeps_VisitExpr A an fuel e s r s' H) as (H1 & H2 & H3 & _). auto.
Qed.

Lemma VisitExpr_keeps_frame_witness :
  literal_constraints_ (initial_state ([] : list (PrimExpr * ConstIntBound)))
  = literal_constraints_ (initial_state ([] : list (PrimExpr * ConstIntBound))) /\
  enabled_extensions_ (initial_state ([] : list (PrimExpr * ConstIntBound)))
  = enabled_extensions_ (initial_state ([] : list (PrimExpr * ConstIntBound))) /\
  recur_depth_ (initial_state ([] : list (PrimExpr * ConstIntBound)))
  = recur_depth_ (initial_state ([] : list (PrimExpr * ConstIntBound))).
Proof.
  apply (@VisitExpr_keeps_frame _ table_analyzer 20 nested_sums_lt
           (LT (Add (ivar "b") (Add (ivar "c") (ivar "p")))
               (Add (ivar "b") (Add (ivar "c") (ivar "q"))))
           (initial_state []) (initial_state [])).
  vm_compute. reflexivity.
Defined.

(** (x + 5) - 5 simplifies to x, in one pass, for every analyzer and every
    constraint stack (the variable map being empty). *)
Lemma simplify_plus_minus_5 :
  forall (A : Type) (an : Analyzer A) (l : list PrimExpr) (ext : Z) (d : nat)
         (rvb : bool) (a : A),
    simplify an ExprDeepEqual 10 plus_minus_5 (mkState l [] ext d rvb a)
    = Ok (ivar "x", mkState l [] ext d rvb a).
Proof. intros. vm_compute. reflexivity. Qed.

(** min(x, x + 3) simplifies to x. *)
Lemma simplify_min_x_x_plus_3 :
  result_of (simplify table_analyzer ExprDeepEqual 30
               (Min (ivar "x") (Add (ivar "x") (i32 3))) (initial_state []))
  = Ok (ivar "x").
Proof. vm_compute. reflexivity. Qed.

(** floormod(x + 1, 2) + floormod(x, 2) simplifies to 1. *)
Lemma simplify_parity_sum :
  result_of (simplify table_analyzer ExprDeepEqual 30 parity_sum (initial_state []))
  = Ok (i32 1).
Proof. vm_compute. reflexivity. Qed.

(** (x < 10) && (20 < x) simplifies to false, (x < 10) && (5 < x) stays. *)
Lemma simplify_and_of_bounds :
  result_of (simplify table_analyzer ExprDeepEqual 30 and_disjoint (initial_state []))
  = Ok (const_false Bool) /\
  result_of (simplify table_analyzer ExprDeepEqual 30 and_overlapping (initial_state []))
  = Ok and_overlapping.
Proof. split; vm_compute; reflexivity. Qed.

(** if_then_else(c1, if_then_else(c2, t, 0), 0) simplifies to
    if_then_else(c1 && c2, t, 0). *)
Lemma simplify_nested_if_then_else :
  result_of (simplify table_analyzer ExprDeepEqual 30 nested_if_then_else (initial_state []))
  = Ok (Call int32 "tir.if_then_else" [And (bvar "c1") (bvar "c2"); ivar "t"; i32 0]).
Proof. vm_compute. reflexivity. Qed.

(** * Further properties *)

(** ** The variable map *)

Lemma Var_eqb_refl : forall v, Var_eqb v v = true.
Proof. intro v. apply Var_eqb_eq. reflexivity. Qed.

Lemma Var_eqb_neq : forall v w, v <> w -> Var_eqb v w = false.
Proof.
  intros v w H. destruct (Var_eqb v w) eqn:E; [|reflexivity].
  apply Var_eqb_eq in E. contradiction.
Qed.

Lemma var_map_find_set_same :
  forall m v e, var_map_find (var_map_set m v e) v = Some e.
Proof.
  induction m as [|[w e'] r IH]; intros v e; simpl.
  - rewrite Var_eqb_refl. reflexivity.
  - destruct (Var_eqb v w) eqn:E; simpl; rewrite E; [reflexivity|apply IH].
Qed.

Lemma var_map_find_set_other :
  forall m v w e, w <> v -> var_map_find (var_map_set m v e) w = var_map_find m w.
Proof.
  induction m as [|[u e'] r IH]; intros v w e H; simpl.
  - rewrite (Var_eqb_neq H). reflexivity.
  - destruct (Var_eqb v u) eqn:E; simpl.
    + apply Var_eqb_eq in E. subst u. rewrite (Var_eqb_neq H). reflexivity.
    + destruct (Var_eqb w u); [reflexivity|]. apply IH. exact H.
Qed.

Lemma Update_Ok :
  forall A v info o (s s' : State A),
    Update v info o s = Ok (tt, s') ->
    s' = mkState (literal_constraints_ s) (var_map_set (var_map_ s) v info)
           (enabled_extensions_ s) (recur_depth_ s)
           (recursively_visiting_boolean_ s) (analyzer_ s).
Proof.
  intros A v info o s s' H. unfold Update, bind, get in H.
  match type of H with (if ?c then _ else _) _ = _ => destruct c end;
    [|discriminate].
  unfold set_var_map in H. inversion H. reflexivity.
Qed.

(** X2: a successful [Update] is seen by the next visit of the variable,
    which returns the recorded expression as it is (it is not simplified
    again), unless a literal constraint decides a boolean variable first;
    the visits of all other variables are as before the update. *)
Theorem Update_then_VisitExpr_Var :
  forall (A : Type) (an : Analyzer A) (fuel : nat) (v : Var_) (info : PrimExpr)
         (can_override : bool) (s s' : State A),
    Update v info can_override s = Ok (tt, s') ->
    (var_dtype v = Bool ->
     match_literal (literal_constraints_ s) (Var v) (Not (Var v)) = None) ->
    VisitExpr an (S fuel) (Var v) s' = Ok (info, s') /\
    (forall w, w <> v ->
               result_of (VisitExpr an (S fuel) (Var w) s')
               = result_of (VisitExpr an (S fuel) (Var w) s)).
Proof.
  intros A an fuel v info o s s' H Hlit. apply Update_Ok in H. subst s'.
  split.
  - cbn [VisitExpr]. cbv beta iota delta [VisitExpr_Var bind TryMatchLiteralConstraint get ret].
    destruct (DataType_eqb (var_dtype v) Bool) eqn:E;
      cbv beta iota; cbn [literal_constraints_ var_map_].
    + apply DataType_eqb_eq in E. rewrite (Hlit E).
      cbv beta iota; cbn [var_map_].
      rewrite var_map_find_set_same. reflexivity.
    + rewrite var_map_find_set_same. reflexivity.
  - intros w Hw. clear Hlit. cbn [VisitExpr].
    cbv beta iota delta [VisitExpr_Var bind TryMatchLiteralConstraint get ret].
    assert (Hfind : forall x : PrimExpr,
               result_of
                 (match var_map_find (var_map_set (var_map_ s) v info) w with
                  | Some v0 => fun s1 : State A => Ok (v0, s1)
                  | None => fun s1 : State A => Ok (x, s1)
                  end
                    (mkState (literal_constraints_ s) (var_map_set (var_map_ s) v info)
                       (enabled_extensions_ s) (recur_depth_ s)
                       (recursively_visiting_boolean_ s) (analyzer_ s)))
               = result_of
                   (match var_map_find (var_map_ s) w with
                    | Some v0 => fun s1 : State A => Ok (v0, s1)
                    | None => fun s1 : State A => Ok (x, s1)
                    end s)).
    { intro x. rewrite (@var_map_find_set_other (var_map_ s) v w info Hw).
      destruct (var_map_find (var_map_ s) w); reflexivity. }
    destruct (DataType_eqb (var_dtype w) Bool);
      cbv beta iota; cbn [literal_constraints_ var_map_].
    + destruct (match_literal (literal_constraints_ s) (Var w) (Not (Var w)));
        [reflexivity|]. apply Hfind.
    + apply Hfind.
Qed.

Lemma Update_then_VisitExpr_Var_witness :
  VisitExpr table_analyzer 1 (ivar "n")
    (mkState [] [(mkVar "n" int32, Add (ivar "m") (i32 0))] kNone 0 false [])
  = Ok (Add (ivar "m") (i32 0),
        mkState [] [(mkVar "n" int32, Add (ivar "m") (i32 0))] kNone 0 false []).
Proof.
  refine (proj1 (@Update_then_VisitExpr_Var _ table_analyzer 0 (mkVar "n" int32)
                   (Add (ivar "m") (i32 0)) false (initial_state []) _ _ _)).
  - vm_compute. reflexivity.
  - intro H. vm_compute in H. discriminate.
Defined.

(** X3: [Update] fails its assertion exactly when overriding is not allowed
    and the variable is already recorded with a structurally different
    expression; recording the same expression again, a new variable, or
    anything with [can_override] set succeeds. *)
Theorem Update_traps_iff :
  forall (A : Type) (v : Var_) (info : PrimExpr) (can_override : bool) (s : State A),
    (Update v info can_override s = Trap <->
     can_override = false /\
     exists old, var_map_find (var_map_ s) v = Some old /\ old <> info) /\
    (Update v info can_override s <> Trap ->
     exists s', Update v info can_override s = Ok (tt, s') /\
                var_map_find (var_map_ s') v = Some info).
Proof.
  intros A v info o s. unfold Update, bind, get.
  destruct o; simpl.
  - split.
    + split; [discriminate|]. intros [H _]. discriminate.
    + intros _. eexists. split; [reflexivity|]. simpl. apply var_map_find_set_same.
  - destruct (var_map_find (var_map_ s) v) as [old|] eqn:E.
    + destruct (ExprDeepEqual old info) eqn:D.
      * apply ExprDeepEqual_eq in D. subst old. split.
        -- split; [discriminate|]. intros [_ [old [H1 H2]]]. congruence.
        -- intros _. eexists. split; [reflexivity|]. simpl.
           apply var_map_find_set_same.
      * split.
        -- split; [|reflexivity]. intros _. split; [reflexivity|].
           exists old. split; [reflexivity|]. intro. subst.
           rewrite ExprDeepEqual_refl in D. discriminate.
        -- intro H. exfalso. apply H. reflexivity.
    + split.
      * split; [discriminate|]. intros [_ [old [H1 H2]]]. discriminate.
      * intros _. eexists. split; [reflexivity|]. simpl.
        apply var_map_find_set_same.
Qed.

(** ** The literal lookup and the constraint stack, further *)

Lemma match_literal_None_iff :
  forall l e n,
    match_literal l e n = None <-> (~ In e l /\ ~ In n l).
Proof.
  induction l as [|q l IH]; intros e n; cbn [match_literal In].
  - split; [intros _; split; intros []|reflexivity].
  - destruct (ExprDeepEqual q e) eqn:E1.
    + apply ExprDeepEqual_eq in E1. subst q.
      split; [discriminate|]. intros [H _]. exfalso. apply H. left. reflexivity.
    + destruct (ExprDeepEqual q n) eqn:E2.
      * apply ExprDeepEqual_eq in E2. subst q.
        split; [discriminate|]. intros [_ H]. exfalso. apply H. left. reflexivity.
      * rewrite IH. split.
        -- intros [H1 H2]. split; intros [H|H]; subst;
             rewrite ?ExprDeepEqual_refl in *; try discriminate; auto.
        -- intros [H1 H2]. split; intro H; [apply H1|apply H2]; right; exact H.
Qed.

Lemma match_literal_Some :
  forall l e n r,
    match_literal l e n = Some r ->
    r = const_true (dtype e) \/ r = const_false (dtype e).
Proof.
  induction l as [|q l IH]; intros e n r H; cbn [match_literal] in H.
  - discriminate.
  - destruct (ExprDeepEqual q e); [inversion H; auto|].
    destruct (ExprDeepEqual q n); [inversion H; auto|].
    eapply IH. exact H.
Qed.

(** X4: the literal lookup never fails and never touches the state; it
    has no answer exactly when neither the expression nor its [Not] is on
    the stack (on an empty stack in particular), and an answer is the
    literal true or false of the expression's type. *)
Theorem TryMatchLiteralConstraint_answers :
  forall (A : Type) (expr : PrimExpr) (s : State A),
    (exists m, TryMatchLiteralConstraint expr s = Ok (m, s) /\
               (m = None <->
                ~ In expr (literal_constraints_ s) /\
                ~ In (Not expr) (literal_constraints_ s)) /\
               (forall r, m = Some r ->
                          r = const_true (dtype expr) \/ r = const_false (dtype expr))).
Proof.
  intros A expr s. unfold TryMatchLiteralConstraint, bind, get, ret.
  eexists. split; [reflexivity|]. split.
  - apply match_literal_None_iff.
  - intros r H. eapply match_literal_Some. exact H.
Qed.

(** The loop over the sub-constraints appends two entries for each pure
    one, the sub-constraint first. *)
Lemma push_constraints_ext :
  forall A (an : Analyzer A) l (s : State A) x s',
    push_constraints an l s = Ok (x, s') ->
    exists ext,
      s' = mkState (literal_constraints_ s ++ ext) (var_map_ s) (enabled_extensions_ s)
             (recur_depth_ s) (recursively_visiting_boolean_ s) (analyzer_ s) /\
      List.length ext
      = (2 * List.length (filter (fun k => effect_le (SideEffect an k) kPure) l))%nat /\
      (forall k, In k l -> effect_le (SideEffect an k) kPure = true -> In k ext).
Proof.
  intros A an l. induction l as [|c r IH]; intros s x s' H; simpl in H.
  - inversion H; subst. exists []. rewrite app_nil_r.
    split; [destruct s'; reflexivity|]. split; [reflexivity|]. intros k [].
  - unfold bind in H. unfold push_constraint at 1 in H.
    cbn [filter].
    destruct (effect_le (SideEffect an c) kPure) eqn:E.
    + unfold bind, get, set_literal_constraints in H.
      apply IH in H. destruct H as (ext & -> & Hlen & Hin). simpl.
      eexists. rewrite <- app_assoc. split; [reflexivity|]. split.
      * rewrite length_app, Hlen. simpl. lia.
      * intros k [->|Hk] Hp; apply in_or_app; [left; left; reflexivity|].
        right. apply Hin; assumption.
    + unfold ret in H. apply IH in H. destruct H as (ext & -> & Hlen & Hin).
      exists ext. split; [reflexivity|]. split; [exact Hlen|].
      intros k [->|Hk] Hp; [congruence|]. apply Hin; assumption.
Qed.

Lemma push_constraints_total :
  forall A (an : Analyzer A) l (s : State A),
    exists s', push_constraints an l s = Ok (tt, s').
Proof.
  intros A an l. induction l as [|c r IH]; intros s; cbn [push_constraints].
  - eexists. reflexivity.
  - unfold bind, push_constraint.
    destruct (effect_le (SideEffect an c) kPure).
    + unfold bind, get, set_literal_constraints. apply IH.
    + unfold ret. apply IH.
Qed.

(** X5: entering a constraint whose simplification returns does not fail;
    it leaves the entries already stacked in place and appends, for the
    constraint as simplified, two entries per sub-constraint without side
    effects (the sub-constraint among them) and none for the others: the
    stack grows by an even number of entries, by none when no
    sub-constraint is pure. *)
Theorem EnterConstraint_stack_growth :
  forall (A : Type) (an : Analyzer A) (fuel : nat) (constraint new_constraint : PrimExpr)
         (s s0 : State A),
    VisitExpr an fuel constraint s = Ok (new_constraint, s0) ->
    exists recover s1 ext,
      RewriteSimplifier_EnterConstraint an fuel constraint s = Ok (recover, s1) /\
      literal_constraints_ s1 = literal_constraints_ s ++ ext /\
      List.length ext
      = (2 * List.length (filter (fun k => effect_le (SideEffect an k) kPure)
                            (ExtractConstraints new_constraint)))%nat /\
      (forall k, In k (ExtractConstraints new_constraint) ->
                 effect_le (SideEffect an k) kPure = true -> In k ext).
Proof.
  intros A an fuel c c' s s0 E.
  unfold RewriteSimplifier_EnterConstraint, EnterConstraint, bind, get.
  rewrite E.
  destruct (push_constraints_total an (ExtractConstraints c') s0) as [s2 E2].
  rewrite E2. unfold ret.
  apply keeps_VisitExpr in E. destruct E as (E1 & _).
  apply push_constraints_ext in E2. destruct E2 as (ext & -> & Hlen & Hin).
  do 2 eexists. exists ext. split; [reflexivity|].
  cbn [literal_constraints_]. rewrite E1.
  repeat split; assumption.
Qed.

Lemma EnterConstraint_stack_growth_witness :
  exists recover s1 ext,
    RewriteSimplifier_EnterConstraint table_analyzer 20
      (And (GT (ivar "y") (ivar "x")) (bvar "p")) (initial_state [])
    = Ok (recover, s1) /\
    literal_constraints_ s1
    = literal_constraints_ (initial_state ([] : list (PrimExpr * ConstIntBound))) ++ ext /\
    List.length ext
    = (2 * List.length (filter (fun k => effect_le (SideEffect table_analyzer k) kPure)
                          (ExtractConstraints
                             (And (LT (ivar "x") (ivar "y")) (bvar "p")))))%nat /\
    (forall k, In k (ExtractConstraints (And (LT (ivar "x") (ivar "y")) (bvar "p"))) ->
               effect_le (SideEffect table_analyzer k) kPure = true -> In k ext).
Proof.
  apply (@EnterConstraint_stack_growth _ table_analyzer 20
           (And (GT (ivar "y") (ivar "x")) (bvar "p"))
           (And (LT (ivar "x") (ivar "y")) (bvar "p"))
           (initial_state []) (initial_state [])).
  vm_compute. reflexivity.
Defined.

(** X6: scopes nest: of two constraints entered one after the other, the
    handle of the second and then the handle of the first bring the stack
    back to what it was before both; the handle of the first, called while
    entries of the second are still stacked, fails its assertion. *)
Theorem EnterConstraint_nested_scopes :
  forall (A : Type) (an : Analyzer A) (fuel : nat) (c1 c2 : PrimExpr)
         (s s1 s2 : State A) (recover1 recover2 : M A unit),
    RewriteSimplifier_EnterConstraint an fuel c1 s = Ok (recover1, s1) ->
    RewriteSimplifier_EnterConstraint an fuel c2 s1 = Ok (recover2, s2) ->
    (exists s3 s4,
        recover2 s2 = Ok (tt, s3) /\ recover1 s3 = Ok (tt, s4) /\
        literal_constraints_ s3 = literal_constraints_ s1 /\
        literal_constraints_ s4 = literal_constraints_ s) /\
    (literal_constraints_ s2 <> literal_constraints_ s1 -> recover1 s2 = Trap).
Proof.
  intros A an fuel c1 c2 s s1 s2 recover1 recover2 H1 H2.
  unfold RewriteSimplifier_EnterConstraint in H1, H2.
  apply EnterConstraint_spec in H1; [|intro; apply keeps_VisitExpr].
  apply EnterConstraint_spec in H2; [|intro; apply keeps_VisitExpr].
  destruct H1 as (ext1 & E1 & _ & _ & _ & ->).
  destruct H2 as (ext2 & E2 & _ & _ & _ & ->).
  split.
  - do 2 eexists. rewrite frecover_spec, Nat.eqb_refl.
    split; [reflexivity|]. rewrite frecover_spec. cbn [literal_constraints_].
    assert (Hcut : firstn (List.length (literal_constraints_ s1)) (literal_constraints_ s2)
                   = literal_constraints_ s1).
    { rewrite E2, firstn_app, Nat.sub_diag, firstn_all. simpl. apply app_nil_r. }
    rewrite Hcut, Nat.eqb_refl. split; [reflexivity|]. split; [reflexivity|].
    cbn [literal_constraints_].
    rewrite E1, firstn_app, Nat.sub_diag, firstn_all. simpl. apply app_nil_r.
  - intros Hgrew. rewrite frecover_spec.
    rewrite (proj2 (Nat.eqb_neq _ _)); [reflexivity|].
    rewrite E2, length_app. destruct ext2 as [|k ext2]; [|simpl; lia].
    exfalso. apply Hgrew. rewrite E2. apply app_nil_r.
Qed.

Lemma EnterConstraint_nested_scopes_witness :
  exists s3 s4,
    frecover 2 4
      (mkState [LT (ivar "x") (ivar "y"); Not (LE (ivar "y") (ivar "x"));
                bvar "p"; Not (Not (bvar "p"))]
         [] kNone 0 false ([] : list (PrimExpr * ConstIntBound)))
    = Ok (tt, s3) /\
    frecover 0 2 s3 = Ok (tt, s4) /\
    literal_constraints_ s3
    = literal_constraints_
        (mkState [LT (ivar "x") (ivar "y"); Not (LE (ivar "y") (ivar "x"))]
           [] kNone 0 false ([] : list (PrimExpr * ConstIntBound))) /\
    literal_constraints_ s4
    = literal_constraints_ (initial_state ([] : list (PrimExpr * ConstIntBound))).
Proof.
  refine (proj1 (@EnterConstraint_nested_scopes _ table_analyzer 20
                   (LT (ivar "x") (ivar "y")) (bvar "p")
                   (initial_state []) _ _ _ _ _ _)).
  - vm_compute. reflexivity.
  - vm_compute. reflexivity.
Defined.

(** ** Constraint faithfulness *)

Lemma match_literal_In :
  forall l c,
    In c l -> (forall q, In q l -> q <> Not c) ->
    match_literal l c (Not c) = Some (const_true (dtype c)).
Proof.
  intros l c Hin Hno. apply in_split in Hin. destruct Hin as (l1 & l2 & ->).
  apply match_literal_found. intros q Hq. apply ExprDeepEqual_false.
  apply Hno. apply in_or_app. left. exact Hq.
Qed.

Section LookedUpNode.
Context {A : Type}.
Variable an : Analyzer A.

Lemma keeps_looked_up_node :
  forall (visit : PrimExpr -> M A PrimExpr) e,
    (forall e', keeps (visit e')) -> keeps (looked_up_node an visit e).
Proof.
  intros visit e Hvisit.
  pose proof (@keeps_branch_walk A an visit Hvisit) as Hwalk.
  pose proof (@keeps_Mutate_Binary A visit Hvisit) as Hbin.
  destruct e as [| | |op a b| | | | | | |]; cbn [looked_up_node]; try apply keeps_ret.
  - destruct op; try apply keeps_ret; visitor_tac.
  - visitor_tac.
Qed.

(** The visitor of [e] answers from the stack when the node it looks up is
    found there. *)
Lemma VisitExpr_looked_up :
  forall fuel e (s : State A) c s2 v,
    looked_up_node an (VisitExpr an fuel) e s = Ok (Some c, s2) ->
    match_literal (literal_constraints_ s2) c (Not c) = Some v ->
    VisitExpr an (S fuel) e s = Ok (v, s2).
Proof.
  intros fuel e s c s2 v H Hm.
  destruct e as [| |x|op a b|a| | | | | |]; cbn [looked_up_node] in H;
    try discriminate.
  - unfold ret in H.
    destruct (DataType_eqb (var_dtype x) Bool) eqn:Ex; inversion H; subst; clear H.
    cbn [VisitExpr]. unfold VisitExpr_Var. rewrite Ex.
    unfold TryMatchLiteralConstraint, bind, get, ret. rewrite Hm. reflexivity.
  - destruct op; try discriminate; cbn [VisitExpr];
      unfold VisitExpr_EQ, VisitExpr_NE, VisitExpr_LT, VisitExpr_LE,
        VisitExpr_And, VisitExpr_Or;
      unfold bind, get in H; unfold bind, get; cbv beta iota in H |- *;
      match type of H with
      | match ?m with _ => _ end = _ =>
          destruct m as [[n s1]| |] eqn:E; try discriminate
      end;
      unfold ret in H;
      (destruct n as [| | |op' a' b'| | | | | | |]; try discriminate);
      match type of H with
      | context [TryConstFold ?o ?p ?q] =>
          destruct (TryConstFold o p q) eqn:Ef; try discriminate
      end;
      inversion H; subst; clear H;
      unfold TryMatchLiteralConstraint, bind, get, ret; cbv beta iota;
      rewrite Hm; reflexivity.
  - unfold bind at 1 in H.
    destruct (VisitExpr an fuel a s) as [[a' s1]| |] eqn:E; try discriminate.
    unfold ret in H. destruct (TryConstFoldNot a') eqn:Ef; try discriminate.
    inversion H; subst; clear H.
    cbn [VisitExpr]. unfold VisitExpr_Not. unfold bind at 1. rewrite E.
    cbv zeta. rewrite Ef.
    unfold TryMatchLiteralConstraint; unfold bind at 1; unfold get at 1;
      unfold bind at 1; unfold ret at 1.
    rewrite Hm. reflexivity.
Qed.

End LookedUpNode.



(** The entered expression itself: y > x is stacked as x < y, and the
    visitor of GT hands over to the visitor of LT. *)
Lemma EnterConstraint_greater_than :
  exists recover s1,
    RewriteSimplifier_EnterConstraint table_analyzer 20 (GT (ivar "y") (ivar "x"))
      (initial_state []) = Ok (recover, s1) /\
    result_of (simplify table_analyzer ExprDeepEqual 20 (GT (ivar "y") (ivar "x")) s1)
    = Ok (const_true Bool) /\
    result_of (simplify table_analyzer ExprDeepEqual 20 (Not (GT (ivar "y") (ivar "x"))) s1)
    = Ok (const_false Bool).
Proof.
  do 2 eexists. split; [vm_compute; reflexivity|].
  split; vm_compute; reflexivity.
Qed.

(** The side condition on the stack is needed: inside the scope of y <= x,
    whose normalised negation stacks Not (x < y), the constraint
    x + z < y + z is simplified to x < y by a cancellation rule and
    stacked; x < y then finds the older Not (x < y) first and simplifies to
    false. *)
Lemma EnterConstraint_contradicted :
  exists recover0 s0 recover s1,
    RewriteSimplifier_EnterConstraint table_analyzer 20 (LE (ivar "y") (ivar "x"))
      (initial_state []) = Ok (recover0, s0) /\
    RewriteSimplifier_EnterConstraint table_analyzer 20
      (LT (Add (ivar "x") (ivar "z")) (Add (ivar "y") (ivar "z"))) s0 = Ok (recover, s1) /\
    literal_constraints_ s1
    = [LE (ivar "y") (ivar "x"); Not (LT (ivar "x") (ivar "y"));
       LT (ivar "x") (ivar "y"); Not (LE (ivar "y") (ivar "x"))] /\
    result_of (simplify table_analyzer ExprDeepEqual 20 (LT (ivar "x") (ivar "y")) s1)
    = Ok (const_false Bool).
Proof.
  do 4 eexists. split; [vm_compute; reflexivity|].
  split; [vm_compute; reflexivity|].
  split; vm_compute; reflexivity.
Qed.

(** The claim in its own words at closed inputs: comparisons of every
    kind, a disjunction, a negation, a boolean variable, and two
    constraints the entry point answers in two steps (a conjunction, whose
    conjuncts are stacked one by one and fold to true; a comparison that a
    cancellation rule first rewrites to the stacked one). *)
Lemma EnterConstraint_faithful_examples :
  forall c,
    In c [ EQ (ivar "x") (ivar "y"); NE (ivar "x") (ivar "y");
           LT (ivar "x") (ivar "y"); LE (ivar "x") (ivar "y");
           GT (ivar "x") (ivar "y"); GE (ivar "x") (i32 0);
           Or (bvar "p") (bvar "q"); Not (bvar "p"); bvar "p";
           And (LT (ivar "x") (ivar "y")) (bvar "p");
           LT (Add (ivar "x") (ivar "z")) (Add (ivar "y") (ivar "z")) ] ->
    exists recover s1,
      RewriteSimplifier_EnterConstraint table_analyzer 20 c (initial_state [])
      = Ok (recover, s1) /\
      result_of (simplify table_analyzer ExprDeepEqual 20 c s1) = Ok (const_true Bool) /\
      result_of (simplify table_analyzer ExprDeepEqual 20 (Not c) s1) = Ok (const_false Bool).
Proof.
  intros c Hc. cbn [In] in Hc.
  repeat (destruct Hc as [<- | Hc];
          [do 2 eexists; split; [vm_compute; reflexivity|];
           split; vm_compute; reflexivity|]).
  destruct Hc.
Qed.

(** ** The boolean normaliser, further *)

Lemma TryConstFold_literal :
  forall op a b r,
    TryConstFold op a b = Some r ->
    match r with IntImm _ _ | FloatImm _ _ => True | _ => False end.
Proof.
  intros op a b r H. unfold TryConstFold in H.
  destruct a; try discriminate; destruct b; try discriminate;
    destruct (negb (DataType_eqb _ _)); try discriminate;
    destruct op; try discriminate;
    repeat match type of H with
           | (if ?c then _ else _) = _ => destruct c; try discriminate
           end;
    inversion H; exact I.
Qed.

Lemma mk_normal :
  forall op a b,
    op <> OGE -> op <> OGT ->
    normalizer_rule_applies (mk op a b) = false.
Proof.
  intros op a b H1 H2. unfold mk.
  destruct (TryConstFold op a b) as [r|] eqn:E.
  - apply TryConstFold_literal in E. destruct r; try contradiction; reflexivity.
  - destruct op; try reflexivity; congruence.
Qed.

Lemma NormalizeBooleanOperators_fuel_normal :
  forall n e r,
    NormalizeBooleanOperators_fuel n e = Some r ->
    normalizer_rule_applies r = false.
Proof.
  induction n as [|n IH]; intros e r H; [discriminate|].
  destruct e; simpl in H; try (inversion H; reflexivity).
  - destruct op; inversion H; try reflexivity; apply mk_normal; discriminate.
  - destruct e; simpl in H; try (inversion H; reflexivity).
    + destruct op; try (inversion H; try reflexivity; apply mk_normal; discriminate).
      * destruct (NormalizeBooleanOperators_fuel n (mk_not e1)); [|discriminate].
        destruct (NormalizeBooleanOperators_fuel n (mk_not e2)); [|discriminate].
        inversion H. apply mk_normal; discriminate.
      * destruct (NormalizeBooleanOperators_fuel n (mk_not e1)); [|discriminate].
        destruct (NormalizeBooleanOperators_fuel n (mk_not e2)); [|discriminate].
        inversion H. apply mk_normal; discriminate.
    + eapply IH. exact H.
Qed.

Lemma NormalizeBooleanOperators_fixed :
  forall e, normalizer_rule_applies e = false -> NormalizeBooleanOperators e = e.
Proof.
  intros e He. unfold NormalizeBooleanOperators.
  destruct e; simpl in *; try reflexivity.
  - destruct op; simpl in *; try reflexivity; discriminate.
  - destruct e; simpl in *; try reflexivity; try discriminate.
    destruct op; simpl in *; try reflexivity; discriminate.
Qed.

(** X7: the result of [NormalizeBooleanOperators] has none of the shapes
    the function rewrites at its root, so that normalising twice is
    normalising once. *)
Theorem NormalizeBooleanOperators_idempotent :
  forall e : PrimExpr,
    normalizer_rule_applies (NormalizeBooleanOperators e) = false /\
    NormalizeBooleanOperators (NormalizeBooleanOperators e) = NormalizeBooleanOperators e.
Proof.
  intro e.
  assert (H : normalizer_rule_applies (NormalizeBooleanOperators e) = false).
  { eapply NormalizeBooleanOperators_fuel_normal.
    apply (@NormalizeBooleanOperators_fuel_eq (S (size e)) e). lia. }
  split; [exact H|]. apply NormalizeBooleanOperators_fixed. exact H.
Qed.

(** X8: on the negation of a comparison the rules of the [Not] visitor
    and [NormalizeBooleanOperators] give the same expression, whatever the
    operands: the reason why the negation stacked by [EnterConstraint] is
    the form under which a simplified negation is looked up. *)
Theorem ApplyRewriteRules_Not_agrees_with_normalizer :
  forall (A : Type) (an : Analyzer A) (visit : PrimExpr -> M A PrimExpr)
         (op : BinOp) (a b : PrimExpr) (s : State A),
    is_compare op = true ->
    ApplyRewriteRules_Not an visit (Not (Bin op a b)) s
    = Ok (NormalizeBooleanOperators (Not (Bin op a b)), s).
Proof.
  intros A an visit op a b s Hop.
  unfold ApplyRewriteRules_Not.
  destruct (is_scalable_or_fixed_length_vector (dtype (Not (Bin op a b))));
    destruct op; try discriminate; reflexivity.
Qed.

Lemma ApplyRewriteRules_Not_agrees_with_normalizer_witness :
  ApplyRewriteRules_Not table_analyzer (VisitExpr table_analyzer 0)
    (Not (LE (ivar "x") (i32 3))) (initial_state [])
  = Ok (NormalizeBooleanOperators (Not (LE (ivar "x") (i32 3))), initial_state []).
Proof.
  apply (@ApplyRewriteRules_Not_agrees_with_normalizer _ table_analyzer
           (VisitExpr table_analyzer 0) OLE (ivar "x") (i32 3) (initial_state [])).
  reflexivity.
Defined.

(** *** The normaliser keeps the truth value *)

Lemma wrap_dtype_Bool_b2z : forall b, wrap_dtype Bool (Z.b2z b) = Z.b2z b.
Proof. destruct b; reflexivity. Qed.

Lemma eval_bool_lit : forall rho b, eval rho (bool_lit b) = Some (Z.b2z b).
Proof. destruct b; reflexivity. Qed.

Lemma literals_in_range_bool_lit : forall b, literals_in_range (bool_lit b) = true.
Proof. destruct b; reflexivity. Qed.

(** Folding a comparison or a connective of in-range literals gives the
    value of the node. *)
Lemma eval_mk :
  forall rho op a b z,
    is_compare op || is_logical op = true ->
    literals_in_range a = true -> literals_in_range b = true ->
    eval rho (Bin op a b) = Some z ->
    eval rho (mk op a b) = Some z /\ literals_in_range (mk op a b) = true.
Proof.
  intros rho op a b z Hop Ha Hb H. unfold mk.
  destruct (TryConstFold op a b) as [r|] eqn:E;
    [|split; [exact H|simpl; rewrite Ha, Hb; reflexivity]].
  unfold TryConstFold in E.
  destruct a as [ta va|ta va| | | | | | | | |]; try discriminate;
    destruct b as [tb vb|tb vb| | | | | | | | |]; try discriminate;
    try (simpl in H; discriminate).
  destruct (DataType_eqb ta tb) eqn:Et; [|discriminate]. simpl in E.
  apply DataType_eqb_eq in Et. subst tb.
  simpl in Ha, Hb. apply Z.eqb_eq in Ha, Hb.
  cbn [eval dtype] in H. rewrite Ha, Hb in H.
  destruct op; try discriminate; cbn [eval_op] in H;
    try (destruct (is_bool ta); [|discriminate]);
    inversion E; subst r; inversion H; subst z;
    rewrite eval_bool_lit, literals_in_range_bool_lit; split; reflexivity.
Qed.

Lemma eval_mk_not :
  forall rho a z,
    literals_in_range a = true ->
    eval rho (Not a) = Some z ->
    eval rho (mk_not a) = Some z /\ literals_in_range (mk_not a) = true.
Proof.
  intros rho a z Ha H. unfold mk_not, TryConstFoldNot.
  destruct a; try (split; [exact H|exact Ha]).
  simpl in Ha. apply Z.eqb_eq in Ha. cbn [eval] in H. rewrite Ha in H.
  inversion H. rewrite eval_bool_lit, literals_in_range_bool_lit. split; reflexivity.
Qed.

Lemma b2z_eqb_0 : forall b, (Z.b2z b =? 0) = negb b.
Proof. destruct b; reflexivity. Qed.

Ltac eval_operands H x y vx vy :=
  let Ex := fresh "Ex" in
  let Ey := fresh "Ey" in
  cbn [eval] in H;
  destruct (eval _ x) as [vx|] eqn:Ex; [|discriminate];
  destruct (eval _ y) as [vy|] eqn:Ey; [|discriminate];
  cbn [eval_op] in H.

Lemma NormalizeBooleanOperators_fuel_truth :
  forall rho n e r z,
    NormalizeBooleanOperators_fuel n e = Some r ->
    literals_in_range e = true ->
    eval rho e = Some z ->
    literals_in_range r = true /\
    exists z', eval rho r = Some z' /\ (z' =? 0) = (z =? 0).
Proof.
  intros rho. induction n as [|n IH]; intros e r z H Hr Hz; [discriminate|].
  assert (Hsame : forall e', literals_in_range e' = true ->
                             eval rho e' = Some z ->
                             literals_in_range e' = true /\
                             exists z', eval rho e' = Some z' /\ (z' =? 0) = (z =? 0)).
  { intros e' H1 H2. split; [exact H1|]. exists z. split; [exact H2|reflexivity]. }
  assert (Hmk : forall op a b,
             is_compare op || is_logical op = true ->
             mk op a b = r ->
             literals_in_range a = true -> literals_in_range b = true ->
             eval rho (Bin op a b) = Some z ->
             literals_in_range r = true /\
             exists z', eval rho r = Some z' /\ (z' =? 0) = (z =? 0)).
  { intros op a b Hop <- Ha Hb Hv.
    destruct (@eval_mk rho op a b z Hop Ha Hb Hv) as [H1 H2].
    split; [exact H2|]. exists z. split; [exact H1|reflexivity]. }
  destruct e; simpl in H; try (inversion H; subst; apply Hsame; auto; fail).
  - (* comparisons at the root *)
    cbn [literals_in_range] in Hr. apply andb_prop in Hr. destruct Hr as [Hr1 Hr2].
    destruct op; inversion H; subst; try (apply Hsame; auto; simpl; rewrite Hr1, Hr2; reflexivity).
    + (* GT x y *)
      eval_operands Hz e1 e2 v1 v2.
      apply (Hmk OLT e2 e1); auto. cbn [eval]. rewrite Ex, Ey. exact Hz.
    + (* GE x y *)
      eval_operands Hz e1 e2 v1 v2.
      apply (Hmk OLE e2 e1); auto. cbn [eval]. rewrite Ex, Ey. exact Hz.
  - (* Not *)
    cbn [literals_in_range] in Hr.
    destruct e; simpl in H; try (inversion H; subst; apply Hsame; auto; fail).
    + cbn [literals_in_range] in Hr. apply andb_prop in Hr. destruct Hr as [Hr1 Hr2].
      cbn [eval] in Hz.
      destruct (eval rho e1) as [v1|] eqn:Ex; [|discriminate].
      destruct (eval rho e2) as [v2|] eqn:Ey; [|discriminate].
      cbn [eval_op] in Hz.
      assert (Hnot : forall x v, literals_in_range x = true -> eval rho x = Some v ->
                 forall rx, NormalizeBooleanOperators_fuel n (mk_not x) = Some rx ->
                 literals_in_range rx = true /\
                 exists z', eval rho rx = Some z' /\ (z' =? 0) = negb (v =? 0)).
      { intros x v Hx Hv rx Hrx.
        destruct (@eval_mk_not rho x (Z.b2z (v =? 0)) Hx) as [N1 N2].
        { cbn [eval]. rewrite Hv. reflexivity. }
        destruct (IH _ _ _ Hrx N2 N1) as (I1 & z' & I2 & I3).
        split; [exact I1|]. exists z'. split; [exact I2|].
        rewrite I3. apply b2z_eqb_0. }
      destruct op;
        try (inversion H; subst; apply Hsame; auto;
             [simpl; rewrite Hr1, Hr2; reflexivity
             |cbn [eval]; rewrite Ex, Ey; exact Hz]; fail).
      * (* Not (EQ x y) *)
        inversion H; subst. inversion Hz; subst.
        apply (Hmk ONE e1 e2); auto. cbn [eval eval_op]. rewrite Ex, Ey.
        destruct (v1 =? v2); reflexivity.
      * (* Not (NE x y) *)
        inversion H; subst. inversion Hz; subst.
        apply (Hmk OEQ e1 e2); auto. cbn [eval eval_op]. rewrite Ex, Ey.
        destruct (v1 =? v2); reflexivity.
      * (* Not (LT x y) *)
        inversion H; subst. inversion Hz; subst.
        apply (Hmk OLE e2 e1); auto. cbn [eval eval_op]. rewrite Ex, Ey.
        rewrite b2z_eqb_0, Z.ltb_antisym, negb_involutive. reflexivity.
      * (* Not (LE x y) *)
        inversion H; subst. inversion Hz; subst.
        apply (Hmk OLT e2 e1); auto. cbn [eval eval_op]. rewrite Ex, Ey.
        rewrite b2z_eqb_0, Z.leb_antisym, negb_involutive. reflexivity.
      * (* Not (GT y x) *)
        inversion H; subst. inversion Hz; subst.
        apply (Hmk OLE e1 e2); auto. cbn [eval eval_op]. rewrite Ex, Ey.
        rewrite b2z_eqb_0, Z.ltb_antisym, negb_involutive. reflexivity.
      * (* Not (GE y x) *)
        inversion H; subst. inversion Hz; subst.
        apply (Hmk OLT e1 e2); auto. cbn [eval eval_op]. rewrite Ex, Ey.
        rewrite b2z_eqb_0, Z.leb_antisym, negb_involutive. reflexivity.
      * (* Not (And x y) *)
        destruct (NormalizeBooleanOperators_fuel n (mk_not e1)) as [r1|] eqn:N1;
          [|discriminate].
        destruct (NormalizeBooleanOperators_fuel n (mk_not e2)) as [r2|] eqn:N2;
          [|discriminate].
        inversion H; subst r. inversion Hz; subst z.
        destruct (Hnot e1 v1 Hr1 Ex r1 N1) as (L1 & z1 & V1 & T1).
        destruct (Hnot e2 v2 Hr2 Ey r2 N2) as (L2 & z2 & V2 & T2).
        destruct (@eval_mk rho OOr r1 r2
                    (Z.b2z (negb (z1 =? 0) || negb (z2 =? 0))) eq_refl L1 L2)
          as [M1 M2].
        { cbn [eval eval_op]. rewrite V1, V2. reflexivity. }
        split; [exact M2|]. eexists. split; [exact M1|].
        rewrite T1, T2, !b2z_eqb_0.
        destruct (v1 =? 0), (v2 =? 0); reflexivity.
      * (* Not (Or x y) *)
        destruct (NormalizeBooleanOperators_fuel n (mk_not e1)) as [r1|] eqn:N1;
          [|discriminate].
        destruct (NormalizeBooleanOperators_fuel n (mk_not e2)) as [r2|] eqn:N2;
          [|discriminate].
        inversion H; subst r. inversion Hz; subst z.
        destruct (Hnot e1 v1 Hr1 Ex r1 N1) as (L1 & z1 & V1 & T1).
        destruct (Hnot e2 v2 Hr2 Ey r2 N2) as (L2 & z2 & V2 & T2).
        destruct (@eval_mk rho OAnd r1 r2
                    (Z.b2z (negb (z1 =? 0) && negb (z2 =? 0))) eq_refl L1 L2)
          as [M1 M2].
        { cbn [eval eval_op]. rewrite V1, V2. reflexivity. }
        split; [exact M2|]. eexists. split; [exact M1|].
        rewrite T1, T2, !b2z_eqb_0.
        destruct (v1 =? 0), (v2 =? 0); reflexivity.
    + (* Not (Not x) *)
      cbn [literals_in_range] in Hr. cbn [eval] in Hz.
      destruct (eval rho e) as [v|] eqn:Ev; [|discriminate].
      inversion Hz; subst z.
      destruct (IH _ _ _ H Hr Ev) as (I1 & z' & I2 & I3).
      split; [exact I1|]. exists z'. split; [exact I2|].
      rewrite I3, !b2z_eqb_0, negb_involutive. reflexivity.
Qed.

(** X9: [NormalizeBooleanOperators] keeps the truth value: an expression
    that has a value and whose integer literals fit their types is
    normalised to an expression that has a value, zero if and only if the
    value of the original is. *)
Theorem NormalizeBooleanOperators_keeps_truth :
  forall (rho : Valuation) (e : PrimExpr) (z : Z),
    literals_in_range e = true ->
    eval rho e = Some z ->
    exists z', eval rho (NormalizeBooleanOperators e) = Some z' /\
               (z' =? 0) = (z =? 0).
Proof.
  intros rho e z Hr Hz.
  destruct (@NormalizeBooleanOperators_fuel_truth rho (S (size e)) e
              (NormalizeBooleanOperators e) z) as (_ & H); auto.
  apply NormalizeBooleanOperators_fuel_eq. lia.
Qed.

Lemma NormalizeBooleanOperators_keeps_truth_witness :
  exists z',
    eval (fun _ => 7)
      (NormalizeBooleanOperators
         (Not (Or (GE (ivar "x") (i32 3)) (Not (EQ (ivar "y") (i32 7))))))
    = Some z' /\
    (z' =? 0) = (0 =? 0).
Proof.
  apply (@NormalizeBooleanOperators_keeps_truth (fun _ => 7)
           (Not (Or (GE (ivar "x") (i32 3)) (Not (EQ (ivar "y") (i32 7))))) 0).
  - reflexivity.
  - reflexivity.
Defined.

(** ** The comparison engine, further *)

(** X10: [TryCompare(x, val)] returns whenever the simplification of [x]
    does, leaves the state as that simplification left it, and its answer
    is true of every integer the analyses allow for the simplified [x]:
    the value of the literal if it is one, a member of the bound and of the
    modular set the analyzer reports.  On a literal the answer is one of
    EQ, GT, LT. *)
Theorem TryCompare_val_sound :
  forall (A : Type) (an : Analyzer A) (visit : PrimExpr -> M A PrimExpr)
         (x diff : PrimExpr) (val d : Z) (s s' : State A),
    visit x s = Ok (diff, s') ->
    (forall t v, diff = IntImm t v -> d = v) ->
    in_bound d (const_int_bound an (analyzer_ s') diff) ->
    in_modular_set d (modular_set an (analyzer_ s') diff) ->
    exists r, TryCompare_val an visit x val s = Ok (r, s') /\
              CompareResult_holds r d val /\
              (forall t v, diff = IntImm t v -> is_finished r = true).
Proof.
  intros A an visit x diff val d s s' Hv Hlit Hb Hm.
  unfold TryCompare_val, bind. rewrite Hv.
  assert (Hgen :
    exists r,
      (s0 <- get ;;
       (let dbound := const_int_bound an (analyzer_ s0) diff in
        if (min_value dbound =? val) && (max_value dbound =? val) then ret kEQ
        else if val <? min_value dbound then ret kGT
        else if max_value dbound <? val then ret kLT
        else if val <=? min_value dbound then ret kGE
        else if max_value dbound <=? val then ret kLE
        else if val =? 0 then
          let dmod := modular_set an (analyzer_ s0) diff in
          if negb (base dmod =? 0) then ret kNE else ret kUnknown
        else ret kUnknown))%monad s' = Ok (r, s') /\
      CompareResult_holds r d val).
  { unfold bind, get. cbv zeta. unfold in_bound in Hb.
    destruct ((min_value _ =? val) && (max_value _ =? val)) eqn:E1.
    { apply andb_prop in E1. destruct E1 as [E1 E2].
      apply Z.eqb_eq in E1, E2. eexists. split; [reflexivity|]. simpl. lia. }
    destruct (val <? min_value _) eqn:E2.
    { apply Z.ltb_lt in E2. eexists. split; [reflexivity|]. simpl. lia. }
    destruct (max_value _ <? val) eqn:E3.
    { apply Z.ltb_lt in E3. eexists. split; [reflexivity|]. simpl. lia. }
    destruct (val <=? min_value _) eqn:E4.
    { apply Z.leb_le in E4. eexists. split; [reflexivity|]. simpl. lia. }
    destruct (max_value _ <=? val) eqn:E5.
    { apply Z.leb_le in E5. eexists. split; [reflexivity|]. simpl. lia. }
    destruct (val =? 0) eqn:E6; [|eexists; split; [reflexivity|exact I]].
    destruct (base _ =? 0) eqn:E7; [eexists; split; [reflexivity|exact I]|].
    apply Z.eqb_eq in E6. apply Z.eqb_neq in E7.
    eexists. split; [reflexivity|]. simpl. subst val. intro Hd. subst d.
    destruct Hm as [[_ Hm]|[Hc Hm]]; [congruence|].
    rewrite Z.mod_0_l in Hm by lia. congruence. }
  destruct diff as [t v| | | | | | | | | |];
    try (destruct Hgen as (r & H1 & H2); exists r;
         split; [exact H1|split; [exact H2|intros; discriminate]]).
  pose proof (Hlit t v eq_refl) as Hd. subst d.
  destruct (v =? val) eqn:E1.
  { apply Z.eqb_eq in E1. eexists. split; [reflexivity|]. split; [exact E1|reflexivity]. }
  destruct (val <? v) eqn:E2.
  { apply Z.ltb_lt in E2. eexists. split; [reflexivity|].
    split; [simpl; lia|reflexivity]. }
  destruct (v <? val) eqn:E3.
  { apply Z.ltb_lt in E3. eexists. split; [reflexivity|].
    split; [simpl; lia|reflexivity]. }
  apply Z.eqb_neq in E1. apply Z.ltb_ge in E2, E3. lia.
Qed.

Lemma TryCompare_val_sound_witness :
  exists r,
    TryCompare_val table_analyzer (VisitExpr table_analyzer 5)
      (Sub (ivar "n") (i32 1)) 0
      (mkState [] [] kNone 0 false [(Add (ivar "n") (i32 (-1)), mkConstIntBound 0 9)])
    = Ok (r, mkState [] [] kNone 0 false
                [(Add (ivar "n") (i32 (-1)), mkConstIntBound 0 9)]) /\
    CompareResult_holds r 4 0 /\
    (forall t v, Add (ivar "n") (i32 (-1)) = IntImm t v -> is_finished r = true).
Proof.
  apply (@TryCompare_val_sound _ table_analyzer (VisitExpr table_analyzer 5)
           (Sub (ivar "n") (i32 1)) (Add (ivar "n") (i32 (-1))) 0 4
           (mkState [] [] kNone 0 false [(Add (ivar "n") (i32 (-1)), mkConstIntBound 0 9)])
           (mkState [] [] kNone 0 false [(Add (ivar "n") (i32 (-1)), mkConstIntBound 0 9)])).
  - vm_compute. reflexivity.
  - intros t v H. discriminate.
  - vm_compute. split; discriminate.
  - right. vm_compute. split; reflexivity.
Defined.

(** *** The layers of [TryCompare(x, y)] *)

(** The intersection of two answers says what both say. *)
Lemma CompareResult_and_holds :
  forall r1 r2 a b,
    CompareResult_holds (CompareResult_and r1 r2) a b <->
    CompareResult_holds r1 a b /\ CompareResult_holds r2 a b.
Proof.
  intros r1 r2 a b. destruct r1, r2; cbn; lia.
Qed.

(** X11: [TryCompare(x, y)] invents nothing: its answer is the
    intersection of the answers of the layers it ran (the bounds of the
    difference, then the known inequalities, then the product-and-sum
    test, stopping at the first of EQ, LT, GT), each layer run in the state
    the layer before it left; so the answer is true of two integers of
    which the answer of every layer that ran is true. *)
Theorem TryCompare_sound :
  forall (A : Type) (an : Analyzer A) (visit : PrimExpr -> M A PrimExpr)
         (x y : PrimExpr) (vx vy : Z) (s s' : State A) (r : CompareResult),
    (forall r1 s1,
        TryCompareUsingConstIntBounds an visit x y s = Ok (r1, s1) ->
        CompareResult_holds r1 vx vy) ->
    (forall r1 s1 r2 s2,
        TryCompareUsingConstIntBounds an visit x y s = Ok (r1, s1) ->
        is_finished r1 = false ->
        TryCompareUsingKnownInequalities an x y s1 = Ok (r2, s2) ->
        CompareResult_holds r2 vx vy) ->
    (forall r1 s1 r2 s2 r3 s3,
        TryCompareUsingConstIntBounds an visit x y s = Ok (r1, s1) ->
        is_finished r1 = false ->
        TryCompareUsingKnownInequalities an x y s1 = Ok (r2, s2) ->
        is_finished (CompareResult_and r1 r2) = false ->
        TryComparisonOfProductAndSum an visit x y s2 = Ok (r3, s3) ->
        CompareResult_holds r3 vx vy) ->
    TryCompare an visit x y s = Ok (r, s') ->
    CompareResult_holds r vx vy /\
    exists r1 s1,
      TryCompareUsingConstIntBounds an visit x y s = Ok (r1, s1) /\
      if is_finished r1 then r = r1 /\ s' = s1
      else exists r2 s2,
          TryCompareUsingKnownInequalities an x y s1 = Ok (r2, s2) /\
          if is_finished (CompareResult_and r1 r2)
          then r = CompareResult_and r1 r2 /\ s' = s2
          else exists r3,
              TryComparisonOfProductAndSum an visit x y s2 = Ok (r3, s') /\
              r = CompareResult_and (CompareResult_and r1 r2) r3.
Proof.
  intros A an visit x y vx vy s s' r H1 H2 H3 H.
  assert (Hunit : forall r0, CompareResult_and kUnknown r0 = r0)
    by (intros r0; destruct r0; reflexivity).
  unfold TryCompare in H. cbv zeta in H. unfold bind at 1 in H.
  destruct (TryCompareUsingConstIntBounds an visit x y s) as [[r1 s1]| |] eqn:E1;
    try discriminate.
  rewrite Hunit in H.
  pose proof (H1 r1 s1 eq_refl) as K1.
  destruct (is_finished r1) eqn:F1.
  { inversion H; subst. split; [exact K1|].
    exists r, s'. split; [reflexivity|]. rewrite F1. split; reflexivity. }
  unfold bind at 1 in H.
  destruct (TryCompareUsingKnownInequalities an x y s1) as [[r2 s2]| |] eqn:E2;
    try discriminate.
  pose proof (H2 r1 s1 r2 s2 eq_refl F1 E2) as K2.
  destruct (is_finished (CompareResult_and r1 r2)) eqn:F2.
  { inversion H; subst. split; [apply CompareResult_and_holds; split; assumption|].
    exists r1, s1. split; [reflexivity|]. rewrite F1.
    exists r2, s'. split; [exact E2|]. rewrite F2. split; reflexivity. }
  unfold bind at 1 in H.
  destruct (TryComparisonOfProductAndSum an visit x y s2) as [[r3 s3]| |] eqn:E3;
    try discriminate.
  pose proof (H3 r1 s1 r2 s2 r3 s3 eq_refl F1 E2 F2 E3) as K3.
  inversion H; subst. split.
  { apply CompareResult_and_holds. split; [|exact K3].
    apply CompareResult_and_holds. split; assumption. }
  exists r1, s1. split; [reflexivity|]. rewrite F1.
  exists r2, s2. split; [exact E2|]. rewrite F2.
  exists r3. split; [exact E3|reflexivity].
Qed.

Lemma TryCompare_sound_witness :
  CompareResult_holds kGT
    (den (fun v => if String.eqb (name_hint v) "C" then 9 else 3) product_sum_x)
    (den (fun v => if String.eqb (name_hint v) "C" then 9 else 3) product_sum_y) /\
  exists r1 s1,
    TryCompareUsingConstIntBounds table_analyzer (VisitExpr table_analyzer 20)
      product_sum_x product_sum_y compare_layers_state = Ok (r1, s1) /\
    if is_finished r1 then kGT = r1 /\ compare_layers_state = s1
    else exists r2 s2,
        TryCompareUsingKnownInequalities table_analyzer product_sum_x product_sum_y s1
        = Ok (r2, s2) /\
        if is_finished (CompareResult_and r1 r2)
        then kGT = CompareResult_and r1 r2 /\ compare_layers_state = s2
        else exists r3,
            TryComparisonOfProductAndSum table_analyzer (VisitExpr table_analyzer 20)
              product_sum_x product_sum_y s2 = Ok (r3, compare_layers_state) /\
            kGT = CompareResult_and (CompareResult_and r1 r2) r3.
Proof.
  apply (@TryCompare_sound _ table_analyzer (VisitExpr table_analyzer 20)
           product_sum_x product_sum_y _ _ compare_layers_state compare_layers_state kGT).
  - intros r1 s1 H. vm_compute in H. inversion H. vm_compute. discriminate.
  - intros r1 s1 r2 s2 H _ H2. vm_compute in H. inversion H; subst.
    vm_compute in H2. inversion H2. exact I.
  - intros r1 s1 r2 s2 r3 s3 H _ H2 _ H3. vm_compute in H. inversion H; subst.
    vm_compute in H2. inversion H2; subst.
    vm_compute in H3. inversion H3. vm_compute. reflexivity.
  - vm_compute. reflexivity.
Defined.

(** On the example the bounds of the difference give GE, the known
    inequalities nothing, the product-and-sum test GT; their intersection
    is GT. *)
Lemma TryCompare_layers_example :
  TryCompareUsingConstIntBounds table_analyzer (VisitExpr table_analyzer 20)
    product_sum_x product_sum_y compare_layers_state = Ok (kGE, compare_layers_state) /\
  TryCompareUsingKnownInequalities table_analyzer product_sum_x product_sum_y
    compare_layers_state = Ok (kUnknown, compare_layers_state) /\
  TryComparisonOfProductAndSum table_analyzer (VisitExpr table_analyzer 20)
    product_sum_x product_sum_y compare_layers_state = Ok (kGT, compare_layers_state) /\
  TryCompare table_analyzer (VisitExpr table_analyzer 20)
    product_sum_x product_sum_y compare_layers_state = Ok (kGT, compare_layers_state).
Proof. repeat split; vm_compute; reflexivity. Qed.

(** *** The product-and-sum comparison proves what it returns *)

(** For positive a, b, c, d: a*b*d < (a+b)*c once one of the two tests on
    the bounds holds. *)
Lemma product_sum_core :
  forall a b c d Am Bm Cm Dm,
    0 < a <= Am -> 0 < b <= Bm -> 0 < Cm <= c -> 0 < d <= Dm ->
    Z.min Am Bm * Dm <= Cm \/ Am * Bm * Dm < Cm * (Am + Bm) ->
    a * b * d < (a + b) * c.
Proof.
  intros a b c d Am Bm Cm Dm Ha Hb Hc Hd [H|H].
  - destruct (Z.min_spec Am Bm) as [[_ E]|[_ E]]; rewrite E in H.
    + assert (a * d <= c) by nia. nia.
    + assert (b * d <= c) by nia. nia.
  - assert (P1 : 0 <= (a * Am) * (Bm - b)) by (apply Z.mul_nonneg_nonneg; nia).
    assert (P2 : 0 <= (b * Bm) * (Am - a)) by (apply Z.mul_nonneg_nonneg; nia).
    assert (K1 : (Am + Bm) * (a * b) <= (a + b) * (Am * Bm)) by lia.
    assert (K2 : a * b * Dm < (a + b) * Cm).
    { apply (Z.mul_lt_mono_pos_r (Am + Bm)); [lia|].
      assert (a * b * Dm * (Am + Bm) <= (a + b) * (Am * Bm * Dm)) by nia.
      assert ((a + b) * (Am * Bm * Dm) < (a + b) * (Cm * (Am + Bm))).
      { apply Z.mul_lt_mono_pos_l; lia. }
      nia. }
    assert (a * b * d <= a * b * Dm) by nia.
    assert ((a + b) * Cm <= (a + b) * c) by nia.
    lia.
Qed.

Lemma neg64_small : forall v, - kPosInf <= v <= kPosInf -> neg64 v = - v.
Proof.
  intros v H. unfold neg64, wrap64. rewrite kPosInf_eq in H.
  apply wrap64_small. lia.
Qed.

Lemma mul64_small : forall a b, - 2 ^ 63 <= a * b < 2 ^ 63 -> mul64 a b = a * b.
Proof. intros a b H. unfold mul64. apply wrap64_small. exact H. Qed.

Lemma add64_small : forall a b, - 2 ^ 63 <= a + b < 2 ^ 63 -> add64 a b = a + b.
Proof. intros a b H. unfold add64. apply wrap64_small. exact H. Qed.

(** The tests on normalised (all positive) bounds. *)
Lemma reciprocal_tests_sound :
  forall a b c d Am Bm Cm Dm,
    0 < a <= Am -> 0 < b <= Bm -> 0 < Cm <= c -> 0 < d <= Dm ->
    Am <= 2 ^ 20 -> Bm <= 2 ^ 20 -> Dm <= 2 ^ 20 -> Cm <= 2 ^ 40 ->
    (if Dm =? kPosInf then false
     else if mul64 (Z.min Am Bm) Dm <=? Cm then true
     else if negb (Am =? kPosInf) && negb (Bm =? kPosInf)
     then if mul64 (mul64 Am Bm) Dm <? mul64 Cm (add64 Am Bm) then true else false
     else false) = true ->
    a * b * d < (a + b) * c.
Proof.
  intros a b c d Am Bm Cm Dm Ha Hb Hc Hd HA HB HD HC H.
  assert (P20 : 2 ^ 20 = 1048576) by reflexivity.
  assert (P40 : 2 ^ 40 = 1099511627776) by reflexivity.
  assert (P63 : 2 ^ 63 = 9223372036854775808) by reflexivity.
  rewrite P20 in HA, HB, HD. rewrite P40 in HC.
  assert (Hmin : 0 < Z.min Am Bm <= 1048576) by lia.
  assert (HmD : 0 < Z.min Am Bm * Dm <= 1048576 * 1048576)
    by (split; [nia|apply Z.mul_le_mono_nonneg; lia]).
  assert (HAB : 0 < Am * Bm <= 1048576 * 1048576)
    by (split; [nia|apply Z.mul_le_mono_nonneg; lia]).
  assert (HABD : 0 < Am * Bm * Dm <= 1048576 * 1048576 * 1048576)
    by (split; [nia|apply Z.mul_le_mono_nonneg; lia]).
  assert (HCAB : 0 < Cm * (Am + Bm) <= 1099511627776 * (1048576 + 1048576))
    by (split; [nia|apply Z.mul_le_mono_nonneg; lia]).
  rewrite (@mul64_small (Z.min Am Bm) Dm) in H by lia.
  rewrite (@mul64_small Am Bm) in H by lia.
  rewrite (@mul64_small (Am * Bm) Dm) in H by lia.
  rewrite (@add64_small Am Bm) in H by lia.
  rewrite (@mul64_small Cm (Am + Bm)) in H by lia.
  apply (@product_sum_core a b c d Am Bm Cm Dm); auto.
  destruct (Dm =? kPosInf); [discriminate|].
  destruct (Z.min Am Bm * Dm <=? Cm) eqn:E1; [left; apply Z.leb_le; exact E1|].
  destruct (negb (Am =? kPosInf) && negb (Bm =? kPosInf)); [|discriminate].
  destruct (Am * Bm * Dm <? Cm * (Am + Bm)) eqn:E2; [|discriminate].
  right. apply Z.ltb_lt. exact E2.
Qed.

(** The comparison on the four bounds proves what it answers. *)
Lemma product_sum_bounds_sound :
  forall (A_bound B_bound C_bound D_bound : ConstIntBound) (a b c d : Z),
    in_bound a A_bound -> in_bound b B_bound ->
    in_bound c C_bound -> in_bound d D_bound ->
    small_bound A_bound -> small_bound B_bound -> small_bound D_bound ->
    small_or_open_bound C_bound ->
    CompareResult_holds (CompareProductAndSumBounds A_bound B_bound C_bound D_bound)
      ((a + b) * c) ((a * b) * d).
Proof.
  intros [Al Ah] [Bl Bh] [Cl Ch] [Dl Dh] a b c d Ha Hb Hc Hd SA SB SD SC.
  unfold in_bound, small_bound, small_or_open_bound in *.
  cbn [min_value max_value] in *.
  assert (P20 : 2 ^ 20 = 1048576) by reflexivity.
  assert (P40 : 2 ^ 40 = 1099511627776) by reflexivity.
  assert (PI : kPosInf = 9223372036854775807) by reflexivity.
  assert (NI : kNegInf = -9223372036854775807) by reflexivity.
  rewrite P20 in SA, SB, SD. rewrite P40, PI, NI in SC.
  assert (NAl : neg64 Al = - Al) by (apply neg64_small; lia).
  assert (NAh : neg64 Ah = - Ah) by (apply neg64_small; lia).
  assert (NBl : neg64 Bl = - Bl) by (apply neg64_small; lia).
  assert (NBh : neg64 Bh = - Bh) by (apply neg64_small; lia).
  assert (NCl : neg64 Cl = - Cl) by (apply neg64_small; lia).
  assert (NCh : neg64 Ch = - Ch) by (apply neg64_small; lia).
  assert (NDl : neg64 Dl = - Dl) by (apply neg64_small; lia).
  assert (NDh : neg64 Dh = - Dh) by (apply neg64_small; lia).
  assert (NNCl : neg64 (- Cl) = Cl)
    by (rewrite neg64_small by lia; apply Z.opp_involutive).
  assert (NNCh : neg64 (- Ch) = Ch)
    by (rewrite neg64_small by lia; apply Z.opp_involutive).
  unfold CompareProductAndSumBounds, is_negative, is_positive, negate.
  cbn [min_value max_value].
  destruct (Dh <? 0) eqn:EU; cbn [min_value max_value];
    rewrite ?NCl, ?NCh, ?NDl, ?NDh, ?Z.opp_involutive.
  all: match goal with
       | |- context [?f <? 0] => destruct (f <? 0) eqn:EF
       end; cbn [min_value max_value];
       rewrite ?NAl, ?NAh, ?NBl, ?NBh, ?NNCl, ?NNCh, ?NCl, ?NCh, ?Z.opp_involutive.
  all: match goal with
       | |- context [negb (?p1 && ?p2 && ?p3 && ?p4)] =>
           destruct (p1 && p2 && p3 && p4) eqn:EP; cbn [negb]; [|exact I]
       end.
  all: apply andb_prop in EP; destruct EP as [EP E4];
       apply andb_prop in EP; destruct EP as [EP E3];
       apply andb_prop in EP; destruct EP as [E1 E2];
       apply Z.ltb_lt in E1, E2, E3, E4.
  all: match goal with
       | |- context [negb ?r] => destruct r eqn:ER; cbn [negb]; [|exact I]
       end.
  all: apply Z.ltb_lt in EU || apply Z.ltb_ge in EU.
  all: apply Z.ltb_lt in EF || apply Z.ltb_ge in EF.
  - (* D negative, -C negative: A, B negative, C positive *)
    assert (K : (- a) * (- b) * (- d) < (- a + - b) * c).
    { eapply reciprocal_tests_sound; [| | | | | | | |exact ER]. all: lia. }
    cbn [CompareResult_holds]. nia.
  - (* D negative, C negative, A and B positive *)
    assert (K : a * b * (- d) < (a + b) * (- c)).
    { eapply reciprocal_tests_sound; [| | | | | | | |exact ER]; lia. }
    cbn [CompareResult_holds]. nia.
  - (* D positive, C negative: A, B negative *)
    assert (K : (- a) * (- b) * d < (- a + - b) * (- c)).
    { eapply reciprocal_tests_sound; [| | | | | | | |exact ER]; lia. }
    cbn [CompareResult_holds]. nia.
  - (* all positive *)
    assert (K : a * b * d < (a + b) * c).
    { eapply reciprocal_tests_sound; [| | | | | | | |exact ER]; lia. }
    cbn [CompareResult_holds]. nia.
Qed.

(** X12: the comparison on the four bounds is sound: for integers a, b,
    c, d inside the bounds of A, B, C, D it answers GT only when
    (a + b) * c > (a * b) * d and LT only when (a + b) * c < (a * b) * d,
    and nothing else but Unknown, provided the ends of the bounds are small
    enough for its 64-bit products not to wrap.  (D is the negated factor
    of the matched difference (A + B) * C + (A * B) * D.) *)
Theorem CompareProductAndSumBounds_sound :
  forall (A_bound B_bound C_bound D_bound : ConstIntBound) (a b c d : Z),
    in_bound a A_bound -> in_bound b B_bound ->
    in_bound c C_bound -> in_bound d D_bound ->
    small_bound A_bound -> small_bound B_bound -> small_bound D_bound ->
    small_or_open_bound C_bound ->
    CompareResult_holds (CompareProductAndSumBounds A_bound B_bound C_bound D_bound)
      ((a + b) * c) ((a * b) * d).
Proof.
  intros A_bound B_bound C_bound D_bound a b c d Ha Hb Hc Hd SA SB SD SC.
  apply product_sum_bounds_sound; assumption.
Qed.

Lemma CompareProductAndSumBounds_sound_witness :
  CompareResult_holds
    (CompareProductAndSumBounds (mkConstIntBound 1 4) (mkConstIntBound 1 4)
       (mkConstIntBound 8 kPosInf) (mkConstIntBound 2 2))
    ((3 + 4) * 9) ((3 * 4) * 2).
Proof.
  apply (@CompareProductAndSumBounds_sound (mkConstIntBound 1 4) (mkConstIntBound 1 4)
           (mkConstIntBound 8 kPosInf) (mkConstIntBound 2 2) 3 4 9 2).
  - vm_compute. split; discriminate.
  - vm_compute. split; discriminate.
  - vm_compute. split; discriminate.
  - vm_compute. split; discriminate.
  - vm_compute. split; discriminate.
  - vm_compute. split; discriminate.
  - vm_compute. split; discriminate.
  - split; [right; vm_compute; split; discriminate|left; reflexivity].
Defined.

(** Without the bound on the ends the products overflow (they wrap here):
    with A and B unbounded above the first test multiplies the
    representation of +inf by D and reads the wrapped product as small. *)
Lemma CompareProductAndSumBounds_wraps :
  CompareProductAndSumBounds (mkConstIntBound 1 kPosInf) (mkConstIntBound 1 kPosInf)
    (mkConstIntBound 1 1) (mkConstIntBound 2 2) = kGT /\
  ~ (10 + 10) * 1 > (10 * 10) * 2.
Proof. split; [vm_compute; reflexivity|lia]. Qed.

(** *** The product-and-sum comparison, from the matched difference *)

Lemma match_first_In :
  forall ps e env,
    match_first ps e = Some env -> exists p, In p ps /\ Match p e = Some env.
Proof.
  induction ps as [|p ps IH]; intros e env H; [discriminate|].
  cbn [match_first] in H. destruct (Match p e) as [env'|] eqn:E.
  - inversion H; subst. exists p. split; [left; reflexivity|exact E].
  - destruct (IH _ _ H) as (q & Hq & Hm). exists q. split; [right; exact Hq|exact Hm].
Qed.

(** The expressions a match binds are parts of the matched expression:
    their literals fit their types when its literals do. *)
Lemma Match_literals_in_range :
  forall p e env0 env,
    ring_pat p = true -> literals_in_range e = true ->
    (forall i v, env_get env0 i = Some v -> literals_in_range v = true) ->
    Match_ p e env0 = Some env ->
    forall i v, env_get env i = Some v -> literals_in_range v = true.
Proof.
  induction p as [k i|c|ref IHref cv|op p1 IHp1 p2 IHp2|p1 IHp1|p1 IHp1 p2 IHp2 p3 IHp3|p1 IHp1 p2 IHp2 p3 IHp3|p1 IHp1 p2 IHp2];
    intros e env0 env Hp He Henv HM; simpl in Hp; try discriminate.
  - assert (Hcons : forall j v, env_get ((i, e) :: env0) j = Some v ->
                                literals_in_range v = true).
    { intros j v Hj. cbn [env_get] in Hj. destruct (Nat.eqb j i).
      - inversion Hj; subst. exact He.
      - eapply Henv. exact Hj. }
    simpl in HM. unfold match_var in HM. destruct k; try discriminate.
    + destruct (env_get env0 i) as [v|].
      * destruct (ExprDeepEqual v e); [|discriminate]. inversion HM; subst. exact Henv.
      * inversion HM; subst. exact Hcons.
    + destruct e as [t0 v0| | | | | | | | | |]; try discriminate.
      destruct (env_get env0 i) as [v|].
      * destruct v as [t' m| | | | | | | | | |]; try discriminate.
        destruct (m =? v0); [|discriminate]. inversion HM; subst. exact Henv.
      * inversion HM; subst. exact Hcons.
  - simpl in HM. destruct e as [t0 v0| | | | | | | | | |]; try discriminate.
    destruct (v0 =? cv); [|discriminate]. inversion HM; subst. exact Henv.
  - simpl in HM. destruct e as [| | |op0 e1 e2| | | | | | |]; try discriminate.
    destruct (BinOp_eqb op op0); [|discriminate].
    apply andb_prop in Hp. destruct Hp as [Hp Hp2]. apply andb_prop in Hp.
    destruct Hp as [_ Hp1].
    cbn [literals_in_range] in He. apply andb_prop in He. destruct He as [He1 He2].
    destruct (Match_ p1 e1 env0) as [env1|] eqn:E1; [|discriminate].
    eapply IHp2; [exact Hp2|exact He2| |exact HM].
    eapply IHp1; [exact Hp1|exact He1|exact Henv|exact E1].
Qed.

(** The negation the code applies to the matched factor D. *)
Lemma den_mk_neg :
  forall rho e,
    ring_expr e = true -> literals_in_range e = true ->
    - 2 ^ 20 <= den rho (mk_neg e) <= 2 ^ 20 ->
    den rho (mk_neg e) = - den rho e.
Proof.
  intros rho e Hr Hl Hb.
  destruct e as [t v| |v|op a b| | | | | | |]; try discriminate.
  - cbn [mk_neg den] in *. cbn [ring_expr] in Hr. apply DataType_eqb_eq in Hr. subst t.
    cbn [literals_in_range] in Hl. apply Z.eqb_eq in Hl.
    change (wrap_dtype int32 (- v)) with (wrap_signed 32 (- v)) in *.
    change (wrap_dtype int32 v) with (wrap_signed 32 v) in Hl.
    unfold wrap_signed in *.
    change (2 ^ (32 - 1)) with 2147483648 in *.
    change (2 ^ 32) with 4294967296 in *.
    change (2 ^ 20) with 1048576 in Hb.
    pose proof (Z.mod_pos_bound (v + 2147483648) 4294967296 eq_refl) as B1.
    assert (Hv : -2147483648 <= v < 2147483648) by lia.
    destruct (Z.eq_dec v (-2147483648)) as [->|Hne].
    + exfalso. revert Hb. vm_compute. intros [H1 H2]. apply H1. reflexivity.
    + rewrite Z.mod_small by lia. lia.
  - cbn [mk_neg dtype]. cbn [ring_expr] in Hr. apply DataType_eqb_eq in Hr.
    rewrite Hr. reflexivity.
  - pose proof (ring_expr_dtype _ Hr) as Hd.
    unfold mk_neg. rewrite Hd. reflexivity.
Qed.

Lemma den_eval_var :
  forall rho env i,
    env_get env i <> None -> den rho (eval_var env i) = env_val rho env i.
Proof.
  intros rho env i H. unfold eval_var, env_val.
  destruct (env_get env i); [reflexivity|congruence].
Qed.

(** The four expressions read off the simplified difference give its
    value: diff = (A + B) * C - (A * B) * D over the integers. *)
Lemma opt_special_case_den :
  forall rho diff eA eB eC eD,
    ring_expr diff = true -> literals_in_range diff = true ->
    opt_special_case diff = Some (eA, eB, eC, eD) ->
    - 2 ^ 20 <= den rho eD <= 2 ^ 20 ->
    den rho diff
    = (den rho eA + den rho eB) * den rho eC - (den rho eA * den rho eB) * den rho eD.
Proof.
  intros rho diff eA eB eC eD Hr Hl H Hd. unfold opt_special_case in H.
  assert (Hnil : forall i v, env_get [] i = Some v -> literals_in_range v = true)
    by (intros i v Hi; discriminate).
  match type of H with
  | match match_first ?g1 diff with _ => _ end = _ =>
      destruct (match_first g1 diff) as [env|] eqn:E1
  end.
  - inversion H; subst; clear H.
    apply match_first_In in E1. destruct E1 as (p & Hp & Hm).
    assert (Hring : ring_pat p = true).
    { cbn [In] in Hp. destruct Hp as [<-|[<-|[<-|[<-|[]]]]]; reflexivity. }
    unfold Match in Hm.
    destruct (@Match_ring rho p diff [] env Hring Hr env_ring_nil Hm)
      as (Renv & _ & Hb & Hden).
    pose proof (@Match_literals_in_range p diff [] env Hring Hl Hnil Hm) as Lenv.
    assert (HA : env_get env iA <> None /\ env_get env iB <> None /\
                 env_get env iC <> None /\ env_get env iD <> None).
    { cbn [In] in Hp.
      destruct Hp as [<-|[<-|[<-|[<-|[]]]]];
        repeat split; apply Hb; cbn; tauto. }
    destruct HA as (BA & BB & BC & BD).
    assert (HD : den rho (mk_neg (eval_var env iD)) = - env_val rho env iD).
    { rewrite <- (@den_eval_var rho env iD BD).
      unfold eval_var in *. destruct (env_get env iD) as [vD|] eqn:ED; [|congruence].
      apply den_mk_neg; [eapply Renv; exact ED|eapply Lenv; exact ED|exact Hd]. }
    rewrite HD, (@den_eval_var rho env iA BA), (@den_eval_var rho env iB BB),
      (@den_eval_var rho env iC BC). rewrite Hden.
    cbn [In] in Hp.
    destruct Hp as [<-|[<-|[<-|[<-|[]]]]];
      cbn [pval ring_val pA pB pC pD]; ring.
  - match type of H with
    | match match_first ?g2 diff with _ => _ end = _ =>
        destruct (match_first g2 diff) as [env|] eqn:E2; [|discriminate]
    end.
    inversion H; subst; clear H.
    apply match_first_In in E2. destruct E2 as (p & Hp & Hm).
    assert (Hring : ring_pat p = true).
    { cbn [In] in Hp. destruct Hp as [<-|[<-|[<-|[<-|[]]]]]; reflexivity. }
    unfold Match in Hm.
    destruct (@Match_ring rho p diff [] env Hring Hr env_ring_nil Hm)
      as (Renv & _ & Hb & Hden).
    assert (HA : env_get env iA <> None /\ env_get env iB <> None /\
                 env_get env iC <> None).
    { cbn [In] in Hp.
      destruct Hp as [<-|[<-|[<-|[<-|[]]]]];
        repeat split; apply Hb; cbn; tauto. }
    destruct HA as (BA & BB & BC).
    rewrite (@den_eval_var rho env iA BA), (@den_eval_var rho env iB BB),
      (@den_eval_var rho env iC BC). rewrite Hden.
    cbn [In] in Hp.
    destruct Hp as [<-|[<-|[<-|[<-|[]]]]];
      cbn [pval ring_val pA pB pC pD den Integer]; ring.
Qed.

(** X13: the product-and-sum comparison is sound on the difference it
    matches: when the simplified difference x - y is an int32 expression
    over +, -, * whose literals fit, and the analyzer's bounds of the four
    matched expressions hold under a valuation and are small enough for the
    64-bit products not to overflow, an answer GT means that the difference
    is positive under that valuation and an answer LT that it is negative;
    there is no other answer than Unknown. *)
Theorem TryComparisonOfProductAndSum_sound :
  forall (A : Type) (an : Analyzer A) (visit : PrimExpr -> M A PrimExpr)
         (x y diff : PrimExpr) (rho : Valuation) (s s1 s' : State A)
         (r : CompareResult),
    visit (mk OSub x y) s = Ok (diff, s1) ->
    ring_expr diff = true ->
    literals_in_range diff = true ->
    (forall eA eB eC eD,
        opt_special_case diff = Some (eA, eB, eC, eD) ->
        in_bound (den rho eA) (const_int_bound an (analyzer_ s1) eA) /\
        in_bound (den rho eB) (const_int_bound an (analyzer_ s1) eB) /\
        in_bound (den rho eC) (const_int_bound an (analyzer_ s1) eC) /\
        in_bound (den rho eD) (const_int_bound an (analyzer_ s1) eD) /\
        small_bound (const_int_bound an (analyzer_ s1) eA) /\
        small_bound (const_int_bound an (analyzer_ s1) eB) /\
        small_bound (const_int_bound an (analyzer_ s1) eD) /\
        small_or_open_bound (const_int_bound an (analyzer_ s1) eC)) ->
    TryComparisonOfProductAndSum an visit x y s = Ok (r, s') ->
    CompareResult_holds r (den rho diff) 0.
Proof.
  intros A an visit x y diff rho s s1 s' r Hv Hr Hl Hor H.
  unfold TryComparisonOfProductAndSum, bind, get in H.
  destruct (negb (has_flag (enabled_extensions_ s) kComparisonOfProductAndSum)).
  { inversion H. exact I. }
  rewrite Hv in H.
  destruct (opt_special_case diff) as [[[[eA eB] eC] eD]|] eqn:E;
    [|inversion H; exact I].
  destruct (Hor eA eB eC eD eq_refl) as (IA & IB & IC & ID & SA & SB & SD & SC).
  unfold ret in H. inversion H; subst r s'; clear H.
  assert (Hd : - 2 ^ 20 <= den rho eD <= 2 ^ 20).
  { unfold in_bound, small_bound in *. lia. }
  rewrite (@opt_special_case_den rho diff eA eB eC eD Hr Hl E Hd).
  pose proof (@product_sum_bounds_sound _ _ _ _ _ _ _ _ IA IB IC ID SA SB SD SC) as K.
  destruct (CompareProductAndSumBounds _ _ _ _); cbn [CompareResult_holds] in *; lia.
Qed.

Lemma TryComparisonOfProductAndSum_sound_witness :
  CompareResult_holds kGT
    (den (fun v => if String.eqb (name_hint v) "C" then 9 else 3)
       (Add (Mul (Add eA eB) eC) (Mul (Mul eA eB) (i32 (-2)))))
    0.
Proof.
  apply (@TryComparisonOfProductAndSum_sound _ table_analyzer (VisitExpr table_analyzer 20)
           product_sum_x product_sum_y
           (Add (Mul (Add eA eB) eC) (Mul (Mul eA eB) (i32 (-2))))
           (fun v => if String.eqb (name_hint v) "C" then 9 else 3)
           product_sum_state product_sum_state product_sum_state kGT).
  - vm_compute. reflexivity.
  - reflexivity.
  - reflexivity.
  - intros a b c d H. vm_compute in H. inversion H; subst.
    vm_compute. repeat split; try discriminate;
      [right; split; discriminate|left; reflexivity].
  - vm_compute. reflexivity.
Defined.

(** ** Calls *)

Lemma testbit_top :
  forall v i, 0 <= i -> 0 <= v < 2 ^ (i + 1) ->
              Z.testbit v i = (2 ^ i <=? v).
Proof.
  intros v i Hi Hv.
  assert (Hp : 0 < 2 ^ i) by (apply Z.pow_pos_nonneg; lia).
  assert (Hs : 2 ^ (i + 1) = 2 * 2 ^ i) by (rewrite Z.pow_add_r by lia; lia).
  destruct (2 ^ i <=? v) eqn:E.
  - apply Z.leb_le in E. apply Z.testbit_true; [lia|].
    assert (v / 2 ^ i = 1).
    { symmetry. apply (Z.div_unique v (2 ^ i) 1 (v - 2 ^ i)); lia. }
    rewrite H. reflexivity.
  - apply Z.leb_gt in E. apply Z.testbit_false; [lia|].
    rewrite Z.div_small by lia. reflexivity.
Qed.

(** The scan from the highest bit finds the position of the leading one. *)
Lemma clz_scan_spec :
  forall bits_ n v,
    0 < v < 2 ^ Z.of_nat n ->
    clz_scan bits_ n v = Some (bits_ - Z.log2 v - 1).
Proof.
  intros bits_. induction n as [|i IH]; intros v Hv.
  - simpl in Hv. lia.
  - cbn [clz_scan]. rewrite testbit_top; [|lia|].
    2:{ rewrite Nat2Z.inj_succ, <- Z.add_1_r in Hv. lia. }
    destruct (2 ^ Z.of_nat i <=? v) eqn:E.
    + apply Z.leb_le in E.
      rewrite (Z.log2_unique v (Z.of_nat i)); [reflexivity|lia|].
      rewrite Nat2Z.inj_succ in Hv. unfold Z.succ in *. lia.
    + apply Z.leb_gt in E. apply IH. lia.
Qed.

(** X14: a call of [tir.clz] on an integer literal [v] of a [bits]-wide
    type folds to a literal of the call's type: [bits] when [v] is zero and
    [bits - 1 - log2 v], the number of leading zeros, when
    [0 < v < 2 ^ bits]. *)
Theorem VisitExpr_clz_literal :
  forall (A : Type) (an : Analyzer A) (fuel : nat) (t arg_t : DataType) (v : Z)
         (s : State A),
    0 <= v < 2 ^ bits arg_t ->
    VisitExpr an (S (S fuel)) (Call t op_clz [IntImm arg_t v]) s
    = Ok (if v =? 0 then make_const t (bits arg_t)
          else IntImm t (bits arg_t - Z.log2 v - 1), s).
Proof.
  intros A an fuel t arg_t v s Hv.
  assert (Hbits : 0 <= bits arg_t).
  { destruct (Z.ltb_spec (bits arg_t) 0) as [H|H]; [|exact H].
    rewrite Z.pow_neg_r in Hv by exact H. lia. }
  change (VisitExpr an (S (S fuel)) (Call t op_clz [IntImm arg_t v]) s)
    with ((if v =? 0 then ret (make_const t (bits arg_t))
           else match clz_scan (bits arg_t) (Z.to_nat (bits arg_t)) v with
                | Some r => ret (IntImm t r)
                | None => trap
                end) s).
  destruct (v =? 0) eqn:E; [reflexivity|]. apply Z.eqb_neq in E.
  rewrite clz_scan_spec; [reflexivity|]. rewrite Z2Nat.id by exact Hbits. lia.
Qed.

Lemma VisitExpr_clz_literal_witness :
  VisitExpr table_analyzer 2 (Call int32 op_clz [IntImm int32 40]) (initial_state [])
  = Ok (if 40 =? 0 then make_const int32 (bits int32)
        else IntImm int32 (bits int32 - Z.log2 40 - 1), initial_state []).
Proof.
  apply (@VisitExpr_clz_literal _ table_analyzer 0 int32 int32 40 (initial_state [])).
  vm_compute. split; [discriminate|reflexivity].
Defined.

(** ** Min and Max of equal operands *)

Lemma IsIndexType_not_vector :
  forall t, IsIndexType t = true -> is_scalable_or_fixed_length_vector t = false.
Proof.
  intros t H. unfold IsIndexType in H.
  destruct (is_scalable_or_fixed_length_vector t); [|reflexivity].
  rewrite andb_false_r in H. discriminate.
Qed.

Lemma TryConstFold_same :
  forall op v r,
    op = OMin \/ op = OMax ->
    TryConstFold op v v = Some r -> r = v.
Proof.
  intros op v r Hop H. unfold TryConstFold in H.
  destruct v; try discriminate;
    rewrite (proj2 (DataType_eqb_eq t t) eq_refl) in H; simpl in H;
    destruct Hop; subst op; inversion H.
  - rewrite Z.min_id. reflexivity.
  - rewrite Z.max_id. reflexivity.
  - unfold float_min. destruct (PrimFloat.ltb value value); reflexivity.
  - unfold float_max. destruct (PrimFloat.ltb value value); reflexivity.
Qed.

Section SameOperands.
Context {A : Type}.
Variable an : Analyzer A.
Variable visit : PrimExpr -> M A PrimExpr.

Lemma apply_rule_same :
  forall op v (s : State A),
    apply_rule an visit (TVM_TRY_REWRITE [PBin op x x] x) (Bin op v v) s
    = Ok (Some v, s).
Proof.
  intros op v s.
  unfold apply_rule, bind, x. cbn [match_one_of]. unfold Match. cbn [Match_].
  rewrite (proj2 (BinOp_eqb_eq op op) eq_refl).
  cbn [Match_ match_var env_get Nat.eqb ix].
  rewrite ExprDeepEqual_refl. unfold bind, ret.
  cbn [Eval env_get lift Nat.eqb ix]. reflexivity.
Qed.

End SameOperands.

(** X15: two operands of an index type that simplify to the same
    expression make a [min] and a [max] that simplify to that expression:
    the literals fold, and for the others min(x, x) -> x and
    max(x, x) -> x are the first rules tried. *)
Theorem VisitExpr_Min_Max_same :
  forall (A : Type) (an : Analyzer A) (fuel : nat) (a b v : PrimExpr)
         (s s1 s2 : State A),
    VisitExpr an fuel a s = Ok (v, s1) ->
    VisitExpr an fuel b s1 = Ok (v, s2) ->
    IsIndexType (dtype v) = true ->
    VisitExpr an (S fuel) (Min a b) s = Ok (v, s2) /\
    VisitExpr an (S fuel) (Max a b) s = Ok (v, s2).
Proof.
  intros A an fuel a b v s s1 s2 Ha Hb Hidx.
  pose proof (IsIndexType_not_vector _ Hidx) as Hvec.
  split; cbn [VisitExpr].
  - unfold VisitExpr_Min, Mutate_Binary, bind. rewrite Ha, Hb. unfold ret at 1.
    destruct (TryConstFold OMin v v) as [r|] eqn:E.
    + apply TryConstFold_same in E; [|left; reflexivity]. subst r. reflexivity.
    + cbn [dtype is_compare is_logical orb]. rewrite Hvec, Hidx.
      unfold Min_index_rules. cbn [when app apply_rules]. unfold bind at 1.
      pose proof (apply_rule_same an (VisitExpr an fuel) OMin v s2) as R.
      change (PBin OMin x x) with (min x x) in R. rewrite R. reflexivity.
  - unfold VisitExpr_Max, Mutate_Binary, bind. rewrite Ha, Hb. unfold ret at 1.
    destruct (TryConstFold OMax v v) as [r|] eqn:E.
    + apply TryConstFold_same in E; [|right; reflexivity]. subst r. reflexivity.
    + cbn [dtype is_compare is_logical orb]. rewrite Hvec, Hidx.
      unfold Max_index_rules. cbn [when app apply_rules]. unfold bind at 1.
      pose proof (apply_rule_same an (VisitExpr an fuel) OMax v s2) as R.
      change (PBin OMax x x) with (max x x) in R. rewrite R. reflexivity.
Qed.

Lemma VisitExpr_Min_Max_same_witness :
  VisitExpr table_analyzer 11
    (Min (Sub (Add (ivar "x") (ivar "y")) (ivar "y")) (ivar "x")) (initial_state [])
  = Ok (ivar "x", initial_state []) /\
  VisitExpr table_analyzer 11
    (Max (Sub (Add (ivar "x") (ivar "y")) (ivar "y")) (ivar "x")) (initial_state [])
  = Ok (ivar "x", initial_state []).
Proof.
  apply (@VisitExpr_Min_Max_same _ table_analyzer 10
           (Sub (Add (ivar "x") (ivar "y")) (ivar "y")) (ivar "x") (ivar "x")
           (initial_state []) (initial_state []) (initial_state [])).
  - vm_compute. reflexivity.
  - vm_compute. reflexivity.
  - vm_compute. reflexivity.
Defined.

(** ** Floored division and modulus by the literal zero *)

(** X16: a floored division or modulus of integer literals by the literal
    zero never fails: [floormod(c, 0)] is returned as it is for every [c]
    and [floordiv(c, 0)] for every [c] but zero, while [floordiv(0, 0)] is
    rewritten to 1 by the rule x // x -> 1. *)
Theorem VisitExpr_FloorDiv_FloorMod_by_zero_literal :
  forall (A : Type) (an : Analyzer A) (fuel : nat) (c : Z) (s : State A),
    VisitExpr an (S (S fuel)) (FloorMod (IntImm int32 c) (IntImm int32 0)) s
    = Ok (FloorMod (IntImm int32 c) (IntImm int32 0), s) /\
    VisitExpr an (S (S fuel)) (FloorDiv (IntImm int32 c) (IntImm int32 0)) s
    = Ok (if c =? 0 then IntImm int32 1
          else FloorDiv (IntImm int32 c) (IntImm int32 0), s).
Proof.
  intros A an fuel c s. split.
  - change (VisitExpr an (S (S fuel)) (FloorMod (IntImm int32 c) (IntImm int32 0)))
      with (VisitExpr_FloorMod an (VisitExpr an (S fuel)) (IntImm int32 c) (IntImm int32 0)).
    unfold VisitExpr_FloorMod, bind.
    rewrite (@Mutate_Binary_unchanged _ _ OFloorMod _ _ (IntImm int32 c) (IntImm int32 0));
      [| reflexivity | reflexivity].
    destruct c; vm_compute; reflexivity.
  - change (VisitExpr an (S (S fuel)) (FloorDiv (IntImm int32 c) (IntImm int32 0)))
      with (VisitExpr_FloorDiv an (VisitExpr an (S fuel)) (IntImm int32 c) (IntImm int32 0)).
    unfold VisitExpr_FloorDiv, bind.
    rewrite (@Mutate_Binary_unchanged _ _ OFloorDiv _ _ (IntImm int32 c) (IntImm int32 0));
      [| reflexivity | reflexivity].
    destruct c; vm_compute; reflexivity.
Qed.

(** ** Truncated modulus by the literal zero *)

(** A literal divisor is what the literal variable of the pattern is bound
    to, whatever the pattern of the dividend binds. *)
Lemma Match_divisor_literal :
  forall op pa i a t v env,
    Match (PBin op pa (PVar IntLit i)) (Bin op a (IntImm t v)) = Some env ->
    ival env i = v.
Proof.
  intros op pa i a t v env H. unfold Match in H. cbn [Match_] in H.
  destruct (BinOp_eqb op op); [|discriminate].
  destruct (Match_ pa a []) as [env1|]; [|discriminate].
  cbn [Match_ match_var] in H. unfold ival.
  destruct (env_get env1 i) as [e|] eqn:E.
  - destruct e; try discriminate.
    destruct (value =? v) eqn:Ev; [|discriminate].
    inversion H; subst. rewrite E. apply Z.eqb_eq. exact Ev.
  - inversion H; subst. cbn [env_get]. rewrite Nat.eqb_refl. reflexivity.
Qed.

Section ModByZero.
Context {A : Type}.
Variable an : Analyzer A.
Variable visit : PrimExpr -> M A PrimExpr.

(** A guarded rule whose guard is false on every match does not fire. *)
Lemma guarded_rule_declines :
  forall p res (cond : Env -> M A bool) e (s : State A),
    (forall env, Match p e = Some env -> cond env s = Ok (false, s)) ->
    apply_rule an visit (TVM_TRY_REWRITE_IF [p] res cond) e s = Ok (None, s).
Proof.
  intros p res cond e s H. unfold apply_rule, bind. cbn [match_one_of].
  destruct (Match p e) as [env|] eqn:E; [|reflexivity].
  unfold bind. rewrite (H env eq_refl). reflexivity.
Qed.

Lemma c_and_false :
  forall (g : Env -> bool) (rest : Env -> M A bool) env (s : State A),
    g env = false -> c_and (pure_cond g) rest env s = Ok (false, s).
Proof.
  intros g rest env s H. unfold c_and, andM, pure_cond, bind, ret. rewrite H.
  reflexivity.
Qed.

Lemma Mod_index_rules_by_zero :
  forall op_dtype a t (s : State A),
    apply_rules an visit (Mod_index_rules an visit op_dtype) (Mod a (IntImm t 0)) s
    = Trap.
Proof.
  intros op_dtype a t s. unfold Mod_index_rules.
  rewrite apply_rules_skip.
  2:{ apply guarded_rule_declines. intros env H. unfold pure_cond, ret.
      apply Match_divisor_literal in H. unfold c2v. rewrite H. reflexivity. }
  rewrite apply_rules_skip.
  2:{ apply guarded_rule_declines. intros env H.
      apply Match_divisor_literal in H.
      unfold c_and at 1. unfold andM, bind.
      rewrite c_and_false; [reflexivity|]. unfold c2v. rewrite H. reflexivity. }
  rewrite apply_rules_skip.
  2:{ apply guarded_rule_declines. intros env H.
      apply Match_divisor_literal in H.
      apply c_and_false. unfold c2v. rewrite H. reflexivity. }
  rewrite apply_rules_skip.
  2:{ apply guarded_rule_declines. intros env H.
      apply Match_divisor_literal in H.
      unfold c_and at 1. unfold andM, bind.
      rewrite c_and_false; [reflexivity|]. unfold c2v. rewrite H. reflexivity. }
  rewrite apply_rules_skip; [|reflexivity].
  reflexivity.
Qed.

End ModByZero.

Lemma TryConstFold_by_zero :
  forall op a t,
    op = OMod \/ op = ODiv \/ op = OFloorMod \/ op = OFloorDiv ->
    TryConstFold op a (IntImm t 0) = None.
Proof.
  intros op a t Hop. unfold TryConstFold.
  destruct a; try reflexivity.
  destruct (negb (DataType_eqb t0 t)); [reflexivity|].
  destruct Hop as [-> | [-> | [-> | ->]]]; reflexivity.
Qed.

(** X17: a truncated modulus by the integer literal zero crashes the
    simplifier whatever the dividend: once the dividend is simplified to an
    expression of an index type, the modular-set rule computes
    [mod->coeff % c1val] before it tests [c1val > 0]. *)
Theorem VisitExpr_Mod_by_zero_traps :
  forall (A : Type) (an : Analyzer A) (fuel : nat) (a a' : PrimExpr) (t : DataType)
         (s s1 : State A),
    VisitExpr an fuel a s = Ok (a', s1) ->
    IsIndexType (dtype a') = true ->
    VisitExpr an (S fuel) (Mod a (IntImm t 0)) s = Trap.
Proof.
  intros A an fuel a a' t s s1 Ha Hidx.
  assert (Hlit : VisitExpr an fuel (IntImm t 0) s1 = Ok (IntImm t 0, s1)).
  { destruct fuel; [discriminate|reflexivity]. }
  cbn [VisitExpr]. unfold VisitExpr_Mod, Mutate_Binary, bind.
  rewrite Ha, Hlit. unfold ret at 1.
  rewrite TryConstFold_by_zero by (left; reflexivity).
  cbn [dtype is_compare is_logical orb].
  rewrite (IsIndexType_not_vector _ Hidx), Hidx. cbn [when app].
  apply Mod_index_rules_by_zero.
Qed.

Lemma VisitExpr_Mod_by_zero_traps_witness :
  VisitExpr table_analyzer 3 (Mod (Add (ivar "x") (ivar "y")) (IntImm int32 0))
    (initial_state [])
  = Trap.
Proof.
  apply (@VisitExpr_Mod_by_zero_traps _ table_analyzer 2
           (Add (ivar "x") (ivar "y")) (Add (ivar "x") (ivar "y")) int32
           (initial_state []) (initial_state [])).
  - vm_compute. reflexivity.
  - vm_compute. reflexivity.
Defined.

(** ** A difference of equal operands *)

Lemma Bin_neq_left : forall op p q, Bin op p q <> p.
Proof. intros op p q H. apply (f_equal size) in H. simpl in H. lia. Qed.

Lemma Bin_neq_right : forall op p q, Bin op p q <> q.
Proof. intros op p q H. apply (f_equal size) in H. simpl in H. lia. Qed.

Lemma neq_Bin_left : forall op p q, p <> Bin op p q.
Proof. intros op p q H. symmetry in H. exact (Bin_neq_left H). Qed.

Lemma neq_Bin_right : forall op p q, q <> Bin op p q.
Proof. intros op p q H. symmetry in H. exact (Bin_neq_right H). Qed.

(** A pattern that asks an operand to equal one of its own proper
    subterms does not match a difference of equal operands. *)
Ltac refute_self_match v :=
  unfold Match; cbn [Match_];
  destruct v as [? ?|? ?|?|op p q|?|? ? ?|? ? ?|? ?|? ?|? ? ?|? ? ?];
  try reflexivity;
  destruct op; try reflexivity;
  cbn [Match_ match_var env_get Nat.eqb BinOp_eqb
       PatternNotations.x PatternNotations.y PatternNotations.ix PatternNotations.iy
       PatternNotations.min PatternNotations.max];
  rewrite ?(ExprDeepEqual_false (@Bin_neq_left _ _ _)),
          ?(ExprDeepEqual_false (@Bin_neq_right _ _ _)),
          ?(ExprDeepEqual_false (@neq_Bin_left _ _ _)),
          ?(ExprDeepEqual_false (@neq_Bin_right _ _ _));
  try reflexivity.

Section SubSame.
Context {A : Type}.
Variable an : Analyzer A.
Variable visit : PrimExpr -> M A PrimExpr.

Lemma unguarded_rule_declines :
  forall src res e (s : State A),
    Forall (fun p => Match p e = None) src ->
    apply_rule an visit (TVM_TRY_REWRITE src res) e s = Ok (None, s).
Proof.
  intros src res e s H. unfold apply_rule, bind.
  assert (E : match_one_of src e (fun _ : Env => @ret A bool true) s = Ok (None, s)).
  { induction H as [|p src Hp _ IH]; [reflexivity|].
    cbn [match_one_of]. rewrite Hp. exact IH. }
  rewrite E. reflexivity.
Qed.

Lemma Sub_index_rules_same :
  forall rest v (s : State A),
    apply_rules an visit (Sub_index_rules an visit ++ rest) (Sub v v) s
    = Ok (make_const (dtype v) 0, s).
Proof.
  intros rest v s. unfold Sub_index_rules. cbn [app].
  do 6 (rewrite apply_rules_skip;
        [|apply unguarded_rule_declines;
          repeat (apply Forall_cons; [refute_self_match v|]); apply Forall_nil]).
  cbn [apply_rules]. unfold bind at 1.
  assert (R : apply_rule an visit (TVM_TRY_REWRITE [(x - x)%pat] (ZeroWithTypeLike x))
                (Sub v v) s = Ok (Some (make_const (dtype v) 0), s)).
  { unfold apply_rule, bind, x. cbn [match_one_of]. unfold Match.
    cbn [Match_ BinOp_eqb match_var env_get Nat.eqb ix].
    rewrite ExprDeepEqual_refl. unfold bind, ret, ZeroWithTypeLike.
    cbn [Eval env_get lift Nat.eqb ix res_bind]. reflexivity. }
  rewrite R. reflexivity.
Qed.

End SubSame.

(** X18: two operands of a scalar index type that simplify to the same
    expression (no float literal) make a difference that simplifies to the
    literal zero of their type: integer literals fold, and for the others
    none of the cancelation rules tried before x - x -> 0 can match, each
    of them asking an operand to equal a proper part of itself. *)
Theorem VisitExpr_Sub_same :
  forall (A : Type) (an : Analyzer A) (fuel : nat) (a b v : PrimExpr)
         (s s1 s2 : State A),
    VisitExpr an fuel a s = Ok (v, s1) ->
    VisitExpr an fuel b s1 = Ok (v, s2) ->
    IsIndexType (dtype v) = true ->
    lanes (dtype v) = 1 ->
    (forall t c, v <> FloatImm t c) ->
    VisitExpr an (S fuel) (Sub a b) s = Ok (IntImm (dtype v) 0, s2).
Proof.
  intros A an fuel a b v s s1 s2 Ha Hb Hidx Hlanes Hfloat.
  pose proof (IsIndexType_not_vector _ Hidx) as Hvec.
  assert (Hint : code (dtype v) = kInt).
  { unfold IsIndexType, is_int in Hidx. destruct (code (dtype v)); try discriminate.
    reflexivity. }
  assert (Hzero : make_const (dtype v) 0 = IntImm (dtype v) 0).
  { unfold make_const, MakeConstScalar. rewrite Hlanes, Hint. reflexivity. }
  cbn [VisitExpr]. unfold VisitExpr_Sub, Mutate_Binary, bind. rewrite Ha, Hb.
  unfold ret at 1.
  destruct (TryConstFold OSub v v) as [r|] eqn:E.
  - unfold TryConstFold in E. destruct v; try discriminate; cbn [dtype] in *;
      rewrite (proj2 (DataType_eqb_eq t t) eq_refl) in E; cbn [negb] in E;
      inversion E; subst r.
    + rewrite Z.sub_diag. unfold wrap_dtype. rewrite Hint.
      destruct (0 <? bits t) eqn:Eb; [|reflexivity].
      unfold wrap_signed. rewrite Z.add_0_l.
      assert (Hw : 0 < Z.min (bits t) 64) by (apply Z.ltb_lt in Eb; lia).
      assert (Hp : 0 < 2 ^ (Z.min (bits t) 64 - 1)) by (apply Z.pow_pos_nonneg; lia).
      assert (Hlt : 2 ^ (Z.min (bits t) 64 - 1) < 2 ^ Z.min (bits t) 64)
        by (apply Z.pow_lt_mono_r; lia).
      rewrite Z.mod_small by lia. rewrite Z.sub_diag. reflexivity.
    + exfalso. exact (Hfloat _ _ eq_refl).
  - cbn [dtype is_compare is_logical orb]. rewrite Hvec, Hidx. cbn [when app].
    rewrite Sub_index_rules_same. rewrite Hzero. reflexivity.
Qed.

Lemma VisitExpr_Sub_same_witness :
  VisitExpr table_analyzer 11
    (Sub (Min (ivar "x") (ivar "y")) (Min (ivar "x") (ivar "y"))) (initial_state [])
  = Ok (IntImm (dtype (Min (ivar "x") (ivar "y"))) 0, initial_state []).
Proof.
  apply (@VisitExpr_Sub_same _ table_analyzer 10
           (Min (ivar "x") (ivar "y")) (Min (ivar "x") (ivar "y"))
           (Min (ivar "x") (ivar "y"))
           (initial_state []) (initial_state []) (initial_state [])).
  - vm_compute. reflexivity.
  - vm_compute. reflexivity.
  - vm_compute. reflexivity.
  - reflexivity.
  - intros t c H. discriminate.
Defined.

(** ** A quotient of equal operands *)

Lemma Match_literal_divisor_none :
  forall op pa i op' a v,
    (forall t c, v <> IntImm t c) ->
    Match (PBin op pa (PVar IntLit i)) (Bin op' a v) = None.
Proof.
  intros op pa i op' a v Hv. unfold Match. cbn [Match_].
  destruct (BinOp_eqb op op'); [|reflexivity].
  destruct (Match_ pa a []) as [env|]; [|reflexivity].
  cbn [Match_ match_var]. destruct v; try reflexivity.
  exfalso. exact (Hv _ _ eq_refl).
Qed.

Section QuotientSame.
Context {A : Type}.
Variable an : Analyzer A.
Variable visit : PrimExpr -> M A PrimExpr.

Lemma hand_written_rule_declines :
  forall src body e (s : State A),
    Forall (fun p => Match p e = None) src ->
    apply_rule an visit (TRY_MATCH src body) e s = Ok (None, s).
Proof.
  intros src body e s H. unfold apply_rule.
  assert (E : match_first src e = None).
  { induction H as [|p src Hp _ IH]; [reflexivity|].
    cbn [match_first]. rewrite Hp. exact IH. }
  rewrite E. reflexivity.
Qed.

Lemma guarded_rule_no_match :
  forall p res (cond : Env -> M A bool) e (s : State A),
    Match p e = None ->
    apply_rule an visit (TVM_TRY_REWRITE_IF [p] res cond) e s = Ok (None, s).
Proof.
  intros p res cond e s H. apply guarded_rule_declines.
  intros env He. rewrite H in He. discriminate.
Qed.

Lemma quotient_rule_fires :
  forall op v (s : State A),
    apply_rule an visit (TVM_TRY_REWRITE [PBin op x x] (OneWithTypeLike x)) (Bin op v v) s
    = Ok (Some (make_const (dtype v) 1), s).
Proof.
  intros op v s. unfold apply_rule, bind, x. cbn [match_one_of]. unfold Match.
  cbn [Match_]. rewrite (proj2 (BinOp_eqb_eq op op) eq_refl).
  cbn [Match_ match_var env_get Nat.eqb ix].
  rewrite ExprDeepEqual_refl. unfold bind, ret, OneWithTypeLike.
  cbn [Eval env_get lift Nat.eqb ix res_bind]. reflexivity.
Qed.

Variable v : PrimExpr.
Hypothesis Hint : forall t c, v <> IntImm t c.

Lemma Div_index_rules_same :
  forall op_dtype (s : State A),
    apply_rules an visit (Div_index_rules an op_dtype) (Div v v) s
    = Ok (make_const (dtype v) 1, s).
Proof.
  intros op_dtype s. unfold Div_index_rules.
  rewrite apply_rules_skip.
  2:{ apply hand_written_rule_declines. apply Forall_cons; [|apply Forall_nil].
      apply Match_literal_divisor_none. exact Hint. }
  rewrite apply_rules_skip.
  2:{ apply guarded_rule_no_match. apply Match_literal_divisor_none. exact Hint. }
  rewrite apply_rules_skip.
  2:{ apply guarded_rule_no_match. apply Match_literal_divisor_none. exact Hint. }
  rewrite apply_rules_skip.
  2:{ apply hand_written_rule_declines. apply Forall_cons; [|apply Forall_nil].
      apply Match_literal_divisor_none. exact Hint. }
  cbn [apply_rules]. unfold bind at 1.
  pose proof (quotient_rule_fires ODiv v s) as R.
  change (PBin ODiv x x) with (truncdiv x x) in R. rewrite R. reflexivity.
Qed.

Lemma FloorDiv_index_rules_same :
  forall ret_ (s : State A),
    apply_rules an visit (FloorDiv_index_rules an visit ret_) (FloorDiv v v) s
    = Ok (make_const (dtype v) 1, s).
Proof.
  intros ret_ s. unfold FloorDiv_index_rules.
  rewrite apply_rules_skip.
  2:{ apply guarded_rule_no_match. apply Match_literal_divisor_none. exact Hint. }
  rewrite apply_rules_skip.
  2:{ apply guarded_rule_no_match. apply Match_literal_divisor_none. exact Hint. }
  rewrite apply_rules_skip.
  2:{ apply hand_written_rule_declines.
      repeat (apply Forall_cons; [apply Match_literal_divisor_none; exact Hint|]).
      apply Forall_nil. }
  cbn [apply_rules]. unfold bind at 1.
  pose proof (quotient_rule_fires OFloorDiv v s) as R.
  change (PBin OFloorDiv x x) with (floordiv x x) in R. rewrite R. reflexivity.
Qed.

End QuotientSame.

(** X19: two operands of a scalar index type that simplify to the same
    expression, no literal, make a truncated and a floored quotient that
    simplify to the literal one: x / x -> 1 and floordiv(x, x) -> 1 are
    reached, no rule before them matching a divisor that is not a literal,
    and they are applied without asking whether x can be zero. *)
Theorem VisitExpr_Div_FloorDiv_same :
  forall (A : Type) (an : Analyzer A) (fuel : nat) (a b v : PrimExpr)
         (s s1 s2 : State A),
    VisitExpr an fuel a s = Ok (v, s1) ->
    VisitExpr an fuel b s1 = Ok (v, s2) ->
    IsIndexType (dtype v) = true ->
    lanes (dtype v) = 1 ->
    is_const_number v = false ->
    VisitExpr an (S fuel) (Div a b) s = Ok (IntImm (dtype v) 1, s2) /\
    VisitExpr an (S fuel) (FloorDiv a b) s = Ok (IntImm (dtype v) 1, s2).
Proof.
  intros A an fuel a b v s s1 s2 Ha Hb Hidx Hlanes Hconst.
  pose proof (IsIndexType_not_vector _ Hidx) as Hvec.
  assert (Hint : forall t c, v <> IntImm t c).
  { intros t c ->. discriminate. }
  assert (Hcode : code (dtype v) = kInt).
  { unfold IsIndexType, is_int in Hidx. destruct (code (dtype v)); try discriminate.
    reflexivity. }
  assert (Hone : make_const (dtype v) 1 = IntImm (dtype v) 1).
  { unfold make_const, MakeConstScalar. rewrite Hlanes, Hcode. reflexivity. }
  assert (Hfold : forall op, TryConstFold op v v = None).
  { intro op. unfold TryConstFold. destruct v; try reflexivity; discriminate. }
  split; cbn [VisitExpr].
  - unfold VisitExpr_Div, Mutate_Binary, bind. rewrite Ha, Hb. unfold ret at 1.
    rewrite Hfold.
    assert (Hrules :
      apply_rules an (VisitExpr an fuel)
        (when (is_scalable_or_fixed_length_vector (dtype (Div v v)))
           (Div_vector_rules an) ++
         when (IsIndexType (dtype (Div v v)))
           (Div_index_rules an (dtype (Div v v))))
        (Div v v) s2 = Ok (IntImm (dtype v) 1, s2)).
    { cbn [dtype is_compare is_logical orb]. rewrite Hvec, Hidx. cbn [when app].
      rewrite (Div_index_rules_same an (VisitExpr an fuel) Hint). rewrite Hone.
      reflexivity. }
    destruct v; try exact Hrules. discriminate.
  - unfold VisitExpr_FloorDiv, Mutate_Binary, bind. rewrite Ha, Hb. unfold ret at 1.
    rewrite Hfold.
    cbn [dtype is_compare is_logical orb]. rewrite Hvec, Hidx. cbn [when app].
    rewrite (FloorDiv_index_rules_same an (VisitExpr an fuel) Hint). rewrite Hone.
    reflexivity.
Qed.

Lemma VisitExpr_Div_FloorDiv_same_witness :
  VisitExpr table_analyzer 11 (Div (ivar "x") (ivar "x")) (initial_state [])
  = Ok (IntImm (dtype (ivar "x")) 1, initial_state []) /\
  VisitExpr table_analyzer 11 (FloorDiv (ivar "x") (ivar "x")) (initial_state [])
  = Ok (IntImm (dtype (ivar "x")) 1, initial_state []).
Proof.
  apply (@VisitExpr_Div_FloorDiv_same _ table_analyzer 10
           (ivar "x") (ivar "x") (ivar "x")
           (initial_state []) (initial_state []) (initial_state [])).
  - vm_compute. reflexivity.
  - vm_compute. reflexivity.
  - vm_compute. reflexivity.
  - reflexivity.
  - reflexivity.
Defined.

(** ** Truncated modulus by a divisor that is no literal *)

Section ModSymbolic.
Context {A : Type}.
Variable an : Analyzer A.
Variable visit : PrimExpr -> M A PrimExpr.

Lemma Mod_index_rules_symbolic :
  forall op_dtype a b (s : State A),
    (forall t c, b <> IntImm t c) ->
    apply_rules an visit (Mod_index_rules an visit op_dtype) (Mod a b) s
    = Ok (Mod a b, s).
Proof.
  intros op_dtype a b s Hb. unfold Mod_index_rules.
  do 4 (rewrite apply_rules_skip;
        [|apply guarded_rule_no_match; apply Match_literal_divisor_none; exact Hb]).
  do 2 (rewrite apply_rules_skip;
        [|apply hand_written_rule_declines; apply Forall_cons; [|apply Forall_nil];
          apply Match_literal_divisor_none; exact Hb]).
  reflexivity.
Qed.

End ModSymbolic.

(** X20: a truncated modulus of an index type whose divisor does not
    simplify to an integer literal is never rewritten: every rule of the
    visitor asks for a literal divisor, and the node is rebuilt from the
    simplified operands. *)
Theorem VisitExpr_Mod_symbolic_divisor :
  forall (A : Type) (an : Analyzer A) (fuel : nat) (a b a' b' : PrimExpr)
         (s s1 s2 : State A),
    VisitExpr an fuel a s = Ok (a', s1) ->
    VisitExpr an fuel b s1 = Ok (b', s2) ->
    IsIndexType (dtype a') = true ->
    (forall t c, b' <> IntImm t c) ->
    VisitExpr an (S fuel) (Mod a b) s = Ok (Mod a' b', s2).
Proof.
  intros A an fuel a b a' b' s s1 s2 Ha Hb Hidx Hlit.
  cbn [VisitExpr]. unfold VisitExpr_Mod, Mutate_Binary, bind. rewrite Ha, Hb.
  unfold ret at 1.
  assert (Hfold : TryConstFold OMod a' b' = None).
  { unfold TryConstFold. destruct a'; try reflexivity;
      destruct b'; try reflexivity;
      [exfalso; exact (Hlit _ _ eq_refl)|destruct (negb _); reflexivity]. }
  rewrite Hfold. cbn [dtype is_compare is_logical orb].
  rewrite (IsIndexType_not_vector _ Hidx), Hidx. cbn [when app].
  apply Mod_index_rules_symbolic. exact Hlit.
Qed.

Lemma VisitExpr_Mod_symbolic_divisor_witness :
  VisitExpr table_analyzer 11 (Mod (Mul (ivar "x") (ivar "y")) (ivar "y"))
    (initial_state [])
  = Ok (Mod (Mul (ivar "x") (ivar "y")) (ivar "y"), initial_state []).
Proof.
  apply (@VisitExpr_Mod_symbolic_divisor _ table_analyzer 10
           (Mul (ivar "x") (ivar "y")) (ivar "y") (Mul (ivar "x") (ivar "y")) (ivar "y")
           (initial_state []) (initial_state []) (initial_state [])).
  - vm_compute. reflexivity.
  - vm_compute. reflexivity.
  - vm_compute. reflexivity.
  - intros t c H. discriminate.
Defined.

(** * The reduction-decomposition fix *)

Module ReductionDecompositionFacts.
Import ReductionDecomposition.

Lemma filtered_blocks_filter :
  forall bs,
    filtered_blocks bs (is_init_block bs)
    = filter (fun b => negb (is_init (name_hint b))) bs.
Proof.
  induction bs as [|b bs IH]; [reflexivity|].
  cbn [is_init_block map filtered_blocks filter].
  fold (is_init_block bs). rewrite IH. reflexivity.
Qed.

Lemma init_block_count_filter :
  forall bs,
    (List.length (filter (fun b => negb (is_init (name_hint b))) bs)
     = List.length bs - init_block_count bs)%nat /\
    (init_block_count bs <= List.length bs)%nat.
Proof.
  unfold init_block_count, is_init_block.
  induction bs as [|b bs [IH1 IH2]]; [split; reflexivity|].
  cbn [map filter]. destruct (is_init (name_hint b)); cbn [negb List.length]; lia.
Qed.

Lemma nth_error_skipn_head :
  forall (l : list Z) i,
    (i < List.length l)%nat ->
    exists x, nth_error l i = Some x /\ skipn i l = x :: skipn (S i) l.
Proof.
  induction l as [|a l IH]; intros i Hi; [simpl in Hi; lia|].
  destruct i as [|i].
  - exists a. split; reflexivity.
  - destruct (IH i) as (x & H1 & H2); [simpl in Hi; lia|].
    exists x. split; [exact H1|]. cbn [skipn]. exact H2.
Qed.

Lemma extended_stages_closed :
  forall ss k i,
    ss <> [] ->
    extended_stages ss i k
    = Some (firstn k (skipn i ss)
            ++ repeat (List.last ss 0) (k - (List.length ss - i))).
Proof.
  intros ss. induction k as [|k IH]; intros i Hne; [reflexivity|].
  cbn [extended_stages]. rewrite (IH (S i) Hne).
  destruct (Nat.ltb_spec i (List.length ss)) as [Hi|Hi].
  - destruct (nth_error_skipn_head ss Hi) as (x & H1 & H2).
    rewrite H1, H2. cbn [firstn app].
    replace (S k - (List.length ss - i))%nat
      with (k - (List.length ss - S i))%nat by lia.
    reflexivity.
  - unfold back. destruct ss as [|a ss']; [contradiction|].
    rewrite !skipn_all2 by lia. rewrite !firstn_nil. cbn [app].
    replace (S k - (List.length (a :: ss') - i))%nat with (S k) by lia.
    replace (k - (List.length (a :: ss') - S i))%nat with k by lia.
    reflexivity.
Qed.

Lemma extended_stages_empty :
  forall k i, extended_stages [] i (S k) = None.
Proof. intros k i. reflexivity. Qed.

End ReductionDecompositionFacts.

(** X21: whenever [handle_reduction_decomposition] returns, it returns as
    many annotations as blocks; the one case with no defined result is an
    empty annotation list with at least one block that is not an init
    block, where the last annotation of an empty vector is read. *)
Theorem handle_reduction_decomposition_sizes :
  forall (original_blocks : list ReductionDecomposition.Block) (pipeline_stages : list Z),
    (forall blocks stages,
        ReductionDecomposition.handle_reduction_decomposition
          original_blocks pipeline_stages = Some (blocks, stages) ->
        List.length blocks = List.length stages) /\
    (ReductionDecomposition.handle_reduction_decomposition
       original_blocks pipeline_stages = None <->
     pipeline_stages = [] /\
     exists b, In b original_blocks /\
               ReductionDecomposition.is_init (ReductionDecomposition.name_hint b) = false).
Proof.
  intros bs ss. unfold ReductionDecomposition.handle_reduction_decomposition.
  destruct (ReductionDecompositionFacts.init_block_count_filter bs) as [Hf Hc].
  destruct (Nat.eqb_spec (List.length ss) (List.length bs)) as [E|E]; cbn [negb].
  { split.
    - intros blocks stages H. inversion H; subst. symmetry. exact E.
    - split; [discriminate|]. intros [-> (b & Hb & _)].
      destruct bs; [contradiction|discriminate]. }
  destruct (Nat.eqb_spec (List.length bs - ReductionDecomposition.init_block_count bs)
              (List.length ss)) as [E2|E2].
  { split.
    - intros blocks stages H. inversion H; subst.
      rewrite ReductionDecompositionFacts.filtered_blocks_filter. lia.
    - split; [discriminate|]. intros [-> (b & Hb & Hn)]. exfalso.
      assert (Hin : In b (filter (fun b => negb (ReductionDecomposition.is_init
                                             (ReductionDecomposition.name_hint b))) bs)).
      { apply filter_In. split; [exact Hb|]. rewrite Hn. reflexivity. }
      destruct (filter _ bs); [contradiction|]. simpl in Hf, E2. lia. }
  destruct ss as [|a ss'].
  - destruct bs as [|b bs']; [contradiction|].
    change (List.length (b :: bs')) with (S (List.length bs')) at 1.
    rewrite ReductionDecompositionFacts.extended_stages_empty.
    split; [discriminate|]. split; [|reflexivity]. intros _. split; [reflexivity|].
    destruct (filter (fun b => negb (ReductionDecomposition.is_init
                                       (ReductionDecomposition.name_hint b))) (b :: bs'))
      as [|b0 l] eqn:F; [simpl in Hf, E2; lia|].
    assert (Hin : In b0 (b0 :: l)) by (left; reflexivity).
    rewrite <- F in Hin. apply filter_In in Hin. destruct Hin as [H1 H2].
    exists b0. split; [exact H1|]. apply negb_true_iff. exact H2.
  - rewrite ReductionDecompositionFacts.extended_stages_closed by discriminate.
    split; [|split; [discriminate|intros [H _]; discriminate]].
    intros blocks stages H. inversion H; subst.
    cbn [skipn]. rewrite length_app, repeat_length, length_firstn.
    cbn [List.length]. lia.
Qed.

(** X22: what [handle_reduction_decomposition] returns: the inputs
    themselves when their sizes agree; else, when the blocks that are not
    init blocks are as many as the annotations, those blocks in their order
    with the annotations untouched; else all blocks, with the annotations
    cut to the number of blocks or padded with the last annotation. *)
Theorem handle_reduction_decomposition_result :
  forall (original_blocks : list ReductionDecomposition.Block) (pipeline_stages : list Z),
    let not_init := filter (fun b => negb (ReductionDecomposition.is_init
                                             (ReductionDecomposition.name_hint b)))
                           original_blocks in
    pipeline_stages <> [] ->
    ReductionDecomposition.handle_reduction_decomposition original_blocks pipeline_stages
    = Some (if Nat.eqb (List.length pipeline_stages) (List.length original_blocks)
            then (original_blocks, pipeline_stages)
            else if Nat.eqb (List.length not_init) (List.length pipeline_stages)
            then (not_init, pipeline_stages)
            else (original_blocks,
                  firstn (List.length original_blocks) pipeline_stages
                  ++ repeat (List.last pipeline_stages 0)
                       (List.length original_blocks - List.length pipeline_stages))).
Proof.
  intros bs ss not_init Hne. subst not_init.
  unfold ReductionDecomposition.handle_reduction_decomposition.
  destruct (ReductionDecompositionFacts.init_block_count_filter bs) as [Hf Hc].
  destruct (Nat.eqb (List.length ss) (List.length bs)); cbn [negb]; [reflexivity|].
  rewrite Hf.
  destruct (Nat.eqb (List.length bs - ReductionDecomposition.init_block_count bs)
              (List.length ss)).
  - rewrite ReductionDecompositionFacts.filtered_blocks_filter. reflexivity.
  - rewrite ReductionDecompositionFacts.extended_stages_closed by exact Hne.
    cbn [skipn]. rewrite Nat.sub_0_r. reflexivity.
Qed.

Lemma handle_reduction_decomposition_result_witness :
  ReductionDecomposition.handle_reduction_decomposition
    [ReductionDecomposition.mkBlock "load";
     ReductionDecomposition.mkBlock "conv2d_nchw_init";
     ReductionDecomposition.mkBlock "conv2d_nchw_update";
     ReductionDecomposition.mkBlock "matmul_init";
     ReductionDecomposition.mkBlock "matmul_update";
     ReductionDecomposition.mkBlock "store"]
    [0; 1; 2; 3]
  = Some ([ReductionDecomposition.mkBlock "load";
           ReductionDecomposition.mkBlock "conv2d_nchw_update";
           ReductionDecomposition.mkBlock "matmul_update";
           ReductionDecomposition.mkBlock "store"],
          [0; 1; 2; 3]).
Proof.
  apply (@handle_reduction_decomposition_result
           [ReductionDecomposition.mkBlock "load";
            ReductionDecomposition.mkBlock "conv2d_nchw_init";
            ReductionDecomposition.mkBlock "conv2d_nchw_update";
            ReductionDecomposition.mkBlock "matmul_init";
            ReductionDecomposition.mkBlock "matmul_update";
            ReductionDecomposition.mkBlock "store"]
           [0; 1; 2; 3]).
  discriminate.
Defined.
